From stdpp Require Import gmap list sorting.

(** * StdSTL red-black tree ([src/StdSTL/my_rb_tree/my_rb_tree.h])

    A shallow embedding of [mystl::rb_tree] and of the free functions it is
    built from.  The node graph lives in an explicit store ([heap]): a node
    is a record of three links, a colour bit and a payload, a pointer is an
    optional address, and a C++ reference to a link ([NodePtr&]) is a
    first-class designator of the field it aliases.  Every [while] loop of
    the source is a [Fixpoint] on a fuel argument; the class methods take
    their fuel from the size of the store. *)

(** ** The store *)

Definition addr := positive.

(** [nullptr] is [None]. *)
Definition ptr := option addr.

(** [using rb_tree_color_type = bool], red is [false], black is [true]. *)
Definition rb_tree_color_type := bool.
Definition rb_tree_red : rb_tree_color_type := false.
Definition rb_tree_black : rb_tree_color_type := true.

(** [rb_tree_node_base] together with the [value] member of
    [rb_tree_node]; the header is a bare base node, its payload is absent. *)
Record node (T : Type) := Node {
  parent : ptr;
  left : ptr;
  right : ptr;
  color : rb_tree_color_type;
  value : option T
}.
Arguments Node {T}.
Arguments parent {T}.
Arguments left {T}.
Arguments right {T}.
Arguments color {T}.
Arguments value {T}.

Abbreviation heap T := (gmap addr (node T)).

Definition with_parent {T} (q : ptr) (n : node T) : node T :=
  Node q (left n) (right n) (color n) (value n).
Definition with_left {T} (q : ptr) (n : node T) : node T :=
  Node (parent n) q (right n) (color n) (value n).
Definition with_right {T} (q : ptr) (n : node T) : node T :=
  Node (parent n) (left n) q (color n) (value n).
Definition with_color {T} (c : rb_tree_color_type) (n : node T) : node T :=
  Node (parent n) (left n) (right n) c (value n).
Definition with_value {T} (v : option T) (n : node T) : node T :=
  Node (parent n) (left n) (right n) (color n) v.

(** A reference to a pointer member of a node: [root()], [leftmost()] and
    [rightmost()] are references to the three links of the header. *)
Inductive ref := RParent (p : ptr) | RLeft (p : ptr) | RRight (p : ptr).

Definition color_is (c d : rb_tree_color_type) : bool := bool_decide (c = d).
Definition ptr_eqb (p q : ptr) : bool := bool_decide (p = q).
Definition is_null (p : ptr) : bool := bool_decide (p = None).

(** ** The store monad of the [noexcept] node algorithms

    [None] stands for undefined behaviour (a null or dangling pointer is
    dereferenced) and for an exhausted fuel. *)

Module HeapM.
Section heapm.
Context {T : Type}.

Definition M (A : Type) : Type := heap T → option (A * heap T).

Definition ret {A} (a : A) : M A := λ h, Some (a, h).
Definition bind {A B} (m : M A) (f : A → M B) : M B :=
  λ h, match m h with Some (a, h') => f a h' | None => None end.
Definition fault {A} : M A := λ _, None.

Definition deref (p : ptr) : M (node T) :=
  λ h, match p with
       | Some a => match h !! a with Some n => Some (n, h) | None => None end
       | None => None
       end.

(** A loop of the source runs on at most as many nodes as the store
    holds: every [while] takes its fuel from the size of the store. *)
Definition fuel_of (h : heap T) : nat := S (size h).
Definition with_fuel {A} (f : nat → M A) : M A := λ h, f (fuel_of h) h.

Definition update (p : ptr) (f : node T → node T) : M unit :=
  λ h, match p with
       | Some a => match h !! a with
                   | Some n => Some (tt, <[a := f n]> h)
                   | None => None
                   end
       | None => None
       end.
End heapm.
End HeapM.
Import HeapM.

Declare Scope heapm_scope.
Delimit Scope heapm_scope with heapm.
Notation "'let*' x := m 'in' k" := (bind m (λ x, k))
  (at level 10, x name, m at level 100, k at level 200,
   format "'[v' 'let*'  x  :=  m  'in'  '/' k ']'") : heapm_scope.
Open Scope heapm_scope.

Section node_algorithms.
Context {T : Type}.
Local Abbreviation M := (@M T).

Definition get_parent (p : ptr) : M ptr := let* n := deref p in ret (parent n).
Definition get_left (p : ptr) : M ptr := let* n := deref p in ret (left n).
Definition get_right (p : ptr) : M ptr := let* n := deref p in ret (right n).
Definition get_color (p : ptr) : M bool := let* n := deref p in ret (color n).
(** [node->get_node_ptr()->value]: reading the payload of the header is
    undefined. *)
Definition get_value (p : ptr) : M T :=
  let* n := deref p in match value n with Some v => ret v | None => fault end.

Definition set_parent (p q : ptr) : M unit := update p (with_parent q).
Definition set_left (p q : ptr) : M unit := update p (with_left q).
Definition set_right (p q : ptr) : M unit := update p (with_right q).
Definition set_color (p : ptr) (c : bool) : M unit := update p (with_color c).

Definition read (r : ref) : M ptr :=
  match r with
  | RParent p => get_parent p
  | RLeft p => get_left p
  | RRight p => get_right p
  end.
Definition write (r : ref) (q : ptr) : M unit :=
  match r with
  | RParent p => set_parent p q
  | RLeft p => set_left p q
  | RRight p => set_right p q
  end.

(** [rb_tree_min]: [while (x->left != nullptr) x = x->left;] *)
Fixpoint rb_tree_min_loop (fuel : nat) (x : ptr) : M ptr :=
  match fuel with
  | O => fault
  | S fuel =>
      let* l := get_left x in
      if is_null l then ret x else rb_tree_min_loop fuel l
  end.
Definition rb_tree_min (x : ptr) : M ptr :=
  with_fuel (λ fuel, rb_tree_min_loop fuel x).

(** [rb_tree_max]: [while (x->right != nullptr) x = x->right;] *)
Fixpoint rb_tree_max_loop (fuel : nat) (x : ptr) : M ptr :=
  match fuel with
  | O => fault
  | S fuel =>
      let* r := get_right x in
      if is_null r then ret x else rb_tree_max_loop fuel r
  end.
Definition rb_tree_max (x : ptr) : M ptr :=
  with_fuel (λ fuel, rb_tree_max_loop fuel x).

(** [rb_tree_is_lchild]: [node == node->parent->left] *)
Definition rb_tree_is_lchild (x : ptr) : M bool :=
  let* p := get_parent x in let* l := get_left p in ret (ptr_eqb x l).

(** [rb_tree_is_red]: [node != nullptr && node->color == rb_tree_red] *)
Definition rb_tree_is_red (x : ptr) : M bool :=
  if is_null x then ret false
  else let* c := get_color x in ret (color_is c rb_tree_red).

Definition rb_tree_set_black (x : ptr) : M unit :=
  if is_null x then ret tt else set_color x rb_tree_black.

Definition rb_tree_set_red (x : ptr) : M unit :=
  if is_null x then ret tt else set_color x rb_tree_red.

(** The climbing loop of [rb_tree_next]:
    [while (!rb_tree_is_lchild(node)) node = node->parent;] *)
Fixpoint rb_tree_next_climb (fuel : nat) (x : ptr) : M ptr :=
  match fuel with
  | O => fault
  | S fuel =>
      let* lc := rb_tree_is_lchild x in
      if lc then ret x
      else (let* p := get_parent x in rb_tree_next_climb fuel p)
  end.

Definition rb_tree_next (x : ptr) : M ptr :=
  let* r := get_right x in
  if negb (is_null r) then rb_tree_min r
  else (let* n := with_fuel (λ fuel, rb_tree_next_climb fuel x) in
        get_parent n).

(** The tail shared by both rotations and by the unlinking code of
    [rb_tree_erase_rebalance]:
    [if (x == root) root = y;
     else if (rb_tree_is_lchild(x)) x->parent->left = y;
     else x->parent->right = y;] *)
Definition replace_in_parent (x y : ptr) (root : ref) : M unit :=
  let* r := read root in
  if ptr_eqb x r then write root y
  else
    let* lc := rb_tree_is_lchild x in
    let* p := get_parent x in
    if lc then set_left p y else set_right p y.

Definition rb_tree_rotate_left (x : ptr) (root : ref) : M unit :=
  let* y := get_right x in
  let* yl := get_left y in
  let* _ := set_right x yl in
  let* yl := get_left y in
  let* _ := (if negb (is_null yl) then set_parent yl x else ret tt) in
  let* xp := get_parent x in
  let* _ := set_parent y xp in
  let* _ := replace_in_parent x y root in
  let* _ := set_left y x in
  set_parent x y.

Definition rb_tree_rotate_right (x : ptr) (root : ref) : M unit :=
  let* y := get_left x in
  let* yr := get_right y in
  let* _ := set_left x yr in
  let* yr := get_right y in
  let* _ := (if negb (is_null yr) then set_parent yr x else ret tt) in
  let* xp := get_parent x in
  let* _ := set_parent y xp in
  let* _ := replace_in_parent x y root in
  let* _ := set_right y x in
  set_parent x y.

(** [x->parent->parent] *)
Definition get_grandparent (x : ptr) : M ptr :=
  let* p := get_parent x in get_parent p.

(** The [while] loop of [rb_tree_insert_rebalance]. *)
Fixpoint insert_rebalance_loop (fuel : nat) (x : ptr) (root : ref) : M unit :=
  match fuel with
  | O => fault
  | S fuel =>
      let* r := read root in
      if ptr_eqb x r then ret tt
      else
        let* xp := get_parent x in
        let* pred := rb_tree_is_red xp in
        if negb pred then ret tt
        else
          let* xp := get_parent x in
          let* plc := rb_tree_is_lchild xp in
          if plc then
            let* xpp := get_grandparent x in
            let* uncle := get_right xpp in
            let* ured := (if negb (is_null uncle) then rb_tree_is_red uncle
                          else ret false) in
            if ured then
              let* xp := get_parent x in
              let* _ := rb_tree_set_black xp in
              let* _ := rb_tree_set_black uncle in
              let* xpp := get_grandparent x in
              let* _ := rb_tree_set_red xpp in
              let* xpp := get_grandparent x in
              insert_rebalance_loop fuel xpp root
            else
              let* xlc := rb_tree_is_lchild x in
              let* x := (if negb xlc then
                           let* xp := get_parent x in
                           let* _ := rb_tree_rotate_left xp root in
                           ret xp
                         else ret x) in
              let* xp := get_parent x in
              let* _ := rb_tree_set_black xp in
              let* xpp := get_grandparent x in
              let* _ := rb_tree_set_red xpp in
              let* xpp := get_grandparent x in
              rb_tree_rotate_right xpp root
          else
            let* xpp := get_grandparent x in
            let* uncle := get_left xpp in
            let* ured := (if negb (is_null uncle) then rb_tree_is_red uncle
                          else ret false) in
            if ured then
              let* xp := get_parent x in
              let* _ := rb_tree_set_black xp in
              let* _ := rb_tree_set_black uncle in
              let* xpp := get_grandparent x in
              let* _ := rb_tree_set_red xpp in
              let* xpp := get_grandparent x in
              insert_rebalance_loop fuel xpp root
            else
              let* xlc := rb_tree_is_lchild x in
              let* x := (if xlc then
                           let* xp := get_parent x in
                           let* _ := rb_tree_rotate_right xp root in
                           ret xp
                         else ret x) in
              let* xp := get_parent x in
              let* _ := rb_tree_set_black xp in
              let* xpp := get_grandparent x in
              let* _ := rb_tree_set_red xpp in
              let* xpp := get_grandparent x in
              rb_tree_rotate_left xpp root
  end.

Definition rb_tree_insert_rebalance (x : ptr) (root : ref) : M unit :=
  let* _ := rb_tree_set_red x in
  let* _ := with_fuel (λ fuel, insert_rebalance_loop fuel x root) in
  let* r := read root in
  rb_tree_set_black r.
End node_algorithms.

Section erase_rebalance.
Context {T : Type}.
Local Abbreviation M := (@M T).

(** [p == nullptr || !rb_tree_is_red(p)] *)
Definition null_or_not_red (p : ptr) : M bool :=
  if is_null p then ret true
  else (let* r := rb_tree_is_red p in ret (negb r)).

(** The [while] loop of [rb_tree_erase_rebalance]; the result is the
    final value of [x]. *)
Fixpoint erase_rebalance_loop (fuel : nat) (x xp : ptr) (root : ref) : M ptr :=
  match fuel with
  | O => fault
  | S fuel =>
      let* r := read root in
      if ptr_eqb x r then ret x
      else
        let* xblack := null_or_not_red x in
        if negb xblack then ret x
        else
          let* xpl := get_left xp in
          if ptr_eqb x xpl then
            let* brother := get_right xp in
            let* bred := rb_tree_is_red brother in
            let* brother :=
              (if bred then
                 let* _ := rb_tree_set_black brother in
                 let* _ := rb_tree_set_red xp in
                 let* _ := rb_tree_rotate_left xp root in
                 get_right xp
               else ret brother) in
            let* bl := get_left brother in
            let* lblack := null_or_not_red bl in
            let* both :=
              (if lblack then
                 let* br := get_right brother in null_or_not_red br
               else ret false) in
            if both then
              let* _ := rb_tree_set_red brother in
              let* xpp := get_parent xp in
              erase_rebalance_loop fuel xp xpp root
            else
              let* br := get_right brother in
              let* rblack := null_or_not_red br in
              let* brother :=
                (if rblack then
                   let* bl := get_left brother in
                   let* _ := (if negb (is_null bl) then rb_tree_set_black bl
                              else ret tt) in
                   let* _ := rb_tree_set_red brother in
                   let* _ := rb_tree_rotate_right brother root in
                   get_right xp
                 else ret brother) in
              let* c := get_color xp in
              let* _ := set_color brother c in
              let* _ := rb_tree_set_black xp in
              let* br := get_right brother in
              let* _ := (if negb (is_null br) then rb_tree_set_black br
                         else ret tt) in
              let* _ := rb_tree_rotate_left xp root in
              ret x
          else
            let* brother := get_left xp in
            let* bred := rb_tree_is_red brother in
            let* brother :=
              (if bred then
                 let* _ := rb_tree_set_black brother in
                 let* _ := rb_tree_set_red xp in
                 let* _ := rb_tree_rotate_right xp root in
                 get_left xp
               else ret brother) in
            let* bl := get_left brother in
            let* lblack := null_or_not_red bl in
            let* both :=
              (if lblack then
                 let* br := get_right brother in null_or_not_red br
               else ret false) in
            if both then
              let* _ := rb_tree_set_red brother in
              let* xpp := get_parent xp in
              erase_rebalance_loop fuel xp xpp root
            else
              let* bl := get_left brother in
              let* lblack := null_or_not_red bl in
              let* brother :=
                (if lblack then
                   let* br := get_right brother in
                   let* _ := (if negb (is_null br) then rb_tree_set_black br
                              else ret tt) in
                   let* _ := rb_tree_set_red brother in
                   let* _ := rb_tree_rotate_left brother root in
                   get_left xp
                 else ret brother) in
              let* c := get_color xp in
              let* _ := set_color brother c in
              let* _ := rb_tree_set_black xp in
              let* bl := get_left brother in
              let* _ := (if negb (is_null bl) then rb_tree_set_black bl
                         else ret tt) in
              let* _ := rb_tree_rotate_right xp root in
              ret x
  end.

(** The branch [y != z] of [rb_tree_erase_rebalance]: [z] has two
    children and its successor [y] is moved into its place.  The result
    is [xp]. *)
Definition erase_relink_successor (z y x : ptr) (root : ref) : M ptr :=
  let* zl := get_left z in
  let* _ := set_parent zl y in
  let* zl := get_left z in
  let* _ := set_left y zl in
  let* zr := get_right z in
  let* xp :=
    (if negb (ptr_eqb y zr) then
       let* xp := get_parent y in
       let* _ := (if negb (is_null x) then
                    let* yp := get_parent y in set_parent x yp
                  else ret tt) in
       let* yp := get_parent y in
       let* _ := set_left yp x in
       let* zr := get_right z in
       let* _ := set_right y zr in
       let* zr := get_right z in
       let* _ := set_parent zr y in
       ret xp
     else ret y) in
  let* _ := replace_in_parent z y root in
  let* zp := get_parent z in
  let* _ := set_parent y zp in
  let* cy := get_color y in
  let* cz := get_color z in
  let* _ := set_color y cz in
  let* _ := set_color z cy in
  ret xp.

(** The branch [y == z]: [z] has at most one child [x], which takes its
    place; the caches of the extreme nodes follow.  The result is [xp]. *)
Definition erase_unlink_single (z y x : ptr)
    (root leftmost rightmost : ref) : M ptr :=
  let* xp := get_parent y in
  let* _ := (if negb (is_null x) then
               let* yp := get_parent y in set_parent x yp
             else ret tt) in
  let* _ := replace_in_parent z x root in
  let* lm := read leftmost in
  let* _ := (if ptr_eqb lm z then
               let* m := (if is_null x then ret xp else rb_tree_min x) in
               write leftmost m
             else ret tt) in
  let* rm := read rightmost in
  let* _ := (if ptr_eqb rm z then
               let* m := (if is_null x then ret xp else rb_tree_max x) in
               write rightmost m
             else ret tt) in
  ret xp.

Definition rb_tree_erase_rebalance (z : ptr)
    (root leftmost rightmost : ref) : M ptr :=
  let* zl := get_left z in
  let* zr := get_right z in
  let* y := (if is_null zl || is_null zr then ret z
             else rb_tree_next z) in
  let* yl := get_left y in
  let* x := (if negb (is_null yl) then ret yl else get_right y) in
  let* yxp :=
    (if negb (ptr_eqb y z) then
       let* xp := erase_relink_successor z y x root in
       ret (z, xp)
     else
       let* xp := erase_unlink_single z y x root leftmost rightmost in
       ret (y, xp)) in
  let y := yxp.1 in
  let xp := yxp.2 in
  let* yred := rb_tree_is_red y in
  let* _ :=
    (if negb yred then
       let* x := with_fuel (λ fuel, erase_rebalance_loop fuel x xp root) in
       if negb (is_null x) then rb_tree_set_black x else ret tt
     else ret tt) in
  ret y.

(** [rb_tree_iterator_base::inc] on the iterator's [node]. *)
Fixpoint inc_climb (fuel : nat) (node y : ptr) : M (ptr * ptr) :=
  match fuel with
  | O => fault
  | S fuel =>
      let* yr := get_right y in
      if ptr_eqb node yr then
        (let* yp := get_parent y in inc_climb fuel y yp)
      else ret (node, y)
  end.

Definition inc (node : ptr) : M ptr :=
  let* r := get_right node in
  if negb (is_null r) then rb_tree_min r
  else
    let* y := get_parent node in
    let* ny := with_fuel (λ fuel, inc_climb fuel node y) in
    let* nr := get_right ny.1 in
    if negb (ptr_eqb nr ny.2) then ret ny.2 else ret ny.1.

(** [rb_tree_iterator_base::dec]. *)
Fixpoint dec_climb (fuel : nat) (node y : ptr) : M ptr :=
  match fuel with
  | O => fault
  | S fuel =>
      let* yl := get_left y in
      if ptr_eqb node yl then
        (let* yp := get_parent y in dec_climb fuel y yp)
      else ret y
  end.

Definition dec (node : ptr) : M ptr :=
  let* pp := get_grandparent node in
  let* c := get_color node in
  if ptr_eqb pp node && color_is c rb_tree_red then get_right node
  else
    let* l := get_left node in
    if negb (is_null l) then rb_tree_max l
    else
      let* y := get_parent node in
      with_fuel (λ fuel, dec_climb fuel node y).
End erase_rebalance.

(** ** The container *)

(** The data members [header_] and [node_count_]; the comparator
    [key_comp_] is a parameter of the development. *)
Record rb_tree := RbTree {
  header_ : ptr;
  node_count_ : Z
}.

Record state (T : Type) := State {
  this : rb_tree;
  mem : heap T
}.
Arguments State {T}.
Arguments this {T}.
Arguments mem {T}.

(** What a member function can throw. *)
Inductive exn := length_error | bad_alloc | ctor_exception.

Inductive result (T A : Type) :=
  | Ok (a : A) (s : state T)
  | Throw (e : exn) (s : state T)
  | Fault.
Arguments Ok {T A}.
Arguments Throw {T A}.
Arguments Fault {T A}.

(** What a call of a function that is declared [noexcept] comes to: it
    returns, or an exception would leave it and [std::terminate] ends the
    program, so that nothing is thrown to the caller. *)
Inductive noexcept_result (T A : Type) :=
  | Returns (a : A) (s : state T)
  | Terminates
  | Undefined.
Arguments Returns {T A}.
Arguments Terminates {T A}.
Arguments Undefined {T A}.

Module TreeM.
Section treem.
Context {T : Type}.

Definition R (A : Type) : Type := state T → result T A.

Definition rret {A} (a : A) : R A := λ s, Ok a s.
Definition rbind {A B} (m : R A) (f : A → R B) : R B :=
  λ s, match m s with
       | Ok a s' => f a s'
       | Throw e s' => Throw e s'
       | Fault => Fault
       end.
Definition throw {A} (e : exn) : R A := λ s, Throw e s.

(** Run a node algorithm on the store. *)
Definition lift {A} (m : M A) : R A :=
  λ s, match m (mem s) with
       | Some (a, h) => Ok a (State (this s) h)
       | None => Fault
       end.

Definition get_this : R rb_tree := λ s, Ok (this s) s.
Definition set_this (t : rb_tree) : R unit := λ s, Ok tt (State t (mem s)).
Definition get_mem : R (heap T) := λ s, Ok (mem s) s.
Definition set_mem (h : heap T) : R unit := λ s, Ok tt (State (this s) h).

(** [try { body } catch (...) { handler; throw; }] *)
Definition try_catch_rethrow {A} (body : R A) (handler : R unit) : R A :=
  λ s, match body s with
       | Throw e s' =>
           match handler s' with
           | Ok _ s'' => Throw e s''
           | r => match r with Throw e' s'' => Throw e' s'' | _ => Fault end
           end
       | r => r
       end.

(** The body of a function that is declared [noexcept]. *)
Definition noexcept {A} (body : R A) : state T → noexcept_result T A :=
  λ s, match body s with
       | Ok a s' => Returns a s'
       | Throw _ _ => Terminates
       | Fault => Undefined
       end.
End treem.
End TreeM.
Import TreeM.

Notation "'let+' x := m 'in' k" := (rbind m (λ x, k))
  (at level 10, x name, m at level 100, k at level 200,
   format "'[v' 'let+'  x  :=  m  'in'  '/' k ']'") : heapm_scope.

Section rb_tree.
Context {T K : Type}.
(** [value_traits::get_key]: the identity for a set, [first] for a map. *)
Variable get_key : T → K.
(** [key_comp_]. *)
Variable key_comp : K → K → bool.
(** The width of [size_type]. *)
Variable size_bits : Z.
(** Whether [node_allocator().allocate(1)] fails on a store, and whether
    constructing a payload from the given value throws. *)
Variable alloc_fails : heap T → bool.
Variable ctor_throws : T → bool.

Local Abbreviation M := (@M T).
Local Abbreviation R := (@R T).

Local Open Scope Z_scope.

Definition root (t : rb_tree) : ref := RParent (header_ t).
Definition leftmost (t : rb_tree) : ref := RLeft (header_ t).
Definition rightmost (t : rb_tree) : ref := RRight (header_ t).

(** An iterator is its [node] member. *)
Definition begin (t : rb_tree) : M ptr := read (leftmost t).
Definition end_ (t : rb_tree) : ptr := header_ t.

Definition size (t : rb_tree) : Z := node_count_ t.
Definition empty (t : rb_tree) : bool := bool_decide (node_count_ t = 0).
(** [static_cast<size_type>(-1)] *)
Definition max_size : Z := (-1) `mod` 2 ^ size_bits.

Definition incr_node_count : R unit :=
  let+ t := get_this in
  set_this (RbTree (header_ t) ((node_count_ t + 1) `mod` 2 ^ size_bits)).
Definition decr_node_count : R unit :=
  let+ t := get_this in
  set_this (RbTree (header_ t) ((node_count_ t - 1) `mod` 2 ^ size_bits)).

(** Storage as the allocator hands it out; the colour of a fresh node is
    not initialised by [create_node], the model fixes it to black so that
    the later [rb_tree_set_red] is what makes a new node red. *)
Definition raw_node : node T := Node None None None rb_tree_black None.

Definition allocate : R ptr :=
  let+ h := get_mem in
  if alloc_fails h then throw bad_alloc
  else
    let a := fresh (dom h) in
    let+ _ := set_mem (<[a := raw_node]> h) in
    rret (Some a).

Definition deallocate (p : ptr) : R unit :=
  let+ h := get_mem in
  match p with
  | Some a => if bool_decide (is_Some (h !! a)) then set_mem (delete a h)
              else (λ _, Fault)
  | None => λ _, Fault
  end.

(** Placement construction of the payload. *)
Definition construct (p : ptr) (v : T) : R unit :=
  if ctor_throws v then throw ctor_exception
  else lift (update p (with_value (Some v))).

Definition create_node (v : T) : R ptr :=
  let+ tmp := allocate in
  let+ _ := try_catch_rethrow
              (let+ _ := construct tmp v in
               let+ _ := lift (set_left tmp None) in
               let+ _ := lift (set_right tmp None) in
               lift (set_parent tmp None))
              (deallocate tmp) in
  rret tmp.

Definition destroy_node (p : ptr) : R unit := deallocate p.

(** The constructor: [rb_tree() { rb_tree_init(); }] builds the object
    on a store. *)
Definition rb_tree_init : R unit :=
  let+ hd := allocate in
  let+ t := get_this in
  let+ _ := set_this (RbTree hd (node_count_ t)) in
  let+ _ := lift (set_color hd rb_tree_red) in
  let+ _ := lift (write (RParent hd) None) in
  let+ _ := lift (write (RLeft hd) hd) in
  let+ _ := lift (write (RRight hd) hd) in
  set_this (RbTree hd 0).

(** The descent shared by [find] and [lower_bound]. *)
Fixpoint lower_bound_loop (fuel : nat) (key : K) (x y : ptr) : M ptr :=
  match fuel with
  | O%nat => fault
  | S fuel =>
      if is_null x then ret y
      else
        let* v := get_value x in
        if negb (key_comp (get_key v) key) then
          (let* l := get_left x in lower_bound_loop fuel key l x)
        else
          (let* r := get_right x in lower_bound_loop fuel key r y)
  end.

Fixpoint upper_bound_loop (fuel : nat) (key : K) (x y : ptr) : M ptr :=
  match fuel with
  | O%nat => fault
  | S fuel =>
      if is_null x then ret y
      else
        let* v := get_value x in
        if key_comp key (get_key v) then
          (let* l := get_left x in upper_bound_loop fuel key l x)
        else
          (let* r := get_right x in upper_bound_loop fuel key r y)
  end.

Definition lower_bound (t : rb_tree) (key : K) : M ptr :=
  let* x := read (root t) in
  with_fuel (λ fuel, lower_bound_loop fuel key x (header_ t)).

Definition upper_bound (t : rb_tree) (key : K) : M ptr :=
  let* x := read (root t) in
  with_fuel (λ fuel, upper_bound_loop fuel key x (header_ t)).

Definition find (t : rb_tree) (key : K) : M ptr :=
  let* x := read (root t) in
  let* j := with_fuel (λ fuel, lower_bound_loop fuel key x (header_ t)) in
  if ptr_eqb j (end_ t) then ret (end_ t)
  else
    let* v := get_value j in
    if key_comp key (get_key v) then ret (end_ t) else ret j.

Definition equal_range_multi (t : rb_tree) (key : K) : M (ptr * ptr) :=
  let* lo := lower_bound t key in
  let* hi := upper_bound t key in
  ret (lo, hi).

Definition equal_range_unique (t : rb_tree) (key : K) : M (ptr * ptr) :=
  let* it := find t key in
  if ptr_eqb it (end_ t) then ret (it, it)
  else (let* next := inc it in ret (it, next)).

(** [std::distance(first, last)] on tree iterators. *)
Fixpoint distance (fuel : nat) (first last : ptr) : M Z :=
  match fuel with
  | O%nat => fault
  | S fuel =>
      if ptr_eqb first last then ret 0
      else
        let* next := inc first in
        let* n := distance fuel next last in
        ret (n + 1)
  end.

Definition count_multi (t : rb_tree) (key : K) : M Z :=
  let* p := equal_range_multi t key in
  let* n := with_fuel (λ fuel, distance fuel p.1 p.2) in
  ret (n `mod` 2 ^ size_bits).

Definition count_unique (t : rb_tree) (key : K) : M Z :=
  let* it := find t key in
  ret (if ptr_eqb it (end_ t) then 0 else 1).

(** The descent of [get_insert_multi_pos] and [get_insert_unique_pos]. *)
Fixpoint insert_pos_loop (fuel : nat) (key : K) (x y : ptr) (add_to_left : bool)
    : M (ptr * bool) :=
  match fuel with
  | O%nat => fault
  | S fuel =>
      if is_null x then ret (y, add_to_left)
      else
        let* v := get_value x in
        let add_to_left := key_comp key (get_key v) in
        let* c := (if add_to_left then get_left x else get_right x) in
        insert_pos_loop fuel key c x add_to_left
  end.

Definition get_insert_multi_pos (t : rb_tree) (key : K) : M (ptr * bool) :=
  let* x := read (root t) in
  with_fuel (λ fuel, insert_pos_loop fuel key x (header_ t) true).

Definition get_insert_unique_pos (t : rb_tree) (key : K)
    : M ((ptr * bool) * bool) :=
  let* x := read (root t) in
  let* ya := with_fuel (λ fuel, insert_pos_loop fuel key x (header_ t) true) in
  let y := ya.1 in
  let add_to_left := ya.2 in
  let* b := begin t in
  if add_to_left && (ptr_eqb y (header_ t) || ptr_eqb y b) then
    ret ((y, true), true)
  else
    let* j := (if add_to_left then dec y else ret y) in
    let* v := get_value j in
    if key_comp (get_key v) key then ret ((y, add_to_left), true)
    else ret ((y, add_to_left), false).

Definition insert_node_at (x node : ptr) (add_to_left : bool) : R ptr :=
  let+ t := get_this in
  let+ _ := lift (
    let* _ := set_parent node x in
    let* _ :=
      (if ptr_eqb x (header_ t) then
         let* _ := write (root t) node in
         let* _ := write (leftmost t) node in
         write (rightmost t) node
       else if add_to_left then
         let* _ := set_left x node in
         let* lm := read (leftmost t) in
         if ptr_eqb lm x then write (leftmost t) node else ret tt
       else
         let* _ := set_right x node in
         let* rm := read (rightmost t) in
         if ptr_eqb rm x then write (rightmost t) node else ret tt) in
    rb_tree_insert_rebalance node (root t)) in
  let+ _ := incr_node_count in
  rret node.

Definition insert_value_at (x : ptr) (v : T) (add_to_left : bool) : R ptr :=
  let+ node := create_node v in
  insert_node_at x node add_to_left.

(** [if (node_count_ > max_size() - 1) throw std::length_error(...)] *)
Definition check_capacity : R unit :=
  let+ t := get_this in
  if bool_decide (node_count_ t > (max_size - 1) `mod` 2 ^ size_bits)
  then throw length_error else rret tt.

Definition emplace_multi (v : T) : R ptr :=
  let+ _ := check_capacity in
  let+ np := create_node v in
  let+ t := get_this in
  let+ k := lift (get_value np) in
  let+ res := lift (get_insert_multi_pos t (get_key k)) in
  insert_node_at res.1 np res.2.

Definition emplace_unique (v : T) : R (ptr * bool) :=
  let+ _ := check_capacity in
  let+ np := create_node v in
  let+ t := get_this in
  let+ k := lift (get_value np) in
  let+ res := lift (get_insert_unique_pos t (get_key k)) in
  if res.2 then
    let+ it := insert_node_at res.1.1 np res.1.2 in
    rret (it, true)
  else
    let+ _ := destroy_node np in
    rret (res.1.1, false).

Definition insert_multi (v : T) : R ptr :=
  let+ _ := check_capacity in
  let+ t := get_this in
  let+ res := lift (get_insert_multi_pos t (get_key v)) in
  insert_value_at res.1 v res.2.

Definition insert_unique (v : T) : R (ptr * bool) :=
  let+ _ := check_capacity in
  let+ t := get_this in
  let+ res := lift (get_insert_unique_pos t (get_key v)) in
  if res.2 then
    let+ it := insert_value_at res.1.1 v res.1.2 in
    rret (it, true)
  else rret (res.1.1, false).

(** [insert_multi(value_type&& value)]:
    [return emplace_multi(std::move(value));] *)
Definition insert_multi_move (v : T) : R ptr := emplace_multi v.

Definition insert_multi_use_hint (hint : ptr) (key : K) (node : ptr) : R ptr :=
  let+ t := get_this in
  let np := hint in
  let+ bnp := lift (dec hint) in
  let+ bv := lift (get_value bnp) in
  let+ fits :=
    (if negb (key_comp key (get_key bv)) then
       let+ hv := lift (get_value hint) in
       rret (negb (key_comp (get_key hv) key))
     else rret false) in
  let+ bnpr := lift (get_right bnp) in
  let+ npl := lift (get_left np) in
  if fits && is_null bnpr then insert_node_at bnp node false
  else if fits && is_null npl then insert_node_at np node true
  else
    let+ pos := lift (get_insert_multi_pos t key) in
    insert_node_at pos.1 node pos.2.

Definition insert_unique_use_hint (hint : ptr) (key : K) (node : ptr) : R ptr :=
  let+ t := get_this in
  let np := hint in
  let+ bnp := lift (dec hint) in
  let+ bv := lift (get_value bnp) in
  let+ fits :=
    (if key_comp (get_key bv) key then
       let+ hv := lift (get_value hint) in
       rret (key_comp key (get_key hv))
     else rret false) in
  let+ bnpr := lift (get_right bnp) in
  let+ npl := lift (get_left np) in
  if fits && is_null bnpr then insert_node_at bnp node false
  else if fits && is_null npl then insert_node_at np node true
  else
    let+ pos := lift (get_insert_unique_pos t key) in
    if negb pos.2 then
      let+ _ := destroy_node node in
      rret pos.1.1
    else insert_node_at pos.1.1 node pos.1.2.

Definition emplace_multi_use_hint (hint : ptr) (v : T) : R ptr :=
  let+ _ := check_capacity in
  let+ np := create_node v in
  let+ t := get_this in
  if bool_decide (node_count_ t = 0) then insert_node_at (header_ t) np true
  else
    let+ key := lift (let* k := get_value np in ret (get_key k)) in
    let+ b := lift (begin t) in
    if ptr_eqb hint b then
      let+ hv := lift (get_value hint) in
      if key_comp key (get_key hv) then insert_node_at hint np true
      else
        let+ pos := lift (get_insert_multi_pos t key) in
        insert_node_at pos.1 np pos.2
    else if ptr_eqb hint (end_ t) then
      let+ rm := lift (read (rightmost t)) in
      let+ rv := lift (get_value rm) in
      if negb (key_comp key (get_key rv)) then insert_node_at rm np false
      else
        let+ pos := lift (get_insert_multi_pos t key) in
        insert_node_at pos.1 np pos.2
    else insert_multi_use_hint hint key np.

Definition emplace_unique_use_hint (hint : ptr) (v : T) : R ptr :=
  let+ _ := check_capacity in
  let+ np := create_node v in
  let+ t := get_this in
  if bool_decide (node_count_ t = 0) then insert_node_at (header_ t) np true
  else
    let+ key := lift (let* k := get_value np in ret (get_key k)) in
    let+ b := lift (begin t) in
    if ptr_eqb hint b then
      let+ hv := lift (get_value hint) in
      if key_comp key (get_key hv) then insert_node_at hint np true
      else
        let+ pos := lift (get_insert_unique_pos t key) in
        if negb pos.2 then
          let+ _ := destroy_node np in
          rret pos.1.1
        else insert_node_at pos.1.1 np pos.1.2
    else if ptr_eqb hint (end_ t) then
      let+ rm := lift (read (rightmost t)) in
      let+ rv := lift (get_value rm) in
      if key_comp (get_key rv) key then insert_node_at rm np false
      else
        let+ pos := lift (get_insert_unique_pos t key) in
        if negb pos.2 then
          let+ _ := destroy_node np in
          rret pos.1.1
        else insert_node_at pos.1.1 np pos.1.2
    else insert_unique_use_hint hint key np.

(** [insert_multi(iterator hint, const value_type&)] and
    [insert_unique(iterator hint, const value_type&)]. *)
Definition insert_multi_hint (hint : ptr) (v : T) : R ptr :=
  emplace_multi_use_hint hint v.
Definition insert_unique_hint (hint : ptr) (v : T) : R ptr :=
  emplace_unique_use_hint hint v.

(** [erase(iterator hint)] *)
Definition erase (hint : ptr) : R ptr :=
  let+ t := get_this in
  let node := hint in
  let+ next := lift (inc node) in
  let+ _ := lift (rb_tree_erase_rebalance hint (root t) (leftmost t)
                    (rightmost t)) in
  let+ _ := destroy_node node in
  let+ _ := decr_node_count in
  rret next.

(** [erase_since]: the recursion on the right subtree and the loop down
    the left spine both draw on the fuel. *)
Fixpoint erase_since (fuel : nat) (x : ptr) : R unit :=
  match fuel with
  | O%nat => λ _, Fault
  | S fuel =>
      if is_null x then rret tt
      else
        let+ r := lift (get_right x) in
        let+ _ := erase_since fuel r in
        let+ y := lift (get_left x) in
        let+ _ := destroy_node x in
        erase_since fuel y
  end.

Definition clear : R unit :=
  let+ t := get_this in
  if negb (bool_decide (node_count_ t = 0)) then
    let+ r := lift (read (root t)) in
    let+ h := get_mem in
    let+ _ := erase_since (fuel_of h) r in
    let+ _ := lift (write (leftmost t) (header_ t)) in
    let+ _ := lift (write (root t) None) in
    let+ _ := lift (write (rightmost t) (header_ t)) in
    set_this (RbTree (header_ t) 0)
  else rret tt.

(** The loop of [erase(iterator first, iterator last)]:
    [while (first != last) erase(first++);] *)
Fixpoint erase_range_loop (fuel : nat) (first last : ptr) : R unit :=
  match fuel with
  | O%nat => λ _, Fault
  | S fuel =>
      if negb (ptr_eqb first last) then
        let+ next := lift (inc first) in
        let+ _ := erase first in
        erase_range_loop fuel next last
      else rret tt
  end.

Definition erase_range (first last : ptr) : R unit :=
  let+ t := get_this in
  let+ b := lift (begin t) in
  if ptr_eqb first b && ptr_eqb last (end_ t) then clear
  else
    let+ h := get_mem in
    erase_range_loop (fuel_of h) first last.

Definition erase_multi (key : K) : R Z :=
  let+ t := get_this in
  let+ p := lift (equal_range_multi t key) in
  let+ n := lift (with_fuel (λ fuel, distance fuel p.1 p.2)) in
  let+ _ := erase_range p.1 p.2 in
  rret (n `mod` 2 ^ size_bits).

Definition erase_unique (key : K) : R Z :=
  let+ t := get_this in
  let+ it := lift (find t key) in
  if negb (ptr_eqb it (end_ t)) then
    let+ _ := erase it in
    rret 1
  else rret 0.

(** [insert_multi(InputIterator first, InputIterator last)] and
    [insert_unique(InputIterator first, InputIterator last)], on the
    values of the range:
    [size_type n = static_cast<size_type>(std::distance(first, last));
     if (node_count_ > max_size() - n) throw std::length_error(...);
     for (; n > 0; --n, ++first) insert_multi(end(), *first);] *)
Fixpoint insert_multi_loop (xs : list T) : R unit :=
  match xs with
  | [] => rret tt
  | x :: xs =>
      let+ t := get_this in
      let+ _ := insert_multi_hint (end_ t) x in
      insert_multi_loop xs
  end.

Definition insert_multi_range (xs : list T) : R unit :=
  let n := Z.of_nat (length xs) `mod` 2 ^ size_bits in
  let+ t := get_this in
  if bool_decide (node_count_ t > (max_size - n) `mod` 2 ^ size_bits)
  then throw length_error
  else insert_multi_loop (take (Z.to_nat n) xs).

Fixpoint insert_unique_loop (xs : list T) : R unit :=
  match xs with
  | [] => rret tt
  | x :: xs =>
      let+ t := get_this in
      let+ _ := insert_unique_hint (end_ t) x in
      insert_unique_loop xs
  end.

Definition insert_unique_range (xs : list T) : R unit :=
  let n := Z.of_nat (length xs) `mod` 2 ^ size_bits in
  let+ t := get_this in
  if bool_decide (node_count_ t > (max_size - n) `mod` 2 ^ size_bits)
  then throw length_error
  else insert_unique_loop (take (Z.to_nat n) xs).

(** The destructor: [~rb_tree() { clear(); }] *)
Definition rb_tree_dtor : R unit := clear.

(** [reset()]: [rb_tree_init();] *)
Definition reset : R unit := rb_tree_init.

(** The move constructor, run on the object [rhs] that it moves from; it
    gives the members of the new object.  It is declared [noexcept]:
    [rb_tree(rb_tree&& rhs) noexcept : header_(std::move(rhs.header_)),
       node_count_(rhs.node_count_), key_comp_(rhs.key_comp_)
     { rhs.reset(); }] *)
Definition move_construct : state T → noexcept_result T rb_tree :=
  noexcept (let+ rhs := get_this in
            let new := RbTree (header_ rhs) (node_count_ rhs) in
            let+ _ := reset in
            rret new).

(** [clone_node]:
    [node_ptr tmp = create_node(x->get_node_ptr()->value);
     tmp->color = x->color; tmp->left = nullptr; tmp->right = nullptr;
     return tmp;] *)
Definition clone_node (x : ptr) : R ptr :=
  let+ v := lift (get_value x) in
  let+ tmp := create_node v in
  let+ c := lift (get_color x) in
  let+ _ := lift (set_color tmp c) in
  let+ _ := lift (set_left tmp None) in
  let+ _ := lift (set_right tmp None) in
  rret tmp.

(** The loop of [copy_from] down the left spine, [copy] being
    [copy_from] itself:
    [while (x != nullptr) {
       auto y = clone_node(x);
       p->left = y;
       y->parent = p;
       if (x->right) y->right = copy_from(x->right, y);
       p = y;
       x = x->left;
     }] *)
Fixpoint copy_left_loop (copy : ptr → ptr → R ptr) (fuel : nat) (x p : ptr)
    : R unit :=
  match fuel with
  | O%nat => λ _, Fault
  | S fuel =>
      if negb (is_null x) then
        let+ y := clone_node x in
        let+ _ := lift (set_left p y) in
        let+ _ := lift (set_parent y p) in
        let+ xr := lift (get_right x) in
        let+ _ := (if negb (is_null xr) then
                     let+ r := copy xr y in
                     lift (set_right y r)
                   else rret tt) in
        let+ xl := lift (get_left x) in
        copy_left_loop copy fuel xl y
      else rret tt
  end.

(** [copy_from]:
    [auto top = clone_node(x);
     top->parent = p;
     try {
       if (x->right) top->right = copy_from(x->right, top);
       p = top;
       x = x->left;
       while (x != nullptr) { ... }
     } catch (...) {
       erase_since(top);
       throw;
     }
     return top;] *)
Fixpoint copy_from (fuel : nat) (x p : ptr) : R ptr :=
  match fuel with
  | O%nat => λ _, Fault
  | S fuel =>
      let+ top := clone_node x in
      let+ _ := lift (set_parent top p) in
      let+ _ := try_catch_rethrow
                  (let+ xr := lift (get_right x) in
                   let+ _ := (if negb (is_null xr) then
                                let+ r := copy_from fuel xr top in
                                lift (set_right top r)
                              else rret tt) in
                   let+ xl := lift (get_left x) in
                   copy_left_loop (copy_from fuel) fuel xl top)
                  (let+ h := get_mem in erase_since (fuel_of h) top) in
      rret top
  end.

(** The copy constructor, run on the new object, with the members of
    [rhs]:
    [rb_tree_init();
     if (rhs.node_count_ != 0) {
       root() = copy_from(rhs.root(), header_);
       leftmost() = rb_tree_min(root());
       rightmost() = rb_tree_max(root());
     }
     node_count_ = rhs.node_count_;] *)
Definition copy_construct (rhs : rb_tree) : R unit :=
  let+ _ := rb_tree_init in
  let+ t := get_this in
  let+ _ := (if negb (bool_decide (node_count_ rhs = 0)) then
               let+ x := lift (read (root rhs)) in
               let+ h := get_mem in
               let+ r := copy_from (fuel_of h) x (header_ t) in
               let+ _ := lift (write (root t) r) in
               let+ r1 := lift (read (root t)) in
               let+ mn := lift (rb_tree_min r1) in
               let+ _ := lift (write (leftmost t) mn) in
               let+ r2 := lift (read (root t)) in
               let+ mx := lift (rb_tree_max r2) in
               lift (write (rightmost t) mx)
             else rret tt) in
  let+ t := get_this in
  set_this (RbTree (header_ t) (node_count_ rhs)).

(** The copy assignment, run on the object that is assigned to, with
    the members of [rhs]; [self] tells whether [rhs] is that object, as
    the test on the addresses of the two objects does:
    [if (this != &rhs) {
       clear();
       if (rhs.node_count_ != 0) {
         root() = copy_from(rhs.root(), header_);
         leftmost() = rb_tree_min(root());
         rightmost() = rb_tree_max(root());
       }
       node_count_ = rhs.node_count_;
     }
     return *this;] *)
Definition copy_assign (self : bool) (rhs : rb_tree) : R unit :=
  if negb self then
    let+ _ := clear in
    let+ t := get_this in
    let+ _ := (if negb (bool_decide (node_count_ rhs = 0)) then
                 let+ x := lift (read (root rhs)) in
                 let+ h := get_mem in
                 let+ r := copy_from (fuel_of h) x (header_ t) in
                 let+ _ := lift (write (root t) r) in
                 let+ r1 := lift (read (root t)) in
                 let+ mn := lift (rb_tree_min r1) in
                 let+ _ := lift (write (leftmost t) mn) in
                 let+ r2 := lift (read (root t)) in
                 let+ mx := lift (rb_tree_max r2) in
                 lift (write (rightmost t) mx)
               else rret tt) in
    let+ t := get_this in
    set_this (RbTree (header_ t) (node_count_ rhs))
  else rret tt.

(** A call of the member function [m] on another object [o] of the
    store: [m] runs with [o] as its object, and the caller gets the
    members that [o] has after the call. *)
Definition call_on {A} (o : rb_tree) (m : R A) : R (A * rb_tree) :=
  λ s, match m (State o (mem s)) with
       | Ok a s' => Ok (a, this s') (State (this s) (mem s'))
       | Throw e s' => Throw e (State (this s) (mem s'))
       | Fault => Fault
       end.

(** The move assignment, run on the object that is assigned to, from
    another object [rhs]; it gives the members that [rhs] has
    afterwards:
    [clear();
     header_ = std::move(rhs.header_);
     node_count_ = rhs.node_count_;
     key_comp_ = rhs.key_comp_;
     rhs.reset();
     return *this;] *)
Definition move_assign (rhs : rb_tree) : R rb_tree :=
  let+ _ := clear in
  let+ _ := set_this (RbTree (header_ rhs) (node_count_ rhs)) in
  let+ r := call_on rhs reset in
  rret r.2.

(** [operator==]: [lhs.size() == rhs.size() &&
    std::equal(lhs.begin(), lhs.end(), rhs.begin())], over the payload's
    own equality. *)
Variable val_eq : T → T → bool.

Fixpoint std_equal (fuel : nat) (first1 last1 first2 : ptr) : M bool :=
  match fuel with
  | O%nat => fault
  | S fuel =>
      if ptr_eqb first1 last1 then ret true
      else
        let* v1 := get_value first1 in
        let* v2 := get_value first2 in
        if negb (val_eq v1 v2) then ret false
        else
          let* n1 := inc first1 in
          let* n2 := inc first2 in
          std_equal fuel n1 last1 n2
  end.

Definition tree_eq (lhs rhs : rb_tree) : M bool :=
  if bool_decide (size lhs = size rhs) then
    let* b1 := begin lhs in
    let* b2 := begin rhs in
    with_fuel (λ fuel, std_equal fuel b1 (end_ lhs) b2)
  else ret false.

(** The walk of a caller over the container:
    [for (it = begin(); it != end(); ++it) ... *it ...] *)
Fixpoint walk_loop (fuel : nat) (it last : ptr) : M (list (ptr * T)) :=
  match fuel with
  | O%nat => fault
  | S fuel =>
      if ptr_eqb it last then ret []
      else
        let* v := get_value it in
        let* next := inc it in
        let* rest := walk_loop fuel next last in
        ret ((it, v) :: rest)
  end.

Definition walk (t : rb_tree) : M (list (ptr * T)) :=
  let* b := begin t in
  with_fuel (λ fuel, walk_loop fuel b (end_ t)).

(** [operator<]: [std::lexicographical_compare(lhs.begin(), lhs.end(),
    rhs.begin(), rhs.end())], over the payload's own [<]:
    [for (; first1 != last1 && first2 != last2; ++first1, ++first2) {
       if ( *first1 < *first2 ) return true;
       if ( *first2 < *first1 ) return false;
     }
     return first1 == last1 && first2 != last2;] *)
Variable val_lt : T → T → bool.

Fixpoint lexicographical_compare (fuel : nat) (first1 last1 first2 last2 : ptr)
    : M bool :=
  match fuel with
  | O%nat => fault
  | S fuel =>
      if negb (ptr_eqb first1 last1) && negb (ptr_eqb first2 last2) then
        let* v1 := get_value first1 in
        let* v2 := get_value first2 in
        if val_lt v1 v2 then ret true
        else if val_lt v2 v1 then ret false
        else
          let* n1 := inc first1 in
          let* n2 := inc first2 in
          lexicographical_compare fuel n1 last1 n2 last2
      else ret (ptr_eqb first1 last1 && negb (ptr_eqb first2 last2))
  end.

Definition tree_lt (lhs rhs : rb_tree) : M bool :=
  let* b1 := begin lhs in
  let* b2 := begin rhs in
  with_fuel (λ fuel, lexicographical_compare fuel b1 (end_ lhs) b2 (end_ rhs)).

(** [operator!=], [operator>], [operator<=] and [operator>=]:
    [!(lhs == rhs)], [rhs < lhs], [!(rhs < lhs)] and [!(lhs < rhs)]. *)
Definition tree_ne (lhs rhs : rb_tree) : M bool :=
  let* b := tree_eq lhs rhs in ret (negb b).
Definition tree_gt (lhs rhs : rb_tree) : M bool := tree_lt rhs lhs.
Definition tree_le (lhs rhs : rb_tree) : M bool :=
  let* b := tree_lt rhs lhs in ret (negb b).
Definition tree_ge (lhs rhs : rb_tree) : M bool :=
  let* b := tree_lt lhs rhs in ret (negb b).
End rb_tree.

(** ** [map] over the tree *)

(** What [map::at] gives: a reference to the mapped value, or
    [std::out_of_range]. *)
Inductive at_result (V : Type) :=
  | AtValue (v : V)
  | OutOfRange.
Arguments AtValue {V}.
Arguments OutOfRange {V}.

Section map.
Context {K V : Type}.
(** [key_comp()] of the map, the comparison of its tree. *)
Variable key_comp : K → K → bool.
Variable size_bits : Z.
Variable alloc_fails : heap (K * V) → bool.
Variable ctor_throws : K * V → bool.
(** [T{}], the mapped value that [operator[]] inserts. *)
Variable default_value : V.

Local Abbreviation M := (@M (K * V)).
Local Abbreviation R := (@R (K * V)).

(** [map::at]:
    [iterator it = lower_bound(key);
     THROW_OUT_OF_RANGE_IF(it == end() || key_comp()(it->first, key), ...);
     return it->second;] *)
Definition map_at (t : rb_tree) (key : K) : M (at_result V) :=
  let* it := lower_bound fst key_comp t key in
  if ptr_eqb it (end_ t) then ret OutOfRange
  else
    let* e := get_value it in
    if key_comp e.1 key then ret OutOfRange else ret (AtValue e.2).

(** [map::emplace_hint]:
    [return tree_.emplace_unique_use_hint(hint, args...);] *)
Definition map_emplace_hint (hint : ptr) (key : K) (v : V) : R ptr :=
  emplace_unique_use_hint fst key_comp size_bits alloc_fails ctor_throws
    hint (key, v).

(** [map::operator[]]:
    [iterator it = lower_bound(key);
     if (it == end() || key_comp()(key, it->first))
         it = emplace_hint(it, key, T{});
     return it->second;] *)
Definition map_index (key : K) : R V :=
  let+ t := get_this in
  let+ it := lift (lower_bound fst key_comp t key) in
  let+ absent :=
    (if ptr_eqb it (end_ t) then rret true
     else
       let+ e := lift (get_value it) in
       rret (key_comp key e.1)) in
  let+ it := (if absent : bool then map_emplace_hint it key default_value
              else rret it) in
  let+ e := lift (get_value it) in
  rret e.2.
End map.

(** ** A caller of the container *)

(** The calls a caller makes on one container.  Positions are named by
    their rank in the walk from [begin()]; a rank past the last element
    names [end()]. *)
Inductive op (T K : Type) :=
  | InsertMulti (v : T)
  | InsertUnique (v : T)
  | EmplaceMulti (v : T)
  | EmplaceUnique (v : T)
  | InsertMultiHint (i : nat) (v : T)
  | InsertUniqueHint (i : nat) (v : T)
  | Erase (i : nat)
  | EraseRange (i n : nat)
  | EraseMulti (k : K)
  | EraseUnique (k : K)
  | Clear.
Arguments InsertMulti {T K}.
Arguments InsertUnique {T K}.
Arguments EmplaceMulti {T K}.
Arguments EmplaceUnique {T K}.
Arguments InsertMultiHint {T K}.
Arguments InsertUniqueHint {T K}.
Arguments Erase {T K}.
Arguments EraseRange {T K}.
Arguments EraseMulti {T K}.
Arguments EraseUnique {T K}.
Arguments Clear {T K}.

Section caller.
Context {T K : Type}.
Variable get_key : T → K.
Variable key_comp : K → K → bool.
Variable size_bits : Z.
Variable alloc_fails : heap T → bool.
Variable ctor_throws : T → bool.

Local Abbreviation M := (@M T).
Local Abbreviation R := (@R T).

(** [for (; n > 0 && it != last; --n) ++it;] *)
Fixpoint advance (n : nat) (it last : ptr) : M ptr :=
  match n with
  | O => ret it
  | S n =>
      if ptr_eqb it last then ret it
      else
        let* next := inc it in
        advance n next last
  end.

(** The position of rank [i]. *)
Definition position (t : rb_tree) (i : nat) : M ptr :=
  let* b := begin t in
  advance i b (end_ t).

(** [try { m; } catch (...) { }] *)
Definition try_catch_all {A} (m : R A) : R unit :=
  λ s, match m s with
       | Ok _ s' => Ok tt s'
       | Throw _ s' => Ok tt s'
       | Fault => Fault
       end.

(** One call; an exception of the container is caught, and [end()] is
    not erased. *)
Definition run_op (o : op T K) : R unit :=
  match o with
  | InsertMulti v =>
      try_catch_all
        (insert_multi get_key key_comp size_bits alloc_fails ctor_throws v)
  | InsertUnique v =>
      try_catch_all
        (insert_unique get_key key_comp size_bits alloc_fails ctor_throws v)
  | EmplaceMulti v =>
      try_catch_all
        (emplace_multi get_key key_comp size_bits alloc_fails ctor_throws v)
  | EmplaceUnique v =>
      try_catch_all
        (emplace_unique get_key key_comp size_bits alloc_fails ctor_throws v)
  | InsertMultiHint i v =>
      let+ t := get_this in
      let+ hint := lift (position t i) in
      try_catch_all
        (insert_multi_hint get_key key_comp size_bits alloc_fails ctor_throws
           hint v)
  | InsertUniqueHint i v =>
      let+ t := get_this in
      let+ hint := lift (position t i) in
      try_catch_all
        (insert_unique_hint get_key key_comp size_bits alloc_fails ctor_throws
           hint v)
  | Erase i =>
      let+ t := get_this in
      let+ it := lift (position t i) in
      if ptr_eqb it (end_ t) then rret tt
      else
        let+ _ := erase size_bits it in
        rret tt
  | EraseRange i n =>
      let+ t := get_this in
      let+ first := lift (position t i) in
      let+ last := lift (advance n first (end_ t)) in
      erase_range size_bits first last
  | EraseMulti k =>
      let+ _ := erase_multi get_key key_comp size_bits k in
      rret tt
  | EraseUnique k =>
      let+ _ := erase_unique get_key key_comp size_bits k in
      rret tt
  | Clear => clear
  end.

(** The calls through which [set] and [map] use their tree, which
    insert by [insert_unique], [emplace_unique] and
    [emplace_unique_use_hint] only. *)
Definition unique_op (o : op T K) : bool :=
  match o with
  | InsertMulti _ | EmplaceMulti _ | InsertMultiHint _ _ => false
  | _ => true
  end.

Fixpoint run_ops (os : list (op T K)) : R unit :=
  match os with
  | [] => rret tt
  | o :: os =>
      let+ _ := run_op o in
      run_ops os
  end.

(** The state in which a member function leaves the container, whether it
    returns or throws. *)
Definition final_state {A} (r : result T A) : option (state T) :=
  match r with
  | Ok _ s => Some s
  | Throw _ s => Some s
  | Fault => None
  end.
End caller.

(** * The abstraction *)

(** The node graph below a link, read off the store: each node with its
    address, its colour and its payload. *)
Inductive atree (T : Type) :=
  | Leaf
  | Br (a : addr) (c : rb_tree_color_type) (l : atree T) (v : T) (r : atree T).
Arguments Leaf {T}.
Arguments Br {T}.

(** One step of the path from a node up to the root: the parent, and the
    sibling subtree on the other side. *)
Inductive frame (T : Type) :=
  | FL (a : addr) (c : rb_tree_color_type) (v : T) (r : atree T)
  | FR (a : addr) (c : rb_tree_color_type) (l : atree T) (v : T).
Arguments FL {T}.
Arguments FR {T}.

Section abstraction_defs.
Context {T : Type}.
Implicit Types (t l r s : atree T) (h : heap T) (ctx : list (frame T)).

Definition top t : ptr :=
  match t with Leaf => None | Br a _ _ _ _ => Some a end.

Fixpoint addrs t : list addr :=
  match t with
  | Leaf => []
  | Br a _ l _ r => addrs l ++ a :: addrs r
  end.

(** The in-order sequence of positions and payloads. *)
Fixpoint cells t : list (addr * T) :=
  match t with
  | Leaf => []
  | Br a _ l v r => cells l ++ (a, v) :: cells r
  end.

Definition elems t : list T := (cells t).*2.

(** The store holds the tree [t] below a link whose owner is [par]. *)
Fixpoint rep h (par : ptr) t : Prop :=
  match t with
  | Leaf => True
  | Br a c l v r =>
      h !! a = Some (Node par (top l) (top r) c (Some v))
      ∧ rep h (Some a) l ∧ rep h (Some a) r
  end.

Definition frame_addr (f : frame T) : addr :=
  match f with FL a _ _ _ => a | FR a _ _ _ => a end.

Definition frame_color (f : frame T) : rb_tree_color_type :=
  match f with FL _ c _ _ => c | FR _ c _ _ => c end.

Definition fill (f : frame T) t : atree T :=
  match f with
  | FL a c v r => Br a c t v r
  | FR a c l v => Br a c l v t
  end.

(** Contexts list their frames from the hole outwards. *)
Definition plug ctx t : atree T := fold_left (λ t f, fill f t) ctx t.

(** The owner of the link at the hole: the header when the hole is the
    root. *)
Definition ctx_par (hd : addr) ctx : ptr :=
  match ctx with [] => Some hd | f :: _ => Some (frame_addr f) end.

Fixpoint ctx_rep h (hd : addr) (L R : ptr) ctx (hole : ptr) : Prop :=
  match ctx with
  | [] => h !! hd = Some (Node hole L R rb_tree_red None)
  | FL a c v r :: ctx' =>
      h !! a = Some (Node (ctx_par hd ctx') hole (top r) c (Some v))
      ∧ rep h (Some a) r ∧ ctx_rep h hd L R ctx' (Some a)
  | FR a c l v :: ctx' =>
      h !! a = Some (Node (ctx_par hd ctx') (top l) hole c (Some v))
      ∧ rep h (Some a) l ∧ ctx_rep h hd L R ctx' (Some a)
  end.

Definition frame_addrs (f : frame T) : list addr :=
  match f with
  | FL a _ _ r => a :: addrs r
  | FR a _ l _ => a :: addrs l
  end.

Definition ctx_addrs ctx : list addr := concat (map frame_addrs ctx).

(** The store holds the tree [t] under the header [hd], whose [left] and
    [right] links are [L] and [R]. *)
Definition tree_rep h (hd : addr) (L R : ptr) t : Prop :=
  h !! hd = Some (Node (top t) L R rb_tree_red None)
  ∧ rep h (Some hd) t
  ∧ NoDup (hd :: addrs t).

(** The same with a focus on the subtree [s] at the hole of [ctx]. *)
Definition focus_rep h (hd : addr) (L R : ptr) ctx s : Prop :=
  ctx_rep h hd L R ctx (top s)
  ∧ rep h (ctx_par hd ctx) s
  ∧ NoDup (hd :: ctx_addrs ctx ++ addrs s).

(** What a node algorithm establishes when it runs to completion. *)
Definition wp {A} (m : M A) h (Q : A → heap T → Prop) : Prop :=
  ∃ a h', m h = Some (a, h') ∧ Q a h'.

(** The stores agree outside a set of addresses. *)
Definition same_outside (S : list addr) h h' : Prop :=
  ∀ a, a ∉ S → h' !! a = h !! a.
End abstraction_defs.

(** No element of [l] occurs in [k]. *)
Definition disj (l k : list addr) : Prop := ∀ x, x ∈ l → x ∉ k.

Section rotations2_defs.
Context {T : Type}.
Implicit Types (t l r s : atree T) (h : heap T) (ctx : list (frame T)).

(** The root link of the header, seen from a context. *)
Definition ctx_root ctx (hole : ptr) : ptr :=
  match last ctx with Some f => Some (frame_addr f) | None => hole end.
End rotations2_defs.

(** ** The rebalancing loops on the abstraction *)

Section functional.
Context {T : Type}.
Implicit Types (t l r s u : atree T) (ctx : list (frame T)).

Definition is_red_t t : bool :=
  match t with Br _ c _ _ _ => color_is c rb_tree_red | Leaf => false end.

Definition set_color_t (c : rb_tree_color_type) t : atree T :=
  match t with Br a _ l v r => Br a c l v r | Leaf => Leaf end.

Definition set_frame_color (c : rb_tree_color_type) (f : frame T) : frame T :=
  match f with FL a _ v r => FL a c v r | FR a _ l v => FR a c l v end.

(** What the loop of [rb_tree_insert_rebalance] makes of the tree when it
    starts at the root [x] of [s], below the path [ctx].  A red root above
    [x] is not a case of the loop on a well-formed tree: no result. *)
Fixpoint insert_fix ctx s : option (atree T) :=
  match ctx with
  | [] => Some s
  | p :: ctx' =>
      if color_is (frame_color p) rb_tree_red then
        match ctx' with
        | [] => None
        | FL g cg vg u :: ctx'' =>
            if is_red_t u then
              insert_fix ctx''
                (Br g rb_tree_red (fill (set_frame_color rb_tree_black p) s) vg
                    (set_color_t rb_tree_black u))
            else
              match p, s with
              | FR p _ pl vp, Br x _ xl vx xr =>
                  Some (plug ctx''
                    (Br x rb_tree_black (Br p rb_tree_red pl vp xl) vx
                        (Br g rb_tree_red xr vg u)))
              | FL p _ vp pr, _ =>
                  Some (plug ctx''
                    (Br p rb_tree_black s vp (Br g rb_tree_red pr vg u)))
              | _, _ => None
              end
        | FR g cg u vg :: ctx'' =>
            if is_red_t u then
              insert_fix ctx''
                (Br g rb_tree_red (set_color_t rb_tree_black u) vg
                    (fill (set_frame_color rb_tree_black p) s))
            else
              match p, s with
              | FL p _ vp pr, Br x _ xl vx xr =>
                  Some (plug ctx''
                    (Br x rb_tree_black (Br g rb_tree_red u vg xl) vx
                        (Br p rb_tree_red xr vp pr)))
              | FR p _ pl vp, _ =>
                  Some (plug ctx''
                    (Br p rb_tree_black (Br g rb_tree_red u vg pl) vp s))
              | _, _ => None
              end
        end
      else Some (plug ctx s)
  end.

(** [rb_tree_insert_rebalance]: the new node turns red, the loop runs,
    the root turns black. *)
Definition insert_rebalance_t ctx s : option (atree T) :=
  set_color_t rb_tree_black <$> insert_fix ctx (set_color_t rb_tree_red s).
End functional.

(** ** Invariants on the abstraction *)

Section invariants.
Context {T : Type}.
Implicit Types (t l r s u : atree T) (ctx : list (frame T)).

(** The cells before and after the hole of a context, in order. *)
Fixpoint ctx_before ctx : list (addr * T) :=
  match ctx with
  | [] => []
  | FL _ _ _ _ :: ctx' => ctx_before ctx'
  | FR a _ l v :: ctx' => ctx_before ctx' ++ cells l ++ [(a, v)]
  end.
Fixpoint ctx_after ctx : list (addr * T) :=
  match ctx with
  | [] => []
  | FL a _ v r :: ctx' => (a, v) :: cells r ++ ctx_after ctx'
  | FR _ _ _ _ :: ctx' => ctx_after ctx'
  end.

(** No red node has a red child. *)
Fixpoint no_red_red t : Prop :=
  match t with
  | Leaf => True
  | Br _ c l _ r =>
      (c = rb_tree_red → is_red_t l = false ∧ is_red_t r = false)
      ∧ no_red_red l ∧ no_red_red r
  end.

(** The numbers of black nodes on the downward paths from the root of [t]
    to its leaf positions. *)
Fixpoint black_counts t : list nat :=
  match t with
  | Leaf => [0]
  | Br _ c l _ r =>
      (λ n, if color_is c rb_tree_black then S n else n)
        <$> (black_counts l ++ black_counts r)
  end.

(** All subtrees of [t], [t] included: one per node and per leaf position. *)
Fixpoint subtrees t : list (atree T) :=
  t :: match t with Leaf => [] | Br _ _ l _ r => subtrees l ++ subtrees r end.

(** Every downward path from any node to any leaf position passes
    through the same number of black nodes. *)
Definition black_balanced t : Prop :=
  ∀ s, s ∈ subtrees t → ∀ n m, n ∈ black_counts s → m ∈ black_counts s → n = m.

(** The recursive form of the two invariants: [t] has black height [n]. *)
Fixpoint rb (n : nat) t : Prop :=
  match t with
  | Leaf => n = 0
  | Br _ c l _ r =>
      if color_is c rb_tree_red then
        is_red_t l = false ∧ is_red_t r = false ∧ rb n l ∧ rb n r
      else
        match n with
        | O => False
        | S m => rb m l ∧ rb m r
        end
  end.

(** A path whose hole takes a tree of black height [n]; a red frame sits
    below a black one, the outermost frame is black. *)
Fixpoint rb_ctx (n : nat) ctx : Prop :=
  match ctx with
  | [] => True
  | f :: ctx' =>
      rb n (match f with FL _ _ _ r => r | FR _ _ l _ => l end)
      ∧ if color_is (frame_color f) rb_tree_red then
          is_red_t (match f with FL _ _ _ r => r | FR _ _ l _ => l end) = false
          ∧ match ctx' with
            | [] => False
            | g :: _ => frame_color g = rb_tree_black
            end
          ∧ rb_ctx n ctx'
        else rb_ctx (S n) ctx'
  end.

Definition root_black t : Prop := is_red_t t = false.

(** A red-black tree: the root is black, the two invariants hold. *)
Definition is_rb_tree t : Prop := root_black t ∧ ∃ n, rb n t.
End invariants.

(** ** The queries on the abstraction *)

Section queries.
Context {T K : Type}.
Variable get_key : T → K.
Variable key_comp : K → K → bool.
Implicit Types (t l r s u : atree T) (ctx : list (frame T)).

Fixpoint height t : nat :=
  match t with
  | Leaf => 0
  | Br _ _ l _ r => S (height l `max` height r)
  end.

(** The first and the last position of a sequence of cells, the header
    when there is none. *)
Definition first_pos (hd : addr) (cs : list (addr * T)) : ptr :=
  Some (default hd (fst <$> head cs)).
Definition last_pos (hd : addr) (cs : list (addr * T)) : ptr :=
  Some (default hd (fst <$> last cs)).

(** The descent of [lower_bound] and [find]. *)
Fixpoint lower_bound_t (key : K) t (y : ptr) : ptr :=
  match t with
  | Leaf => y
  | Br a _ l v r =>
      if negb (key_comp (get_key v) key) then lower_bound_t key l (Some a)
      else lower_bound_t key r y
  end.

Fixpoint upper_bound_t (key : K) t (y : ptr) : ptr :=
  match t with
  | Leaf => y
  | Br a _ l v r =>
      if key_comp key (get_key v) then upper_bound_t key l (Some a)
      else upper_bound_t key r y
  end.

(** The descent of [get_insert_multi_pos]: the path to the leaf position
    it ends at. *)
Fixpoint insert_ctx (key : K) t ctx : list (frame T) :=
  match t with
  | Leaf => ctx
  | Br a c l v r =>
      if key_comp key (get_key v) then insert_ctx key l (FL a c v r :: ctx)
      else insert_ctx key r (FR a c l v :: ctx)
  end.

(** Whether the hole of a path is a left link; [add_to_left] starts out
    [true]. *)
Definition ctx_side ctx : bool :=
  match ctx with FR _ _ _ _ :: _ => false | _ => true end.
End queries.

(** ** Erasure on the abstraction *)

Section erase_functional.
Context {T : Type}.
Implicit Types (t l r s u w : atree T) (ctx : list (frame T)).

(** [p == nullptr || !rb_tree_is_red(p)] *)
Definition black_or_leaf t : bool := negb (is_red_t t).

(** The leftmost node of a tree with the path of left links down to it,
    listed from that node outwards. *)
Fixpoint min_split t
    : option (list (frame T) * (addr * rb_tree_color_type * T * atree T)) :=
  match t with
  | Leaf => None
  | Br a c l v r =>
      match min_split l with
      | None => Some ([], (a, c, v, r))
      | Some (ctx, m) => Some (ctx ++ [FL a c v r], m)
      end
  end.

(** The first phase of [rb_tree_erase_rebalance] on the node [z] at the
    root of [zs]: the path to the vacated position, the subtree [x] now
    there, and the colour that left the tree. *)
Definition erase_unlink ctx zs
    : option (list (frame T) * atree T * rb_tree_color_type) :=
  match zs with
  | Leaf => None
  | Br z cz zl vz zr =>
      match zl, zr with
      | Leaf, _ => Some (ctx, zr, cz)
      | _, Leaf => Some (ctx, zl, cz)
      | _, _ =>
          match min_split zr with
          | Some (ctxy, (y, cy, vy, yr)) =>
              Some (ctxy ++ FR y cz zl vy :: ctx, yr, cy)
          | None => None
          end
      end
  end.

(** Case 1 of the loop, [x] on the left: a red brother is rotated above
    the parent.  The result is the colour of the parent, the new brother
    and the path above the parent. *)
Definition erase_case1_l (cp : rb_tree_color_type) w ctx
    : rb_tree_color_type * atree T * list (frame T) :=
  match w with
  | Br b cb bl vb br =>
      if color_is cb rb_tree_red
      then (rb_tree_red, bl, FL b rb_tree_black vb br :: ctx)
      else (cp, w, ctx)
  | Leaf => (cp, w, ctx)
  end.
Definition erase_case1_r (cp : rb_tree_color_type) w ctx
    : rb_tree_color_type * atree T * list (frame T) :=
  match w with
  | Br b cb bl vb br =>
      if color_is cb rb_tree_red
      then (rb_tree_red, br, FR b rb_tree_black bl vb :: ctx)
      else (cp, w, ctx)
  | Leaf => (cp, w, ctx)
  end.

(** Case 3: the brother's near child is red, its far child is not. *)
Definition erase_case3_l w : option (atree T) :=
  match w with
  | Br b _ (Br l0 _ ll vl lr) vb br =>
      if black_or_leaf br
      then Some (Br l0 rb_tree_black ll vl (Br b rb_tree_red lr vb br))
      else Some w
  | Br b _ Leaf vb br => if black_or_leaf br then None else Some w
  | Leaf => None
  end.
Definition erase_case3_r w : option (atree T) :=
  match w with
  | Br b _ bl vb (Br r0 _ rl vr rr) =>
      if black_or_leaf bl
      then Some (Br r0 rb_tree_black (Br b rb_tree_red bl vb rl) vr rr)
      else Some w
  | Br b _ bl vb Leaf => if black_or_leaf bl then None else Some w
  | Leaf => None
  end.

(** The loop of [rb_tree_erase_rebalance], with its fuel: the subtree at
    [x] and the path above it when the loop ends. *)
Fixpoint erase_fix (fuel : nat) ctx xs : option (list (frame T) * atree T) :=
  match fuel with
  | O => None
  | S fuel =>
      match ctx with
      | [] => Some ([], xs)
      | f :: ctx' =>
          if is_red_t xs then Some (ctx, xs)
          else
            match f with
            | FL p cp vp w =>
                let '(cp1, w1, ctx1) := erase_case1_l cp w ctx' in
                match w1 with
                | Leaf => None
                | Br b1 c1 l1 v1 r1 =>
                    if black_or_leaf l1 && black_or_leaf r1 then
                      erase_fix fuel ctx1
                        (Br p cp1 xs vp (Br b1 rb_tree_red l1 v1 r1))
                    else
                      match erase_case3_l w1 with
                      | Some (Br b2 _ l2 v2 r2) =>
                          Some (FL p rb_tree_black vp l2
                                  :: FL b2 cp1 v2 (set_color_t rb_tree_black r2)
                                  :: ctx1, xs)
                      | _ => None
                      end
                end
            | FR p cp w vp =>
                let '(cp1, w1, ctx1) := erase_case1_r cp w ctx' in
                match w1 with
                | Leaf => None
                | Br b1 c1 l1 v1 r1 =>
                    if black_or_leaf l1 && black_or_leaf r1 then
                      erase_fix fuel ctx1
                        (Br p cp1 (Br b1 rb_tree_red l1 v1 r1) vp xs)
                    else
                      match erase_case3_r w1 with
                      | Some (Br b2 _ l2 v2 r2) =>
                          Some (FR p rb_tree_black r2 vp
                                  :: FR b2 cp1 (set_color_t rb_tree_black l2) v2
                                  :: ctx1, xs)
                      | _ => None
                      end
                end
            end
      end
  end.

(** [rb_tree_erase_rebalance] on the node at the root of [zs]. *)
Definition erase_rebalance_t ctx zs : option (atree T) :=
  match erase_unlink ctx zs with
  | None => None
  | Some (ctxx, xs, c) =>
      if color_is c rb_tree_red then Some (plug ctxx xs)
      else
        match erase_fix (length ctxx + 2) ctxx xs with
        | Some (ctx', xs') => Some (plug ctx' (set_color_t rb_tree_black xs'))
        | None => None
        end
  end.
End erase_functional.

Section functional_facts_defs.
Context {T : Type}.
Implicit Types (t l r s u : atree T) (ctx : list (frame T)).

Definition hole_ok ctx s : Prop :=
  match ctx with
  | f :: _ => frame_color f = rb_tree_red → root_black s
  | [] => True
  end.
End functional_facts_defs.

Section erase_facts_defs.
Context {T : Type}.
Implicit Types (t l r s u w xs : atree T) (ctx : list (frame T)).

Definition frame_sibling (f : frame T) : atree T :=
  match f with FL _ _ _ r => r | FR _ _ l _ => l end.

(** What the loop maintains: the path takes a tree one black node
    higher than the tree at [x]; a red [x] makes up for it when it turns
    black. *)
Definition erase_inv (n : nat) ctx xs : Prop :=
  rb_ctx (S n) ctx
  ∧ if is_red_t xs then rb (S n) (set_color_t rb_tree_black xs) else rb n xs.

(** The state of the loop once the brother is black. *)
Definition erase_step_pre (n : nat) (cp1 : rb_tree_color_type) ctx1 (fuel : nat)
    : Prop :=
  (if color_is cp1 rb_tree_red then
     match ctx1 with
     | [] => False
     | g :: _ => frame_color g = rb_tree_black
     end ∧ rb_ctx (S n) ctx1
   else rb_ctx (S (S n)) ctx1)
  ∧ (if color_is cp1 rb_tree_red then 1 else S (length ctx1)) ≤ fuel.

Definition erase_fix_ok (fuel : nat) : Prop :=
  ∀ n ctx xs,
    erase_inv n ctx xs →
    (if is_red_t xs then 1 else S (length ctx)) ≤ fuel →
    ∃ ctx' xs', erase_fix fuel ctx xs = Some (ctx', xs')
                ∧ ∃ m, rb_ctx m ctx' ∧ rb m (set_color_t rb_tree_black xs').
End erase_facts_defs.

Section order_defs.
Context {T K : Type}.
Variable get_key : T → K.
Variable key_comp : K → K → bool.
Implicit Types (t l r : atree T) (ctx : list (frame T)) (cs : list (addr * T))
  (k : K).

(** What the container asks of [key_comp]: a strict weak ordering. *)
Record strict_weak_order : Prop := {
  swo_irrefl : ∀ a, key_comp a a = false;
  swo_trans : ∀ a b c,
    key_comp a b = true → key_comp b c = true → key_comp a c = true;
  swo_incomp : ∀ a b c,
    key_comp a b = false → key_comp b a = false →
    key_comp b c = false → key_comp c b = false →
    key_comp a c = false ∧ key_comp c a = false
}.

(** Neither key goes before the other. *)
Definition equiv_key (a b : K) : bool :=
  negb (key_comp a b) && negb (key_comp b a).

Definition key_of (e : addr * T) : K := get_key e.2.

Definition keys cs : list K := key_of <$> cs.

(** [x] may stand before [y]: the key of [y] does not go before that of [x]. *)
Definition le_cell (x y : addr * T) : Prop :=
  key_comp (key_of y) (key_of x) = false.

Definition sorted cs : Prop := StronglySorted le_cell cs.

(** The position of the first cell whose payload passes [P], [dflt] when
    there is none. *)
Fixpoint find_pos (P : T → bool) cs (dflt : addr) : addr :=
  match cs with
  | [] => dflt
  | (a, v) :: cs' => if P v then a else find_pos P cs' dflt
  end.
End order_defs.

Section rwp_defs.
Context {T : Type}.
Implicit Types (s : state T) (h : heap T).

(** The member function returns normally. *)
Definition rwp {A} (m : R A) s (Q : A → state T → Prop) : Prop :=
  ∃ a s', m s = Ok a s' ∧ Q a s'.
End rwp_defs.

Section partial_contexts_defs.
Context {T : Type}.
Implicit Types (t l r s u w : atree T) (h : heap T) (ctx : list (frame T)).

Definition is_FL (f : frame T) : Prop :=
  match f with FL _ _ _ _ => True | FR _ _ _ _ => False end.

(** The owner of the link at the hole of a path hanging below [par]. *)
Definition pctx_par (par : ptr) ctx : ptr :=
  match ctx with [] => par | f :: _ => Some (frame_addr f) end.

(** The store holds the frames of a path whose outermost node hangs
    below [par]. *)
Fixpoint pctx_rep h (par : ptr) ctx (hole : ptr) : Prop :=
  match ctx with
  | [] => True
  | FL a c v r :: ctx' =>
      h !! a = Some (Node (pctx_par par ctx') hole (top r) c (Some v))
      ∧ rep h (Some a) r ∧ pctx_rep h par ctx' (Some a)
  | FR a c l v :: ctx' =>
      h !! a = Some (Node (pctx_par par ctx') (top l) hole c (Some v))
      ∧ rep h (Some a) l ∧ pctx_rep h par ctx' (Some a)
  end.
End partial_contexts_defs.

Section rwpe_defs.
Context {T : Type}.
Implicit Types (s : state T) (h : heap T).

(** The member function returns normally with [Q] or throws with [E]. *)
Definition rwpe {A} (m : R A) s (Q : A → state T → Prop)
    (E : exn → state T → Prop) : Prop :=
  match m s with
  | Ok a s' => Q a s'
  | Throw e s' => E e s'
  | Fault => False
  end.
End rwpe_defs.

Section container_defs.
Context {T K : Type}.
Variable get_key : T → K.
Variable key_comp : K → K → bool.
Variable size_bits : Z.
Variable alloc_fails : heap T → bool.
Variable ctor_throws : T → bool.
Implicit Types (t l r u : atree T) (s : state T) (h : heap T)
  (ctx : list (frame T)) (cs : list (addr * T)).
Local Abbreviation sorted := (sorted get_key key_comp).
Local Abbreviation key_of := (key_of get_key).
Local Abbreviation equiv_key := (equiv_key key_comp).
Variable val_eq : T → T → bool.

(** The object [this] of [s] is a container that holds the cells [cs],
    in this order, in the tree [t] under the header [hd]. *)
Definition tree_at s (hd : addr) t cs : Prop :=
  this s = RbTree (Some hd) (Z.of_nat (length cs))
  ∧ tree_rep (mem s) hd (first_pos hd cs) (last_pos hd cs) t
  ∧ cells t = cs
  ∧ is_rb_tree t
  ∧ sorted cs
  ∧ (Z.of_nat (length cs) < 2 ^ size_bits)%Z.

Definition tree_inv s (hd : addr) cs : Prop := ∃ t, tree_at s hd t cs.

(** The new cell stands after the cells that may stand before it and
    before the cells that go after it. *)
Definition insert_post (v : T) cs (nd : addr) cs' : Prop :=
  ∃ B A, cs = B ++ A ∧ cs' = B ++ (nd, v) :: A
    ∧ Forall (λ e, key_comp (get_key v) (key_of e) = false) B
    ∧ Forall (λ e, key_comp (get_key v) (key_of e) = true) A.

(** Why an insertion throws. *)
Definition insert_fails s (v : T) cs (e : exn) : Prop :=
  match e with
  | length_error => Z.of_nat (length cs) = (2 ^ size_bits - 1)%Z
  | bad_alloc =>
      (Z.of_nat (length cs) < 2 ^ size_bits - 1)%Z
      ∧ alloc_fails (mem s) = true
  | ctor_exception =>
      (Z.of_nat (length cs) < 2 ^ size_bits - 1)%Z
      ∧ alloc_fails (mem s) = false ∧ ctor_throws v = true
  end.

Definition insert_succeeds s (v : T) cs : Prop :=
  (Z.of_nat (length cs) < 2 ^ size_bits - 1)%Z
  ∧ alloc_fails (mem s) = false ∧ ctor_throws v = false.

(** The cells of the store outside [S] that were allocated stay as they
    are. *)
Definition preserves (S : list addr) h h' : Prop :=
  ∀ a, a ∉ S → is_Some (h !! a) → h' !! a = h !! a.

(** Whether the descent for [key] found no equivalent key: the cell
    before the hole, if any, goes before [key]. *)
Definition no_equiv_before (key : K) ctx : bool :=
  match last (ctx_before ctx) with
  | None => true
  | Some e => key_comp (key_of e) key
  end.

Definition lower_pred (key : K) (v : T) : bool := negb (key_comp (get_key v) key).

Definition upper_pred (key : K) (v : T) : bool := key_comp key (get_key v).

Definition equiv_pred (key : K) (v : T) : bool := equiv_key (get_key v) key.

Definition positions (A : list (addr * T)) : list (ptr * T) :=
  (λ e, (Some e.1, e.2)) <$> A.

(** [std::equal] on two sequences, the second at least as long as the
    first. *)
Fixpoint all2 (l1 l2 : list T) : bool :=
  match l1, l2 with
  | [], _ => true
  | x :: l1', y :: l2' => val_eq x y && all2 l1' l2'
  | _ :: _, [] => false
  end.

(** The tree [t'] is a copy of the tree [t]: the same shape, colours
    and payloads, whatever the nodes. *)
Fixpoint same_shape t t' : Prop :=
  match t, t' with
  | Leaf, Leaf => True
  | Br _ c l v r, Br _ c' l' v' r' =>
      c = c' ∧ v = v' ∧ same_shape l l' ∧ same_shape r r'
  | _, _ => False
  end.

(** The nodes of [t'] are new in the store [h]; in [h'] they hold [t']
    below a link owned by [p], and the rest of [h'] is as in [h]. *)
Definition built_in h h' (p : ptr) t' : Prop :=
  rep h' p t' ∧ NoDup (addrs t') ∧ (∀ a, a ∈ addrs t' → h !! a = None)
  ∧ same_outside (addrs t') h h'.

(** [copy_from(x, p)] on the tree [t] at [x] has returned [res]. *)
Definition copy_post s (p : ptr) t (res : ptr) s' : Prop :=
  this s' = this s
  ∧ ∃ t', same_shape t t' ∧ top t' = res ∧ built_in (mem s) (mem s') p t'.

(** Why a copy throws: a node cannot be allocated, or the copy of an
    element throws. *)
Definition copy_fails (e : exn) : Prop :=
  match e with
  | length_error => False
  | bad_alloc => ∃ h, alloc_fails h = true
  | ctor_exception => ∃ v, ctor_throws v = true
  end.

(** The loop of [copy_from] has hung new nodes below the left link of
    the node [pa], a copy of [t] when [whole] is set. *)
Definition attach_post (whole : bool) s (pa : addr) (npa : node T) t s' : Prop :=
  this s' = this s
  ∧ ∃ t', (if whole then same_shape t t' else True)
      ∧ mem s' !! pa = Some (with_left (top t') npa)
      ∧ rep (mem s') (Some pa) t' ∧ NoDup (addrs t')
      ∧ (∀ a, a ∈ addrs t' → mem s !! a = None)
      ∧ same_outside (pa :: addrs t') (mem s) (mem s').

(** The lexicographic order of two sequences under [val_lt]. *)
Fixpoint lex_lt (val_lt : T → T → bool) (l1 l2 : list T) : bool :=
  match l1, l2 with
  | [], [] => false
  | [], _ :: _ => true
  | _ :: _, [] => false
  | x :: l1', y :: l2' =>
      if val_lt x y then true
      else if val_lt y x then false
      else lex_lt val_lt l1' l2'
  end.

(** The new cell enters the sequence somewhere; the invariant of the
    container says that the sequence stays sorted. *)
Definition hint_post (v : T) cs (nd : addr) cs' : Prop :=
  ∃ B A, cs = B ++ A ∧ cs' = B ++ (nd, v) :: A.

(** The store after the nodes at [S] were given back. *)
Definition free_all (S : list addr) h : heap T := foldr delete h S.

(** What the cells [cs'] after the insertions of [xs] hold, given the
    cells [cs] before. *)
Definition holds_inserted (multi : bool) (xs : list T) cs cs' : Prop :=
  if multi then cs'.*2 ≡ₚ xs ++ cs.*2
  else (∀ x, x ∈ cs'.*2 ↔ x ∈ xs ∨ x ∈ cs.*2) ∧ (NoDup cs.*2 → NoDup cs'.*2).
End container_defs.

(** * Containers built by a caller *)

Section caller_defs.
Context {T K : Type}.
Variable get_key : T → K.
Variable key_comp : K → K → bool.
Variable size_bits : Z.
Variable alloc_fails : heap T → bool.
Variable ctor_throws : T → bool.

(** The states of a container that a caller can bring about: the
    container is constructed on some store and then used. *)
Definition reachable (s : state T) : Prop :=
  ∃ s0 s1 ops,
    rb_tree_init alloc_fails s0 = Ok tt s1
    ∧ run_ops get_key key_comp size_bits alloc_fails ctor_throws ops s1 = Ok tt s.

(** The node graph that hangs under the header of the container. *)
Definition holds_tree (s : state T) (t : atree T) : Prop :=
  ∃ hd, header_ (this s) = Some hd
    ∧ tree_rep (mem s) hd (first_pos hd (cells t)) (last_pos hd (cells t)) t.

(** The colour of the header node, the parent of the root. *)
Definition header_color (s : state T) (c : rb_tree_color_type) : Prop :=
  ∃ hd n, header_ (this s) = Some hd ∧ mem s !! hd = Some n ∧ color n = c.

(** The colour of the root node of a container that is not empty. *)
Definition root_color (s : state T) (c : rb_tree_color_type) : Prop :=
  ∃ hd n r nr, header_ (this s) = Some hd ∧ mem s !! hd = Some n
    ∧ parent n = Some r ∧ mem s !! r = Some nr ∧ color nr = c.

(** The payloads that the walk from [begin()] to [end()] visits. *)
Definition contents (s : state T) : option (list T) :=
  match walk (this s) (mem s) with
  | Some (w, _) => Some w.*2
  | None => None
  end.

(** The container [t] on the store [h] is a red-black tree that holds
    the payloads [xs] in this order. *)
Definition well_formed (t : rb_tree) (h : heap T) (xs : list T) : Prop :=
  ∃ hd cs, tree_inv get_key key_comp size_bits (State t h) hd cs ∧ cs.*2 = xs.

(** What [lower_bound(key)] and [upper_bound(key)] return: the position
    of the first element of the walk that does not go before [key], and
    of the first that goes after [key]; [end()] when there is none. *)
Definition bounds_spec (s : state T) (key : K) : Prop :=
  ∃ w lo hi,
    walk (this s) (mem s) = Some (w, mem s)
    ∧ lower_bound get_key key_comp (this s) key (mem s) = Some (lo, mem s)
    ∧ upper_bound get_key key_comp (this s) key (mem s) = Some (hi, mem s)
    ∧ (∃ B A, w = B ++ A
         ∧ Forall (λ e, key_comp (get_key e.2) key = true) B
         ∧ lo = default (end_ (this s)) (fst <$> head A)
         ∧ ∀ e, head A = Some e → key_comp (get_key e.2) key = false)
    ∧ (∃ B A, w = B ++ A
         ∧ Forall (λ e, key_comp key (get_key e.2) = false) B
         ∧ hi = default (end_ (this s)) (fst <$> head A)
         ∧ ∀ e, head A = Some e → key_comp key (get_key e.2) = true).

(** The calls that insert the elements of a list one after the other. *)
Definition inserts (multi : bool) (xs : list T) : list (op T K) :=
  (if multi then InsertMulti else InsertUnique) <$> xs.
End caller_defs.

(** * Instances *)

(** An allocator that does not fail, payloads whose construction does not
    throw, and an object on an empty store. *)
Definition never {A : Type} (_ : A) : bool := false.

Definition empty_state {T : Type} : state T := State (RbTree None 0) ∅.

(** The state after the construction of a container on the store of [s]
    and the calls [ops] on it, for a [size_type] of 64 bits. *)
Definition built_on {T K : Type} (get_key : T → K) (key_comp : K → K → bool)
    (s : state T) (ops : list (op T K)) : state T :=
  match rb_tree_init never s with
  | Ok _ s1 =>
      match run_ops get_key key_comp 64 never never ops s1 with
      | Ok _ s' => s'
      | _ => s
      end
  | _ => s
  end.

Definition built {T K : Type} (get_key : T → K) (key_comp : K → K → bool)
    (ops : list (op T K)) : state T :=
  built_on get_key key_comp empty_state ops.

(** Pairs of integers ordered by their first component: the keys [(1, 0)]
    and [(1, 1)] are equivalent and differ. *)
Definition fst_lt (a b : Z * Z) : bool := (a.1 <? b.1)%Z.

Definition pair_eqb (a b : Z * Z) : bool := (a.1 =? b.1)%Z && (a.2 =? b.2)%Z.

(** A set of integers under [<] after the insertion of [xs], and a sequence
    of calls of every kind. *)
Definition zset (xs : list Z) : state Z := built id Z.ltb (inserts false xs).

Definition sample_ops : list (op Z Z) :=
  [InsertMulti 2%Z; InsertMulti 1%Z; InsertMulti 3%Z; InsertMultiHint 1 2%Z;
   EraseUnique 1%Z; InsertUniqueHint 0 7%Z; Erase 1; EraseMulti 2%Z;
   InsertMulti 5%Z; EraseRange 0 1; EmplaceMulti 9%Z; EmplaceUnique 9%Z].

(** Two elements with the key [1] after [(0, 0)], under [fst_lt]. *)
Definition pair_tree : state (Z * Z) :=
  built id fst_lt [InsertMulti (0, 0)%Z; InsertMulti (1, 0)%Z].

(** A multiset of integers after the insertion of [xs], and a map from
    integers to integers after the insertion of the pairs [xs]. *)
Definition zmulti (xs : list Z) : state Z := built id Z.ltb (inserts true xs).

Definition zmap (xs : list (Z * Z)) : state (Z * Z) :=
  built fst Z.ltb (inserts false xs).

(** ** The abstraction: trees of addressed nodes *)

Section abstraction.
Context {T : Type}.
Implicit Types (t l r s : atree T) (h : heap T) (ctx : list (frame T)).

End abstraction.

Lemma fuel_of_eq {T} (h : heap T) : fuel_of h = S (base.size h).
Proof. done. Qed.

Lemma ctx_addrs_cons {T} (f : frame T) ctx :
  ctx_addrs (f :: ctx) = frame_addrs f ++ ctx_addrs ctx.
Proof. done. Qed.
Lemma ctx_addrs_nil {T} : ctx_addrs (T:=T) [] = [].
Proof. done. Qed.
Lemma ctx_addrs_app {T} (ctx1 ctx2 : list (frame T)) :
  ctx_addrs (ctx1 ++ ctx2) = ctx_addrs ctx1 ++ ctx_addrs ctx2.
Proof. unfold ctx_addrs. by rewrite map_app, concat_app. Qed.

(** ** Separation of address lists *)

Section disj.
Implicit Types (l k : list addr) (a b : addr).

Lemma disj_sym l k : disj l k → disj k l.
Proof. intros H x Hk Hl. by eapply H. Qed.
Lemma disj_nil_l k : disj [] k.
Proof. intros x Hx. by apply elem_of_nil in Hx. Qed.
Lemma disj_nil_r l : disj l [].
Proof. intros x _ Hx. by apply elem_of_nil in Hx. Qed.
Lemma disj_cons_l a l k : disj (a :: l) k ↔ (a ∉ k) ∧ disj l k.
Proof.
  unfold disj. split.
  - intros H. split; [apply H; left|intros x ?; apply H; by right].
  - intros [? H] x [->|?]%elem_of_cons; auto.
Qed.
Lemma disj_app_l l1 l2 k : disj (l1 ++ l2) k ↔ disj l1 k ∧ disj l2 k.
Proof.
  unfold disj. split.
  - intros H. split; intros x ?; apply H, elem_of_app; auto.
  - intros [? ?] x [?|?]%elem_of_app; auto.
Qed.
Lemma disj_cons_r a l k : disj l (a :: k) ↔ (a ∉ l) ∧ disj l k.
Proof.
  split.
  - intros H%disj_sym%disj_cons_l. destruct H. split; [done|by apply disj_sym].
  - intros [? H%disj_sym]. apply disj_sym, disj_cons_l. done.
Qed.
Lemma disj_app_r l k1 k2 : disj l (k1 ++ k2) ↔ disj l k1 ∧ disj l k2.
Proof.
  split.
  - intros H%disj_sym%disj_app_l. destruct H. split; by apply disj_sym.
  - intros [?%disj_sym ?%disj_sym]. by apply disj_sym, disj_app_l.
Qed.
Lemma NoDup_app_disj l k : NoDup (l ++ k) ↔ NoDup l ∧ disj l k ∧ NoDup k.
Proof. apply NoDup_app. Qed.
Lemma disj_elem l k a : disj l k → a ∈ l → a ∉ k.
Proof. intros H. apply H. Qed.
Lemma disj_elem_r l k a : disj l k → a ∈ k → a ∉ l.
Proof. intros H%disj_sym. apply H. Qed.
Lemma elem_ne a b l : a ∈ l → b ∉ l → a ≠ b.
Proof. intros ? ? ->. done. Qed.
Lemma elem_ne_r a b l : a ∈ l → b ∉ l → b ≠ a.
Proof. intros ? ? ->. done. Qed.
Lemma disj_option_list_l (p : ptr) l k :
  (∀ a, p = Some a → a ∈ l) → disj l k → disj (option_list p) k.
Proof.
  intros Hp H. destruct p as [a|]; simpl; [|apply disj_nil_l].
  apply disj_cons_l. split; [|apply disj_nil_l]. apply H; auto.
Qed.
End disj.

Global Opaque disj ctx_addrs fuel_of.

(** Take the [NoDup] and separation hypotheses apart, down to facts about
    single addresses and whole subtrees. *)
Ltac sep_split :=
  repeat match goal with
  | H : NoDup (_ :: _) |- _ => apply NoDup_cons in H as [? ?]
  | H : NoDup (_ ++ _) |- _ => apply NoDup_app_disj in H as (? & ? & ?)
  | H : NoDup [] |- _ => clear H
  | H : _ ∉ _ :: _ |- _ => apply not_elem_of_cons in H as [? ?]
  | H : _ ∉ _ ++ _ |- _ => apply not_elem_of_app in H as [? ?]
  | H : _ ∉ [] |- _ => clear H
  | H : disj (_ :: _) _ |- _ => apply disj_cons_l in H as [? ?]
  | H : disj (_ ++ _) _ |- _ => apply disj_app_l in H as [? ?]
  | H : disj _ (_ :: _) |- _ => apply disj_cons_r in H as [? ?]
  | H : disj _ (_ ++ _) |- _ => apply disj_app_r in H as [? ?]
  | H : disj [] _ |- _ => clear H
  | H : disj _ [] |- _ => clear H
  | H : context [ctx_addrs (_ :: _)] |- _ => rewrite ctx_addrs_cons in H; simpl in H
  | H : context [ctx_addrs []] |- _ => rewrite ctx_addrs_nil in H; simpl in H
  end.

(** Membership in a list given by its shape. *)
Ltac elem_tac :=
  first
    [ assumption
    | apply list_elem_of_here
    | apply list_elem_of_further; elem_tac
    | apply elem_of_app; left; elem_tac
    | apply elem_of_app; right; elem_tac ].

(** Separation goals from the facts left by [sep_split]. *)
Ltac sep_tac :=
  rewrite ?ctx_addrs_cons, ?ctx_addrs_nil; simpl;
  repeat match goal with
  | |- _ ∧ _ => split
  | |- _ ∉ [] => apply not_elem_of_nil
  | |- _ ∉ _ :: _ => apply not_elem_of_cons
  | |- _ ∉ _ ++ _ => apply not_elem_of_app
  | |- disj [] _ => apply disj_nil_l
  | |- disj _ [] => apply disj_nil_r
  | |- disj (_ :: _) _ => apply disj_cons_l
  | |- disj (_ ++ _) _ => apply disj_app_l
  | |- disj _ (_ :: _) => apply disj_cons_r
  | |- disj _ (_ ++ _) => apply disj_app_r
  | |- NoDup [] => apply NoDup_nil_2
  | |- NoDup (_ :: _) => apply NoDup_cons
  | |- NoDup (_ ++ _) => apply NoDup_app_disj
  end;
  first
    [ assumption
    | apply not_eq_sym; assumption
    | apply disj_sym; assumption
    | congruence
    | match goal with
      | H : disj ?l ?k |- ?a ∉ ?k => apply (disj_elem l k a H); elem_tac
      | H : disj ?l ?k |- ?a ∉ ?l => apply (disj_elem_r l k a H); elem_tac
      | H : ?a ∈ ?k |- ?a ∉ ?l => apply (disj_elem k l a); [sep_tac|exact H]
      | H : ?a ∈ ?l |- ?a ≠ ?b => apply (elem_ne a b l H); sep_tac
      | H : ?a ∈ ?l |- ?b ≠ ?a => apply (elem_ne_r a b l H); sep_tac
      end ].

Global Arguments wp : simpl never.
Global Arguments ctx_addrs : simpl never.
Global Arguments plug : simpl never.
Global Arguments ret : simpl never.
Global Arguments bind : simpl never.
Global Arguments fault : simpl never.
Global Arguments deref : simpl never.
Global Arguments update : simpl never.
Global Arguments with_fuel : simpl never.
Global Arguments fuel_of : simpl never.
Global Arguments get_parent : simpl never.
Global Arguments get_left : simpl never.
Global Arguments get_right : simpl never.
Global Arguments get_color : simpl never.
Global Arguments get_value : simpl never.
Global Arguments set_parent : simpl never.
Global Arguments set_left : simpl never.
Global Arguments set_right : simpl never.
Global Arguments set_color : simpl never.
Global Arguments read : simpl never.
Global Arguments write : simpl never.
Global Arguments rb_tree_min : simpl never.
Global Arguments rb_tree_max : simpl never.
Global Arguments rb_tree_is_lchild : simpl never.
Global Arguments rb_tree_is_red : simpl never.
Global Arguments rb_tree_set_black : simpl never.
Global Arguments rb_tree_set_red : simpl never.
Global Arguments rb_tree_next : simpl never.
Global Arguments replace_in_parent : simpl never.
Global Arguments rb_tree_rotate_left : simpl never.
Global Arguments rb_tree_rotate_right : simpl never.
Global Arguments get_grandparent : simpl never.
Global Arguments rb_tree_insert_rebalance : simpl never.
Global Arguments null_or_not_red : simpl never.
Global Arguments erase_relink_successor : simpl never.
Global Arguments erase_unlink_single : simpl never.
Global Arguments rb_tree_erase_rebalance : simpl never.
Global Arguments inc : simpl never.
Global Arguments dec : simpl never.
Global Arguments color_is : simpl never.
Global Arguments ptr_eqb : simpl never.
Global Arguments is_null : simpl never.
Global Arguments with_parent {T} q !n /.
Global Arguments with_left {T} q !n /.
Global Arguments with_right {T} q !n /.
Global Arguments with_color {T} c !n /.
Global Arguments with_value {T} v !n /.
Global Arguments same_outside : simpl never.

Section basics.
Context {T : Type}.
Implicit Types (t l r s : atree T) (h : heap T) (ctx : list (frame T)).

Lemma plug_nil t : plug [] t = t.
Proof. done. Qed.

Lemma plug_cons f ctx t : plug (f :: ctx) t = plug ctx (fill f t).
Proof. done. Qed.

Lemma plug_app ctx1 ctx2 t : plug (ctx1 ++ ctx2) t = plug ctx2 (plug ctx1 t).
Proof. unfold plug. by rewrite fold_left_app. Qed.

Lemma top_in t a : top t = Some a → a ∈ addrs t.
Proof. destruct t; simpl; [done|]. intros [= ->]. set_solver. Qed.

Lemma top_not_in t a : a ∉ addrs t → top t ≠ Some a.
Proof. intros Hn Ht. by apply Hn, top_in. Qed.

Lemma addrs_cells t : addrs t = (cells t).*1.
Proof.
  induction t as [|a c l IHl v r IHr]; simpl; [done|].
  by rewrite fmap_app, fmap_cons, IHl, IHr.
Qed.

Lemma addrs_fill_perm f t : addrs (fill f t) ≡ₚ frame_addrs f ++ addrs t.
Proof.
  destruct f; simpl.
  - apply Permutation_app_comm.
  - symmetry. apply Permutation_middle.
Qed.

Lemma addrs_plug_perm ctx t : addrs (plug ctx t) ≡ₚ ctx_addrs ctx ++ addrs t.
Proof.
  revert t. induction ctx as [|f ctx IH]; intros t; [done|].
  rewrite plug_cons, IH, addrs_fill_perm, ctx_addrs_cons.
  rewrite (assoc (++)). f_equiv. apply (comm (++)).
Qed.

(** *** Frame properties of the representation *)

Lemma rep_frame h par t a n :
  a ∉ addrs t → rep h par t → rep (<[a := n]> h) par t.
Proof.
  revert par. induction t as [|b c l IHl v r IHr]; intros par Hn; simpl; [done|].
  simpl in Hn. rewrite not_elem_of_app, not_elem_of_cons in Hn.
  destruct Hn as (? & ? & ?). intros (? & ? & ?).
  rewrite lookup_insert_ne by done. auto.
Qed.

Lemma rep_same_outside h h' S par t :
  same_outside S h h' → (∀ a, a ∈ addrs t → a ∉ S) →
  rep h par t → rep h' par t.
Proof.
  intros Hs. revert par.
  induction t as [|b c l IHl v r IHr]; intros par Hn; simpl; [done|].
  intros (? & ? & ?). split_and!.
  - rewrite Hs; [done|]. apply Hn. set_solver.
  - apply IHl; [|done]. intros; apply Hn; set_solver.
  - apply IHr; [|done]. intros; apply Hn; set_solver.
Qed.

Lemma ctx_rep_frame h hd L R ctx hole a n :
  a ≠ hd → a ∉ ctx_addrs ctx →
  ctx_rep h hd L R ctx hole → ctx_rep (<[a := n]> h) hd L R ctx hole.
Proof.
  intros Hhd. revert hole.
  induction ctx as [|f ctx IH]; intros hole Hn; simpl.
  - intros ?. by rewrite lookup_insert_ne.
  - rewrite ctx_addrs_cons in Hn. rewrite not_elem_of_app in Hn.
    destruct Hn as [Hf Hc].
    destruct f; simpl in Hf; rewrite not_elem_of_cons in Hf;
      destruct Hf as [? ?]; intros (? & ? & ?);
      (split_and!; [by rewrite lookup_insert_ne|by apply rep_frame|by apply IH]).
Qed.

Lemma ctx_rep_same_outside h h' S hd L R ctx hole :
  same_outside S h h' → hd ∉ S → (∀ a, a ∈ ctx_addrs ctx → a ∉ S) →
  ctx_rep h hd L R ctx hole → ctx_rep h' hd L R ctx hole.
Proof.
  intros Hs Hhd. revert hole.
  induction ctx as [|f ctx IH]; intros hole Hn; simpl.
  - intros ?. by rewrite Hs.
  - rewrite ctx_addrs_cons in Hn.
    assert (∀ a, a ∈ ctx_addrs ctx → a ∉ S) by (intros; apply Hn; set_solver).
    destruct f; simpl in Hn; intros (? & ? & ?).
    + split_and!; [rewrite Hs; [done|apply Hn; set_solver]| |by apply IH].
      eapply rep_same_outside; [done| |done]. intros; apply Hn; set_solver.
    + split_and!; [rewrite Hs; [done|apply Hn; set_solver]| |by apply IH].
      eapply rep_same_outside; [done| |done]. intros; apply Hn; set_solver.
Qed.

(** Redirecting the link at the hole touches the owner of that link only. *)
Lemma ctx_rep_hole h hd L R ctx hole :
  ctx_rep h hd L R ctx hole → ∃ n, h !! default hd (ctx_par hd ctx) = Some n.
Proof. destruct ctx as [|[] ?]; simpl; naive_solver. Qed.

(** *** The focused and the whole representation *)

Lemma rep_plug h hd L R ctx s :
  ctx_rep h hd L R ctx (top s) ∧ rep h (ctx_par hd ctx) s
  ↔ h !! hd = Some (Node (top (plug ctx s)) L R rb_tree_red None)
    ∧ rep h (Some hd) (plug ctx s).
Proof.
  revert s. induction ctx as [|f ctx IH]; intros s; [done|].
  rewrite plug_cons, <-IH. destruct f; simpl; naive_solver.
Qed.

Lemma focus_tree_rep h hd L R ctx s :
  focus_rep h hd L R ctx s ↔ tree_rep h hd L R (plug ctx s).
Proof.
  unfold focus_rep, tree_rep.
  rewrite (assoc (∧) (_ !! _ = _)), <-rep_plug.
  rewrite !NoDup_cons, addrs_plug_perm. naive_solver.
Qed.

(** *** Running node algorithms *)

Lemma wp_ret {A} (a : A) h Q : Q a h → wp (ret a) h Q.
Proof. by exists a, h. Qed.

Lemma wp_bind {A B} (m : M A) (k : A → M B) h Q :
  wp m h (λ a h', wp (k a) h' Q) → wp (let* x := m in k x) h Q.
Proof.
  intros (a & h' & Hm & b & h'' & Hk & HQ). exists b, h''.
  unfold bind. by rewrite Hm.
Qed.

Lemma wp_mono {A} (m : M A) h (Q Q' : A → heap T → Prop) :
  wp m h Q → (∀ a h', Q a h' → Q' a h') → wp m h Q'.
Proof. intros (a & h' & ? & ?) HQ. exists a, h'. auto. Qed.

Lemma wp_eq {A} (m : M A) h a h' Q :
  m h = Some (a, h') → Q a h' → wp m h Q.
Proof. intros. by exists a, h'. Qed.

Lemma wp_inv {A} (m : M A) h Q :
  wp m h Q → ∃ a h', m h = Some (a, h') ∧ Q a h'.
Proof. done. Qed.

Lemma wp_deref h a n Q :
  h !! a = Some n → Q n h → wp (deref (Some a)) h Q.
Proof. intros Hl HQ. exists n, h. unfold deref. by rewrite Hl. Qed.

Lemma wp_get_parent h a n Q :
  h !! a = Some n → Q (parent n) h → wp (get_parent (Some a)) h Q.
Proof. intros Hl HQ. exists (parent n), h. unfold get_parent, bind, deref. by rewrite Hl. Qed.
Lemma wp_get_left h a n Q :
  h !! a = Some n → Q (left n) h → wp (get_left (Some a)) h Q.
Proof. intros Hl HQ. exists (left n), h. unfold get_left, bind, deref. by rewrite Hl. Qed.
Lemma wp_get_right h a n Q :
  h !! a = Some n → Q (right n) h → wp (get_right (Some a)) h Q.
Proof. intros Hl HQ. exists (right n), h. unfold get_right, bind, deref. by rewrite Hl. Qed.
Lemma wp_get_color h a n Q :
  h !! a = Some n → Q (color n) h → wp (get_color (Some a)) h Q.
Proof. intros Hl HQ. exists (color n), h. unfold get_color, bind, deref. by rewrite Hl. Qed.
Lemma wp_get_value h a n v Q :
  h !! a = Some n → value n = Some v → Q v h → wp (get_value (Some a)) h Q.
Proof.
  intros Hl Hv HQ. exists v, h. unfold get_value, bind, deref.
  by rewrite Hl, Hv.
Qed.

Lemma wp_update h a n f Q :
  h !! a = Some n → Q tt (<[a := f n]> h) → wp (update (Some a) f) h Q.
Proof. intros Hl HQ. exists tt, (<[a := f n]> h). unfold update. by rewrite Hl. Qed.

Lemma wp_set_parent h a n q Q :
  h !! a = Some n → Q tt (<[a := with_parent q n]> h) →
  wp (set_parent (Some a) q) h Q.
Proof. apply wp_update. Qed.
Lemma wp_set_left h a n q Q :
  h !! a = Some n → Q tt (<[a := with_left q n]> h) →
  wp (set_left (Some a) q) h Q.
Proof. apply wp_update. Qed.
Lemma wp_set_right h a n q Q :
  h !! a = Some n → Q tt (<[a := with_right q n]> h) →
  wp (set_right (Some a) q) h Q.
Proof. apply wp_update. Qed.
Lemma wp_set_color h a n c Q :
  h !! a = Some n → Q tt (<[a := with_color c n]> h) →
  wp (set_color (Some a) c) h Q.
Proof. apply wp_update. Qed.

Lemma wp_with_fuel {A} (f : nat → M A) h Q :
  wp (f (fuel_of h)) h Q → wp (with_fuel f) h Q.
Proof. done. Qed.

Lemma ptr_eqb_refl (p : ptr) : ptr_eqb p p = true.
Proof. by apply bool_decide_eq_true. Qed.
Lemma ptr_eqb_ne (p q : ptr) : p ≠ q → ptr_eqb p q = false.
Proof. by apply bool_decide_eq_false. Qed.
Lemma ptr_eqb_some_ne (a b : addr) : a ≠ b → ptr_eqb (Some a) (Some b) = false.
Proof. intros. apply ptr_eqb_ne. congruence. Qed.
Lemma is_null_some (a : addr) : is_null (Some a) = false.
Proof. done. Qed.
Lemma is_null_none : is_null None = true.
Proof. done. Qed.
Lemma color_is_refl c : color_is c c = true.
Proof. by apply bool_decide_eq_true. Qed.
Lemma color_is_black_red : color_is rb_tree_black rb_tree_red = false.
Proof. done. Qed.
Lemma color_is_red_black : color_is rb_tree_red rb_tree_black = false.
Proof. done. Qed.
Lemma color_is_true c d : color_is c d = true → c = d.
Proof. apply bool_decide_eq_true. Qed.
Lemma color_is_red_false c : color_is c rb_tree_red = false → c = rb_tree_black.
Proof. by destruct c. Qed.
Lemma color_is_black_false c : color_is c rb_tree_black = false → c = rb_tree_red.
Proof. by destruct c. Qed.
Lemma is_null_top t : is_null (top t) = match t with Leaf => true | _ => false end.
Proof. by destruct t. Qed.
End basics.

(** ** Running the node algorithms on a represented tree *)

(** Resolve a lookup in a store built by successive writes. *)
Ltac lookup_tac :=
  repeat first
    [ rewrite lookup_insert_eq
    | rewrite lookup_insert_ne by (first [done | congruence]) ];
  first [eassumption | reflexivity].

(** Unfold a helper in the statement at the head only. *)
Ltac wp_unfold f :=
  lazymatch goal with
  | |- wp ?m ?h ?Q => let m' := eval unfold f in m in change (wp m' h Q)
  end.

(** One statement of a node algorithm. *)
Ltac wp_step :=
  lazymatch goal with
  | |- wp (bind _ _) _ _ => apply wp_bind
  | |- wp (ret _) _ _ => apply wp_ret
  | |- wp (get_parent (Some _)) _ _ => eapply wp_get_parent; [lookup_tac|]
  | |- wp (get_left (Some _)) _ _ => eapply wp_get_left; [lookup_tac|]
  | |- wp (get_right (Some _)) _ _ => eapply wp_get_right; [lookup_tac|]
  | |- wp (get_color (Some _)) _ _ => eapply wp_get_color; [lookup_tac|]
  | |- wp (get_value (Some _)) _ _ => eapply wp_get_value; [lookup_tac|done|]
  | |- wp (set_parent (Some _) _) _ _ => eapply wp_set_parent; [lookup_tac|]
  | |- wp (set_left (Some _) _) _ _ => eapply wp_set_left; [lookup_tac|]
  | |- wp (set_right (Some _) _) _ _ => eapply wp_set_right; [lookup_tac|]
  | |- wp (set_color (Some _) _) _ _ => eapply wp_set_color; [lookup_tac|]
  | |- wp (with_fuel _) _ _ => apply wp_with_fuel
  | |- wp (rb_tree_is_red (Some _)) _ _ => wp_unfold @rb_tree_is_red
  | |- wp (rb_tree_is_red None) _ _ => wp_unfold @rb_tree_is_red
  | |- wp (rb_tree_set_black (Some _)) _ _ => wp_unfold @rb_tree_set_black
  | |- wp (rb_tree_set_black None) _ _ => wp_unfold @rb_tree_set_black
  | |- wp (rb_tree_set_red (Some _)) _ _ => wp_unfold @rb_tree_set_red
  | |- wp (rb_tree_set_red None) _ _ => wp_unfold @rb_tree_set_red
  | |- wp (rb_tree_is_lchild (Some _)) _ _ => wp_unfold @rb_tree_is_lchild
  | |- wp (get_grandparent (Some _)) _ _ => wp_unfold @get_grandparent
  | |- wp (null_or_not_red (Some _)) _ _ => wp_unfold @null_or_not_red
  | |- wp (null_or_not_red None) _ _ => wp_unfold @null_or_not_red
  | |- wp (read (RParent _)) _ _ => wp_unfold @read
  | |- wp (read (RLeft _)) _ _ => wp_unfold @read
  | |- wp (read (RRight _)) _ _ => wp_unfold @read
  | |- wp (write (RParent _) _) _ _ => wp_unfold @write
  | |- wp (write (RLeft _) _) _ _ => wp_unfold @write
  | |- wp (write (RRight _) _) _ _ => wp_unfold @write
  | |- wp (if ?b then _ else _) _ _ =>
      match b with
      | context [is_null (Some ?a)] => rewrite (is_null_some a)
      | context [is_null None] => rewrite is_null_none
      | context [ptr_eqb ?p ?p] => rewrite (ptr_eqb_refl p)
      | context [ptr_eqb (Some ?a) (Some ?b)] =>
          rewrite (ptr_eqb_some_ne a b) by sep_tac
      | context [ptr_eqb (Some ?a) (top ?t)] =>
          rewrite (ptr_eqb_ne (Some a) (top t))
            by (apply not_eq_sym, top_not_in; sep_tac)
      | context [ptr_eqb (top ?t) (Some ?a)] =>
          rewrite (ptr_eqb_ne (top t) (Some a)) by (apply top_not_in; sep_tac)
      | context [ptr_eqb (Some ?a) None] =>
          rewrite (ptr_eqb_ne (Some a) None) by done
      | context [ptr_eqb None (Some ?a)] =>
          rewrite (ptr_eqb_ne None (Some a)) by done
      end
  end; simpl;
  rewrite ?color_is_refl, ?color_is_black_red, ?color_is_red_black.

Ltac wp_steps := repeat wp_step.

(** Carry a representation over writes at other addresses. *)
Ltac rep_tac :=
  repeat first
    [ assumption
    | apply rep_frame; [sep_tac|]
    | apply ctx_rep_frame; [sep_tac|sep_tac|] ].

(** Establish a representation in a store built by successive writes. *)
Ltac focus_tac :=
  unfold focus_rep; simpl; split_and!;
  first [ done | lookup_tac | solve [rep_tac] | solve [sep_tac] ].

Ltac same_outside_tac :=
  let a := fresh "a" in let Ha := fresh "Ha" in
  intros a Ha; simpl in Ha; sep_split;
  repeat first
    [ rewrite lookup_insert_ne by (first [done | congruence | sep_tac])
    | match goal with
      | H : same_outside _ _ ?h' |- ?h' !! _ = _ =>
          rewrite (H a) by (simpl; sep_tac)
      end ];
  try done.

Section rotations.
Context {T : Type}.
Implicit Types (t l r s : atree T) (h : heap T) (ctx : list (frame T)).

(** [if (p != nullptr) p->parent = q] on the root of a subtree. *)
Lemma wp_reparent h par t q Q :
  rep h par t → NoDup (addrs t) →
  (∀ h', rep h' q t → same_outside (option_list (top t)) h h' → Q tt h') →
  wp (if negb (is_null (top t)) then set_parent (top t) q else ret tt) h Q.
Proof.
  intros Hrep Hnd HQ. destruct t as [|a c l v r]; simpl.
  - apply wp_ret, HQ; [done|]. by intros ?.
  - destruct Hrep as (Ha & Hl & Hr).
    simpl in Hnd. sep_split.
    eapply wp_set_parent; [done|]. apply HQ.
    + simpl. rewrite lookup_insert_eq. split_and!; [done| |].
      * by apply rep_frame.
      * by apply rep_frame.
    + intros b Hb. simpl in Hb. rewrite lookup_insert_ne; [done|]. set_solver.
Qed.
End rotations.

Section rotations2.
Context {T : Type}.
Implicit Types (t l r s : atree T) (h : heap T) (ctx : list (frame T)).

Lemma ctx_root_cons f ctx hole :
  ctx_root (f :: ctx) hole = ctx_root ctx (Some (frame_addr f)).
Proof.
  unfold ctx_root. destruct ctx as [|f0 ctx]; [done|].
  rewrite last_cons_cons.
  destruct (last (f0 :: ctx)) eqn:E; [done|]. by apply last_None in E.
Qed.

Lemma ctx_rep_header h hd L R ctx hole :
  ctx_rep h hd L R ctx hole →
  h !! hd = Some (Node (ctx_root ctx hole) L R rb_tree_red None).
Proof.
  revert hole. induction ctx as [|f ctx IH]; intros hole; [done|].
  rewrite ctx_root_cons. destruct f; simpl; intros (_ & _ & ?); by apply IH.
Qed.

Lemma ctx_root_in ctx hole :
  ctx ≠ [] → ∃ a, ctx_root ctx hole = Some a ∧ a ∈ ctx_addrs ctx.
Proof.
  unfold ctx_root. intros Hne.
  destruct (last ctx) as [f|] eqn:Hl; [|by apply last_None in Hl].
  exists (frame_addr f). split; [done|].
  apply last_Some in Hl as [ctx' ->].
  rewrite ctx_addrs_app, ctx_addrs_cons, ctx_addrs_nil.
  destruct f; set_solver.
Qed.

(** The link at the hole is redirected: one node, the owner of the link,
    changes. *)
Lemma wp_replace_in_parent h hd L R ctx x nx y Q :
  ctx_rep h hd L R ctx (Some x) →
  h !! x = Some nx → parent nx = ctx_par hd ctx →
  NoDup (hd :: x :: ctx_addrs ctx) →
  (∀ o no no', h !! o = Some no → o ∈ hd :: ctx_addrs ctx →
     ctx_par hd ctx = Some o →
     ctx_rep (<[o := no']> h) hd L R ctx y → Q tt (<[o := no']> h)) →
  wp (replace_in_parent (Some x) y (RParent (Some hd))) h Q.
Proof.
  intros Hctx Hx Hpar Hnd HQ. unfold replace_in_parent.
  destruct nx as [px lx rx cx vx]; simpl in Hpar; subst px.
  pose proof (ctx_rep_header _ _ _ _ _ _ Hctx) as Hhd.
  destruct ctx as [|f ctx].
  - clear Hhd. simpl in *. wp_steps.
    eapply HQ; [done|elem_tac|done|]. simpl. by rewrite lookup_insert_eq.
  - destruct (ctx_root_in (f :: ctx) (Some x)) as (a & Ha & Hain); [done|].
    rewrite Ha in Hhd. simpl.
    rewrite ctx_addrs_cons in Hnd, Hain. sep_split.
    destruct f as [p c v r|p c l v]; simpl in *; sep_split;
      destruct Hctx as (Hp & Hr & Hc); wp_steps.
    + eapply HQ; [done|elem_tac|done|]. simpl.
      rewrite lookup_insert_eq. split_and!; [done| |].
      * by apply rep_frame.
      * apply ctx_rep_frame; [sep_tac|sep_tac|done].
    + eapply HQ; [done|elem_tac|done|]. simpl.
      rewrite lookup_insert_eq. split_and!; [done| |].
      * by apply rep_frame.
      * apply ctx_rep_frame; [sep_tac|sep_tac|done].
Qed.

Lemma wp_rotate_left h hd L R ctx x cx a vx y cy b vy c Q :
  focus_rep h hd L R ctx (Br x cx a vx (Br y cy b vy c)) →
  (∀ h', focus_rep h' hd L R ctx (Br y cy (Br x cx a vx b) vy c) →
         same_outside (hd :: ctx_addrs ctx ++ addrs (Br x cx a vx (Br y cy b vy c))) h h' →
         Q tt h') →
  wp (rb_tree_rotate_left (Some x) (RParent (Some hd))) h Q.
Proof.
  intros (Hctx & Hrep & Hnd) HQ. unfold rb_tree_rotate_left.
  simpl in Hrep, Hctx, Hnd.
  destruct Hrep as (Hx & Ha & Hy & Hb & Hc).
  destruct b as [|b0 cb bl vb br]; simpl in *; sep_split;
    [|destruct Hb as (Hb0 & Hbl & Hbr)].
  - wp_steps.
    eapply (wp_replace_in_parent _ hd L R ctx); [rep_tac|lookup_tac|done|sep_tac|].
    intros o no no' Ho Hin Hpar Hctx'.
    assert (o ≠ x ∧ o ≠ y) as [? ?] by sep_tac.
    wp_steps. apply HQ.
    + focus_tac.
    + same_outside_tac.
  - wp_steps.
    eapply (wp_replace_in_parent _ hd L R ctx); [rep_tac|lookup_tac|done|sep_tac|].
    intros o no no' Ho Hin Hpar Hctx'.
    assert (o ≠ x ∧ o ≠ y ∧ o ≠ b0) as (? & ? & ?) by sep_tac.
    wp_steps. apply HQ.
    + focus_tac.
    + same_outside_tac.
Qed.

Lemma wp_rotate_right h hd L R ctx x cx a vx y cy b vy c Q :
  focus_rep h hd L R ctx (Br x cx (Br y cy a vy b) vx c) →
  (∀ h', focus_rep h' hd L R ctx (Br y cy a vy (Br x cx b vx c)) →
         same_outside (hd :: ctx_addrs ctx ++ addrs (Br x cx (Br y cy a vy b) vx c)) h h' →
         Q tt h') →
  wp (rb_tree_rotate_right (Some x) (RParent (Some hd))) h Q.
Proof.
  intros (Hctx & Hrep & Hnd) HQ. unfold rb_tree_rotate_right.
  simpl in Hrep, Hctx, Hnd.
  destruct Hrep as (Hx & (Hy & Ha & Hb) & Hc).
  destruct b as [|b0 cb bl vb br]; simpl in *; sep_split;
    [|destruct Hb as (Hb0 & Hbl & Hbr)].
  - wp_steps.
    eapply (wp_replace_in_parent _ hd L R ctx); [rep_tac|lookup_tac|done|sep_tac|].
    intros o no no' Ho Hin Hpar Hctx'.
    assert (o ≠ x ∧ o ≠ y) as [? ?] by sep_tac.
    wp_steps. apply HQ.
    + focus_tac.
    + same_outside_tac.
  - wp_steps.
    eapply (wp_replace_in_parent _ hd L R ctx); [rep_tac|lookup_tac|done|sep_tac|].
    intros o no no' Ho Hin Hpar Hctx'.
    assert (o ≠ x ∧ o ≠ y ∧ o ≠ b0) as (? & ? & ?) by sep_tac.
    wp_steps. apply HQ.
    + focus_tac.
    + same_outside_tac.
Qed.

Lemma focus_rep_up h hd L R f ctx s :
  focus_rep h hd L R (f :: ctx) s ↔ focus_rep h hd L R ctx (fill f s).
Proof. by rewrite !focus_tree_rep. Qed.
End rotations2.

Section functional_facts.
Context {T : Type}.
Implicit Types (t l r s u : atree T) (ctx : list (frame T)).

Lemma cells_fill f t :
  cells (fill f t)
  = match f with
    | FL a _ v r => cells t ++ (a, v) :: cells r
    | FR a _ l v => cells l ++ (a, v) :: cells t
    end.
Proof. by destruct f. Qed.

Lemma cells_plug ctx t :
  cells (plug ctx t) = ctx_before ctx ++ cells t ++ ctx_after ctx.
Proof.
  revert t. induction ctx as [|f ctx IH]; intros t; simpl.
  - by rewrite app_nil_r.
  - rewrite plug_cons, IH. destruct f; simpl; by simplify_list_eq.
Qed.

Lemma ctx_before_app ctx1 ctx2 :
  ctx_before (ctx1 ++ ctx2) = ctx_before ctx2 ++ ctx_before ctx1.
Proof.
  induction ctx1 as [|f ctx1 IH]; simpl; [by rewrite app_nil_r|].
  destruct f; [done|]. rewrite IH. by rewrite <-(assoc (++)).
Qed.

Lemma ctx_after_app ctx1 ctx2 :
  ctx_after (ctx1 ++ ctx2) = ctx_after ctx1 ++ ctx_after ctx2.
Proof.
  induction ctx1 as [|f ctx1 IH]; simpl; [done|].
  destruct f; [|done]. rewrite IH. by simplify_list_eq.
Qed.

Lemma cells_set_color c t : cells (set_color_t c t) = cells t.
Proof. by destruct t. Qed.

Lemma addrs_set_color c t : addrs (set_color_t c t) = addrs t.
Proof. by destruct t. Qed.

Lemma fill_set_frame_color_cells c f t :
  cells (fill (set_frame_color c f) t) = cells (fill f t).
Proof. by destruct f. Qed.

(** The loop only rotates and recolours: the in-order sequence stays. *)
Lemma insert_fix_cells ctx s t' :
  insert_fix ctx s = Some t' → cells t' = cells (plug ctx s).
Proof.
  remember (length ctx) as k eqn:Hk. revert ctx s Hk.
  induction k as [k IH] using lt_wf_ind. intros ctx s -> Hfix.
  destruct ctx as [|p [|g ctx'']]; simpl in Hfix.
  - by injection Hfix as <-.
  - destruct (color_is _ _); [done|]. by injection Hfix as <-.
  - destruct (color_is (frame_color p) rb_tree_red); [|by injection Hfix as <-].
    rewrite !plug_cons, !cells_plug.
    destruct g as [g cg vg u|g cg u vg].
    + destruct (is_red_t u).
      * apply (IH (length ctx'') ltac:(simpl; lia) ctx'' _ eq_refl) in Hfix.
        rewrite Hfix, cells_plug.
        simpl. by rewrite cells_set_color, fill_set_frame_color_cells.
      * destruct p as [p cp vp pr|p cp pl vp]; [|destruct s as [|x cx xl vx xr]; [done|]];
          injection Hfix as <-; rewrite cells_plug; simpl; by simplify_list_eq.
    + destruct (is_red_t u).
      * apply (IH (length ctx'') ltac:(simpl; lia) ctx'' _ eq_refl) in Hfix.
        rewrite Hfix, cells_plug.
        simpl. by rewrite cells_set_color, fill_set_frame_color_cells.
      * destruct p as [p cp vp pr|p cp pl vp]; [destruct s as [|x cx xl vx xr]; [done|]|];
          injection Hfix as <-; rewrite cells_plug; simpl; by simplify_list_eq.
Qed.

Lemma insert_rebalance_cells ctx s t' :
  insert_rebalance_t ctx s = Some t' → cells t' = cells (plug ctx s).
Proof.
  unfold insert_rebalance_t. intros Hfix.
  destruct (insert_fix _ _) as [t''|] eqn:Ht; [|done].
  injection Hfix as <-. apply insert_fix_cells in Ht.
  rewrite cells_set_color, Ht, !cells_plug. by rewrite cells_set_color.
Qed.

(** *** Red-black invariants *)

Lemma rb_set_black n t : rb n t → ∃ m, rb m (set_color_t rb_tree_black t).
Proof.
  destruct t as [|a c l v r]; simpl; [eauto|].
  destruct (color_is c rb_tree_red) eqn:Hc.
  - intros (_ & _ & ? & ?). exists (S n). done.
  - destruct n as [|m]; [done|]. intros [? ?]. exists (S m). done.
Qed.

Lemma is_red_set_black t : is_red_t (set_color_t rb_tree_black t) = false.
Proof. by destruct t. Qed.

Lemma rb_red_node n a l v r :
  rb n (Br a rb_tree_red l v r)
  ↔ is_red_t l = false ∧ is_red_t r = false ∧ rb n l ∧ rb n r.
Proof. done. Qed.

Lemma rb_black_node n a l v r :
  rb (S n) (Br a rb_tree_black l v r) ↔ rb n l ∧ rb n r.
Proof. done. Qed.

Lemma rb_plug n ctx s :
  rb_ctx n ctx → rb n s → hole_ok ctx s →
  ∃ m, rb m (plug ctx s) ∧ (ctx ≠ [] → root_black (plug ctx s)).
Proof.
  revert n s. induction ctx as [|f ctx IH]; intros n s Hctx Hs Hok; simpl.
  { exists n. done. }
  simpl in Hctx. destruct Hctx as [Hsib Hctx]. rewrite plug_cons.
  destruct (color_is (frame_color f) rb_tree_red) eqn:Hc.
  - apply color_is_true in Hc. destruct Hctx as (Hsr & Hg & Hctx).
    destruct ctx as [|g ctx]; [done|].
    destruct (IH n (fill f s)) as (m & Hm & Hroot); [done| | |].
    + destruct f; simpl in *; subst; simpl; unfold root_black in Hok; naive_solver.
    + simpl. intros Hgr. rewrite Hg in Hgr. done.
    + exists m. split; [done|]. intros _. by apply Hroot.
  - apply color_is_red_false in Hc.
    destruct (IH (S n) (fill f s)) as (m & Hm & Hroot); [done| | |].
    + destruct f; simpl in *; subst; simpl; done.
    + destruct ctx as [|g ctx]; [done|]. simpl. intros _.
      destruct f; simpl in *; by subst.
    + exists m. split; [done|]. intros _.
      destruct ctx as [|g ctx]; [|by apply Hroot].
      destruct f; simpl in *; by subst.
Qed.

Lemma rb_plug_inv m ctx s :
  rb m (plug ctx s) → root_black (plug ctx s) →
  ∃ n, rb_ctx n ctx ∧ rb n s ∧ hole_ok ctx s ∧ (ctx = [] → root_black s).
Proof.
  revert s. induction ctx as [|f ctx IH]; intros s Hrb Hroot.
  { exists m. done. }
  rewrite plug_cons in Hrb, Hroot.
  destruct (IH _ Hrb Hroot) as (n' & Hctx & Hfs & Hok & Hnil).
  destruct f as [a c v r|a c l v]; simpl in Hfs;
    destruct (color_is c rb_tree_red) eqn:Hc.
  - destruct Hfs as (Hs & Hr & Hns & Hnr). exists n'. simpl. rewrite Hc.
    apply color_is_true in Hc as ->.
    split_and!; try done.
    destruct ctx as [|g ctx]; [by specialize (Hnil eq_refl)|].
    simpl in Hok. destruct (frame_color g); [done|]. by specialize (Hok eq_refl).
  - destruct n' as [|n]; [done|]. destruct Hfs as [Hns Hnr].
    exists n. simpl. rewrite Hc. apply color_is_red_false in Hc as ->.
    split_and!; done.
  - destruct Hfs as (Hl & Hs & Hnl & Hns). exists n'. simpl. rewrite Hc.
    apply color_is_true in Hc as ->.
    split_and!; try done.
    destruct ctx as [|g ctx]; [by specialize (Hnil eq_refl)|].
    simpl in Hok. destruct (frame_color g); [done|]. by specialize (Hok eq_refl).
  - destruct n' as [|n]; [done|]. destruct Hfs as [Hnl Hns].
    exists n. simpl. rewrite Hc. apply color_is_red_false in Hc as ->.
    split_and!; done.
Qed.

(** The loop restores the invariants around a red node whose subtrees
    are in order. *)
Lemma insert_fix_rb n ctx x xl vx xr :
  rb_ctx n ctx → rb n (Br x rb_tree_red xl vx xr) →
  ∃ t', insert_fix ctx (Br x rb_tree_red xl vx xr) = Some t'
        ∧ ∃ m, rb m (set_color_t rb_tree_black t').
Proof.
  remember (length ctx) as k eqn:Hk. revert n ctx x xl vx xr Hk.
  induction k as [k IH] using lt_wf_ind. intros n ctx x xl vx xr -> Hctx Hs.
  destruct ctx as [|p ctx']; simpl.
  { eexists; split; [done|]. by eapply rb_set_black. }
  simpl in Hctx. destruct Hctx as [Hsib Hctx].
  destruct (color_is (frame_color p) rb_tree_red) eqn:Hp.
  2:{ eexists; split; [done|].
      destruct (rb_plug n (p :: ctx') (Br x rb_tree_red xl vx xr)) as (m & Hm & _).
      - simpl. by rewrite Hp.
      - done.
      - simpl. apply color_is_red_false in Hp. rewrite Hp. done.
      - by eapply rb_set_black. }
  destruct Hctx as (Hsr & Hg & Hctx).
  destruct ctx' as [|g ctx'']; [done|]. simpl in Hctx.
  destruct Hctx as [Hu Hctx]. rewrite Hg in Hctx.
  rewrite color_is_black_red in Hctx.
  apply rb_red_node in Hs as (Hxl & Hxr & Hnl & Hnr).
  destruct g as [g cg vg u|g cg u vg]; simpl in Hg; subst cg.
  - destruct (is_red_t u) eqn:Hur.
    + destruct u as [|u0 cu ul vu ur]; [done|]. simpl in Hur.
      apply color_is_true in Hur as ->. apply rb_red_node in Hu as (? & ? & ? & ?).
      eapply (IH (length ctx'') ltac:(simpl; lia) (S n) ctx''); [done|done|].
      apply rb_red_node. simpl. split_and!; try done.
      * by destruct p.
      * destruct p; simpl in *; apply color_is_true in Hp; subst; simpl; done.
    + destruct p as [p cp vp pr|p cp pl vp]; simpl in Hp;
        apply color_is_true in Hp as ->; simpl in Hsib, Hsr.
      * eexists; split; [done|].
        destruct (rb_plug (S n) ctx''
          (Br p rb_tree_black (Br x rb_tree_red xl vx xr) vp
             (Br g rb_tree_red pr vg u))) as (m & Hm & _); [done| | |].
        -- simpl. done.
        -- by destruct ctx''.
        -- by eapply rb_set_black.
      * eexists; split; [done|].
        destruct (rb_plug (S n) ctx''
          (Br x rb_tree_black (Br p rb_tree_red pl vp xl) vx
             (Br g rb_tree_red xr vg u))) as (m & Hm & _); [done| | |].
        -- simpl. done.
        -- by destruct ctx''.
        -- by eapply rb_set_black.
  - destruct (is_red_t u) eqn:Hur.
    + destruct u as [|u0 cu ul vu ur]; [done|]. simpl in Hur.
      apply color_is_true in Hur as ->. apply rb_red_node in Hu as (? & ? & ? & ?).
      eapply (IH (length ctx'') ltac:(simpl; lia) (S n) ctx''); [done|done|].
      apply rb_red_node. simpl. split_and!; try done.
      * by destruct p.
      * destruct p; simpl in *; apply color_is_true in Hp; subst; simpl; done.
    + destruct p as [p cp vp pr|p cp pl vp]; simpl in Hp;
        apply color_is_true in Hp as ->; simpl in Hsib, Hsr.
      * eexists; split; [done|].
        destruct (rb_plug (S n) ctx''
          (Br x rb_tree_black (Br g rb_tree_red u vg xl) vx
             (Br p rb_tree_red xr vp pr))) as (m & Hm & _); [done| | |].
        -- simpl. done.
        -- by destruct ctx''.
        -- by eapply rb_set_black.
      * eexists; split; [done|].
        destruct (rb_plug (S n) ctx''
          (Br p rb_tree_black (Br g rb_tree_red u vg pl) vp
             (Br x rb_tree_red xl vx xr))) as (m & Hm & _); [done| | |].
        -- simpl. done.
        -- by destruct ctx''.
        -- by eapply rb_set_black.
Qed.
End functional_facts.

Section rb_characterisation.
Context {T : Type}.
Implicit Types (t l r s u : atree T).

Lemma rb_black_counts n t : rb n t → ∀ k, k ∈ black_counts t → k = n.
Proof.
  revert n. induction t as [|a c l IHl v r IHr]; intros n; simpl.
  - intros -> k Hk. by apply list_elem_of_singleton in Hk.
  - destruct c; simpl.
    + destruct n as [|m]; [done|]. intros [Hl Hr] k Hk.
      apply list_elem_of_fmap in Hk as (k' & -> & Hk').
      apply elem_of_app in Hk' as [?|?]; f_equal; eauto.
    + intros (_ & _ & Hl & Hr) k Hk.
      apply list_elem_of_fmap in Hk as (k' & -> & Hk').
      apply elem_of_app in Hk' as [?|?]; eauto.
Qed.

Lemma rb_subtrees n t s : rb n t → s ∈ subtrees t → ∃ m, rb m s.
Proof.
  revert n. induction t as [|a c l IHl v r IHr]; intros n Hrb Hs; simpl in Hs.
  - apply list_elem_of_singleton in Hs as ->. eauto.
  - apply elem_of_cons in Hs as [->|Hs]; [eauto|].
    simpl in Hrb. destruct c; simpl in Hrb.
    + destruct n as [|m]; [done|]. destruct Hrb.
      apply elem_of_app in Hs as [?|?]; eauto.
    + destruct Hrb as (_ & _ & ? & ?).
      apply elem_of_app in Hs as [?|?]; eauto.
Qed.

Lemma rb_no_red_red n t : rb n t → no_red_red t.
Proof.
  revert n. induction t as [|a c l IHl v r IHr]; intros n; simpl; [done|].
  destruct c; simpl.
  - destruct n as [|m]; [done|]. intros [? ?]. split_and!; eauto. done.
  - intros (? & ? & ? & ?). split_and!; eauto.
Qed.

Lemma rb_black_balanced n t : rb n t → black_balanced t.
Proof.
  intros Hrb s Hs k1 k2 H1 H2.
  destruct (rb_subtrees _ _ _ Hrb Hs) as (m & Hm).
  rewrite (rb_black_counts _ _ Hm _ H1), (rb_black_counts _ _ Hm _ H2). done.
Qed.
End rb_characterisation.

(** ** Erasure on the abstraction: the sequence and the invariants *)

Section erase_facts.
Context {T : Type}.
Implicit Types (t l r s u w xs : atree T) (ctx : list (frame T)).
Local Abbreviation erase_fix_ok := (erase_fix_ok (T:=T)).

Lemma erase_fix_mono fuel fuel' ctx xs res :
  erase_fix fuel ctx xs = Some res → fuel ≤ fuel' →
  erase_fix fuel' ctx xs = Some res.
Proof.
  revert fuel' ctx xs.
  induction fuel as [|fuel IH]; intros fuel' ctx xs Hfix Hle; [done|].
  destruct fuel' as [|fuel']; [lia|]. simpl in *.
  destruct ctx as [|f ctx']; [done|].
  destruct (is_red_t xs); [done|].
  destruct f as [p cp vp w|p cp w vp].
  - destruct (erase_case1_l cp w ctx') as [[cp1 w1] ctx1].
    destruct w1; [done|]. destruct (_ && _); [|done]. apply IH; [done|lia].
  - destruct (erase_case1_r cp w ctx') as [[cp1 w1] ctx1].
    destruct w1; [done|]. destruct (_ && _); [|done]. apply IH; [done|lia].
Qed.

Lemma erase_case1_l_cells cp w ctx cp1 w1 ctx1 p xs vp :
  erase_case1_l cp w ctx = (cp1, w1, ctx1) →
  cells (plug ctx1 (Br p cp1 xs vp w1)) = cells (plug ctx (Br p cp xs vp w)).
Proof.
  destruct w as [|b cb bl vb br]; simpl; [by intros [= <- <- <-]|].
  destruct (color_is cb rb_tree_red); intros [= <- <- <-]; [|done].
  rewrite plug_cons, !cells_plug. simpl. by simplify_list_eq.
Qed.

Lemma erase_case1_r_cells cp w ctx cp1 w1 ctx1 p xs vp :
  erase_case1_r cp w ctx = (cp1, w1, ctx1) →
  cells (plug ctx1 (Br p cp1 w1 vp xs)) = cells (plug ctx (Br p cp w vp xs)).
Proof.
  destruct w as [|b cb bl vb br]; simpl; [by intros [= <- <- <-]|].
  destruct (color_is cb rb_tree_red); intros [= <- <- <-]; [|done].
  rewrite plug_cons, !cells_plug. simpl. by simplify_list_eq.
Qed.

Lemma erase_case3_l_cells w w2 : erase_case3_l w = Some w2 → cells w2 = cells w.
Proof.
  destruct w as [|b cb [|l0 cl ll vl lr] vb br]; simpl; [done| |];
    destruct (black_or_leaf br); intros [= <-]; simpl; by simplify_list_eq.
Qed.

Lemma erase_case3_r_cells w w2 : erase_case3_r w = Some w2 → cells w2 = cells w.
Proof.
  destruct w as [|b cb bl vb [|r0 cr rl vr rr]]; simpl; [done| |];
    destruct (black_or_leaf bl); intros [= <-]; simpl; by simplify_list_eq.
Qed.

(** The loop only rotates and recolours. *)
Lemma erase_fix_cells fuel ctx xs ctx' xs' :
  erase_fix fuel ctx xs = Some (ctx', xs') →
  cells (plug ctx' xs') = cells (plug ctx xs).
Proof.
  revert ctx xs. induction fuel as [|fuel IH]; intros ctx xs Hfix; [done|].
  simpl in Hfix. destruct ctx as [|f ctx0]; [by injection Hfix as <- <-|].
  destruct (is_red_t xs); [by injection Hfix as <- <-|].
  destruct f as [p cp vp w|p cp w vp].
  - destruct (erase_case1_l cp w ctx0) as [[cp1 w1] ctx1] eqn:Hc1.
    rewrite plug_cons. simpl.
    rewrite <-(erase_case1_l_cells _ _ _ _ _ _ p xs vp Hc1).
    destruct w1 as [|b1 c1 l1 v1 r1]; [done|].
    destruct (_ && _).
    + rewrite (IH _ _ Hfix), !cells_plug. done.
    + destruct (erase_case3_l _) as [[|b2 c2 l2 v2 r2]|] eqn:Hc3; [done| |done].
      injection Hfix as <- <-. apply erase_case3_l_cells in Hc3.
      rewrite !plug_cons, !cells_plug. simpl in *.
      rewrite <-Hc3, cells_set_color. by simplify_list_eq.
  - destruct (erase_case1_r cp w ctx0) as [[cp1 w1] ctx1] eqn:Hc1.
    rewrite plug_cons. simpl.
    rewrite <-(erase_case1_r_cells _ _ _ _ _ _ p xs vp Hc1).
    destruct w1 as [|b1 c1 l1 v1 r1]; [done|].
    destruct (_ && _).
    + rewrite (IH _ _ Hfix), !cells_plug. done.
    + destruct (erase_case3_r _) as [[|b2 c2 l2 v2 r2]|] eqn:Hc3; [done| |done].
      injection Hfix as <- <-. apply erase_case3_r_cells in Hc3.
      rewrite !plug_cons, !cells_plug. simpl in *.
      rewrite <-Hc3, cells_set_color. by simplify_list_eq.
Qed.

Lemma min_split_cells t ctxy y cy vy yr :
  min_split t = Some (ctxy, (y, cy, vy, yr)) →
  t = plug ctxy (Br y cy Leaf vy yr) ∧ ctx_before ctxy = [].
Proof.
  revert ctxy. induction t as [|a c l IHl v r _]; intros ctxy; simpl; [done|].
  destruct (min_split l) as [[ctx' [[[y' cy'] vy'] yr']]|] eqn:Hl.
  - intros [= <- <- <- <- <-].
    destruct (IHl _ eq_refl) as (-> & Hb).
    rewrite plug_app, plug_cons, plug_nil. split; [done|].
    by rewrite ctx_before_app, Hb.
  - intros [= <- <- <- <- <-].
    destruct l; [|simpl in Hl; by destruct (min_split l1) as [[? ?]|]].
    by rewrite plug_nil.
Qed.

Lemma erase_unlink_cells ctx z cz zl vz zr ctxx xs c :
  erase_unlink ctx (Br z cz zl vz zr) = Some (ctxx, xs, c) →
  cells (plug ctxx xs) = ctx_before ctx ++ cells zl ++ cells zr ++ ctx_after ctx.
Proof.
  simpl. destruct zl as [|l0 cl ll vl lr].
  { intros [= <- <- <-]. by rewrite cells_plug. }
  destruct zr as [|r0 cr rl vr rr].
  { intros [= <- <- <-]. rewrite cells_plug. simpl. by simplify_list_eq. }
  destruct (min_split _) as [[ctxy [[[y cy] vy] yr]]|] eqn:Hmin; [|done].
  intros [= <- <- <-]. apply min_split_cells in Hmin as [Hzr Hb].
  rewrite Hzr, plug_app, plug_cons, !cells_plug, Hb. simpl.
  rewrite !cells_plug, Hb. simpl. by simplify_list_eq.
Qed.

Lemma erase_rebalance_cells ctx z cz zl vz zr t' :
  erase_rebalance_t ctx (Br z cz zl vz zr) = Some t' →
  cells t' = ctx_before ctx ++ cells zl ++ cells zr ++ ctx_after ctx.
Proof.
  unfold erase_rebalance_t.
  destruct (erase_unlink _ _) as [[[ctxx xs] c]|] eqn:Hun; [|done].
  apply erase_unlink_cells in Hun. rewrite <-Hun.
  destruct (color_is c rb_tree_red); [by intros [= <-]|].
  destruct (erase_fix _ _ _) as [[ctx' xs']|] eqn:Hfix; [|done].
  intros [= <-]. apply erase_fix_cells in Hfix.
  rewrite <-Hfix, !cells_plug. by rewrite cells_set_color.
Qed.

(** *** The red-black invariants *)

(** A path constrains the colours and the siblings of its frames only. *)
Lemma rb_ctx_replace n ctx1 f f' ctx2 :
  frame_color f = frame_color f' → frame_sibling f = frame_sibling f' →
  rb_ctx n (ctx1 ++ f :: ctx2) → rb_ctx n (ctx1 ++ f' :: ctx2).
Proof.
  intros Hc Hs. revert n. induction ctx1 as [|g ctx1 IH]; intros n.
  - destruct f, f'; simpl in *; subst; done.
  - simpl. intros [Hsib Hrest]. split; [done|].
    destruct (color_is (frame_color g) rb_tree_red); [|by apply IH].
    destruct Hrest as (? & Hhead & ?). split_and!; [done| |by apply IH].
    destruct ctx1; simpl in *; [by rewrite <-Hc|done].
Qed.

Lemma hole_ok_replace ctx1 f f' ctx2 s :
  frame_color f = frame_color f' →
  hole_ok (ctx1 ++ f :: ctx2) s → hole_ok (ctx1 ++ f' :: ctx2) s.
Proof. intros Hc. destruct ctx1; simpl; [by rewrite Hc|done]. Qed.

Lemma rb_red_set_black n t :
  is_red_t t = true → rb n t → rb (S n) (set_color_t rb_tree_black t).
Proof.
  destruct t as [|a c l v r]; simpl; [done|]. intros ->. naive_solver.
Qed.

Lemma rb_black_set_black n t :
  is_red_t t = false → rb n t → rb n (set_color_t rb_tree_black t).
Proof.
  destruct t as [|a c l v r]; simpl; [done|]. intros Hc. rewrite Hc.
  by destruct n.
Qed.

Lemma rb_succ_inv n w :
  rb (S n) w → is_red_t w = false →
  ∃ b l v r, w = Br b rb_tree_black l v r ∧ rb n l ∧ rb n r.
Proof.
  destruct w as [|b c l v r]; simpl; [done|]. intros Hrb Hc. rewrite Hc in Hrb.
  apply color_is_red_false in Hc as ->. naive_solver.
Qed.

Lemma rb_red_inv n w :
  rb n w → is_red_t w = true →
  ∃ b l v r, w = Br b rb_tree_red l v r
             ∧ is_red_t l = false ∧ is_red_t r = false ∧ rb n l ∧ rb n r.
Proof.
  destruct w as [|b c l v r]; simpl; [done|]. intros Hrb Hc. rewrite Hc in Hrb.
  apply color_is_true in Hc as ->. naive_solver.
Qed.

Lemma erase_step_l fuel n p cp1 xs vp b1 l1 v1 r1 ctx1 :
  erase_fix_ok fuel →
  rb n xs → is_red_t xs = false → rb n l1 → rb n r1 →
  erase_step_pre n cp1 ctx1 fuel →
  ∃ ctx' xs',
    (if black_or_leaf l1 && black_or_leaf r1 then
       erase_fix fuel ctx1 (Br p cp1 xs vp (Br b1 rb_tree_red l1 v1 r1))
     else
       match erase_case3_l (Br b1 rb_tree_black l1 v1 r1) with
       | Some (Br b2 _ l2 v2 r2) =>
           Some (FL p rb_tree_black vp l2
                   :: FL b2 cp1 v2 (set_color_t rb_tree_black r2) :: ctx1, xs)
       | _ => None
       end) = Some (ctx', xs')
    ∧ ∃ m, rb_ctx m ctx' ∧ rb m (set_color_t rb_tree_black xs').
Proof.
  intros IH Hxs Hr Hl1 Hr1 [Hctx Hfuel]. unfold black_or_leaf.
  destruct (is_red_t l1) eqn:Hl1r, (is_red_t r1) eqn:Hr1r; simpl.
  - destruct (rb_red_inv _ _ Hl1 Hl1r) as (l0 & ll & vl & lr & -> & ? & ? & ? & ?).
    simpl; unfold black_or_leaf; rewrite ?Hr1r; simpl. eexists _, _. split; [done|].
    exists n. split; [|by apply rb_black_set_black].
    simpl. split; [done|]. split; [by apply rb_red_set_black|].
    rewrite is_red_set_black. destruct (color_is cp1 rb_tree_red); naive_solver.
  - destruct (rb_red_inv _ _ Hl1 Hl1r) as (l0 & ll & vl & lr & -> & ? & ? & ? & ?).
    simpl; unfold black_or_leaf; rewrite ?Hr1r; simpl. eexists _, _. split; [done|].
    exists n. split; [|by apply rb_black_set_black].
    simpl. split; [done|]. split; [done|].
    destruct (color_is cp1 rb_tree_red); naive_solver.
  - destruct l1 as [|l0 cl ll vl lr]; simpl; unfold black_or_leaf; rewrite ?Hr1r; simpl;
      (eexists _, _; split; [done|]);
      (exists n; split; [|by apply rb_black_set_black]);
      simpl; (split; [done|]); (split; [by apply rb_red_set_black|]);
      rewrite is_red_set_black; destruct (color_is cp1 rb_tree_red); naive_solver.
  - destruct (color_is cp1 rb_tree_red) eqn:Hcp.
    + apply (IH n); [|simpl; by rewrite Hcp].
      split; [tauto|]. simpl. rewrite Hcp. simpl. rewrite Hl1r, Hr1r. done.
    + apply (IH (S n)); [|simpl; by rewrite Hcp].
      split; [done|]. simpl. rewrite Hcp. simpl. rewrite Hl1r, Hr1r. done.
Qed.

Lemma erase_step_r fuel n p cp1 xs vp b1 l1 v1 r1 ctx1 :
  erase_fix_ok fuel →
  rb n xs → is_red_t xs = false → rb n l1 → rb n r1 →
  erase_step_pre n cp1 ctx1 fuel →
  ∃ ctx' xs',
    (if black_or_leaf l1 && black_or_leaf r1 then
       erase_fix fuel ctx1 (Br p cp1 (Br b1 rb_tree_red l1 v1 r1) vp xs)
     else
       match erase_case3_r (Br b1 rb_tree_black l1 v1 r1) with
       | Some (Br b2 _ l2 v2 r2) =>
           Some (FR p rb_tree_black r2 vp
                   :: FR b2 cp1 (set_color_t rb_tree_black l2) v2 :: ctx1, xs)
       | _ => None
       end) = Some (ctx', xs')
    ∧ ∃ m, rb_ctx m ctx' ∧ rb m (set_color_t rb_tree_black xs').
Proof.
  intros IH Hxs Hr Hl1 Hr1 [Hctx Hfuel]. unfold black_or_leaf.
  destruct (is_red_t l1) eqn:Hl1r, (is_red_t r1) eqn:Hr1r; simpl.
  - destruct (rb_red_inv _ _ Hr1 Hr1r) as (r0 & rl & vr & rr & -> & ? & ? & ? & ?).
    simpl; unfold black_or_leaf; rewrite ?Hl1r; simpl. eexists _, _. split; [done|].
    exists n. split; [|by apply rb_black_set_black].
    simpl. split; [done|]. split; [by apply rb_red_set_black|].
    rewrite is_red_set_black. destruct (color_is cp1 rb_tree_red); naive_solver.
  - destruct r1 as [|r0 cr rl vr rr]; simpl; unfold black_or_leaf; rewrite ?Hl1r; simpl;
      (eexists _, _; split; [done|]);
      (exists n; split; [|by apply rb_black_set_black]);
      simpl; (split; [done|]); (split; [by apply rb_red_set_black|]);
      rewrite is_red_set_black; destruct (color_is cp1 rb_tree_red); naive_solver.
  - destruct (rb_red_inv _ _ Hr1 Hr1r) as (r0 & rl & vr & rr & -> & ? & ? & ? & ?).
    simpl; unfold black_or_leaf; rewrite ?Hl1r; simpl. eexists _, _. split; [done|].
    exists n. split; [|by apply rb_black_set_black].
    simpl. split; [done|]. split; [done|].
    destruct (color_is cp1 rb_tree_red); naive_solver.
  - destruct (color_is cp1 rb_tree_red) eqn:Hcp.
    + apply (IH n); [|simpl; by rewrite Hcp].
      split; [tauto|]. simpl. rewrite Hcp. simpl. rewrite Hl1r, Hr1r. done.
    + apply (IH (S n)); [|simpl; by rewrite Hcp].
      split; [done|]. simpl. rewrite Hcp. simpl. rewrite Hl1r, Hr1r. done.
Qed.

Lemma erase_fix_rb fuel : erase_fix_ok fuel.
Proof.
  induction fuel as [|fuel IH]; intros n ctx xs [Hctx Hxs] Hfuel.
  { destruct (is_red_t xs); lia. }
  cbn [erase_fix]. destruct ctx as [|f ctx0].
  { eexists _, _. split; [done|]. destruct (is_red_t xs) eqn:Hr.
    - by exists (S n).
    - exists n. split; [done|]. by apply rb_black_set_black. }
  destruct (is_red_t xs) eqn:Hr.
  { eexists _, _. split; [done|]. by exists (S n). }
  simpl in Hfuel. cbn [rb_ctx] in Hctx. destruct Hctx as [Hw Hctx].
  destruct f as [p cp vp w|p cp w vp]; simpl in Hw, Hctx.
  - destruct (is_red_t w) eqn:Hwr.
    + destruct (rb_red_inv _ _ Hw Hwr) as (b & bl & vb & br & -> & ? & ? & Hbl & ?).
      destruct (color_is cp rb_tree_red) eqn:Hcp; [naive_solver|].
      simpl. destruct (rb_succ_inv _ _ Hbl) as (b1 & l1 & v1 & r1 & -> & ? & ?);
        [done|].
      apply (erase_step_l fuel n); try done.
      split; simpl; [|lia]. by split_and!.
    + destruct (rb_succ_inv _ _ Hw Hwr) as (b1 & l1 & v1 & r1 & -> & ? & ?).
      simpl. apply (erase_step_l fuel n); try done.
      unfold erase_step_pre. destruct (color_is cp rb_tree_red); (split; [tauto|lia]).
  - destruct (is_red_t w) eqn:Hwr.
    + destruct (rb_red_inv _ _ Hw Hwr) as (b & bl & vb & br & -> & ? & ? & ? & Hbr).
      destruct (color_is cp rb_tree_red) eqn:Hcp; [naive_solver|].
      simpl. destruct (rb_succ_inv _ _ Hbr) as (b1 & l1 & v1 & r1 & -> & ? & ?);
        [done|].
      apply (erase_step_r fuel n); try done.
      split; simpl; [|lia]. by split_and!.
    + destruct (rb_succ_inv _ _ Hw Hwr) as (b1 & l1 & v1 & r1 & -> & ? & ?).
      simpl. apply (erase_step_r fuel n); try done.
      unfold erase_step_pre. destruct (color_is cp rb_tree_red); (split; [tauto|lia]).
Qed.

(** The second and third phase, once the node [y] that leaves the tree
    and its only subtree [xs] are known. *)
Lemma erase_after_unlink_rb n ctxx c yl yr xs y vy :
  rb_ctx n ctxx → rb n (Br y c yl vy yr) →
  (ctxx = [] → c = rb_tree_black) →
  (yl = Leaf ∧ xs = yr) ∨ (yr = Leaf ∧ xs = yl) →
  ∃ t',
    (if color_is c rb_tree_red then Some (plug ctxx xs)
     else
       match erase_fix (length ctxx + 2) ctxx xs with
       | Some (ctx', xs') => Some (plug ctx' (set_color_t rb_tree_black xs'))
       | None => None
       end) = Some t'
    ∧ is_rb_tree t'.
Proof.
  intros Hctx Hy Hroot Hxs. simpl in Hy.
  destruct (color_is c rb_tree_red) eqn:Hc.
  - apply color_is_true in Hc as ->. destruct Hy as (Hl & Hr & Hnl & Hnr).
    assert (is_red_t xs = false ∧ rb n xs) as [Hxr Hxn] by naive_solver.
    eexists. split; [done|].
    destruct (rb_plug n ctxx xs) as (m & Hm & Hrb); [done|done| |].
    { destruct ctxx; simpl; [done|]. intros _. exact Hxr. }
    split; [|eauto]. apply Hrb. intros ->. by specialize (Hroot eq_refl).
  - destruct n as [|n]; [done|]. destruct Hy as [Hnl Hnr].
    assert (rb n xs) as Hxn by naive_solver.
    destruct (erase_fix_rb (length ctxx + 2) n ctxx xs)
      as (ctx' & xs' & -> & m & Hctx' & Hxs').
    { split; [done|]. destruct (is_red_t xs) eqn:Hxr; [|done].
      by apply rb_red_set_black. }
    { destruct (is_red_t xs); lia. }
    eexists. split; [done|].
    destruct (rb_plug m ctx' (set_color_t rb_tree_black xs'))
      as (k & Hk & Hrb); [done|done| |].
    { destruct ctx'; [done|]. simpl. intros _. apply is_red_set_black. }
    split; [|eauto]. destruct ctx' as [|f ctx']; [|by apply Hrb].
    rewrite plug_nil. apply is_red_set_black.
Qed.

Lemma erase_rebalance_rb ctx z cz zl vz zr :
  is_rb_tree (plug ctx (Br z cz zl vz zr)) →
  ∃ t', erase_rebalance_t ctx (Br z cz zl vz zr) = Some t' ∧ is_rb_tree t'.
Proof.
  intros [Hroot [m Hrb]]. unfold erase_rebalance_t, erase_unlink.
  destruct zl as [|l0 cl ll vl lr].
  { destruct (rb_plug_inv _ _ _ Hrb Hroot) as (n & Hctx & Hz & _ & Hnil).
    eapply (erase_after_unlink_rb n ctx cz Leaf zr zr z vz); [done|done| |by left].
    intros ->. specialize (Hnil eq_refl). unfold root_black in Hnil.
    simpl in Hnil. by apply color_is_red_false. }
  destruct zr as [|r0 cr rl vr rr].
  { destruct (rb_plug_inv _ _ _ Hrb Hroot) as (n & Hctx & Hz & _ & Hnil).
    eapply (erase_after_unlink_rb n ctx cz _ Leaf _ z vz); [done|done| |by right].
    intros ->. specialize (Hnil eq_refl). unfold root_black in Hnil.
    simpl in Hnil. by apply color_is_red_false. }
  destruct (min_split (Br r0 cr rl vr rr))
    as [[ctxy [[[y cy] vy] yr]]|] eqn:Hmin.
  2:{ simpl in Hmin. by destruct (min_split rl) as [[? ?]|]. }
  apply min_split_cells in Hmin as [Hzr _]. rewrite Hzr in Hrb, Hroot.
  change (plug ctx (Br z cz ?l vz (plug ctxy ?t)))
    with (plug (FR z cz l vz :: ctx) (plug ctxy t)) in Hrb, Hroot.
  rewrite <-plug_app in Hrb, Hroot.
  destruct (rb_plug_inv _ _ _ Hrb Hroot) as (n & Hctx & Hy & _ & Hnil).
  eapply (erase_after_unlink_rb n _ cy Leaf yr yr y vy); [|done| |by left].
  - eapply rb_ctx_replace; [| |exact Hctx]; done.
  - intros Hnil'. by apply app_eq_nil in Hnil' as [_ ?].
Qed.
End erase_facts.

(** ** The order of the keys and the sorted sequence *)

Section order.
Context {T K : Type}.
Variable get_key : T → K.
Variable key_comp : K → K → bool.
Implicit Types (t l r : atree T) (ctx : list (frame T)) (cs : list (addr * T))
  (k : K).

Local Abbreviation strict_weak_order := (strict_weak_order key_comp).
Local Abbreviation swo_irrefl := (swo_irrefl key_comp).
Local Abbreviation swo_trans := (swo_trans key_comp).
Local Abbreviation swo_incomp := (swo_incomp key_comp).
Local Abbreviation equiv_key := (equiv_key key_comp).
Local Abbreviation key_of := (key_of get_key).
Local Abbreviation keys := (keys get_key).
Local Abbreviation le_cell := (le_cell get_key key_comp).
Local Abbreviation sorted := (sorted get_key key_comp).

Lemma find_pos_app P cs1 cs2 dflt :
  find_pos P (cs1 ++ cs2) dflt = find_pos P cs1 (find_pos P cs2 dflt).
Proof.
  induction cs1 as [|[a v] cs1 IH]; simpl; [done|]. by destruct (P v).
Qed.

Lemma find_pos_none P cs dflt :
  Forall (λ e, P e.2 = false) cs → find_pos P cs dflt = dflt.
Proof.
  induction 1 as [|[a v] cs Hv _ IH]; simpl in *; [done|]. by rewrite Hv.
Qed.

Hypothesis Hswo : strict_weak_order.

Lemma swo_cotrans a b c :
  key_comp a b = true → key_comp a c = true ∨ key_comp c b = true.
Proof.
  intros Hab.
  destruct (key_comp a c) eqn:Hac; [by left|].
  destruct (key_comp c b) eqn:Hcb; [by right|]. exfalso.
  destruct (key_comp c a) eqn:Hca.
  { by rewrite (swo_trans Hswo _ _ _ Hca Hab) in Hcb. }
  destruct (key_comp b c) eqn:Hbc.
  { by rewrite (swo_trans Hswo _ _ _ Hab Hbc) in Hac. }
  destruct (swo_incomp Hswo a c b) as [Hab' _]; try done. congruence.
Qed.

Lemma swo_asym a b : key_comp a b = true → key_comp b a = false.
Proof.
  intros Hab. destruct (key_comp b a) eqn:Hba; [|done].
  by rewrite <-(swo_irrefl Hswo a), (swo_trans Hswo _ _ _ Hab Hba).
Qed.

(** [a <= b] and [b < c] give [a < c]; [a < b] and [b <= c] too. *)
Lemma swo_le_lt a b c :
  key_comp b a = false → key_comp b c = true → key_comp a c = true.
Proof. intros Hba Hbc. destruct (swo_cotrans b c a Hbc); congruence. Qed.

Lemma swo_lt_le a b c :
  key_comp a b = true → key_comp c b = false → key_comp a c = true.
Proof. intros Hab Hcb. destruct (swo_cotrans a b c Hab); congruence. Qed.

Lemma swo_le_le a b c :
  key_comp b a = false → key_comp c b = false → key_comp c a = false.
Proof.
  intros Hba Hcb. destruct (key_comp c a) eqn:Hca; [|done].
  destruct (swo_cotrans c a b Hca); congruence.
Qed.

Lemma sorted_app cs1 cs2 :
  sorted (cs1 ++ cs2)
  ↔ (∀ x y, x ∈ cs1 → y ∈ cs2 → le_cell x y) ∧ sorted cs1 ∧ sorted cs2.
Proof. apply StronglySorted_app. Qed.

Lemma sorted_cons x cs : sorted (x :: cs) ↔ Forall (le_cell x) cs ∧ sorted cs.
Proof. apply StronglySorted_cons. Qed.

Lemma sorted_delete cs1 x cs2 : sorted (cs1 ++ x :: cs2) → sorted (cs1 ++ cs2).
Proof.
  rewrite !sorted_app, sorted_cons. intros (H12 & ? & ? & ?).
  split_and!; [|done|done]. intros a b ? ?. apply H12; [done|]. by right.
Qed.

(** A new cell goes between the cells that may stand before it and the
    cells that go after it. *)
Lemma sorted_insert cs1 (x : addr * T) cs2 :
  sorted (cs1 ++ cs2) →
  Forall (λ e, key_comp (key_of x) (key_of e) = false) cs1 →
  Forall (λ e, key_comp (key_of x) (key_of e) = true) cs2 →
  sorted (cs1 ++ x :: cs2).
Proof.
  rewrite !sorted_app, sorted_cons. intros (H12 & ? & ?) H1 H2.
  rewrite Forall_forall in H1, H2. split_and!; [|done| |done].
  - intros a b Ha [->|Hb]%elem_of_cons; [by apply H1|by apply H12].
  - apply Forall_forall. intros b Hb. by apply swo_asym, H2.
Qed.

(** *** The descents *)

Lemma sorted_node a c l v r :
  sorted (cells (Br a c l v r)) →
  sorted (cells l) ∧ sorted (cells r)
  ∧ Forall (λ e, key_comp (get_key v) (key_of e) = false) (cells l)
  ∧ Forall (λ e, key_comp (key_of e) (get_key v) = false) (cells r).
Proof.
  simpl. rewrite sorted_app, sorted_cons. intros (H12 & ? & Hr & ?).
  split_and!; [done|done| |done].
  apply Forall_forall. intros e He. apply (H12 e (a, v)); [done|]. by left.
Qed.

Lemma lower_bound_spec key t (y : addr) :
  sorted (cells t) →
  lower_bound_t get_key key_comp key t (Some y)
  = Some (find_pos (λ v, negb (key_comp (get_key v) key)) (cells t) y).
Proof.
  revert y. induction t as [|a c l IHl v r IHr]; intros y Hs; simpl; [done|].
  destruct (sorted_node _ _ _ _ _ Hs) as (Hsl & Hsr & Hl & Hr).
  rewrite find_pos_app. simpl. destruct (key_comp (get_key v) key) eqn:Hv; simpl.
  - rewrite IHr by done. rewrite (find_pos_none _ (cells l)); [done|].
    eapply Forall_impl; [exact Hl|]. intros e He. simpl in *.
    apply negb_false_iff. by eapply swo_le_lt.
  - by rewrite IHl.
Qed.

Lemma upper_bound_spec key t (y : addr) :
  sorted (cells t) →
  upper_bound_t get_key key_comp key t (Some y)
  = Some (find_pos (λ v, key_comp key (get_key v)) (cells t) y).
Proof.
  revert y. induction t as [|a c l IHl v r IHr]; intros y Hs; simpl; [done|].
  destruct (sorted_node _ _ _ _ _ Hs) as (Hsl & Hsr & Hl & Hr).
  rewrite find_pos_app. simpl. destruct (key_comp key (get_key v)) eqn:Hv; simpl.
  - by rewrite IHl.
  - rewrite IHr by done. rewrite (find_pos_none _ (cells l)); [done|].
    eapply Forall_impl; [exact Hl|]. intros e He. simpl in *.
    by eapply swo_le_le.
Qed.

(** The descent of the insertion leaves the cells that may stand before
    the new key on one side and the cells that go after it on the other. *)
Lemma insert_ctx_split key t ctx :
  sorted (cells t) →
  Forall (λ e, key_comp key (key_of e) = false) (ctx_before ctx) →
  Forall (λ e, key_comp key (key_of e) = true) (ctx_after ctx) →
  Forall (λ e, key_comp key (key_of e) = false)
    (ctx_before (insert_ctx get_key key_comp key t ctx))
  ∧ Forall (λ e, key_comp key (key_of e) = true)
      (ctx_after (insert_ctx get_key key_comp key t ctx)).
Proof.
  revert ctx. induction t as [|a c l IHl v r IHr]; intros ctx Hs Hb Ha; simpl;
    [done|].
  destruct (sorted_node _ _ _ _ _ Hs) as (Hsl & Hsr & Hl & Hr).
  destruct (key_comp key (get_key v)) eqn:Hv.
  - apply IHl; [done|done|]. simpl. constructor; [done|].
    apply Forall_app. split; [|done].
    eapply Forall_impl; [exact Hr|]. intros e He. simpl in *.
    by eapply swo_lt_le.
  - apply IHr; [done| |done]. simpl.
    apply Forall_app. split; [done|]. apply Forall_app. split.
    + eapply Forall_impl; [exact Hl|]. intros e He. simpl in *.
      by eapply swo_le_le.
    + by repeat constructor.
Qed.
End order.

Section insert_rebalance.
Context {T : Type}.
Implicit Types (t l r s u : atree T) (h : heap T) (ctx : list (frame T)).

Lemma ctx_root_ne ctx x :
  ctx ≠ [] → x ∉ ctx_addrs ctx → ctx_root ctx (Some x) ≠ Some x.
Proof.
  intros Hne Hx. destruct (ctx_root_in ctx (Some x) Hne) as (a & -> & Ha).
  intros [= ->]. done.
Qed.

Lemma wp_is_red h t par Q :
  rep h par t → Q (is_red_t t) h → wp (rb_tree_is_red (top t)) h Q.
Proof.
  intros Hrep HQ. destruct t as [|a c l v r]; simpl.
  - by apply wp_ret.
  - destruct Hrep as (Ha & _). unfold rb_tree_is_red. simpl. wp_steps. done.
Qed.

(** [uncle != nullptr && rb_tree_is_red(uncle)] *)
Lemma wp_is_red_nonnull h t par Q :
  rep h par t → Q (is_red_t t) h →
  wp (if negb (is_null (top t)) then rb_tree_is_red (top t) else ret false) h Q.
Proof.
  intros Hrep HQ. destruct t as [|a c l v r]; simpl.
  - by apply wp_ret.
  - destruct Hrep as (Ha & _). wp_steps. done.
Qed.

Lemma is_red_t_true t :
  is_red_t t = true → ∃ a l v r, t = Br a rb_tree_red l v r.
Proof.
  destruct t as [|a c l v r]; simpl; [done|].
  intros ->%color_is_true. eauto.
Qed.

Lemma wp_insert_rebalance_loop fuel h hd L R ctx x cx xl vx xr t' Q :
  focus_rep h hd L R ctx (Br x cx xl vx xr) →
  insert_fix ctx (Br x cx xl vx xr) = Some t' →
  length ctx < fuel →
  (∀ h', tree_rep h' hd L R t' →
         same_outside (hd :: ctx_addrs ctx ++ addrs (Br x cx xl vx xr)) h h' →
         Q tt h') →
  wp (insert_rebalance_loop fuel (Some x) (RParent (Some hd))) h Q.
Proof.
  revert h ctx x cx xl vx xr t' Q.
  induction fuel as [|fuel IH]; intros h ctx x cx xl vx xr t' Q Hfoc Hfix Hfuel HQ;
    [lia|].
  cbn [insert_rebalance_loop]. pose proof Hfoc as (Hctx & Hrep & Hnd).
  destruct ctx as [|p ctx'].
  { simpl in *. wp_steps.
    injection Hfix as <-. apply HQ; [by apply focus_tree_rep in Hfoc|].
    by intros ?. }
  pose proof (ctx_rep_header _ _ _ _ _ _ Hctx) as Hhd.
  wp_steps. rewrite ptr_eqb_ne.
  2:{ apply not_eq_sym, ctx_root_ne; [done|]. sep_split. sep_tac. }
  clear Hhd.
  destruct (color_is (frame_color p) rb_tree_red) eqn:Hcp.
  2:{ simpl in Hfix. rewrite Hcp in Hfix. injection Hfix as <-.
      destruct p; simpl in *; destruct_and?; wp_steps; rewrite Hcp; simpl; wp_steps;
        (apply HQ; [by apply focus_tree_rep in Hfoc|by intros ?]). }
  destruct ctx' as [|g ctx'']; [by simpl in Hfix; rewrite Hcp in Hfix|].
  destruct p as [p cp vp pr|p cp pl vp], g as [g cg vg u|g cg u vg];
    simpl in Hcp; apply color_is_true in Hcp as ->;
    simpl in *; destruct_and?; sep_split; wp_steps.
  - eapply wp_is_red_nonnull; [done|].
    destruct (is_red_t u) eqn:Hu.
    + apply is_red_t_true in Hu as (u0 & ul & vu & ur & ->).
      simpl in *; destruct_and?; sep_split; wp_steps.
      eapply IH; [|exact Hfix|lia|].
      { focus_tac. }
      intros h' Htr Hso. apply HQ; [done|]. same_outside_tac.
    + wp_steps. injection Hfix as <-.
      eapply (wp_rotate_right _ hd L R ctx'' g rb_tree_red
                (Br x cx xl vx xr) vg p rb_tree_black pr vp u).
      { focus_tac. }
      intros h' Hfoc' Hso. apply HQ; [by apply focus_tree_rep in Hfoc'|].
      same_outside_tac.
  - eapply wp_is_red_nonnull; [done|].
    destruct (is_red_t u) eqn:Hu.
    + apply is_red_t_true in Hu as (u0 & ul & vu & ur & ->).
      simpl in *; destruct_and?; sep_split; wp_steps.
      eapply IH; [|exact Hfix|lia|].
      { focus_tac. }
      intros h' Htr Hso. apply HQ; [done|]. same_outside_tac.
    + wp_steps. injection Hfix as <-.
      eapply (wp_rotate_right _ hd L R (FR g cg u vg :: ctx'') p rb_tree_red
                xl vp x cx xr vx pr).
      { focus_tac. }
      intros h1 (Hc1 & Hr1 & _) Hso1.
      simpl in *; destruct_and?; wp_steps.
      eapply (wp_rotate_left _ hd L R ctx'' g rb_tree_red u vg
                x rb_tree_black xl vx (Br p rb_tree_red xr vp pr)).
      { focus_tac. }
      intros h' Hfoc' Hso. apply HQ; [by apply focus_tree_rep in Hfoc'|].
      same_outside_tac.
  - eapply wp_is_red_nonnull; [done|].
    destruct (is_red_t u) eqn:Hu.
    + apply is_red_t_true in Hu as (u0 & ul & vu & ur & ->).
      simpl in *; destruct_and?; sep_split; wp_steps.
      eapply IH; [|exact Hfix|lia|].
      { focus_tac. }
      intros h' Htr Hso. apply HQ; [done|]. same_outside_tac.
    + wp_steps. injection Hfix as <-.
      eapply (wp_rotate_left _ hd L R (FL g cg vg u :: ctx'') p rb_tree_red
                pl vp x cx xl vx xr).
      { focus_tac. }
      intros h1 (Hc1 & Hr1 & _) Hso1.
      simpl in *; destruct_and?; wp_steps.
      eapply (wp_rotate_right _ hd L R ctx'' g rb_tree_red
                (Br p rb_tree_red pl vp xl) vg x rb_tree_black xr vx u).
      { focus_tac. }
      intros h' Hfoc' Hso. apply HQ; [by apply focus_tree_rep in Hfoc'|].
      same_outside_tac.
  - eapply wp_is_red_nonnull; [done|].
    destruct (is_red_t u) eqn:Hu.
    + apply is_red_t_true in Hu as (u0 & ul & vu & ur & ->).
      simpl in *; destruct_and?; sep_split; wp_steps.
      eapply IH; [|exact Hfix|lia|].
      { focus_tac. }
      intros h' Htr Hso. apply HQ; [done|]. same_outside_tac.
    + wp_steps. injection Hfix as <-.
      eapply (wp_rotate_left _ hd L R ctx'' g rb_tree_red u vg
                p rb_tree_black pl vp (Br x cx xl vx xr)).
      { focus_tac. }
      intros h' Hfoc' Hso. apply HQ; [by apply focus_tree_rep in Hfoc'|].
      same_outside_tac.
Qed.
End insert_rebalance.

Section fuel.
Context {T : Type}.
Implicit Types (t l r s u : atree T) (h : heap T) (ctx : list (frame T)).

Lemma NoDup_length_size h (l : list addr) :
  NoDup l → (∀ a, a ∈ l → is_Some (h !! a)) → length l ≤ base.size h.
Proof.
  intros Hnd Hin.
  rewrite <-(size_dom (D:=gset addr)).
  rewrite <-(size_list_to_set (C:=gset addr) l) by done.
  apply subseteq_size. intros a Ha. apply elem_of_list_to_set in Ha.
  by apply elem_of_dom, Hin.
Qed.

Lemma rep_dom h par t a : rep h par t → a ∈ addrs t → is_Some (h !! a).
Proof.
  revert par. induction t as [|b c l IHl v r IHr]; intros par; simpl.
  - intros _ Ha. by apply elem_of_nil in Ha.
  - intros (Hb & Hl & Hr) Ha.
    apply elem_of_app in Ha as [?|Ha]; [eauto|].
    apply elem_of_cons in Ha as [->|?]; eauto.
Qed.

Lemma tree_rep_size h hd L R t :
  tree_rep h hd L R t → S (length (addrs t)) ≤ base.size h.
Proof.
  intros (Hhd & Hrep & Hnd).
  apply (NoDup_length_size h (hd :: addrs t)); [done|].
  intros a [->|Ha]%elem_of_cons; [eauto|]. by eapply rep_dom.
Qed.

Lemma height_le_length t : height t ≤ length (addrs t).
Proof.
  induction t as [|b c l IHl v r IHr]; simpl; [done|].
  rewrite length_app. simpl. lia.
Qed.

Lemma length_addrs_plug ctx t :
  length (addrs (plug ctx t)) = length (ctx_addrs ctx) + length (addrs t).
Proof. by rewrite addrs_plug_perm, length_app. Qed.

Lemma length_ctx_le ctx : length ctx ≤ length (ctx_addrs ctx).
Proof.
  induction ctx as [|f ctx IH]; [done|].
  rewrite ctx_addrs_cons, length_app. destruct f; simpl; lia.
Qed.

Lemma tree_rep_fuel h hd L R t : tree_rep h hd L R t → height t < fuel_of h.
Proof.
  intros Ht%tree_rep_size. pose proof (height_le_length t).
  rewrite fuel_of_eq. lia.
Qed.

Lemma focus_rep_fuel h hd L R ctx s :
  focus_rep h hd L R ctx s → length ctx + height s < fuel_of h.
Proof.
  intros Ht%focus_tree_rep%tree_rep_size.
  rewrite length_addrs_plug in Ht.
  pose proof (height_le_length s). pose proof (length_ctx_le ctx).
  rewrite fuel_of_eq. lia.
Qed.
End fuel.

Section extremes.
Context {T : Type}.
Implicit Types (t l r s u : atree T) (h : heap T) (ctx : list (frame T)).

Lemma wp_min_loop fuel h par t a Q :
  rep h par t → top t = Some a → height t ≤ fuel →
  (∀ b cs, cells t = cs → head cs.*1 = Some b → Q (Some b) h) →
  wp (rb_tree_min_loop fuel (Some a)) h Q.
Proof.
  revert par t a. induction fuel as [|fuel IH]; intros par t a Hrep Htop Hf HQ.
  { destruct t; simpl in *; [done|lia]. }
  destruct t as [|a' c l v r]; [done|]. injection Htop as ->.
  simpl in *. destruct Hrep as (Ha & Hl & Hr). wp_steps.
  destruct l as [|b cb bl vb br]; simpl in *; wp_steps.
  - by eapply HQ.
  - eapply (IH _ (Br b cb bl vb br)); [done|done|simpl; lia|].
    intros b' cs <- Hhd. eapply HQ; [done|]. simpl.
    rewrite <-!app_assoc, fmap_app. simpl in Hhd.
    rewrite fmap_app in Hhd.
    destruct (cells bl).*1; simpl in *; done.
Qed.

Lemma wp_max_loop fuel h par t a Q :
  rep h par t → top t = Some a → height t ≤ fuel →
  (∀ b cs, cells t = cs → last cs.*1 = Some b → Q (Some b) h) →
  wp (rb_tree_max_loop fuel (Some a)) h Q.
Proof.
  revert par t a. induction fuel as [|fuel IH]; intros par t a Hrep Htop Hf HQ.
  { destruct t; simpl in *; [done|lia]. }
  destruct t as [|a' c l v r]; [done|]. injection Htop as ->.
  simpl in *. destruct Hrep as (Ha & Hl & Hr). wp_steps.
  destruct r as [|b cb bl vb br]; simpl in *; wp_steps.
  - eapply HQ; [done|]. rewrite fmap_app. simpl. by rewrite last_snoc.
  - eapply (IH _ (Br b cb bl vb br)); [done|done|simpl; lia|].
    intros b' cs <- Hhd. eapply HQ; [done|]. simpl.
    rewrite fmap_app, fmap_cons. simpl in Hhd.
    rewrite last_app, last_cons. simpl. rewrite Hhd. done.
Qed.
End extremes.

Section descents.
Context {T K : Type}.
Variable get_key : T → K.
Variable key_comp : K → K → bool.
Implicit Types (t l r s u : atree T) (h : heap T) (ctx : list (frame T)).

Lemma wp_lower_bound_loop fuel h par t key y Q :
  rep h par t → height t < fuel →
  Q (lower_bound_t get_key key_comp key t y) h →
  wp (lower_bound_loop get_key key_comp fuel key (top t) y) h Q.
Proof.
  revert par t y. induction fuel as [|fuel IH]; intros par t y Hrep Hf HQ; [lia|].
  destruct t as [|a c l v r]; simpl in *.
  { by apply wp_ret. }
  destruct Hrep as (Ha & Hl & Hr). wp_steps.
  destruct (key_comp (get_key v) key); simpl; wp_steps.
  - eapply IH; [done|lia|done].
  - eapply IH; [done|lia|done].
Qed.

Lemma wp_upper_bound_loop fuel h par t key y Q :
  rep h par t → height t < fuel →
  Q (upper_bound_t get_key key_comp key t y) h →
  wp (upper_bound_loop get_key key_comp fuel key (top t) y) h Q.
Proof.
  revert par t y. induction fuel as [|fuel IH]; intros par t y Hrep Hf HQ; [lia|].
  destruct t as [|a c l v r]; simpl in *.
  { by apply wp_ret. }
  destruct Hrep as (Ha & Hl & Hr). wp_steps.
  destruct (key_comp key (get_key v)); simpl; wp_steps.
  - eapply IH; [done|lia|done].
  - eapply IH; [done|lia|done].
Qed.

Lemma plug_insert_ctx key t ctx :
  plug (insert_ctx get_key key_comp key t ctx) Leaf = plug ctx t.
Proof.
  revert ctx. induction t as [|a c l IHl v r IHr]; intros ctx; simpl; [done|].
  destruct (key_comp key (get_key v)); [rewrite IHl|rewrite IHr]; done.
Qed.

Lemma wp_insert_pos_loop fuel h hd ctx t key Q :
  rep h (ctx_par hd ctx) t → height t < fuel →
  (let ctx' := insert_ctx get_key key_comp key t ctx in
   Q (ctx_par hd ctx', ctx_side ctx') h) →
  wp (insert_pos_loop get_key key_comp fuel key (top t) (ctx_par hd ctx)
        (ctx_side ctx)) h Q.
Proof.
  revert ctx t. induction fuel as [|fuel IH]; intros ctx t Hrep Hf HQ; [lia|].
  destruct t as [|a c l v r]; simpl in *.
  { by apply wp_ret. }
  destruct Hrep as (Ha & Hl & Hr). wp_steps.
  destruct (key_comp key (get_key v)); simpl; wp_steps.
  - eapply (IH (FL a c v r :: ctx)); [done|lia|done].
  - eapply (IH (FR a c l v :: ctx)); [done|lia|done].
Qed.
End descents.

Section iterators.
Context {T : Type}.
Implicit Types (t l r s u : atree T) (h : heap T) (ctx : list (frame T)).

Lemma first_pos_app_cons hd (a : addr) (v : T) cs cs' :
  first_pos hd (cs ++ (a, v) :: cs') = first_pos a (cs ++ (a, v) :: cs').
Proof. unfold first_pos. by destruct cs. Qed.

Lemma last_pos_app_cons hd (a : addr) (v : T) cs cs' :
  last_pos hd (cs ++ (a, v) :: cs') = last_pos a (cs ++ (a, v) :: cs').
Proof.
  unfold last_pos. rewrite last_app.
  destruct (last ((a, v) :: cs')) eqn:E; [done|]. by apply last_None in E.
Qed.

Lemma last_pos_in hd (cs : list (addr * T)) :
  cs ≠ [] → ∃ b, last_pos hd cs = Some b ∧ b ∈ cs.*1.
Proof.
  intros Hne. unfold last_pos.
  destruct (last cs) as [[b v]|] eqn:E; [|by apply last_None in E].
  exists b. split; [done|]. apply last_Some in E as [cs' ->].
  rewrite fmap_app. set_solver.
Qed.

Lemma first_pos_in hd (cs : list (addr * T)) :
  cs ≠ [] → ∃ b, first_pos hd cs = Some b ∧ b ∈ cs.*1.
Proof.
  intros Hne. unfold first_pos. destruct cs as [|[b v] cs]; [done|].
  exists b. split; [done|]. set_solver.
Qed.

Lemma wp_inc_climb fuel h hd L R ctx n cn ln vn rn Q :
  focus_rep h hd L R ctx (Br n cn ln vn rn) →
  R = last_pos hd (cells (plug ctx (Br n cn ln vn rn))) →
  length ctx + 2 ≤ fuel →
  Q (first_pos hd (ctx_after ctx)) h →
  wp (inc_climb fuel (Some n) (ctx_par hd ctx)) h
     (λ ny h', wp (let* nr := get_right ny.1 in
                   if negb (ptr_eqb nr ny.2) then ret ny.2 else ret ny.1) h' Q).
Proof.
  revert ctx n cn ln vn rn.
  induction fuel as [|fuel IH]; intros ctx n cn ln vn rn Hfoc HR Hf HQ; [lia|].
  pose proof Hfoc as (Hctx & Hrep & Hnd). simpl in Hrep.
  destruct Hrep as (Hn & Hln & Hrn).
  destruct ctx as [|[p cp vp pr|p cp pl vp] ctx']; simpl in *;
    destruct_and?; sep_split.
  - clear IH. rewrite ?plug_nil in HR. simpl in HR. subst R.
    destruct fuel as [|fuel]; [lia|].
    destruct rn as [|r0 cr rl vr rr]; simpl in *.
    + rewrite last_pos_app_cons in Hctx. unfold last_pos in Hctx.
      rewrite last_snoc in Hctx. simpl in *. wp_steps. done.
    + destruct_and?. sep_split.
      destruct (last_pos_in hd (cells rl ++ (r0, vr) :: cells rr)) as (b & Hb & Hbin);
        [by destruct (cells rl)|].
      assert (last_pos hd (cells ln ++ (n, vn) :: cells rl ++ (r0, vr) :: cells rr)
              = Some b) as Hl.
      { rewrite <-Hb. unfold last_pos. rewrite last_app, last_cons.
        by destruct (last (cells rl ++ (r0, vr) :: cells rr)) eqn:E;
          [|apply last_None in E; destruct (cells rl)]. }
      rewrite Hl in Hctx.
      assert (b ≠ n).
      { intros ->. rewrite fmap_app, fmap_cons, <-!addrs_cells in Hbin. simpl in Hbin.
        apply elem_of_app in Hbin as [?|[?|?]%elem_of_cons]; done. }
      wp_steps. done.
  - wp_steps. done.
  - wp_steps. eapply (IH ctx' p cp pl vp (Br n cn ln vn rn)); [|done|lia|done].
    focus_tac.
Qed.

Lemma wp_inc h hd L R ctx a c l v r Q :
  focus_rep h hd L R ctx (Br a c l v r) →
  R = last_pos hd (cells (plug ctx (Br a c l v r))) →
  Q (first_pos hd (cells r ++ ctx_after ctx)) h →
  wp (inc (Some a)) h Q.
Proof.
  intros Hfoc HR HQ. unfold inc.
  pose proof (focus_rep_fuel _ _ _ _ _ _ Hfoc) as Hfuel.
  pose proof Hfoc as (Hctx & Hrep & Hnd). simpl in Hrep.
  destruct Hrep as (Ha & Hl & Hr). wp_steps.
  destruct r as [|r0 cr rl vr rr]; simpl; wp_steps.
  - eapply wp_mono; [eapply wp_inc_climb; [done|done| |]|].
    + simpl in Hfuel. lia.
    + exact HQ.
    + done.
  - unfold rb_tree_min. wp_steps.
    eapply (wp_min_loop _ _ _ (Br r0 cr rl vr rr)); [done|done|simpl in *; lia|].
    intros b cs <- Hb. simpl in Hb.
    revert HQ. unfold first_pos. simpl.
    rewrite <-!app_assoc in *. rewrite fmap_app in Hb.
    destruct (cells rl) as [|[] ?]; simpl in *; by injection Hb as ->.
Qed.

Lemma wp_dec_climb fuel h hd L R ctx n cn ln vn rn Q :
  focus_rep h hd L R ctx (Br n cn ln vn rn) →
  ctx_before ctx ≠ [] →
  length ctx < fuel →
  Q (last_pos hd (ctx_before ctx)) h →
  wp (dec_climb fuel (Some n) (ctx_par hd ctx)) h Q.
Proof.
  revert ctx n cn ln vn rn.
  induction fuel as [|fuel IH]; intros ctx n cn ln vn rn Hfoc Hne Hf HQ; [lia|].
  pose proof Hfoc as (Hctx & Hrep & Hnd). simpl in Hrep.
  destruct Hrep as (Hn & Hln & Hrn).
  destruct ctx as [|[p cp vp pr|p cp pl vp] ctx']; simpl in *;
    destruct_and?; sep_split; [done| |].
  - wp_steps. eapply (IH ctx' p cp (Br n cn ln vn rn) vp pr); [|done|lia|done].
    focus_tac.
  - wp_steps. revert HQ. unfold last_pos.
    by rewrite !app_assoc, last_snoc.
Qed.

Lemma wp_dec h hd L R ctx a c l v r Q :
  focus_rep h hd L R ctx (Br a c l v r) →
  (ctx = [] → c = rb_tree_black) →
  ctx_before ctx ++ cells l ≠ [] →
  Q (last_pos hd (ctx_before ctx ++ cells l)) h →
  wp (dec (Some a)) h Q.
Proof.
  intros Hfoc Hroot Hne HQ. unfold dec.
  pose proof (focus_rep_fuel _ _ _ _ _ _ Hfoc) as Hfuel.
  pose proof Hfoc as (Hctx & Hrep & Hnd). simpl in Hrep.
  destruct Hrep as (Ha & Hl & Hr).
  assert (wp (get_grandparent (Some a)) h (λ pp h', h' = h ∧
            (ptr_eqb pp (Some a) && color_is c rb_tree_red = false))) as Hgp.
  { destruct ctx as [|f ctx'].
    - rewrite (Hroot eq_refl). simpl in *. wp_steps. split; [done|].
      by rewrite ptr_eqb_refl.
    - destruct f as [p cp vp pr|p cp pl vp], ctx' as [|g ctx''];
        simpl in *; destruct_and?; sep_split; wp_steps;
        (split; [done|]);
        try (destruct g; simpl in *; sep_split).
    all: by rewrite ptr_eqb_some_ne by sep_tac. }
  apply wp_bind. eapply wp_mono; [exact Hgp|]. simpl.
  intros pp h' [-> Hpp]. wp_steps. rewrite Hpp.
  destruct l as [|l0 cl ll vl lr]; simpl; wp_steps.
  - rewrite app_nil_r in Hne, HQ.
    eapply wp_dec_climb; [done|done|simpl in Hfuel; lia|done].
  - unfold rb_tree_max. wp_steps.
    eapply (wp_max_loop _ _ _ (Br l0 cl ll vl lr)); [done|done|simpl in *; lia|].
    intros b cs <- Hb. simpl in Hb.
    revert HQ. unfold last_pos. simpl.
    rewrite fmap_last in Hb. rewrite last_app.
    destruct (last (cells ll ++ (l0, vl) :: cells lr)) as [[]|]; simpl in *; [|done].
    by injection Hb as ->.
Qed.

Lemma wp_dec_end h hd L R t Q :
  tree_rep h hd L R t → t ≠ Leaf → Q R h → wp (dec (Some hd)) h Q.
Proof.
  intros (Hhd & Hrep & Hnd) Hne HQ. unfold dec.
  destruct t as [|a c l v r]; [done|]. simpl in *. destruct_and?.
  wp_steps. done.
Qed.
End iterators.

(** ** Running member functions *)

Section rwp.
Context {T : Type}.
Implicit Types (s : state T) (h : heap T).

Lemma rwp_ret {A} (a : A) s Q : Q a s → rwp (rret a) s Q.
Proof. by exists a, s. Qed.

Lemma rwp_bind {A B} (m : R A) (k : A → R B) s Q :
  rwp m s (λ a s', rwp (k a) s' Q) → rwp (let+ x := m in k x) s Q.
Proof.
  intros (a & s' & Hm & b & s'' & Hk & HQ). exists b, s''.
  unfold rbind. by rewrite Hm.
Qed.

Lemma rwp_mono {A} (m : R A) s (Q Q' : A → state T → Prop) :
  rwp m s Q → (∀ a s', Q a s' → Q' a s') → rwp m s Q'.
Proof. intros (a & s' & ? & ?) HQ. exists a, s'. auto. Qed.

Lemma rwp_lift {A} (m : M A) s Q :
  wp m (mem s) (λ a h', Q a (State (this s) h')) → rwp (lift m) s Q.
Proof.
  intros (a & h' & Hm & HQ). exists a, (State (this s) h').
  unfold lift. by rewrite Hm.
Qed.

Lemma rwp_get_this s Q : Q (this s) s → rwp get_this s Q.
Proof. intros. by exists (this s), s. Qed.
Lemma rwp_set_this t s Q : Q tt (State t (mem s)) → rwp (set_this t) s Q.
Proof. intros. by exists tt, (State t (mem s)). Qed.
Lemma rwp_get_mem s Q : Q (mem s) s → rwp get_mem s Q.
Proof. intros. by exists (mem s), s. Qed.
Lemma rwp_set_mem h s Q : Q tt (State (this s) h) → rwp (set_mem h) s Q.
Proof. intros. by exists tt, (State (this s) h). Qed.
End rwp.

Global Arguments rwp : simpl never.
Global Arguments rret : simpl never.
Global Arguments rbind : simpl never.
Global Arguments throw : simpl never.
Global Arguments lift : simpl never.
Global Arguments get_this : simpl never.
Global Arguments set_this : simpl never.
Global Arguments get_mem : simpl never.
Global Arguments set_mem : simpl never.
Global Arguments try_catch_rethrow : simpl never.

Ltac rwp_step :=
  lazymatch goal with
  | |- rwp (rbind _ _) _ _ => apply rwp_bind
  | |- rwp (rret _) _ _ => apply rwp_ret
  | |- rwp get_this _ _ => apply rwp_get_this
  | |- rwp (set_this _) _ _ => apply rwp_set_this
  | |- rwp get_mem _ _ => apply rwp_get_mem
  | |- rwp (set_mem _) _ _ => apply rwp_set_mem
  | |- rwp (lift _) _ _ => apply rwp_lift
  end; simpl.

Ltac rwp_steps := repeat rwp_step.

Section insert_node.
Context {T : Type}.
Implicit Types (t l r u : atree T) (s : state T) (h : heap T)
  (ctx : list (frame T)).

Lemma wp_set_black_root h hd L R t Q :
  tree_rep h hd L R t →
  (∀ h', tree_rep h' hd L R (set_color_t rb_tree_black t) →
         same_outside (addrs t) h h' → Q tt h') →
  wp (rb_tree_set_black (top t)) h Q.
Proof.
  intros (Hhd & Hrep & Hnd) HQ. destruct t as [|a c l v r]; simpl in *.
  - unfold rb_tree_set_black. rewrite is_null_none. apply wp_ret.
    apply HQ; [done|]. by intros ?.
  - destruct_and?. sep_split. wp_steps. apply HQ.
    + unfold tree_rep. simpl. split_and!;
        first [ done | lookup_tac | solve [rep_tac] | solve [sep_tac] ].
    + same_outside_tac.
Qed.

Lemma wp_insert_rebalance h hd L R ctx x cx xl vx xr t1 Q :
  focus_rep h hd L R ctx (Br x cx xl vx xr) →
  insert_rebalance_t ctx (Br x cx xl vx xr) = Some t1 →
  (∀ h', tree_rep h' hd L R t1 →
         same_outside (hd :: ctx_addrs ctx ++ addrs (Br x cx xl vx xr)) h h' →
         Q tt h') →
  wp (rb_tree_insert_rebalance (Some x) (RParent (Some hd))) h Q.
Proof.
  intros Hfoc Hreb HQ. unfold rb_tree_insert_rebalance, insert_rebalance_t in *.
  destruct (insert_fix _ _) as [t'|] eqn:Hfix; [|done]. injection Hreb as <-.
  pose proof Hfoc as (Hctx & Hrep & Hnd). simpl in Hrep, Hnd.
  destruct_and?. sep_split. wp_steps.
  assert (focus_rep (<[x:=Node (ctx_par hd ctx) (top xl) (top xr) rb_tree_red (Some vx)]> h)
            hd L R ctx (Br x rb_tree_red xl vx xr)) as Hfoc1 by focus_tac.
  eapply wp_insert_rebalance_loop; [exact Hfoc1|exact Hfix| |].
  { pose proof (focus_rep_fuel _ _ _ _ _ _ Hfoc1). lia. }
  intros h' Htr Hso. wp_steps. destruct Htr as (Hhd' & Hrep' & Hnd').
  wp_steps. eapply wp_set_black_root; [by split_and!|].
  intros h'' Htr'' Hso''. apply HQ; [done|].
  assert (addrs t' ≡ₚ ctx_addrs ctx ++ addrs (Br x rb_tree_red xl vx xr)) as Hperm.
  { rewrite <-addrs_plug_perm, !addrs_cells. f_equiv.
    by rewrite (insert_fix_cells _ _ _ Hfix). }
  intros a Ha. rewrite Hso''.
  2:{ rewrite Hperm. simpl in *. by apply not_elem_of_cons in Ha as [_ ?]. }
  rewrite Hso by done. apply not_elem_of_cons in Ha as [? Ha].
  rewrite lookup_insert_ne; [done|]. intros ->. apply Ha. simpl. elem_tac.
Qed.

Lemma ctx_rep_set_header h hd L R L' R' ctx hole :
  ctx_rep h hd L R ctx hole → hd ∉ ctx_addrs ctx →
  ctx_rep (<[hd := Node (ctx_root ctx hole) L' R' rb_tree_red None]> h)
    hd L' R' ctx hole.
Proof.
  revert hole. induction ctx as [|f ctx IH]; intros hole Hctx Hhd.
  { simpl. by rewrite lookup_insert_eq. }
  rewrite ctx_root_cons. rewrite ctx_addrs_cons in Hhd.
  destruct f; simpl in *; destruct_and?; sep_split;
    (split_and!; [by rewrite lookup_insert_ne|by apply rep_frame|by apply IH]).
Qed.

Lemma ctx_rep_transfer h h' hd L R L' R' ctx hole S :
  ctx_rep h hd L R ctx hole → same_outside S h h' → disj (ctx_addrs ctx) S →
  h' !! hd = Some (Node (ctx_root ctx hole) L' R' rb_tree_red None) →
  ctx_rep h' hd L' R' ctx hole.
Proof.
  revert hole. induction ctx as [|f ctx IH]; intros hole Hctx Hso Hd Hhd.
  { done. }
  rewrite ctx_root_cons in Hhd. rewrite ctx_addrs_cons in Hd.
  destruct f; simpl in *; destruct_and?; sep_split.
  - split_and!; [rewrite Hso; [done|sep_tac]| |by apply IH].
    eapply rep_same_outside; [done| |done]. intros; sep_tac.
  - split_and!; [rewrite Hso; [done|sep_tac]| |by apply IH].
    eapply rep_same_outside; [done| |done]. intros; sep_tac.
Qed.

Lemma ctx_before_addrs ctx a :
  a ∈ (ctx_before ctx).*1 → a ∈ ctx_addrs ctx.
Proof.
  induction ctx as [|f ctx IH]; simpl; [done|].
  rewrite ctx_addrs_cons. destruct f; simpl.
  - set_solver.
  - rewrite !fmap_app, <-addrs_cells. simpl. set_solver.
Qed.

Lemma ctx_after_addrs ctx a :
  a ∈ (ctx_after ctx).*1 → a ∈ ctx_addrs ctx.
Proof.
  induction ctx as [|f ctx IH]; simpl; [done|].
  rewrite ctx_addrs_cons. destruct f; simpl.
  - rewrite fmap_app, <-addrs_cells. set_solver.
  - set_solver.
Qed.
End insert_node.

Section insert_node_at.
Context {T : Type}.
Variable size_bits : Z.
Implicit Types (t l r u : atree T) (s : state T) (h : heap T)
  (ctx : list (frame T)).

Lemma first_pos_nil hd : first_pos (T:=T) hd [] = Some hd.
Proof. done. Qed.
Lemma last_pos_nil hd : last_pos (T:=T) hd [] = Some hd.
Proof. done. Qed.
Lemma first_pos_cons hd (a : addr) (v : T) cs :
  first_pos hd ((a, v) :: cs) = Some a.
Proof. done. Qed.
Lemma last_pos_snoc hd (a : addr) (v : T) cs :
  last_pos hd (cs ++ [(a, v)]) = Some a.
Proof. unfold last_pos. by rewrite last_snoc. Qed.
Lemma first_pos_app hd (cs cs' : list (addr * T)) :
  cs ≠ [] → first_pos hd (cs ++ cs') = first_pos hd cs.
Proof. by destruct cs. Qed.
Lemma last_pos_app hd (cs cs' : list (addr * T)) :
  cs' ≠ [] → last_pos hd (cs ++ cs') = last_pos hd cs'.
Proof.
  intros Hne. unfold last_pos. rewrite last_app.
  destruct (last cs') eqn:E; [done|]. by apply last_None in E.
Qed.

Lemma last_pos_cons hd (x : addr * T) cs :
  cs ≠ [] → last_pos hd (x :: cs) = last_pos hd cs.
Proof. apply (last_pos_app hd [x]). Qed.

Lemma rwp_insert_node_at s hd L R n ctx nd cn v t1 (add_to_left : bool) Q :
  this s = RbTree (Some hd) n →
  focus_rep (mem s) hd L R ctx Leaf →
  L = first_pos hd (cells (plug ctx Leaf)) →
  R = last_pos hd (cells (plug ctx Leaf)) →
  mem s !! nd = Some (Node None None None cn (Some v)) →
  nd ∉ hd :: ctx_addrs ctx →
  (ctx ≠ [] → add_to_left = ctx_side ctx) →
  insert_rebalance_t ctx (Br nd cn Leaf v Leaf) = Some t1 →
  (∀ s', this s' = RbTree (Some hd) ((n + 1) `mod` 2 ^ size_bits) →
         tree_rep (mem s') hd (first_pos hd (cells t1)) (last_pos hd (cells t1)) t1 →
         same_outside (nd :: hd :: ctx_addrs ctx) (mem s) (mem s') →
         Q (Some nd) s') →
  rwp (insert_node_at size_bits (ctx_par hd ctx) (Some nd) add_to_left) s Q.
Proof.
  intros Hthis Hfoc HL HR Hnd Hfresh Hside Hreb HQ.
  destruct s as [[hdr cnt] h]. simpl in *. injection Hthis as -> ->.
  unfold insert_node_at, incr_node_count. rwp_steps.
  apply wp_bind. unfold root, leftmost, rightmost. simpl.
  pose proof (insert_rebalance_cells _ _ _ Hreb) as Hcells.
  rewrite cells_plug in Hcells, HL, HR. simpl in Hcells, HL, HR.
  rewrite Hcells in HQ.
  destruct Hfoc as (Hctx & _ & Hnodup). rewrite app_nil_r in Hnodup.
  pose proof (ctx_rep_header _ _ _ _ _ _ Hctx) as Hhd.
  sep_split.
  assert (∀ h1 L' R',
    focus_rep h1 hd L' R' ctx (Br nd cn Leaf v Leaf) →
    same_outside (nd :: hd :: ctx_addrs ctx) h h1 →
    L' = first_pos hd (ctx_before ctx ++ (nd, v) :: ctx_after ctx) →
    R' = last_pos hd (ctx_before ctx ++ (nd, v) :: ctx_after ctx) →
    wp (rb_tree_insert_rebalance (Some nd) (RParent (Some hd))) h1
      (λ _ h', rwp (let+ _ := (let+ t := get_this in
                       set_this (RbTree (header_ t)
                         ((node_count_ t + 1) `mod` 2 ^ size_bits))) in
                    rret (Some nd))
                (State (RbTree (Some hd) n) h') Q)) as Hfin.
  { intros h1 L' R' Hfoc' Hso1 -> ->.
    eapply wp_insert_rebalance; [exact Hfoc'|exact Hreb|].
    intros h' Htr Hso. rwp_steps. apply HQ; [done|done|]. simpl.
    intros a Ha. sep_split. rewrite Hso by (simpl; sep_tac).
    apply Hso1. sep_tac. }
  destruct ctx as [|[p cp vp pr|p cp pl vp] ctx'].
  - simpl in *. wp_steps.
    eapply Hfin; [|same_outside_tac|done|done]. focus_tac.
  - rewrite (Hside ltac:(done)). rewrite ctx_root_cons in Hhd.
    simpl in *. destruct_and?. sep_split. wp_steps.
    destruct (ctx_before ctx') as [|[b vb] cs] eqn:Hbef.
    + simpl in *. subst L. rewrite first_pos_cons in *. wp_steps.
      eapply Hfin; [|same_outside_tac|done|].
      * unfold focus_rep. simpl. split_and!;
          try first [ done | lookup_tac | solve [rep_tac] | solve [sep_tac] ].
        eapply (ctx_rep_transfer _ _ _ _ _ _ _ _ _ [nd; p; hd]);
          [done|same_outside_tac|sep_tac|lookup_tac].
      * subst R. symmetry. by apply last_pos_cons.
    + assert (b ∈ ctx_addrs ctx') as Hb.
      { apply ctx_before_addrs. rewrite Hbef. set_solver. }
      simpl in HL. rewrite first_pos_cons in HL. subst L.
      wp_steps.
      eapply Hfin; [|same_outside_tac|done|].
      * unfold focus_rep. simpl. split_and!;
          try first [ done | lookup_tac | solve [rep_tac] | solve [sep_tac] ].
        apply ctx_rep_frame; [sep_tac|sep_tac|].
        apply ctx_rep_frame; [sep_tac|sep_tac|]. done.
      * subst R. rewrite !(last_pos_app _ (_ :: _)) by done.
        symmetry. by apply last_pos_cons.
  - rewrite (Hside ltac:(done)). rewrite ctx_root_cons in Hhd.
    simpl in *. destruct_and?. sep_split. wp_steps.
    destruct (ctx_after ctx') as [|[b vb] cs] eqn:Haft.
    + simpl in *. rewrite ?app_nil_r in *. rewrite ?app_assoc in *.
      rewrite ?last_pos_snoc in *. subst R. wp_steps.
      eapply Hfin; [|same_outside_tac| |].
      * unfold focus_rep. simpl. split_and!;
          try first [ done | lookup_tac | solve [rep_tac] | solve [sep_tac] ].
        eapply (ctx_rep_transfer _ _ _ _ _ _ _ _ _ [nd; p; hd]);
          [done|same_outside_tac|sep_tac|lookup_tac].
      * subst L. symmetry. apply first_pos_app. by destruct (_ ++ cells pl).
      * done.
    + assert (b ∈ ctx_addrs ctx') as Hb.
      { apply ctx_after_addrs. rewrite Haft. set_solver. }
      assert (R = Some (default hd (fst <$> last ((b, vb) :: cs)))) as HR'.
      { subst R. by rewrite last_pos_app. }
      destruct (last_pos_in hd ((b, vb) :: cs)) as (b' & Hb' & Hbin); [done|].
      unfold last_pos in Hb'. rewrite Hb' in HR'.
      assert (b' ∈ ctx_addrs ctx') as Hb2.
      { apply ctx_after_addrs. by rewrite Haft. }
      clear HR. subst R. wp_steps.
      eapply Hfin; [|same_outside_tac| |].
      * unfold focus_rep. simpl. split_and!;
          try first [ done | lookup_tac | solve [rep_tac] | solve [sep_tac] ].
        apply ctx_rep_frame; [sep_tac|sep_tac|].
        apply ctx_rep_frame; [sep_tac|sep_tac|]. done.
      * assert (ctx_before ctx' ++ cells pl ++ [(p, vp)] ≠ []) as Hne.
        { intros Hx%(f_equal length). rewrite !length_app in Hx.
          simpl in Hx. lia. }
        subst L. rewrite (first_pos_app _ _ _ Hne).
        by rewrite (first_pos_app _ _ _ Hne).
      * rewrite last_pos_app by done. rewrite last_pos_cons by done.
        unfold last_pos. by rewrite Hb'.
Qed.
End insert_node_at.

(** ** Paths inside a subtree *)

Section partial_contexts.
Context {T : Type}.
Implicit Types (t l r s u w : atree T) (h : heap T) (ctx : list (frame T)).

Lemma rep_pplug h par ctx s :
  rep h par (plug ctx s) ↔ pctx_rep h par ctx (top s) ∧ rep h (pctx_par par ctx) s.
Proof.
  revert s. induction ctx as [|f ctx IH]; intros s.
  { rewrite plug_nil. simpl. naive_solver. }
  rewrite plug_cons, IH. destruct f; simpl; naive_solver.
Qed.

Lemma pctx_rep_frame h par ctx hole a n :
  a ∉ ctx_addrs ctx →
  pctx_rep h par ctx hole → pctx_rep (<[a := n]> h) par ctx hole.
Proof.
  revert hole. induction ctx as [|f ctx IH]; intros hole Hn; [done|].
  rewrite ctx_addrs_cons in Hn.
  destruct f; simpl in *; sep_split; intros (? & ? & ?);
    (split_and!; [by rewrite lookup_insert_ne|by apply rep_frame|by apply IH]).
Qed.

Lemma min_split_plug t ctxy y cy vy yr :
  min_split t = Some (ctxy, (y, cy, vy, yr)) →
  t = plug ctxy (Br y cy Leaf vy yr)
  ∧ ctx_before ctxy = [] ∧ Forall is_FL ctxy.
Proof.
  revert ctxy. induction t as [|a c l IHl v r _]; intros ctxy; simpl; [done|].
  destruct (min_split l) as [[ctx' [[[y' cy'] vy'] yr']]|] eqn:Hl.
  - intros [= <- <- <- <- <-].
    destruct (IHl _ eq_refl) as (-> & Hb & Hall).
    rewrite plug_app, plug_cons, plug_nil. split_and!; [done| |].
    + by rewrite ctx_before_app, Hb.
    + apply Forall_app. split; [done|]. by repeat constructor.
  - intros [= <- <- <- <- <-]. destruct l; [|simpl in Hl; by destruct (min_split l1) as [[? ?]|]].
    by rewrite plug_nil.
Qed.

Lemma min_split_some t : t ≠ Leaf → is_Some (min_split t).
Proof.
  destruct t as [|a c l v r]; [done|]. intros _. simpl.
  destruct (min_split l) as [[? ?]|]; eauto.
Qed.

Lemma ctx_par_app hd ctx1 ctx2 :
  ctx_par hd (ctx1 ++ ctx2) = pctx_par (ctx_par hd ctx2) ctx1.
Proof. by destruct ctx1. Qed.

Lemma ctx_rep_app h hd L R ctx1 ctx2 hole :
  ctx_rep h hd L R (ctx1 ++ ctx2) hole
  ↔ pctx_rep h (ctx_par hd ctx2) ctx1 hole
    ∧ ctx_rep h hd L R ctx2 (ctx_root ctx1 hole).
Proof.
  revert hole. induction ctx1 as [|f ctx1 IH]; intros hole.
  { simpl. unfold ctx_root. simpl. naive_solver. }
  rewrite ctx_root_cons. destruct f; simpl; rewrite IH, ctx_par_app; naive_solver.
Qed.

(** The outermost node of a path is hung below another owner. *)
Lemma pctx_rep_reparent h par par' ctx hole g ng :
  ctx ≠ [] → ctx_root ctx hole = Some g → NoDup (ctx_addrs ctx) →
  pctx_rep h par ctx hole → h !! g = Some ng →
  pctx_rep (<[g := with_parent par' ng]> h) par' ctx hole.
Proof.
  revert hole. induction ctx as [|f ctx IH]; intros hole Hne Hg Hnd Hrep Hng;
    [done|].
  rewrite ctx_root_cons in Hg. rewrite ctx_addrs_cons in Hnd.
  destruct (decide (ctx = [])) as [->|Hne'].
  - unfold ctx_root in Hg. simpl in Hg. injection Hg as <-.
    destruct f; simpl in *; sep_split; destruct_and?; simplify_eq; simpl;
      rewrite lookup_insert_eq; (split_and!; [done| |done]); by apply rep_frame.
  - destruct (ctx_root_in ctx (Some (frame_addr f))) as (g' & Hg' & Hin);
      [done|]. rewrite Hg in Hg'. injection Hg' as <-.
    assert (pctx_par par ctx = pctx_par par' ctx) as Hpar by (by destruct ctx).
    pose proof Hnd as (_ & _ & Hnd')%NoDup_app.
    destruct f; simpl in Hnd, Hrep |- *; sep_split; destruct_and?;
      rewrite <-Hpar;
      (split_and!;
       [rewrite lookup_insert_ne by sep_tac; done
       |apply rep_frame; [sep_tac|done]
       |by apply IH]).
Qed.

Lemma pctx_rep_root_lookup h par ctx hole g :
  ctx ≠ [] → ctx_root ctx hole = Some g → pctx_rep h par ctx hole →
  ∃ ng, h !! g = Some ng.
Proof.
  revert hole. induction ctx as [|f ctx IH]; intros hole Hne Hg Hrep; [done|].
  rewrite ctx_root_cons in Hg. destruct ctx as [|f' ctx].
  - unfold ctx_root in Hg. simpl in Hg. injection Hg as <-.
    destruct f; simpl in *; naive_solver.
  - eapply (IH (Some (frame_addr f))); [done|done|].
    destruct f; simpl in *; naive_solver.
Qed.

Lemma top_plug ctx t : top (plug ctx t) = ctx_root ctx (top t).
Proof.
  revert t. induction ctx as [|f ctx IH]; intros t; [done|].
  rewrite plug_cons, IH, ctx_root_cons. by destruct f.
Qed.
End partial_contexts.

(** ** The loop of [rb_tree_erase_rebalance] *)

Section erase_loop.
Context {T : Type}.
Implicit Types (t l r s u w : atree T) (h : heap T) (ctx : list (frame T)).

Lemma wp_null_or_not_red h t par Q :
  rep h par t → Q (black_or_leaf t) h → wp (null_or_not_red (top t)) h Q.
Proof.
  intros Hrep HQ. destruct t as [|a c l v r]; simpl.
  - wp_steps. done.
  - destruct Hrep as (Ha & _). wp_steps. done.
Qed.

(** [if (p != nullptr) rb_tree_set_black(p)] on the root of a subtree. *)
Lemma wp_set_black_nonnull h par t Q :
  rep h par t → NoDup (addrs t) →
  (∀ h', rep h' par (set_color_t rb_tree_black t) →
         same_outside (option_list (top t)) h h' → Q tt h') →
  wp (if negb (is_null (top t)) then rb_tree_set_black (top t) else ret tt) h Q.
Proof.
  intros Hrep Hnd HQ. destruct t as [|a c l v r]; simpl.
  - apply wp_ret, HQ; [done|]. by intros ?.
  - destruct Hrep as (Ha & Hl & Hr). simpl in Hnd. sep_split.
    wp_steps. apply HQ.
    + simpl. split_and!; [lookup_tac|rep_tac|rep_tac].
    + same_outside_tac.
Qed.

Lemma wp_erase_case1_l {A} h hd L R ctx p cp xs vp w cp1 w1 ctx1
    (K : ptr → M A) Q :
  focus_rep h hd L R ctx (Br p cp xs vp w) →
  w ≠ Leaf →
  erase_case1_l cp w ctx = (cp1, w1, ctx1) →
  (∀ h', focus_rep h' hd L R ctx1 (Br p cp1 xs vp w1) →
         same_outside (hd :: ctx_addrs ctx ++ addrs (Br p cp xs vp w)) h h' →
         wp (K (top w1)) h' Q) →
  wp (let* brother := get_right (Some p) in
      let* bred := rb_tree_is_red brother in
      let* brother :=
        (if bred then
           let* _ := rb_tree_set_black brother in
           let* _ := rb_tree_set_red (Some p) in
           let* _ := rb_tree_rotate_left (Some p) (RParent (Some hd)) in
           get_right (Some p)
         else ret brother) in
      K brother) h Q.
Proof.
  intros Hfoc Hw Hcase HQ. destruct w as [|b cb bl vb br]; [done|]. clear Hw.
  pose proof Hfoc as (Hctx & Hrep & Hnd).
  simpl in Hrep, Hnd, Hcase. destruct_and?. sep_split. wp_steps.
  destruct (color_is cb rb_tree_red) eqn:Hcb.
  - injection Hcase as <- <- <-. wp_steps.
    eapply (wp_rotate_left _ hd L R ctx p rb_tree_red xs vp
              b rb_tree_black bl vb br).
    { focus_tac. }
    intros h1 Hfoc1 Hso1. pose proof Hfoc1 as (_ & Hrep1 & _).
    simpl in Hrep1. destruct_and?. wp_steps.
    apply HQ.
    + by apply focus_rep_up.
    + same_outside_tac.
  - injection Hcase as <- <- <-. wp_steps. apply HQ; [done|]. by intros ?.
Qed.

Lemma wp_erase_case1_r {A} h hd L R ctx p cp xs vp w cp1 w1 ctx1
    (K : ptr → M A) Q :
  focus_rep h hd L R ctx (Br p cp w vp xs) →
  w ≠ Leaf →
  erase_case1_r cp w ctx = (cp1, w1, ctx1) →
  (∀ h', focus_rep h' hd L R ctx1 (Br p cp1 w1 vp xs) →
         same_outside (hd :: ctx_addrs ctx ++ addrs (Br p cp w vp xs)) h h' →
         wp (K (top w1)) h' Q) →
  wp (let* brother := get_left (Some p) in
      let* bred := rb_tree_is_red brother in
      let* brother :=
        (if bred then
           let* _ := rb_tree_set_black brother in
           let* _ := rb_tree_set_red (Some p) in
           let* _ := rb_tree_rotate_right (Some p) (RParent (Some hd)) in
           get_left (Some p)
         else ret brother) in
      K brother) h Q.
Proof.
  intros Hfoc Hw Hcase HQ. destruct w as [|b cb bl vb br]; [done|]. clear Hw.
  pose proof Hfoc as (Hctx & Hrep & Hnd).
  simpl in Hrep, Hnd, Hcase. destruct_and?. sep_split. wp_steps.
  destruct (color_is cb rb_tree_red) eqn:Hcb.
  - injection Hcase as <- <- <-. wp_steps.
    eapply (wp_rotate_right _ hd L R ctx p rb_tree_red bl vp
              b rb_tree_black br vb xs).
    { focus_tac. }
    intros h1 Hfoc1 Hso1. pose proof Hfoc1 as (_ & Hrep1 & _).
    simpl in Hrep1. destruct_and?. wp_steps.
    apply HQ.
    + by apply focus_rep_up.
    + same_outside_tac.
  - injection Hcase as <- <- <-. wp_steps. apply HQ; [done|]. by intros ?.
Qed.

(** [(l == nullptr || !red(l)) && (r == nullptr || !red(r))], the left
    operand already evaluated. *)
Lemma wp_and_black_r h b nb r (lblack : bool) Q :
  h !! b = Some nb → right nb = top r → rep h (Some b) r →
  Q (lblack && black_or_leaf r) h →
  wp (if lblack then let* br := get_right (Some b) in null_or_not_red br
      else ret false) h Q.
Proof.
  intros Hb Hr Hrep HQ. destruct lblack; simpl in *; wp_steps; [|done].
  rewrite Hr. by eapply wp_null_or_not_red.
Qed.

Lemma wp_erase_case3_l {A} h hd L R ctx p cp xs vp b cb bl vb br w2
    (K : ptr → M A) Q :
  focus_rep h hd L R ctx (Br p cp xs vp (Br b cb bl vb br)) →
  erase_case3_l (Br b cb bl vb br) = Some w2 →
  (∀ h', focus_rep h' hd L R ctx (Br p cp xs vp w2) →
         same_outside (hd :: ctx_addrs ctx
                         ++ addrs (Br p cp xs vp (Br b cb bl vb br))) h h' →
         wp (K (top w2)) h' Q) →
  wp (let* br0 := get_right (Some b) in
      let* rblack := null_or_not_red br0 in
      let* brother :=
        (if rblack then
           let* bl0 := get_left (Some b) in
           let* _ := (if negb (is_null bl0) then rb_tree_set_black bl0
                      else ret tt) in
           let* _ := rb_tree_set_red (Some b) in
           let* _ := rb_tree_rotate_right (Some b) (RParent (Some hd)) in
           get_right (Some p)
         else ret (Some b)) in
      K brother) h Q.
Proof.
  intros Hfoc Hcase HQ. pose proof Hfoc as (Hctx & Hrep & Hnd).
  simpl in Hrep, Hnd, Hcase. destruct_and?. sep_split. wp_steps.
  eapply wp_null_or_not_red; [done|].
  destruct bl as [|l0 cl ll vl lr]; destruct (black_or_leaf br) eqn:Hbr;
    simplify_eq; simpl in *; destruct_and?; sep_split; wp_steps.
  - apply HQ; [done|by intros ?].
  - eapply (wp_rotate_right _ hd L R (FR p cp xs vp :: ctx) b rb_tree_red
              ll vb l0 rb_tree_black lr vl br).
    { focus_tac. }
    intros h1 Hfoc1 Hso1. apply focus_rep_up in Hfoc1. simpl in Hfoc1.
    pose proof Hfoc1 as (_ & Hrep1 & _). simpl in Hrep1. destruct_and?.
    wp_steps. apply HQ; [done|]. same_outside_tac.
  - apply HQ; [done|by intros ?].
Qed.

Lemma wp_erase_case3_r {A} h hd L R ctx p cp xs vp b cb bl vb br w2
    (K : ptr → M A) Q :
  focus_rep h hd L R ctx (Br p cp (Br b cb bl vb br) vp xs) →
  erase_case3_r (Br b cb bl vb br) = Some w2 →
  (∀ h', focus_rep h' hd L R ctx (Br p cp w2 vp xs) →
         same_outside (hd :: ctx_addrs ctx
                         ++ addrs (Br p cp (Br b cb bl vb br) vp xs)) h h' →
         wp (K (top w2)) h' Q) →
  wp (let* bl0 := get_left (Some b) in
      let* lblack := null_or_not_red bl0 in
      let* brother :=
        (if lblack then
           let* br0 := get_right (Some b) in
           let* _ := (if negb (is_null br0) then rb_tree_set_black br0
                      else ret tt) in
           let* _ := rb_tree_set_red (Some b) in
           let* _ := rb_tree_rotate_left (Some b) (RParent (Some hd)) in
           get_left (Some p)
         else ret (Some b)) in
      K brother) h Q.
Proof.
  intros Hfoc Hcase HQ. pose proof Hfoc as (Hctx & Hrep & Hnd).
  simpl in Hrep, Hnd, Hcase. destruct_and?. sep_split. wp_steps.
  eapply wp_null_or_not_red; [done|].
  destruct br as [|r0 cr rl vr rr]; destruct (black_or_leaf bl) eqn:Hbl;
    simplify_eq; simpl in *; destruct_and?; sep_split; wp_steps.
  - apply HQ; [done|by intros ?].
  - eapply (wp_rotate_left _ hd L R (FL p cp vp xs :: ctx) b rb_tree_red
              bl vb r0 rb_tree_black rl vr rr).
    { focus_tac. }
    intros h1 Hfoc1 Hso1. apply focus_rep_up in Hfoc1. simpl in Hfoc1.
    pose proof Hfoc1 as (_ & Hrep1 & _). simpl in Hrep1. destruct_and?.
    wp_steps. apply HQ; [done|]. same_outside_tac.
  - apply HQ; [done|by intros ?].
Qed.

(** Case 4: the brother's far child is red. *)
Lemma wp_erase_case4_l h hd L R ctx p cp xs vp b cb bl vb br (x : ptr) Q :
  focus_rep h hd L R ctx (Br p cp xs vp (Br b cb bl vb br)) →
  (∀ h', focus_rep h' hd L R
           (FL p rb_tree_black vp bl
              :: FL b cp vb (set_color_t rb_tree_black br) :: ctx) xs →
         same_outside (hd :: ctx_addrs ctx
                         ++ addrs (Br p cp xs vp (Br b cb bl vb br))) h h' →
         Q x h') →
  wp (let* c := get_color (Some p) in
      let* _ := set_color (Some b) c in
      let* _ := rb_tree_set_black (Some p) in
      let* br0 := get_right (Some b) in
      let* _ := (if negb (is_null br0) then rb_tree_set_black br0
                 else ret tt) in
      let* _ := rb_tree_rotate_left (Some p) (RParent (Some hd)) in
      ret x) h Q.
Proof.
  intros Hfoc HQ. pose proof Hfoc as (Hctx & Hrep & Hnd).
  simpl in Hrep, Hnd. destruct_and?. sep_split. wp_steps.
  destruct br as [|r0 cr rl vr rr]; simpl in *; destruct_and?; sep_split;
    wp_steps.
  - eapply (wp_rotate_left _ hd L R ctx p rb_tree_black xs vp
              b cp bl vb Leaf).
    { focus_tac. }
    intros h1 Hfoc1 Hso1. wp_steps. apply HQ.
    + by apply focus_rep_up, focus_rep_up.
    + same_outside_tac.
  - eapply (wp_rotate_left _ hd L R ctx p rb_tree_black xs vp
              b cp bl vb (Br r0 rb_tree_black rl vr rr)).
    { focus_tac. }
    intros h1 Hfoc1 Hso1. wp_steps. apply HQ.
    + by apply focus_rep_up, focus_rep_up.
    + same_outside_tac.
Qed.

Lemma wp_erase_case4_r h hd L R ctx p cp xs vp b cb bl vb br (x : ptr) Q :
  focus_rep h hd L R ctx (Br p cp (Br b cb bl vb br) vp xs) →
  (∀ h', focus_rep h' hd L R
           (FR p rb_tree_black br vp
              :: FR b cp (set_color_t rb_tree_black bl) vb :: ctx) xs →
         same_outside (hd :: ctx_addrs ctx
                         ++ addrs (Br p cp (Br b cb bl vb br) vp xs)) h h' →
         Q x h') →
  wp (let* c := get_color (Some p) in
      let* _ := set_color (Some b) c in
      let* _ := rb_tree_set_black (Some p) in
      let* bl0 := get_left (Some b) in
      let* _ := (if negb (is_null bl0) then rb_tree_set_black bl0
                 else ret tt) in
      let* _ := rb_tree_rotate_right (Some p) (RParent (Some hd)) in
      ret x) h Q.
Proof.
  intros Hfoc HQ. pose proof Hfoc as (Hctx & Hrep & Hnd).
  simpl in Hrep, Hnd. destruct_and?. sep_split. wp_steps.
  destruct bl as [|l0 cl ll vl lr]; simpl in *; destruct_and?; sep_split;
    wp_steps.
  - eapply (wp_rotate_right _ hd L R ctx p rb_tree_black Leaf vp
              b cp br vb xs).
    { focus_tac. }
    intros h1 Hfoc1 Hso1. wp_steps. apply HQ.
    + by apply focus_rep_up, focus_rep_up.
    + same_outside_tac.
  - eapply (wp_rotate_right _ hd L R ctx p rb_tree_black
              (Br l0 rb_tree_black ll vl lr) vp b cp br vb xs).
    { focus_tac. }
    intros h1 Hfoc1 Hso1. wp_steps. apply HQ.
    + by apply focus_rep_up, focus_rep_up.
    + same_outside_tac.
Qed.

Lemma wp_erase_rebalance_loop fuel h hd L R ctx xs ctx' xs' Q :
  focus_rep h hd L R ctx xs →
  erase_fix fuel ctx xs = Some (ctx', xs') →
  (∀ h', focus_rep h' hd L R ctx' xs' →
         same_outside (hd :: ctx_addrs ctx ++ addrs xs) h h' →
         Q (top xs') h') →
  wp (erase_rebalance_loop fuel (top xs) (ctx_par hd ctx) (RParent (Some hd))) h Q.
Proof.
  revert h ctx xs ctx' xs' Q.
  induction fuel as [|fuel IH]; intros h ctx xs ctx' xs' Q Hfoc Hfix HQ; [done|].
  cbn [erase_rebalance_loop]. pose proof Hfoc as (Hctx & Hrep & Hnd).
  pose proof (ctx_rep_header _ _ _ _ _ _ Hctx) as Hhd.
  wp_steps. destruct ctx as [|f ctx0].
  { simpl in *. rewrite ptr_eqb_refl. wp_steps. injection Hfix as <- <-.
    apply HQ; [done|by intros ?]. }
  rewrite ptr_eqb_ne.
  2:{ destruct (ctx_root_in (f :: ctx0) (top xs)) as (a & -> & Ha); [done|].
      apply top_not_in. sep_split. sep_tac. }
  clear Hhd. wp_steps. eapply wp_null_or_not_red; [done|].
  cbn [erase_fix] in Hfix. unfold black_or_leaf.
  destruct (is_red_t xs) eqn:Hxs; simpl.
  { wp_steps. injection Hfix as <- <-. apply HQ; [done|by intros ?]. }
  destruct f as [p cp vp w|p cp w vp].
  - simpl in Hctx. destruct_and?. do 2 wp_step. rewrite ptr_eqb_refl.
    destruct (erase_case1_l cp w ctx0) as [[cp1 w1] ctx1] eqn:Hc1.
    assert (w ≠ Leaf) as Hw.
    { intros ->. simpl in Hc1. injection Hc1 as <- <- <-. done. }
    eapply (wp_erase_case1_l _ hd L R ctx0 p cp xs vp w); [|done|done|].
    { by apply focus_rep_up in Hfoc. }
    intros h1 Hfoc1 Hso1.
    destruct w1 as [|b1 c1 l1 v1 r1]; [done|].
    destruct w as [|b cb bl vb br]; [done|]. simpl in Hc1.
    destruct (color_is cb rb_tree_red); simplify_eq.
    all: pose proof Hfoc1 as (Hctx1 & Hrep1 & Hnd1);
      simpl in Hctx1, Hrep1, Hnd1.
    all: destruct_and?; sep_split; wp_steps.
    all: eapply wp_null_or_not_red; [done|]; wp_step.
    all: eapply (wp_and_black_r _ b1 _ r1); [done|done|done|].
    all: destruct (black_or_leaf l1 && black_or_leaf r1) eqn:Hboth.
    all: try (wp_steps;
      lazymatch type of Hfix with
      | erase_fix _ ?c ?x = _ => eapply (IH _ c x)
      end; [focus_tac|exact Hfix|];
      intros h' Hfoc' Hso'; apply HQ; [done|]; same_outside_tac).
    all: destruct l1 as [|l0 cl ll vl lr]; simpl in Hfix;
      destruct (black_or_leaf r1) eqn:Hr1; simpl in Hfix; simplify_eq.
    all: eapply (wp_erase_case3_l _ hd L R _ p _ _ vp b1 c1 _ v1 r1);
        [exact Hfoc1|simpl; rewrite ?Hr1; reflexivity|];
      intros h2 Hfoc2 Hso2; simpl;
      (eapply wp_erase_case4_l; [exact Hfoc2|]);
      intros h' Hfoc' Hso'; apply HQ; [done|]; same_outside_tac.
  - simpl in Hctx. destruct_and?. do 2 wp_step.
    destruct (erase_case1_r cp w ctx0) as [[cp1 w1] ctx1] eqn:Hc1.
    assert (w ≠ Leaf) as Hw.
    { intros ->. simpl in Hc1. injection Hc1 as <- <- <-. done. }
    rewrite ptr_eqb_ne.
    2:{ destruct w as [|b cb bl vb br]; [done|]. simpl in *. sep_split.
        apply top_not_in. sep_tac. }
    eapply (wp_erase_case1_r _ hd L R ctx0 p cp xs vp w); [|done|done|].
    { by apply focus_rep_up in Hfoc. }
    intros h1 Hfoc1 Hso1.
    destruct w1 as [|b1 c1 l1 v1 r1]; [done|].
    destruct w as [|b cb bl vb br]; [done|]. simpl in Hc1.
    destruct (color_is cb rb_tree_red); simplify_eq.
    all: pose proof Hfoc1 as (Hctx1 & Hrep1 & Hnd1);
      simpl in Hctx1, Hrep1, Hnd1.
    all: destruct_and?; sep_split; wp_steps.
    all: eapply wp_null_or_not_red; [done|]; wp_step.
    all: eapply (wp_and_black_r _ b1 _ r1); [done|done|done|].
    all: destruct (black_or_leaf l1 && black_or_leaf r1) eqn:Hboth.
    all: try (wp_steps;
      lazymatch type of Hfix with
      | erase_fix _ ?c ?x = _ => eapply (IH _ c x)
      end; [focus_tac|exact Hfix|];
      intros h' Hfoc' Hso'; apply HQ; [done|]; same_outside_tac).
    all: destruct r1 as [|r0 cr rl vr rr]; simpl in Hfix;
      destruct (black_or_leaf l1) eqn:Hl1; simpl in Hfix; simplify_eq.
    all: eapply (wp_erase_case3_r _ hd L R _ p _ _ vp b1 c1 l1 v1 _);
        [exact Hfoc1|simpl; rewrite ?Hl1; reflexivity|];
      intros h2 Hfoc2 Hso2; simpl;
      (eapply wp_erase_case4_r; [exact Hfoc2|]);
      intros h' Hfoc' Hso'; apply HQ; [done|]; same_outside_tac.
Qed.
End erase_loop.

(** ** The unlinking phase of [rb_tree_erase_rebalance] *)

Ltac rep_tac' :=
  repeat first
    [ assumption
    | apply rep_frame; [sep_tac|]
    | apply ctx_rep_frame; [sep_tac|sep_tac|]
    | apply pctx_rep_frame; [sep_tac|] ].

Section erase_unlink.
Context {T : Type}.
Implicit Types (t l r s u w xs : atree T) (h : heap T) (ctx : list (frame T)).

Lemma wp_erase_relink_successor h hd L R ctx z cz zl vz ctxy y cy vy yr Q :
  focus_rep h hd L R (ctxy ++ FR z cz zl vz :: ctx) (Br y cy Leaf vy yr) →
  zl ≠ Leaf → Forall is_FL ctxy →
  (∀ h' nz, focus_rep h' hd L R (ctxy ++ FR y cz zl vy :: ctx) yr →
            h' !! z = Some nz → color nz = cy →
            Q (ctx_par hd (ctxy ++ FR y cz zl vy :: ctx)) h') →
  wp (erase_relink_successor (Some z) (Some y) (top yr) (RParent (Some hd))) h Q.
Proof.
  intros (Hctx & Hrep & Hnd) Hzl Hfl HQ.
  destruct zl as [|l0 cl ll vl lr]; [done|]. clear Hzl.
  unfold erase_relink_successor.
  destruct ctxy as [|f ctxy'].
  - simpl in Hctx, Hrep, Hnd. destruct_and?. sep_split. wp_steps.
    eapply (wp_replace_in_parent _ hd L R ctx);
      [rep_tac|lookup_tac|done|sep_tac|].
    intros o no no' Ho Hin Hpar Hctx'.
    assert (o ≠ z ∧ o ≠ y ∧ o ≠ l0) as (? & ? & ?) by sep_tac.
    wp_steps. eapply HQ; [|lookup_tac|done]. focus_tac.
  - apply Forall_cons in Hfl as [Hf Hfl].
    destruct f as [q cq vq qr|]; [clear Hf|done].
    simpl in Hctx, Hrep, Hnd.
    rewrite ctx_rep_app, ctx_par_app in Hctx. rewrite ctx_addrs_cons, ctx_addrs_app in Hnd.
    simpl in Hctx, Hnd. destruct Hctx as (Hq & Hqr & Hpctx & Hz & Hzl & Hctx).
    simpl in Hzl. destruct_and?. sep_split.
    destruct (decide (ctxy' = [])) as [->|Hne].
    + unfold ctx_root in *. simpl in *.
      destruct yr as [|x0 cx xl vx xr]; simpl in *; destruct_and?; sep_split;
        wp_steps.
      all: eapply (wp_replace_in_parent _ hd L R ctx);
        [rep_tac|lookup_tac|done|sep_tac|].
      all: intros o no no' Ho Hin Hpar Hctx'.
      * assert (o ≠ z ∧ o ≠ y ∧ o ≠ l0 ∧ o ≠ q) as (? & ? & ? & ?) by sep_tac.
        wp_steps. eapply HQ; [|lookup_tac|done]. focus_tac.
      * assert (o ≠ z ∧ o ≠ y ∧ o ≠ l0 ∧ o ≠ q ∧ o ≠ x0)
          as (? & ? & ? & ? & ?) by sep_tac.
        wp_steps. eapply HQ; [|lookup_tac|done]. focus_tac.
    + destruct (ctx_root_in ctxy' (Some q)) as (g & Hg & Hgin); [done|].
      rewrite Hg in Hz.
      destruct (pctx_rep_root_lookup _ _ _ _ _ Hne Hg Hpctx) as (ng & Hng).
      assert (pctx_par (Some z) ctxy' = pctx_par (Some y) ctxy') as Hpp
        by (by destruct ctxy').
      rewrite Hpp in Hq.
      assert (g ≠ hd ∧ g ≠ z ∧ g ≠ y ∧ g ≠ l0 ∧ g ≠ q) as (? & ? & ? & ? & ?)
        by sep_tac.
      destruct yr as [|x0 cx xl vx xr]; simpl in *; destruct_and?; sep_split;
        [|assert (g ≠ x0) by sep_tac]; wp_steps.
      all: eapply (wp_replace_in_parent _ hd L R ctx);
        [rep_tac|lookup_tac|done|sep_tac|].
      all: intros o no no' Ho Hin Hpar Hctx'.
      * assert (o ≠ z ∧ o ≠ y ∧ o ≠ l0 ∧ o ≠ q ∧ o ≠ g)
          as (? & ? & ? & ? & ?) by sep_tac.
        wp_steps. eapply HQ; [|lookup_tac|done].
        unfold focus_rep. simpl.
        rewrite ctx_rep_app, ctx_par_app, ctx_addrs_cons, ctx_addrs_app.
        simpl. rewrite Hg.
        split_and!;
          first [ done | lookup_tac | solve [rep_tac'] | solve [sep_tac] | idtac ].
        do 4 (apply pctx_rep_frame; [sep_tac|]).
        apply (pctx_rep_reparent _ (Some z)); [done|done|done|rep_tac'|lookup_tac].
      * assert (o ≠ z ∧ o ≠ y ∧ o ≠ l0 ∧ o ≠ q ∧ o ≠ g ∧ o ≠ x0)
          as (? & ? & ? & ? & ? & ?) by sep_tac.
        wp_steps. eapply HQ; [|lookup_tac|done].
        unfold focus_rep. simpl.
        rewrite ctx_rep_app, ctx_par_app, ctx_addrs_cons, ctx_addrs_app.
        simpl. rewrite Hg.
        split_and!;
          first [ done | lookup_tac | solve [rep_tac'] | solve [sep_tac] | idtac ].
        do 4 (apply pctx_rep_frame; [sep_tac|]).
        apply (pctx_rep_reparent _ (Some z)); [done|done|done|rep_tac'|lookup_tac].
Qed.

Lemma ctx_before_nil_first hd ctx :
  ctx_before ctx = [] → first_pos hd (ctx_after ctx) = ctx_par hd ctx.
Proof.
  destruct ctx as [|[a c v r|a c l v] ctx]; simpl; [done|done|].
  intros [_ [? ?]%app_eq_nil]%app_eq_nil. done.
Qed.

Lemma ctx_after_nil_last hd ctx :
  ctx_after ctx = [] → last_pos hd (ctx_before ctx) = ctx_par hd ctx.
Proof.
  destruct ctx as [|[a c v r|a c l v] ctx]; simpl; [done| |].
  - intros ?. done.
  - intros _. by rewrite (assoc (++)), last_pos_snoc.
Qed.

(** [if (leftmost == z) leftmost = x == nullptr ? xp : rb_tree_min(x)],
    run when [x] has taken the place of [z]. *)
Lemma wp_update_leftmost {A} h hd L R ctx xs z vz (cl cr : list (addr * T))
    (K : M A) Q :
  focus_rep h hd L R ctx xs →
  z ∉ hd :: ctx_addrs ctx ++ addrs xs →
  cells xs = cl ++ cr →
  L = first_pos hd (ctx_before ctx ++ cl ++ (z, vz) :: cr ++ ctx_after ctx) →
  (∀ h', focus_rep h' hd (first_pos hd (cells (plug ctx xs))) R ctx xs →
         same_outside [hd] h h' → wp K h' Q) →
  wp (let* lm := read (RLeft (Some hd)) in
      let* _ := (if ptr_eqb lm (Some z) then
                   let* m := (if is_null (top xs) then ret (ctx_par hd ctx)
                              else rb_tree_min (top xs)) in
                   write (RLeft (Some hd)) m
                 else ret tt) in
      K) h Q.
Proof.
  intros Hfoc Hz Hcells HL HQ. pose proof Hfoc as (Hctx & Hrep & Hnd).
  pose proof (ctx_rep_header _ _ _ _ _ _ Hctx) as Hhd.
  pose proof (focus_rep_fuel _ _ _ _ _ _ Hfoc) as Hfuel.
  rewrite cells_plug, Hcells in HQ. sep_split. wp_steps.
  destruct (decide (ctx_before ctx ++ cl = [])) as [Hnil|Hne].
  - apply app_eq_nil in Hnil as [Hb ->]. rewrite Hb in HL, HQ. simpl in *.
    subst L. rewrite first_pos_cons, ptr_eqb_refl.
    destruct xs as [|x0 cx xl vx xr]; simpl in *; wp_steps.
    + apply HQ; [|same_outside_tac]. subst cr. simpl.
      rewrite (ctx_before_nil_first _ _ Hb). split_and!.
      * by apply (ctx_rep_set_header _ _ (Some z) R).
      * done.
      * apply Hfoc.
    + wp_unfold @rb_tree_min. wp_steps.
      eapply (wp_min_loop _ _ _ (Br x0 cx xl vx xr)); [done|done|simpl in *; lia|].
      intros b cs <- Hb'. wp_steps. apply HQ; [|same_outside_tac].
      simpl in Hb'. rewrite <-Hcells.
      assert (first_pos hd ((cells xl ++ (x0, vx) :: cells xr) ++ ctx_after ctx)
              = Some b) as ->.
      { unfold first_pos. destruct (cells xl ++ (x0, vx) :: cells xr) as [|[? ?] ?];
          simpl in *; congruence. }
      split_and!.
      * by apply (ctx_rep_set_header _ _ (Some z) R).
      * by apply rep_frame.
      * apply Hfoc.
  - destruct (first_pos_in hd _ Hne) as (b & Hb & Hbin).
    assert (b ≠ z) as Hbz.
    { intros ->. rewrite fmap_app in Hbin. apply elem_of_app in Hbin as [Hin|Hin].
      - by apply ctx_before_addrs in Hin.
      - assert (z ∈ addrs xs); [|done].
        rewrite addrs_cells, Hcells, fmap_app. apply elem_of_app. by left. }
    rewrite (assoc (++)) in HL. rewrite first_pos_app in HL by done.
    assert (first_pos hd (ctx_before ctx ++ (cl ++ cr) ++ ctx_after ctx) = Some b)
      as HL'.
    { rewrite <-(assoc (++) cl), (assoc (++) (ctx_before ctx)).
      by rewrite first_pos_app. }
    rewrite HL' in HQ.
    subst L. rewrite Hb, ptr_eqb_ne by congruence. wp_steps.
    rewrite Hb in Hfoc. apply HQ; [done|by intros ?].
Qed.

Lemma wp_update_rightmost {A} h hd L R ctx xs z vz (cl cr : list (addr * T))
    (K : M A) Q :
  focus_rep h hd L R ctx xs →
  z ∉ hd :: ctx_addrs ctx ++ addrs xs →
  cells xs = cl ++ cr →
  R = last_pos hd (ctx_before ctx ++ cl ++ (z, vz) :: cr ++ ctx_after ctx) →
  (∀ h', focus_rep h' hd L (last_pos hd (cells (plug ctx xs))) ctx xs →
         same_outside [hd] h h' → wp K h' Q) →
  wp (let* rm := read (RRight (Some hd)) in
      let* _ := (if ptr_eqb rm (Some z) then
                   let* m := (if is_null (top xs) then ret (ctx_par hd ctx)
                              else rb_tree_max (top xs)) in
                   write (RRight (Some hd)) m
                 else ret tt) in
      K) h Q.
Proof.
  intros Hfoc Hz Hcells HR HQ. pose proof Hfoc as (Hctx & Hrep & Hnd).
  pose proof (ctx_rep_header _ _ _ _ _ _ Hctx) as Hhd.
  pose proof (focus_rep_fuel _ _ _ _ _ _ Hfoc) as Hfuel.
  rewrite cells_plug, Hcells in HQ. sep_split. wp_steps.
  destruct (decide (cr ++ ctx_after ctx = [])) as [Hnil|Hne].
  - apply app_eq_nil in Hnil as [-> Ha]. rewrite Ha in HR, HQ.
    rewrite !app_nil_r in HQ. rewrite app_nil_r in Hcells.
    simpl in HR. rewrite (assoc (++)), last_pos_snoc in HR.
    subst R. rewrite ptr_eqb_refl.
    destruct xs as [|x0 cx xl vx xr]; simpl in *; wp_steps.
    + apply HQ; [|same_outside_tac]. subst cl. rewrite app_nil_r.
      rewrite (ctx_after_nil_last _ _ Ha). split_and!.
      * by apply (ctx_rep_set_header _ _ L (Some z)).
      * done.
      * apply Hfoc.
    + wp_unfold @rb_tree_max. wp_steps.
      eapply (wp_max_loop _ _ _ (Br x0 cx xl vx xr)); [done|done|simpl in *; lia|].
      intros b cs <- Hb'. wp_steps. apply HQ; [|same_outside_tac].
      simpl in Hb'. rewrite <-Hcells.
      assert (last_pos hd (ctx_before ctx ++ cells xl ++ (x0, vx) :: cells xr)
              = Some b) as ->.
      { rewrite last_pos_app by (by destruct (cells xl)).
        unfold last_pos. rewrite fmap_last in Hb'.
        destruct (last (cells xl ++ (x0, vx) :: cells xr)) as [[? ?]|];
          simpl in *; congruence. }
      split_and!.
      * by apply (ctx_rep_set_header _ _ L (Some z)).
      * by apply rep_frame.
      * apply Hfoc.
  - destruct (last_pos_in hd _ Hne) as (b & Hb & Hbin).
    assert (b ≠ z) as Hbz.
    { intros ->. rewrite fmap_app in Hbin. apply elem_of_app in Hbin as [Hin|Hin].
      - assert (z ∈ addrs xs); [|done].
        rewrite addrs_cells, Hcells, fmap_app. apply elem_of_app. by right.
      - by apply ctx_after_addrs in Hin. }
    assert (R = Some b) as ->.
    { rewrite HR, <-Hb.
      rewrite (assoc (++)), (last_pos_app _ _ (_ :: _)) by done.
      by apply last_pos_cons. }
    assert (last_pos hd (ctx_before ctx ++ (cl ++ cr) ++ ctx_after ctx) = Some b)
      as HR'.
    { rewrite <-(assoc (++) cl), (assoc (++) (ctx_before ctx)).
      by rewrite last_pos_app. }
    rewrite HR' in HQ.
    rewrite ptr_eqb_ne by congruence. wp_steps.
    apply HQ; [done|by intros ?].
Qed.

Lemma wp_erase_unlink_single h hd L R ctx z cz zl vz zr xs Q :
  focus_rep h hd L R ctx (Br z cz zl vz zr) →
  L = first_pos hd (cells (plug ctx (Br z cz zl vz zr))) →
  R = last_pos hd (cells (plug ctx (Br z cz zl vz zr))) →
  (zl = Leaf ∧ xs = zr) ∨ (zr = Leaf ∧ xs = zl) →
  (∀ h', focus_rep h' hd (first_pos hd (cells (plug ctx xs)))
           (last_pos hd (cells (plug ctx xs))) ctx xs →
         h' !! z = h !! z → Q (ctx_par hd ctx) h') →
  wp (erase_unlink_single (Some z) (Some z) (top xs) (RParent (Some hd))
        (RLeft (Some hd)) (RRight (Some hd))) h Q.
Proof.
  intros (Hctx & Hrep & Hnd) HL HR Hxs HQ. unfold erase_unlink_single.
  rewrite cells_plug in HL, HR. simpl in HL, HR.
  rewrite <-(assoc (++)) in HL, HR. simpl in HL, HR.
  assert (cells xs = cells zl ++ cells zr) as Hcells.
  { destruct Hxs as [[-> ->]|[-> ->]]; simpl; by rewrite ?app_nil_r. }
  assert (∀ h1, focus_rep h1 hd L R ctx xs → h1 !! z = h !! z →
    wp (let* lm := read (RLeft (Some hd)) in
        let* _ := (if ptr_eqb lm (Some z) then
                     let* m := (if is_null (top xs) then ret (ctx_par hd ctx)
                                else rb_tree_min (top xs)) in
                     write (RLeft (Some hd)) m
                   else ret tt) in
        let* rm := read (RRight (Some hd)) in
        let* _ := (if ptr_eqb rm (Some z) then
                     let* m := (if is_null (top xs) then ret (ctx_par hd ctx)
                                else rb_tree_max (top xs)) in
                     write (RRight (Some hd)) m
                   else ret tt) in
        ret (ctx_par hd ctx)) h1 Q) as Hcaches.
  { intros h1 Hfoc1 Hz1.
    assert (z ∉ hd :: ctx_addrs ctx ++ addrs xs) as Hzn.
    { destruct Hxs as [[-> ->]|[-> ->]]; simpl in Hnd; sep_split; sep_tac. }
    eapply (wp_update_leftmost _ hd L R ctx xs z vz (cells zl) (cells zr));
      [done|done|done|done|].
    intros h2 Hfoc2 Hso2.
    eapply (wp_update_rightmost _ hd _ R ctx xs z vz (cells zl) (cells zr));
      [done|done|done|done|].
    intros h3 Hfoc3 Hso3. wp_steps. apply HQ; [done|].
    apply not_elem_of_cons in Hzn as [Hzhd _].
    assert (z ∉ [hd]) as Hz'
      by (apply not_elem_of_cons; split; [done|apply not_elem_of_nil]).
    by rewrite Hso3, Hso2, Hz1. }
  clear HQ HL HR.
  destruct Hxs as [[-> ->]|[-> ->]];
    [destruct zr as [|x0 cx xl vx xr]|destruct zl as [|x0 cx xl vx xr]];
    simpl in Hrep, Hnd; destruct_and?; sep_split; wp_steps.
  all: eapply (wp_replace_in_parent _ hd L R ctx);
    [rep_tac|lookup_tac|done|sep_tac|].
  all: intros o no no' Ho Hin Hpar Hctx'.
  all: assert (o ≠ z) by sep_tac.
  all: try assert (o ≠ x0) by sep_tac.
  all: apply Hcaches; [focus_tac|lookup_tac].
Qed.

Lemma wp_set_black_focus h hd L R ctx xs Q :
  focus_rep h hd L R ctx xs →
  (∀ h', focus_rep h' hd L R ctx (set_color_t rb_tree_black xs) →
         same_outside (option_list (top xs)) h h' → Q tt h') →
  wp (if negb (is_null (top xs)) then rb_tree_set_black (top xs) else ret tt)
     h Q.
Proof.
  intros (Hctx & Hrep & Hnd) HQ. destruct xs as [|a c l v r]; simpl in *.
  - wp_steps. apply HQ; [done|by intros ?].
  - destruct_and?. sep_split. wp_steps. apply HQ.
    + focus_tac.
    + same_outside_tac.
Qed.

Lemma focus_rep_size h hd L R ctx xs z :
  focus_rep h hd L R ctx xs → is_Some (h !! z) →
  z ∉ hd :: ctx_addrs ctx ++ addrs xs →
  length ctx + 2 ≤ fuel_of h.
Proof.
  intros Hfoc Hz Hzn. pose proof Hfoc as (Hhd & Hrep & Hnd)%focus_tree_rep.
  assert (length (z :: hd :: addrs (plug ctx xs)) ≤ base.size h) as Hlen.
  { apply NoDup_length_size.
    - apply NoDup_cons. split; [|done]. by rewrite addrs_plug_perm.
    - intros a [->|[->|Ha]%elem_of_cons]%elem_of_cons; [done|eauto|].
      by eapply rep_dom. }
  simpl in Hlen. rewrite length_addrs_plug in Hlen.
  pose proof (length_ctx_le ctx). rewrite fuel_of_eq. lia.
Qed.

(** The second and third phase of [rb_tree_erase_rebalance]: the loop
    when the node that left the tree was black. *)
Lemma wp_erase_after_unlink h hd ctxx xs z nz t' Q :
  focus_rep h hd (first_pos hd (cells (plug ctxx xs)))
    (last_pos hd (cells (plug ctxx xs))) ctxx xs →
  h !! z = Some nz → z ∉ hd :: ctx_addrs ctxx ++ addrs xs →
  (if color_is (color nz) rb_tree_red then Some (plug ctxx xs)
   else
     match erase_fix (length ctxx + 2) ctxx xs with
     | Some (ctx', xs') => Some (plug ctx' (set_color_t rb_tree_black xs'))
     | None => None
     end) = Some t' →
  (∀ h', tree_rep h' hd (first_pos hd (cells t')) (last_pos hd (cells t')) t' →
         is_Some (h' !! z) → z ∉ addrs t' → Q (Some z) h') →
  wp (let* yred := rb_tree_is_red (Some z) in
      let* _ :=
        (if negb yred then
           let* x := with_fuel (λ fuel,
                       erase_rebalance_loop fuel (top xs) (ctx_par hd ctxx)
                         (RParent (Some hd))) in
           if negb (is_null x) then rb_tree_set_black x else ret tt
         else ret tt) in
      ret (Some z)) h Q.
Proof.
  intros Hfoc Hz Hzn Ht' HQ. wp_steps.
  assert (z ∉ addrs (plug ctxx xs)) as Hzp.
  { rewrite addrs_plug_perm. by apply not_elem_of_cons in Hzn as [_ ?]. }
  destruct (color_is (color nz) rb_tree_red); simpl.
  { injection Ht' as <-. wp_steps. apply HQ; [by apply focus_tree_rep|eauto|done]. }
  destruct (erase_fix _ _ _) as [[ctx' xs']|] eqn:Hfix; [|done].
  injection Ht' as <-.
  pose proof (erase_fix_cells _ _ _ _ _ Hfix) as Hcells.
  assert (cells (plug ctx' (set_color_t rb_tree_black xs')) = cells (plug ctxx xs))
    as Hcells'.
  { rewrite <-Hcells, !cells_plug. by rewrite cells_set_color. }
  rewrite Hcells' in HQ.
  wp_steps.
  eapply wp_erase_rebalance_loop; [exact Hfoc| |].
  { eapply erase_fix_mono; [exact Hfix|].
    eapply focus_rep_size; eauto. }
  intros h1 Hfoc1 Hso1.
  eapply wp_set_black_focus; [exact Hfoc1|].
  intros h2 Hfoc2 Hso2. wp_steps. apply HQ.
  - by apply focus_tree_rep.
  - assert (z ∉ addrs (plug ctx' xs')) as Hz'.
    { by rewrite addrs_cells, Hcells, <-addrs_cells. }
    rewrite Hso2, Hso1; [eauto|done|].
    intros Hin. apply Hz'. rewrite addrs_plug_perm. apply elem_of_app; right.
    destruct xs'; simpl in Hin; [by apply elem_of_nil in Hin|].
    apply list_elem_of_singleton in Hin as ->. simpl. elem_tac.
  - by rewrite addrs_cells, Hcells', <-addrs_cells.
Qed.

Lemma first_pos_unlink hd (x : addr * T) B cl cr A :
  cl ≠ [] →
  first_pos hd (B ++ (cl ++ x :: cr) ++ A) = first_pos hd (B ++ cl ++ cr ++ A).
Proof.
  intros Hne. rewrite <-(assoc (++) cl), !(assoc (++) B).
  rewrite !(first_pos_app hd (B ++ cl)); [done| |]; by destruct B, cl.
Qed.

Lemma last_pos_unlink hd (x : addr * T) B cl cr A :
  cr ≠ [] →
  last_pos hd (B ++ (cl ++ x :: cr) ++ A) = last_pos hd (B ++ cl ++ cr ++ A).
Proof.
  intros Hne.
  replace (B ++ (cl ++ x :: cr) ++ A) with ((B ++ cl ++ [x]) ++ cr ++ A)
    by (by simplify_list_eq).
  replace (B ++ cl ++ cr ++ A) with ((B ++ cl) ++ cr ++ A)
    by (by simplify_list_eq).
  rewrite !(last_pos_app hd _ (cr ++ A)); [done| |]; by destruct cr.
Qed.

Lemma wp_erase_rebalance h hd ctx z cz zl vz zr t' Q :
  focus_rep h hd (first_pos hd (cells (plug ctx (Br z cz zl vz zr))))
    (last_pos hd (cells (plug ctx (Br z cz zl vz zr)))) ctx (Br z cz zl vz zr) →
  erase_rebalance_t ctx (Br z cz zl vz zr) = Some t' →
  (∀ h', tree_rep h' hd (first_pos hd (cells t')) (last_pos hd (cells t')) t' →
         is_Some (h' !! z) → z ∉ addrs t' → Q (Some z) h') →
  wp (rb_tree_erase_rebalance (Some z) (RParent (Some hd)) (RLeft (Some hd))
        (RRight (Some hd))) h Q.
Proof.
  intros Hfoc Ht' HQ. unfold rb_tree_erase_rebalance, erase_rebalance_t in *.
  destruct (erase_unlink _ _) as [[[ctxx xs] c]|] eqn:Hun; [|done].
  pose proof (erase_unlink_cells _ _ _ _ _ _ _ _ _ Hun) as Hcells.
  pose proof Hfoc as (Hctx & Hrep & Hnd). simpl in Hrep, Hun.
  destruct Hrep as (Hz & Hzl & Hzr). wp_steps.
  destruct zl as [|l0 cl ll vl lr].
  { injection Hun as <- <- <-. simpl. wp_steps. rewrite ?ptr_eqb_refl. simpl.
    wp_steps.
    eapply (wp_erase_unlink_single _ hd _ _ ctx z cz Leaf vz zr zr);
      [exact Hfoc|done|done|by left|].
    intros h1 Hfoc1 Hz1. apply wp_ret. simpl. rewrite Hz in Hz1.
    eapply (wp_erase_after_unlink _ hd ctx zr z); [done|done| |exact Ht'|done].
    simpl in Hnd. sep_split. sep_tac. }
  destruct zr as [|r0 cr rl vr rr].
  { injection Hun as <- <- <-. simpl. wp_steps. rewrite ?ptr_eqb_refl. simpl.
    wp_steps.
    eapply (wp_erase_unlink_single _ hd _ _ ctx z cz _ vz Leaf
              (Br l0 cl ll vl lr)); [exact Hfoc|done|done|by right|].
    intros h1 Hfoc1 Hz1. apply wp_ret. simpl. rewrite Hz in Hz1.
    eapply (wp_erase_after_unlink _ hd ctx (Br l0 cl ll vl lr) z);
      [done|done| |exact Ht'|done].
    simpl in Hnd. sep_split. sep_tac. }
  destruct (min_split (Br r0 cr rl vr rr))
    as [[ctxy [[[y cy] vy] yr]]|] eqn:Hmin; [|done].
  injection Hun as <- <- <-.
  destruct (min_split_plug _ _ _ _ _ _ Hmin) as (Hzr' & Hb & Hfl).
  pose proof (focus_rep_fuel _ _ _ _ _ _ Hfoc) as Hfuel.
  simpl. wp_unfold @rb_tree_next. wp_steps. wp_unfold @rb_tree_min. wp_steps.
  eapply (wp_min_loop _ _ _ (Br r0 cr rl vr rr)); [done|done|simpl in *; lia|].
  intros b cs <- Hhead.
  assert (b = y) as ->.
  { rewrite Hzr', cells_plug, Hb in Hhead. simpl in Hhead. congruence. }
  assert (focus_rep h hd
            (first_pos hd (cells (plug ctx
               (Br z cz (Br l0 cl ll vl lr) vz (Br r0 cr rl vr rr)))))
            (last_pos hd (cells (plug ctx
               (Br z cz (Br l0 cl ll vl lr) vz (Br r0 cr rl vr rr)))))
            (ctxy ++ FR z cz (Br l0 cl ll vl lr) vz :: ctx)
            (Br y cy Leaf vy yr)) as Hfoc2.
  { apply focus_tree_rep. rewrite plug_app, plug_cons. simpl.
    rewrite <-Hzr'. by apply focus_tree_rep. }
  pose proof Hfoc2 as (Hctx2 & Hrep2 & Hnd2). simpl in Hrep2.
  destruct Hrep2 as (Hy & _ & Hyr).
  rewrite ctx_addrs_app, ctx_addrs_cons in Hnd2. simpl in Hnd2.
  assert ((z ∉ hd :: ctx_addrs (ctxy ++ FR y cz (Br l0 cl ll vl lr) vy :: ctx)
                 ++ addrs yr) ∧ y ≠ z) as [Hzn Hyz].
  { rewrite ctx_addrs_app, ctx_addrs_cons. simpl. sep_split. sep_tac. }
  wp_steps. rewrite ?(ptr_eqb_some_ne y z) by done. simpl. wp_steps.
  eapply (wp_erase_relink_successor _ hd _ _ ctx z cz _ vz ctxy y cy vy yr);
    [exact Hfoc2|done|done|].
  intros h1 nz Hfoc1 Hz1 Hcol. apply wp_ret. simpl.
  eapply (wp_erase_after_unlink _ hd _ yr z nz);
    [|done|done|by rewrite Hcol|done].
  rewrite Hcells. rewrite cells_plug in Hfoc1. cbn [cells] in Hfoc1 |- *.
  rewrite first_pos_unlink, last_pos_unlink in Hfoc1
    by (by intros [_ ?]%app_eq_nil).
  done.
Qed.
End erase_unlink.

(** ** Member functions that may throw *)

Section rwpe.
Context {T : Type}.
Implicit Types (s : state T) (h : heap T).

Lemma rwpe_ret {A} (a : A) s Q E : Q a s → rwpe (rret a) s Q E.
Proof. done. Qed.

Lemma rwpe_throw {A} e s (Q : A → state T → Prop) E :
  E e s → rwpe (throw e) s Q E.
Proof. done. Qed.

Lemma rwpe_bind {A B} (m : R A) (k : A → R B) s Q E :
  rwpe m s (λ a s', rwpe (k a) s' Q E) E → rwpe (let+ x := m in k x) s Q E.
Proof. unfold rwpe, rbind. by destruct (m s). Qed.

Lemma rwpe_mono {A} (m : R A) s (Q Q' : A → state T → Prop) E E' :
  rwpe m s Q E → (∀ a s', Q a s' → Q' a s') → (∀ e s', E e s' → E' e s') →
  rwpe m s Q' E'.
Proof. unfold rwpe. destruct (m s); auto. Qed.

Lemma rwp_rwpe {A} (m : R A) s Q E : rwp m s Q → rwpe m s Q E.
Proof. intros (a & s' & Hm & HQ). unfold rwpe. by rewrite Hm. Qed.

Lemma rwpe_rwp {A} (m : R A) s Q : rwpe m s Q (λ _ _, False) → rwp m s Q.
Proof. unfold rwpe, rwp. destruct (m s); naive_solver. Qed.

Lemma rwpe_lift {A} (m : M A) s Q E :
  wp m (mem s) (λ a h', Q a (State (this s) h')) → rwpe (lift m) s Q E.
Proof. intros. by apply rwp_rwpe, rwp_lift. Qed.

Lemma rwpe_get_this s Q E : Q (this s) s → rwpe get_this s Q E.
Proof. done. Qed.
Lemma rwpe_set_this t s Q E : Q tt (State t (mem s)) → rwpe (set_this t) s Q E.
Proof. done. Qed.
Lemma rwpe_get_mem s Q E : Q (mem s) s → rwpe get_mem s Q E.
Proof. done. Qed.
Lemma rwpe_set_mem h s Q E : Q tt (State (this s) h) → rwpe (set_mem h) s Q E.
Proof. done. Qed.

Lemma rwpe_inv_ok {A} (m : R A) s Q E a s' :
  rwpe m s Q E → m s = Ok a s' → Q a s'.
Proof. unfold rwpe. intros H Hm. by rewrite Hm in H. Qed.
Lemma rwpe_not_fault {A} (m : R A) s Q E : rwpe m s Q E → m s ≠ Fault.
Proof. unfold rwpe. intros H Hm. by rewrite Hm in H. Qed.

Lemma rwpe_try_catch_rethrow {A} (body : R A) (handler : R unit) s Q E :
  rwpe body s Q (λ e s', rwpe handler s' (λ _ s'', E e s'') E) →
  rwpe (try_catch_rethrow body handler) s Q E.
Proof.
  unfold rwpe, try_catch_rethrow. destruct (body s) as [a s'|e s'|]; [done| |done].
  by destruct (handler s').
Qed.

Lemma rwpe_deallocate a n s Q E :
  mem s !! a = Some n → Q tt (State (this s) (delete a (mem s))) →
  rwpe (deallocate (Some a)) s Q E.
Proof.
  intros Ha HQ. unfold deallocate, rwpe, rbind, get_mem, set_mem.
  by rewrite bool_decide_eq_true_2 by eauto.
Qed.

Lemma rwp_deallocate a n s Q :
  mem s !! a = Some n → Q tt (State (this s) (delete a (mem s))) →
  rwp (deallocate (Some a)) s Q.
Proof. intros. apply rwpe_rwp. by eapply rwpe_deallocate. Qed.

Lemma state_eta s : State (this s) (mem s) = s.
Proof. by destruct s. Qed.
End rwpe.

Global Arguments rwpe : simpl never.

Ltac ewp_step :=
  lazymatch goal with
  | |- rwpe (rbind _ _) _ _ _ => apply rwpe_bind
  | |- rwpe (rret _) _ _ _ => apply rwpe_ret
  | |- rwpe (throw _) _ _ _ => apply rwpe_throw
  | |- rwpe get_this _ _ _ => apply rwpe_get_this
  | |- rwpe (set_this _) _ _ _ => apply rwpe_set_this
  | |- rwpe get_mem _ _ _ => apply rwpe_get_mem
  | |- rwpe (set_mem _) _ _ _ => apply rwpe_set_mem
  | |- rwpe (lift _) _ _ _ => apply rwpe_lift
  end; simpl.

Ltac ewp_steps := repeat ewp_step.

(** ** The container and its sequence *)

Section container.
Context {T K : Type}.
Variable get_key : T → K.
Variable key_comp : K → K → bool.
Variable size_bits : Z.
Variable alloc_fails : heap T → bool.
Variable ctor_throws : T → bool.
Implicit Types (t l r u : atree T) (s : state T) (h : heap T)
  (ctx : list (frame T)) (cs : list (addr * T)).

Hypothesis Hswo : strict_weak_order key_comp.
Hypothesis Hbits : (0 < size_bits)%Z.

Local Abbreviation sorted := (sorted get_key key_comp).
Local Abbreviation key_of := (key_of get_key).
Local Abbreviation tree_at := (tree_at get_key key_comp size_bits).
Local Abbreviation tree_inv := (tree_inv get_key key_comp size_bits).
Local Abbreviation insert_post := (insert_post get_key key_comp).
Local Abbreviation insert_fails := (insert_fails size_bits alloc_fails ctor_throws).
Local Abbreviation insert_succeeds :=
  (insert_succeeds size_bits alloc_fails ctor_throws).
Local Abbreviation no_equiv_before := (no_equiv_before get_key key_comp).
Local Abbreviation lower_pred := (lower_pred get_key key_comp).
Local Abbreviation upper_pred := (upper_pred get_key key_comp).
Local Abbreviation equiv_pred := (equiv_pred get_key key_comp).

Lemma pow_bits : (2 ≤ 2 ^ size_bits)%Z.
Proof.
  change 2%Z with (2 ^ 1)%Z at 1. apply Z.pow_le_mono_r; lia.
Qed.

Lemma max_size_eq : max_size size_bits = (2 ^ size_bits - 1)%Z.
Proof.
  unfold max_size. pose proof pow_bits.
  rewrite <-(Z_mod_plus_full _ 1). rewrite Z.mod_small; lia.
Qed.

Lemma rwpe_check_capacity s (n : Z) Q E :
  node_count_ (this s) = n → (0 ≤ n < 2 ^ size_bits)%Z →
  ((n < 2 ^ size_bits - 1)%Z → Q tt s) →
  (n = (2 ^ size_bits - 1)%Z → E length_error s) →
  rwpe (check_capacity size_bits) s Q E.
Proof.
  intros Hn Hr HQ HE. unfold check_capacity. ewp_steps.
  rewrite Hn, max_size_eq. pose proof pow_bits.
  rewrite Z.mod_small by lia.
  case_bool_decide; ewp_steps; [apply HE|apply HQ]; lia.
Qed.

Lemma rwpe_create_node s v Q E :
  (alloc_fails (mem s) = true → E bad_alloc s) →
  (alloc_fails (mem s) = false → ctor_throws v = true → E ctor_exception s) →
  (alloc_fails (mem s) = false → ctor_throws v = false →
   ∀ a, mem s !! a = None →
     Q (Some a)
       (State (this s)
          (<[a := Node None None None rb_tree_black (Some v)]> (mem s)))) →
  rwpe (create_node alloc_fails ctor_throws v) s Q E.
Proof.
  intros Ha Hc HQ. unfold create_node, allocate. ewp_steps.
  destruct (alloc_fails (mem s)) eqn:Hal; ewp_steps; [by apply Ha|].
  set (a := fresh (dom (mem s))).
  assert (mem s !! a = None) as Hfresh.
  { apply (not_elem_of_dom (D:=gset addr)). apply is_fresh. }
  apply rwpe_try_catch_rethrow. unfold construct.
  destruct (ctor_throws v) eqn:Hct; ewp_steps.
  - eapply rwpe_deallocate; simpl; [apply lookup_insert_eq|].
    rewrite delete_insert_id by done. rewrite state_eta. by apply Hc.
  - unfold raw_node.
    repeat first [ewp_step | wp_step | eapply wp_update; [lookup_tac|simpl]].
    rewrite !insert_insert_eq. by apply HQ.
Qed.

Lemma tree_rep_fresh h hd L R t a n :
  tree_rep h hd L R t → h !! a = None →
  tree_rep (<[a := n]> h) hd L R t ∧ a ∉ hd :: addrs t.
Proof.
  intros (Hhd & Hrep & Hnd) Ha.
  assert (a ∉ hd :: addrs t) as Hn.
  { intros [->|Hin]%elem_of_cons; [congruence|].
    destruct (rep_dom _ _ _ _ Hrep Hin) as [? ?]. congruence. }
  split; [|done]. apply not_elem_of_cons in Hn as [? ?].
  split_and!; [by rewrite lookup_insert_ne|by apply rep_frame|done].
Qed.

Lemma insert_rebalance_rb ctx nd cn (v : T) :
  is_rb_tree (plug ctx Leaf) →
  ∃ t1, insert_rebalance_t ctx (Br nd cn Leaf v Leaf) = Some t1 ∧ is_rb_tree t1.
Proof.
  intros [Hroot [m Hrb]].
  destruct (rb_plug_inv _ _ _ Hrb Hroot) as (n & Hctx & Hn & _).
  simpl in Hn. subst n.
  destruct (insert_fix_rb 0 ctx nd Leaf v Leaf) as (t' & Hfix & k & Hk);
    [done|done|].
  exists (set_color_t rb_tree_black t'). unfold insert_rebalance_t. simpl.
  rewrite Hfix. split; [done|]. split; [apply is_red_set_black|eauto].
Qed.

(** *** Construction *)

Lemma rwpe_rb_tree_init s :
  rwpe (rb_tree_init alloc_fails) s
    (λ _ s', ∃ hd, mem s !! hd = None ∧ tree_inv s' hd []
               ∧ mem s' = <[hd := Node None (Some hd) (Some hd) rb_tree_red None]>
                             (mem s))
    (λ e s', e = bad_alloc ∧ s' = s).
Proof.
  unfold rb_tree_init, allocate. ewp_steps.
  destruct (alloc_fails (mem s)) eqn:Hal; ewp_steps; [done|].
  set (a := fresh (dom (mem s))).
  assert (mem s !! a = None) as Hfresh.
  { apply (not_elem_of_dom (D:=gset addr)). apply is_fresh. }
  unfold raw_node.
  repeat first [ewp_step | wp_step | eapply wp_update; [lookup_tac|simpl]].
  exists a. split; [done|]. rewrite !insert_insert_eq. split; [|done].
  exists Leaf. unfold tree_at. simpl.
  split_and!; try done.
  - unfold tree_rep. simpl. rewrite lookup_insert_eq.
    split_and!; [done|done|]. apply NoDup_singleton.
  - split; [done|]. by exists 0%nat.
  - constructor.
  - pose proof pow_bits. lia.
Qed.

(** *** Insertion *)

(** The descent of [get_insert_multi_pos] on a container. *)
Lemma wp_insert_descent s hd t cs key Q :
  tree_at s hd t cs →
  (∀ ctx, ctx = insert_ctx get_key key_comp key t [] →
          plug ctx Leaf = t →
          Forall (λ e, key_comp key (key_of e) = false) (ctx_before ctx) →
          Forall (λ e, key_comp key (key_of e) = true) (ctx_after ctx) →
          Q (ctx_par hd ctx, ctx_side ctx) (mem s)) →
  wp (get_insert_multi_pos get_key key_comp (this s) key) (mem s) Q.
Proof.
  intros (Hthis & Htr & Hcells & Hrb & Hsort & Hlen) HQ.
  pose proof Htr as (Hhd & Hrep & Hnd).
  pose proof (tree_rep_fuel _ _ _ _ _ Htr) as Hfuel.
  unfold get_insert_multi_pos, root. rewrite Hthis. simpl. wp_steps.
  eapply (wp_insert_pos_loop get_key key_comp _ _ hd [] t key);
    [done|done|]. simpl.
  apply HQ; [done|apply plug_insert_ctx| |].
  all: apply insert_ctx_split; try done; by rewrite Hcells.
Qed.

Lemma cells_plug_leaf ctx : cells (plug ctx (@Leaf T)) = ctx_before ctx ++ ctx_after ctx.
Proof. by rewrite cells_plug. Qed.

(** A constructed node enters the tree at the hole of [ctx]. *)
Lemma rwp_insert_node_inv_frame s hd t cs ctx nd cn v (add_to_left : bool) Q :
  tree_at s hd t cs → plug ctx Leaf = t → mem s !! nd = None →
  (Z.of_nat (length cs) < 2 ^ size_bits - 1)%Z →
  (ctx ≠ [] → add_to_left = ctx_side ctx) →
  sorted (ctx_before ctx ++ (nd, v) :: ctx_after ctx) →
  (∀ s', tree_inv s' hd (ctx_before ctx ++ (nd, v) :: ctx_after ctx) →
         preserves (hd :: cs.*1) (mem s) (mem s') →
         Q (Some nd) s') →
  rwp (insert_node_at size_bits (ctx_par hd ctx) (Some nd) add_to_left)
    (State (this s) (<[nd := Node None None None cn (Some v)]> (mem s))) Q.
Proof.
  intros (Hthis & Htr & Hcells & Hrb & Hsort & Hlen) Hplug Hnd Hcap Hside Hs' HQ.
  subst t.
  assert (∀ a, a ∈ ctx_addrs ctx → a ∈ cs.*1) as Hsub.
  { intros a Ha. rewrite <-Hcells, <-addrs_cells, addrs_plug_perm.
    apply elem_of_app. by left. }
  rewrite cells_plug_leaf in Hcells.
  destruct (insert_rebalance_rb ctx nd cn v Hrb) as (t1 & Ht1 & Hrb1).
  pose proof (insert_rebalance_cells _ _ _ Ht1) as Hcells1.
  rewrite cells_plug in Hcells1. simpl in Hcells1.
  destruct (tree_rep_fresh _ _ _ _ _ nd (Node None None None cn (Some v)) Htr Hnd)
    as [Htr1 Hfresh].
  eapply (rwp_insert_node_at size_bits _ hd _ _ _ ctx nd cn v t1);
    [done|by apply focus_tree_rep| | |apply lookup_insert_eq| |done|done|].
  - by rewrite cells_plug_leaf, Hcells.
  - by rewrite cells_plug_leaf, Hcells.
  - rewrite addrs_plug_perm, app_nil_r in Hfresh. done.
  - intros s' Hthis' Htr' Hso. apply HQ.
    + exists t1. rewrite Hcells1 in Htr'.
      assert (length (ctx_before ctx ++ (nd, v) :: ctx_after ctx) = S (length cs))
        as Hlen'.
      { rewrite <-Hcells, !length_app. simpl. lia. }
      split_and!; try done.
      * rewrite Hthis', Hlen'. f_equal. rewrite Z.mod_small; lia.
      * rewrite Hlen'. lia.
    + intros a Ha [n Hn]. apply not_elem_of_cons in Ha as [Hahd Hacs].
      assert (a ≠ nd) as Hand by congruence.
      rewrite (Hso a); simpl.
      * by rewrite lookup_insert_ne.
      * rewrite !not_elem_of_cons. split_and!; [done|done|]. intros Hin.
        by apply Hacs, Hsub.
Qed.

Lemma rwp_insert_node_inv s hd t cs ctx nd cn v (add_to_left : bool) Q :
  tree_at s hd t cs → plug ctx Leaf = t → mem s !! nd = None →
  (Z.of_nat (length cs) < 2 ^ size_bits - 1)%Z →
  (ctx ≠ [] → add_to_left = ctx_side ctx) →
  sorted (ctx_before ctx ++ (nd, v) :: ctx_after ctx) →
  (∀ s', tree_inv s' hd (ctx_before ctx ++ (nd, v) :: ctx_after ctx) →
         Q (Some nd) s') →
  rwp (insert_node_at size_bits (ctx_par hd ctx) (Some nd) add_to_left)
    (State (this s) (<[nd := Node None None None cn (Some v)]> (mem s))) Q.
Proof.
  intros Hinv Hplug Hnd Hcap Hside Hs' HQ.
  eapply rwp_insert_node_inv_frame; eauto.
Qed.

Lemma rwpe_insert_multi s hd cs v :
  tree_inv s hd cs →
  rwpe (insert_multi get_key key_comp size_bits alloc_fails ctor_throws v) s
    (λ res s', ∃ nd cs', res = Some nd ∧ mem s !! nd = None
               ∧ insert_post v cs nd cs' ∧ tree_inv s' hd cs'
               ∧ insert_succeeds s v cs
               ∧ preserves (hd :: cs.*1) (mem s) (mem s'))
    (λ e s', s' = s ∧ insert_fails s v cs e).
Proof.
  intros [t Hinv]. pose proof Hinv as (Hthis & Htr & Hcells & Hrb & Hsort & Hlen).
  unfold insert_multi. ewp_steps.
  eapply (rwpe_check_capacity _ (Z.of_nat (length cs)));
    [by rewrite Hthis|lia| |done].
  intros Hcap. ewp_steps.
  eapply wp_insert_descent; [done|]. intros ctx Hctx Hplug Hb Ha. simpl.
  rewrite state_eta. unfold insert_value_at. ewp_steps.
  apply rwpe_create_node; [done|done|].
  intros Hal Hct nd Hnd.
  assert (cs = ctx_before ctx ++ ctx_after ctx) as Hcs.
  { by rewrite <-Hcells, <-Hplug, cells_plug_leaf. }
  apply rwp_rwpe.
  eapply (rwp_insert_node_inv_frame s hd t cs ctx); try done.
  - apply sorted_insert; [done|by rewrite <-Hcs|done|done].
  - intros s' Hinv' Hpres.
    exists nd, (ctx_before ctx ++ (nd, v) :: ctx_after ctx).
    split_and!; try done. by exists (ctx_before ctx), (ctx_after ctx).
Qed.

Lemma rep_cell h par t a v :
  rep h par t → (a, v) ∈ cells t → ∃ n, h !! a = Some n ∧ value n = Some v.
Proof.
  revert par. induction t as [|b c l IHl w r IHr]; intros par; simpl.
  - intros _ Hin. by apply elem_of_nil in Hin.
  - intros (Hb & Hl & Hr) [Hin|[Hin|Hin]%elem_of_cons]%elem_of_app; eauto.
    injection Hin as -> ->. eauto.
Qed.

Lemma tree_at_cell s hd t cs a v :
  tree_at s hd t cs → (a, v) ∈ cs →
  ∃ n, mem s !! a = Some n ∧ value n = Some v.
Proof.
  intros (_ & (_ & Hrep & _) & <- & _) Hin. by eapply rep_cell.
Qed.

Lemma wp_insert_unique_pos s hd t cs key Q :
  tree_at s hd t cs →
  (∀ ctx, ctx = insert_ctx get_key key_comp key t [] →
          plug ctx Leaf = t →
          Forall (λ e, key_comp key (key_of e) = false) (ctx_before ctx) →
          Forall (λ e, key_comp key (key_of e) = true) (ctx_after ctx) →
          Q ((ctx_par hd ctx, ctx_side ctx), no_equiv_before key ctx) (mem s)) →
  wp (get_insert_unique_pos get_key key_comp (this s) key) (mem s) Q.
Proof.
  intros Hinv HQ.
  pose proof Hinv as (Hthis & Htr & Hcells & Hrb & Hsort & Hlen).
  pose proof Htr as (Hhd & Hrep & Hnd).
  pose proof (tree_rep_fuel _ _ _ _ _ Htr) as Hfuel.
  unfold get_insert_unique_pos, root, begin, leftmost. rewrite Hthis. simpl.
  wp_steps.
  eapply (wp_insert_pos_loop get_key key_comp _ _ hd [] t key);
    [done|done|]. simpl.
  set (ctx := insert_ctx get_key key_comp key t []).
  assert (plug ctx Leaf = t) as Hplug by apply plug_insert_ctx.
  specialize (HQ ctx eq_refl Hplug).
  destruct (insert_ctx_split get_key key_comp Hswo key t []) as [Hb Ha];
    [by rewrite Hcells|done|done|].
  specialize (HQ Hb Ha). fold ctx in Hb, Ha.
  assert (cs = ctx_before ctx ++ ctx_after ctx) as Hcs.
  { by rewrite <-Hcells, <-Hplug, cells_plug_leaf. }
  clearbody ctx. wp_steps.
  rewrite <-Hplug in Htr. apply focus_tree_rep in Htr.
  pose proof Htr as (Hctx & _ & Hnd').
  destruct ctx as [|[a c v r|a c l v] ctx'].
  - simpl in *. rewrite ptr_eqb_refl. simpl. wp_steps. done.
  - simpl in Hctx, Hnd' |- *. destruct_and?. sep_split.
    unfold no_equiv_before in HQ. cbn [ctx_before ctx_par ctx_side] in HQ.
    rewrite (ptr_eqb_some_ne a hd) by done. simpl.
    destruct (ctx_before ctx') as [|e B] eqn:HB.
    + rewrite Hcs. simpl. rewrite HB. simpl. rewrite first_pos_cons, ptr_eqb_refl.
      wp_steps. done.
    + destruct (first_pos_in hd (e :: B)) as (b & Hfb & Hbin); [done|].
      rewrite Hcs. simpl. rewrite HB, first_pos_app, Hfb by done.
      assert (b ∈ ctx_addrs ctx') as Hbc.
      { apply ctx_before_addrs. by rewrite HB. }
      rewrite ptr_eqb_ne by (intros [= ->]; done). wp_steps.
      eapply (wp_dec _ hd _ _ ctx' a c Leaf v r).
      { by apply focus_rep_up in Htr. }
      { intros ->. destruct Hrb as [Hroot _]. rewrite <-Hplug in Hroot.
        unfold root_black in Hroot. simpl in Hroot.
        by apply color_is_red_false. }
      { by rewrite HB. }
      rewrite HB, app_nil_r.
      destruct (last (e :: B)) as [[jb vj]|] eqn:Hlast;
        [|by apply last_None in Hlast].
      unfold last_pos. rewrite Hlast. simpl.
      destruct (tree_at_cell s hd t cs jb vj Hinv) as (nj & Hnj & Hvj).
      { rewrite Hcs. simpl. rewrite HB. apply elem_of_app. left.
        by apply last_Some_elem_of. }
      apply wp_bind. eapply wp_get_value; [done|done|].
      unfold key_of in HQ. simpl in HQ.
      destruct (key_comp (get_key vj) key) eqn:Hj; wp_steps; done.
  - simpl in Hctx, Hnd' |- *. destruct_and?. sep_split. wp_steps.
    unfold no_equiv_before in HQ. cbn [ctx_before ctx_par ctx_side] in HQ.
    rewrite !(assoc (++)), last_snoc in HQ. unfold key_of in HQ. simpl in HQ.
    destruct (key_comp (get_key v) key) eqn:Hv; wp_steps; done.
Qed.

Local Abbreviation equiv_key := (equiv_key key_comp).

Lemma sorted_last_le B (x l : addr * T) :
  sorted B → last B = Some l → x ∈ B → key_comp (key_of l) (key_of x) = false.
Proof.
  intros Hs Hl Hx. apply last_Some in Hl as [B' ->].
  apply elem_of_app in Hx as [Hx|Hx].
  - apply sorted_app in Hs as (H12 & _). apply (H12 x l); [done|]. by left.
  - apply list_elem_of_singleton in Hx as ->. apply (swo_irrefl _ Hswo).
Qed.

Lemma no_equiv_before_true key ctx :
  sorted (ctx_before ctx ++ ctx_after ctx) →
  Forall (λ e, key_comp key (key_of e) = false) (ctx_before ctx) →
  Forall (λ e, key_comp key (key_of e) = true) (ctx_after ctx) →
  no_equiv_before key ctx = true →
  Forall (λ e, equiv_key (key_of e) key = false) (ctx_before ctx ++ ctx_after ctx).
Proof.
  intros Hs Hb Ha Hno. unfold no_equiv_before in Hno.
  apply sorted_app in Hs as (_ & Hsb & _).
  apply Forall_app. split.
  - apply Forall_forall. intros x Hx. unfold equiv_key.
    destruct (last (ctx_before ctx)) as [l|] eqn:Hl.
    + rewrite (swo_le_lt _ Hswo (key_of x) (key_of l) key); [done| |done].
      by eapply sorted_last_le.
    + apply last_None in Hl. rewrite Hl in Hx. by apply elem_of_nil in Hx.
  - eapply Forall_impl; [exact Ha|]. intros x Hx. simpl in Hx. unfold equiv_key.
    rewrite Hx. by rewrite andb_false_r.
Qed.

Lemma no_equiv_before_false key ctx :
  Forall (λ e, key_comp key (key_of e) = false) (ctx_before ctx) →
  no_equiv_before key ctx = false →
  Exists (λ e, equiv_key (key_of e) key = true) (ctx_before ctx ++ ctx_after ctx).
Proof.
  intros Hb Hno. unfold no_equiv_before in Hno.
  destruct (last (ctx_before ctx)) as [l|] eqn:Hl; [|done].
  apply Exists_exists. exists l. apply last_Some_elem_of in Hl. split.
  - apply elem_of_app. by left.
  - rewrite Forall_forall in Hb. unfold equiv_key. by rewrite Hno, (Hb l Hl).
Qed.

Lemma rwpe_insert_unique s hd cs v :
  tree_inv s hd cs →
  rwpe (insert_unique get_key key_comp size_bits alloc_fails ctor_throws v) s
    (λ res s',
       (res.2 = true
        ∧ ∃ nd cs', res.1 = Some nd ∧ mem s !! nd = None
            ∧ insert_post v cs nd cs' ∧ tree_inv s' hd cs'
            ∧ insert_succeeds s v cs
            ∧ Forall (λ e, equiv_key (key_of e) (get_key v) = false) cs
            ∧ preserves (hd :: cs.*1) (mem s) (mem s'))
       ∨ (res.2 = false ∧ s' = s
          ∧ Exists (λ e, equiv_key (key_of e) (get_key v) = true) cs
          ∧ (Z.of_nat (length cs) < 2 ^ size_bits - 1)%Z))
    (λ e s', s' = s ∧ insert_fails s v cs e
             ∧ (e ≠ length_error →
                Forall (λ e, equiv_key (key_of e) (get_key v) = false) cs)).
Proof.
  intros [t Hinv]. pose proof Hinv as (Hthis & Htr & Hcells & Hrb & Hsort & Hlen).
  unfold insert_unique. ewp_steps.
  eapply (rwpe_check_capacity _ (Z.of_nat (length cs)));
    [by rewrite Hthis|lia| |done].
  intros Hcap. ewp_steps.
  eapply wp_insert_unique_pos; [done|]. intros ctx Hctx Hplug Hb Ha. simpl.
  rewrite state_eta.
  assert (cs = ctx_before ctx ++ ctx_after ctx) as Hcs.
  { by rewrite <-Hcells, <-Hplug, cells_plug_leaf. }
  destruct (no_equiv_before (get_key v) ctx) eqn:Hno.
  - pose proof (no_equiv_before_true _ _ ltac:(by rewrite <-Hcs) Hb Ha Hno) as Hne.
    rewrite <-Hcs in Hne.
    unfold insert_value_at. ewp_steps.
    apply rwpe_create_node; [done|done|].
    intros Hal Hct nd Hnd. ewp_steps.
    apply rwp_rwpe.
    eapply (rwp_insert_node_inv_frame s hd t cs ctx); try done.
    + apply sorted_insert; [done|by rewrite <-Hcs|done|done].
    + intros s' Hinv' Hpres. ewp_steps. left. split; [done|].
      exists nd, (ctx_before ctx ++ (nd, v) :: ctx_after ctx).
      split_and!; try done. by exists (ctx_before ctx), (ctx_after ctx).
  - ewp_steps. right. split_and!; [done|done| |done].
    rewrite Hcs. by apply no_equiv_before_false.
Qed.

(** *** Erasure *)

Lemma focus_exists t a :
  a ∈ addrs t → ∃ ctx c l v r, t = plug ctx (Br a c l v r).
Proof.
  induction t as [|b c l IHl v r IHr]; simpl.
  - intros Hin. by apply elem_of_nil in Hin.
  - intros [Hin|[->|Hin]%elem_of_cons]%elem_of_app.
    + destruct (IHl Hin) as (ctx & c' & l' & v' & r' & ->).
      exists (ctx ++ [FL b c v r]), c', l', v', r'.
      by rewrite plug_app, plug_cons, plug_nil.
    + by exists [], c, l, v, r.
    + destruct (IHr Hin) as (ctx & c' & l' & v' & r' & ->).
      exists (ctx ++ [FR b c l v]), c', l', v', r'.
      by rewrite plug_app, plug_cons, plug_nil.
Qed.

Lemma split_unique (B B' A A' : list (addr * T)) a v v' :
  NoDup (B ++ (a, v) :: A).*1 →
  B ++ (a, v) :: A = B' ++ (a, v') :: A' →
  B = B' ∧ v = v' ∧ A = A'.
Proof.
  revert B'. induction B as [|[b w] B IH]; intros B' Hnd Heq; simpl in *.
  - destruct B' as [|[b' w'] B']; simpl in *.
    + by injection Heq as -> ->.
    + injection Heq as <- <- ->. apply NoDup_cons in Hnd as [Hn _].
      exfalso. apply Hn. rewrite fmap_app. apply elem_of_app. right.
      simpl. by left.
  - apply NoDup_cons in Hnd as [Hn Hnd].
    destruct B' as [|[b' w'] B']; simpl in *.
    + injection Heq as -> -> <-. exfalso. apply Hn.
      rewrite fmap_app. apply elem_of_app. right. simpl. by left.
    + injection Heq as -> -> Heq. destruct (IH B' Hnd Heq) as (-> & -> & ->).
      done.
Qed.

Lemma rep_delete h par t a :
  a ∉ addrs t → rep h par t → rep (delete a h) par t.
Proof.
  revert par. induction t as [|b c l IHl v r IHr]; intros par Hn; simpl; [done|].
  simpl in Hn. rewrite not_elem_of_app, not_elem_of_cons in Hn.
  destruct Hn as (? & ? & ?). intros (? & ? & ?).
  rewrite lookup_delete_ne by done. auto.
Qed.

Lemma tree_rep_delete h hd L R t a :
  a ∉ hd :: addrs t → tree_rep h hd L R t → tree_rep (delete a h) hd L R t.
Proof.
  intros [? ?]%not_elem_of_cons (Hhd & Hrep & Hnd).
  split_and!; [by rewrite lookup_delete_ne|by apply rep_delete|done].
Qed.

Lemma tree_at_focus s hd t cs B a v A :
  tree_at s hd t cs → cs = B ++ (a, v) :: A →
  ∃ ctx c l r, t = plug ctx (Br a c l v r)
    ∧ B = ctx_before ctx ++ cells l ∧ A = cells r ++ ctx_after ctx.
Proof.
  intros (Hthis & Htr & Hcells & _) Hcs. pose proof Htr as (_ & _ & Hnd).
  apply NoDup_cons in Hnd as [_ Hnd].
  destruct (focus_exists t a) as (ctx & c & l & v' & r & Ht).
  { rewrite addrs_cells, Hcells, Hcs, fmap_app. apply elem_of_app. right.
    simpl. by left. }
  rewrite addrs_cells, Hcells, Hcs in Hnd.
  rewrite Ht, cells_plug in Hcells. simpl in Hcells. rewrite Hcs in Hcells.
  rewrite <-!(assoc (++)) in Hcells. rewrite (assoc (++) (ctx_before ctx)) in Hcells.
  simpl in Hcells. symmetry in Hcells.
  destruct (split_unique _ _ _ _ _ _ _ Hnd Hcells) as (-> & -> & ->).
  by exists ctx, c, l, r.
Qed.

Lemma rwp_erase s hd cs B a v A Q :
  tree_inv s hd cs → cs = B ++ (a, v) :: A →
  (∀ s', tree_inv s' hd (B ++ A) → mem s' = delete a (mem s') →
         Q (first_pos hd A) s') →
  rwp (erase size_bits (Some a)) s Q.
Proof.
  intros [t Hinv] Hcs HQ.
  destruct (tree_at_focus _ _ _ _ _ _ _ _ Hinv Hcs) as (ctx & c & l & r & Ht & HB & HA).
  destruct Hinv as (Hthis & Htr & Hcells & Hrb & Hsort & Hlen).
  rewrite <-Hcells in Htr. rewrite Ht in Htr, Hrb. apply focus_tree_rep in Htr.
  destruct (erase_rebalance_rb _ _ _ _ _ _ Hrb) as (t' & Ht' & Hrb').
  pose proof (erase_rebalance_cells _ _ _ _ _ _ _ Ht') as Hcells'.
  unfold erase. rwp_steps.
  eapply wp_inc; [exact Htr|done|]. rwp_steps. rewrite Hthis. simpl.
  eapply wp_erase_rebalance; [exact Htr|exact Ht'|].
  intros h' Htr' [nz Hz] Hzn. unfold destroy_node. rwp_steps.
  eapply rwp_deallocate; [exact Hz|]. simpl.
  unfold decr_node_count. rwp_steps. rewrite <-HA. apply HQ.
  - exists t'. simpl.
    assert (cells t' = B ++ A) as Hc.
    { rewrite Hcells', HB, HA. by rewrite <-!(assoc (++)). }
    assert (Z.of_nat (length cs) = Z.of_nat (length (B ++ A)) + 1)%Z as Hl.
    { rewrite Hcs, !length_app. simpl. lia. }
    rewrite Hc in Htr'. split_and!; try done.
    + simpl. f_equal. rewrite Hl. rewrite Z.mod_small; lia.
    + apply tree_rep_delete; [|done].
      destruct Htr' as (Hhd' & _ & _).
      apply not_elem_of_cons. split; [|done]. intros ->.
      apply focus_tree_rep in Htr. destruct Htr as (_ & _ & Hnd).
      apply NoDup_cons in Hnd as [Hn _]. apply Hn.
      rewrite addrs_plug_perm. apply elem_of_app. right. simpl. elem_tac.
    + rewrite Hcs in Hsort. by eapply sorted_delete.
    + lia.
  - simpl. by rewrite delete_delete_eq.
Qed.

(** *** Queries *)

Lemma wp_lower_bound s hd t cs key Q :
  tree_at s hd t cs →
  Q (Some (find_pos (lower_pred key) cs hd)) (mem s) →
  wp (lower_bound get_key key_comp (this s) key) (mem s) Q.
Proof.
  intros (Hthis & Htr & Hcells & Hrb & Hsort & Hlen) HQ.
  pose proof Htr as (Hhd & Hrep & Hnd).
  pose proof (tree_rep_fuel _ _ _ _ _ Htr) as Hfuel.
  unfold lower_bound, root. rewrite Hthis. simpl. wp_steps.
  eapply wp_lower_bound_loop; [done|done|].
  rewrite (lower_bound_spec get_key key_comp Hswo), Hcells; [done|].
  by rewrite Hcells.
Qed.

Lemma wp_upper_bound s hd t cs key Q :
  tree_at s hd t cs →
  Q (Some (find_pos (upper_pred key) cs hd)) (mem s) →
  wp (upper_bound get_key key_comp (this s) key) (mem s) Q.
Proof.
  intros (Hthis & Htr & Hcells & Hrb & Hsort & Hlen) HQ.
  pose proof Htr as (Hhd & Hrep & Hnd).
  pose proof (tree_rep_fuel _ _ _ _ _ Htr) as Hfuel.
  unfold upper_bound, root. rewrite Hthis. simpl. wp_steps.
  eapply wp_upper_bound_loop; [done|done|].
  rewrite (upper_bound_spec get_key key_comp Hswo), Hcells; [done|].
  by rewrite Hcells.
Qed.

Lemma find_pos_split (P : T → bool) cs (dflt : addr) :
  (Forall (λ e, P e.2 = false) cs ∧ find_pos P cs dflt = dflt)
  ∨ ∃ B a v A, cs = B ++ (a, v) :: A ∧ Forall (λ e, P e.2 = false) B
      ∧ P v = true ∧ find_pos P cs dflt = a.
Proof.
  induction cs as [|[a v] cs IH]; simpl; [by left|].
  destruct (P v) eqn:Hv.
  - right. by exists [], a, v, cs.
  - destruct IH as [[Hall Hf]|(B & a' & v' & A & -> & HB & Hv' & Hf)].
    + left. split; [|done]. by constructor.
    + right. exists ((a, v) :: B), a', v', A. split_and!; try done.
      by constructor.
Qed.

Lemma tree_at_not_header s hd t cs a v : tree_at s hd t cs → (a, v) ∈ cs → a ≠ hd.
Proof.
  intros (_ & (_ & _ & Hnd) & Hcells & _) Hin ->.
  apply NoDup_cons in Hnd as [Hn _]. apply Hn.
  rewrite addrs_cells, Hcells. apply list_elem_of_fmap. by exists (hd, v).
Qed.

Lemma wp_find s hd t cs key Q :
  tree_at s hd t cs →
  Q (Some (find_pos (equiv_pred key) cs hd)) (mem s) →
  wp (find get_key key_comp (this s) key) (mem s) Q.
Proof.
  intros Hinv HQ.
  pose proof Hinv as (Hthis & Htr & Hcells & Hrb & Hsort & Hlen).
  pose proof Htr as (Hhd & Hrep & Hnd).
  pose proof (tree_rep_fuel _ _ _ _ _ Htr) as Hfuel.
  unfold find, root, end_. rewrite Hthis. simpl. wp_steps.
  eapply wp_lower_bound_loop; [done|done|].
  rewrite (lower_bound_spec get_key key_comp Hswo), Hcells by (by rewrite Hcells).
  fold (lower_pred key).
  destruct (find_pos_split (lower_pred key) cs hd)
    as [[Hall Hf]|(B & a & v & A & Hcs & HB & Hv & Hf)]; rewrite Hf.
  - rewrite ptr_eqb_refl. wp_steps. rewrite find_pos_none in HQ; [done|].
    eapply Forall_impl; [exact Hall|]. intros e He. simpl in *.
    unfold equiv_pred, equiv_key. unfold lower_pred in He.
    apply negb_false_iff in He. by rewrite He.
  - assert (a ≠ hd) as Hahd.
    { eapply (tree_at_not_header _ _ _ _ _ v); [done|]. rewrite Hcs.
      apply elem_of_app. right. by left. }
    rewrite (ptr_eqb_some_ne a hd) by done.
    destruct (tree_at_cell s hd t cs a v Hinv) as (na & Hna & Hva).
    { rewrite Hcs. apply elem_of_app. right. by left. }
    apply wp_bind. eapply wp_get_value; [done|done|].
    assert (Forall (λ e, equiv_pred key e.2 = false) B) as HBe.
    { eapply Forall_impl; [exact HB|]. intros e He. simpl in *.
      unfold equiv_pred, equiv_key. unfold lower_pred in He.
      apply negb_false_iff in He. by rewrite He. }
    rewrite Hcs, find_pos_app in HQ. rewrite (find_pos_none _ B) in HQ by done.
    simpl in HQ. unfold lower_pred in Hv. apply negb_true_iff in Hv.
    unfold equiv_pred at 1, equiv_key in HQ. rewrite Hv in HQ. simpl in HQ.
    destruct (key_comp key (get_key v)) eqn:Hkv; simpl in HQ; wp_steps; [|done].
    rewrite find_pos_none in HQ; [done|].
    rewrite Hcs in Hsort. apply sorted_app in Hsort as (_ & _ & Hs2).
    apply sorted_cons in Hs2 as [Hle _].
    eapply Forall_impl; [exact Hle|]. intros e He. simpl.
    unfold le_cell, key_of in He. simpl in He.
    unfold equiv_pred, equiv_key.
    rewrite (swo_lt_le _ Hswo key (get_key v) (get_key e.2)) by done.
    by rewrite andb_false_r.
Qed.

(** *** Iteration *)

Lemma wp_inc_cell s hd t cs B a v A Q :
  tree_at s hd t cs → cs = B ++ (a, v) :: A →
  Q (first_pos hd A) (mem s) → wp (inc (Some a)) (mem s) Q.
Proof.
  intros Hinv Hcs HQ.
  destruct (tree_at_focus _ _ _ _ _ _ _ _ Hinv Hcs) as (ctx & c & l & r & Ht & HB & HA).
  destruct Hinv as (Hthis & Htr & Hcells & Hrb & Hsort & Hlen).
  rewrite <-Hcells in Htr. rewrite Ht in Htr. apply focus_tree_rep in Htr.
  eapply wp_inc; [exact Htr|done|]. by rewrite <-HA.
Qed.

Lemma wp_walk_loop fuel s hd t cs B A Q :
  tree_at s hd t cs → cs = B ++ A → length A < fuel →
  Q (positions A) (mem s) →
  wp (walk_loop fuel (first_pos hd A) (Some hd)) (mem s) Q.
Proof.
  intros Hinv. revert B A Q.
  induction fuel as [|fuel IH]; intros B A Q Hcs Hfuel HQ; [lia|].
  cbn [walk_loop]. destruct A as [|[a v] A].
  { rewrite first_pos_nil, ptr_eqb_refl. by wp_steps. }
  rewrite first_pos_cons.
  assert ((a, v) ∈ cs) as Hin.
  { rewrite Hcs. apply elem_of_app. right. by left. }
  pose proof (tree_at_not_header _ _ _ _ _ _ Hinv Hin) as Hahd.
  rewrite (ptr_eqb_some_ne a hd) by done.
  destruct (tree_at_cell s hd t cs a v Hinv Hin) as (na & Hna & Hva).
  apply wp_bind. eapply wp_get_value; [done|done|]. apply wp_bind.
  eapply wp_inc_cell; [done|done|]. apply wp_bind.
  eapply (IH (B ++ [(a, v)]) A); [by rewrite <-(assoc (++))|simpl in Hfuel; lia|].
  by wp_steps.
Qed.

Lemma tree_at_fuel s hd t cs : tree_at s hd t cs → length cs < fuel_of (mem s).
Proof.
  intros (_ & Htr & <- & _). apply tree_rep_size in Htr.
  rewrite addrs_cells, length_fmap in Htr. rewrite fuel_of_eq. lia.
Qed.

(** The walk of a caller from [begin()] to [end()] visits the cells in
    their order. *)
Lemma wp_walk s hd cs Q :
  tree_inv s hd cs → Q (positions cs) (mem s) →
  wp (walk (this s)) (mem s) Q.
Proof.
  intros [t Hinv] HQ. pose proof Hinv as (Hthis & Htr & _).
  pose proof Htr as (Hhd & _). pose proof (tree_at_fuel _ _ _ _ Hinv).
  unfold walk, begin, leftmost, end_. rewrite Hthis. simpl. wp_steps.
  by eapply (wp_walk_loop _ s hd t cs []).
Qed.

(** *** Comparison *)

Variable val_eq : T → T → bool.
Local Abbreviation all2 := (all2 val_eq).

Lemma wp_std_equal fuel o1 o2 h hd1 hd2 t1 t2 cs1 cs2 B1 A1 B2 A2 Q :
  tree_at (State o1 h) hd1 t1 cs1 → tree_at (State o2 h) hd2 t2 cs2 →
  cs1 = B1 ++ A1 → cs2 = B2 ++ A2 → length A1 = length A2 →
  length A1 < fuel →
  Q (all2 A1.*2 A2.*2) h →
  wp (std_equal val_eq fuel (first_pos hd1 A1) (Some hd1) (first_pos hd2 A2)) h Q.
Proof.
  intros Hinv1 Hinv2. revert B1 A1 B2 A2 Q.
  induction fuel as [|fuel IH]; intros B1 A1 B2 A2 Q Hcs1 Hcs2 Hlen Hfuel HQ; [lia|].
  cbn [std_equal]. destruct A1 as [|[a1 v1] A1].
  { rewrite first_pos_nil, ptr_eqb_refl. by wp_steps. }
  destruct A2 as [|[a2 v2] A2]; [done|].
  rewrite !first_pos_cons.
  assert ((a1, v1) ∈ cs1) as Hin1.
  { rewrite Hcs1. apply elem_of_app. right. by left. }
  assert ((a2, v2) ∈ cs2) as Hin2.
  { rewrite Hcs2. apply elem_of_app. right. by left. }
  pose proof (tree_at_not_header _ _ _ _ _ _ Hinv1 Hin1) as Hahd.
  rewrite (ptr_eqb_some_ne a1 hd1) by done.
  destruct (tree_at_cell _ _ _ _ _ _ Hinv1 Hin1) as (n1 & Hn1 & Hv1).
  destruct (tree_at_cell _ _ _ _ _ _ Hinv2 Hin2) as (n2 & Hn2 & Hv2).
  simpl in Hn1, Hn2, HQ.
  apply wp_bind. eapply wp_get_value; [done|done|].
  apply wp_bind. eapply wp_get_value; [done|done|].
  destruct (val_eq v1 v2); simpl in *; [|by wp_steps].
  apply wp_bind. eapply (wp_inc_cell _ _ _ _ _ _ _ _ _ Hinv1 Hcs1).
  apply wp_bind. eapply (wp_inc_cell _ _ _ _ _ _ _ _ _ Hinv2 Hcs2). simpl.
  eapply (IH (B1 ++ [(a1, v1)]) A1 (B2 ++ [(a2, v2)]) A2);
    [by rewrite <-(assoc (++))|by rewrite <-(assoc (++))|lia|lia|done].
Qed.

(** [operator==] on two containers in one store. *)
Lemma wp_tree_eq lhs rhs h hd1 hd2 cs1 cs2 Q :
  tree_inv (State lhs h) hd1 cs1 → tree_inv (State rhs h) hd2 cs2 →
  Q (bool_decide (length cs1 = length cs2) && all2 cs1.*2 cs2.*2) h →
  wp (tree_eq val_eq lhs rhs) h Q.
Proof.
  intros [t1 Hinv1] [t2 Hinv2] HQ.
  pose proof Hinv1 as (Hthis1 & Htr1 & _). pose proof Hinv2 as (Hthis2 & Htr2 & _).
  pose proof Htr1 as (Hhd1 & _). pose proof Htr2 as (Hhd2 & _).
  pose proof (tree_at_fuel _ _ _ _ Hinv1) as Hfuel.
  simpl in *. subst lhs rhs. unfold tree_eq, size, begin, leftmost, end_. simpl.
  destruct (decide (length cs1 = length cs2)) as [Hsz|Hsz].
  - rewrite bool_decide_eq_true_2 in HQ by done.
    rewrite bool_decide_eq_true_2 by congruence. wp_steps.
    by eapply (wp_std_equal _ _ _ _ hd1 hd2 t1 t2 cs1 cs2 [] cs1 [] cs2).
  - rewrite bool_decide_eq_false_2 in HQ by done.
    rewrite bool_decide_eq_false_2 by (intros ?%Nat2Z.inj; done). by wp_steps.
Qed.

(** *** Insertion with a hint *)

Lemma wp_dec_cell s hd t cs B a v A Q :
  tree_at s hd t cs → cs = B ++ (a, v) :: A → B ≠ [] →
  Q (last_pos hd B) (mem s) → wp (dec (Some a)) (mem s) Q.
Proof.
  intros Hinv Hcs HB HQ.
  destruct (tree_at_focus _ _ _ _ _ _ _ _ Hinv Hcs) as (ctx & c & l & r & Ht & HB' & HA).
  destruct Hinv as (Hthis & Htr & Hcells & Hrb & Hsort & Hlen).
  rewrite <-Hcells in Htr. rewrite Ht in Htr. apply focus_tree_rep in Htr.
  eapply wp_dec; [exact Htr| |by rewrite <-HB'|by rewrite <-HB'].
  intros ->. destruct Hrb as [Hroot _]. rewrite Ht in Hroot.
  unfold root_black in Hroot. simpl in Hroot. by apply color_is_red_false.
Qed.

(** The store of a container after [create_node]. *)
Lemma tree_at_fresh s hd t cs nd n :
  tree_at s hd t cs → mem s !! nd = None →
  tree_at (State (this s) (<[nd := n]> (mem s))) hd t cs.
Proof.
  intros (Hthis & Htr & Hcells & Hrb & Hsort & Hlen) Hnd.
  destruct (tree_rep_fresh _ _ _ _ _ nd n Htr Hnd) as [Htr1 _].
  by split_and!.
Qed.

(** A cell enters a sorted sequence between a cell that may stand before
    it and a cell that may stand after it. *)
Lemma sorted_insert_between B (x : addr * T) A :
  sorted (B ++ A) →
  (∀ e, last B = Some e → key_comp (key_of x) (key_of e) = false) →
  (∀ e, head A = Some e → key_comp (key_of e) (key_of x) = false) →
  sorted (B ++ x :: A).
Proof.
  intros Hs HB HA. pose proof Hs as (H12 & HsB & HsA)%sorted_app.
  apply sorted_app. split_and!; [|done|].
  - intros a b Ha [->|Hb]%elem_of_cons; [|by apply H12].
    destruct (last B) as [e|] eqn:He.
    + unfold le_cell.
      apply (swo_le_le _ Hswo (key_of a) (key_of e) (key_of x)); [|by apply HB].
      exact (sorted_last_le B a e HsB He Ha).
    + apply last_None in He. subst B. by apply elem_of_nil in Ha.
  - apply sorted_cons. split; [|done]. apply Forall_forall. intros b Hb.
    destruct A as [|e A]; [by apply elem_of_nil in Hb|].
    specialize (HA e eq_refl). unfold le_cell.
    apply (swo_le_le _ Hswo (key_of x) (key_of e) (key_of b)); [done|].
    apply elem_of_cons in Hb as [->|Hb]; [apply (swo_irrefl _ Hswo)|].
    apply sorted_cons in HsA as [Hall _]. rewrite Forall_forall in Hall.
    by apply Hall.
Qed.

(** The hole at the left of the node of a cell, and the hole at its
    right. *)
Lemma cells_nil t : cells t = [] → t = Leaf.
Proof. destruct t as [|a c l v r]; [done|]. simpl. by destruct (cells l). Qed.

Lemma tree_at_holes s hd t cs B a v A :
  tree_at s hd t cs → cs = B ++ (a, v) :: A →
  ∃ n, mem s !! a = Some n
    ∧ (left n = None →
       ∃ ctx, plug ctx Leaf = t ∧ ctx_par hd ctx = Some a ∧ ctx_side ctx = true
              ∧ ctx_before ctx = B ∧ ctx_after ctx = (a, v) :: A)
    ∧ (right n = None →
       ∃ ctx, plug ctx Leaf = t ∧ ctx_par hd ctx = Some a ∧ ctx_side ctx = false
              ∧ ctx_before ctx = B ++ [(a, v)] ∧ ctx_after ctx = A)
    ∧ (B = [] → left n = None) ∧ (A = [] → right n = None).
Proof.
  intros Hinv Hcs.
  destruct (tree_at_focus _ _ _ _ _ _ _ _ Hinv Hcs) as (ctx & c & l & r & Ht & HB & HA).
  destruct Hinv as (Hthis & Htr & Hcells & Hrb & Hsort & Hlen).
  rewrite Ht in Htr. apply focus_tree_rep in Htr.
  destruct Htr as (_ & (Ha & _) & _). eexists. split; [exact Ha|]. simpl.
  split_and!.
  - intros Hnull.
    destruct l; [|done]. exists (FL a c v r :: ctx). rewrite plug_cons. simpl.
    split_and!; [by rewrite Ht|done|done|by rewrite HB, app_nil_r|by rewrite HA].
  - intros Hnull.
    destruct r; [|done]. exists (FR a c l v :: ctx). rewrite plug_cons. simpl.
    split_and!; [by rewrite Ht|done|done|by rewrite HB, (assoc (++))|by rewrite HA].
  - intros ->. symmetry in HB. apply app_eq_nil in HB as [_ Hl].
    by rewrite (cells_nil _ Hl).
  - intros ->. symmetry in HA. apply app_eq_nil in HA as [Hr _].
    by rewrite (cells_nil _ Hr).
Qed.

Lemma insert_post_hint v cs nd cs' : insert_post v cs nd cs' → hint_post v cs nd cs'.
Proof. intros (B & A & ? & ? & _). by exists B, A. Qed.

Local Notation created s nd v :=
  (State (this s) (<[nd := Node None None None rb_tree_black (Some v)]> (mem s))).

(** The fallback of every hinted insertion: the descent from the root. *)
Lemma rwp_insert_multi_created s hd t cs nd v Q :
  tree_at s hd t cs → mem s !! nd = None →
  (Z.of_nat (length cs) < 2 ^ size_bits - 1)%Z →
  (∀ s' cs', insert_post v cs nd cs' → tree_inv s' hd cs' → Q (Some nd) s') →
  rwp (let+ pos := lift (get_insert_multi_pos get_key key_comp
                           (this (created s nd v)) (get_key v)) in
       insert_node_at size_bits pos.1 (Some nd) pos.2) (created s nd v) Q.
Proof.
  intros Hinv Hnd Hcap HQ.
  pose proof (tree_at_fresh _ _ _ _ nd
                (Node None None None rb_tree_black (Some v)) Hinv Hnd) as Hinv1.
  pose proof Hinv as (Hthis & Htr & Hcells & Hrb & Hsort & Hlen).
  rwp_steps.
  apply (wp_insert_descent (created s nd v) hd t cs (get_key v) _ Hinv1).
  intros ctx Hctx Hplug Hb Ha. simpl.
  assert (cs = ctx_before ctx ++ ctx_after ctx) as Hcs.
  { by rewrite <-Hcells, <-Hplug, cells_plug_leaf. }
  eapply (rwp_insert_node_inv s hd t cs ctx); try done.
  - apply sorted_insert; [done|by rewrite <-Hcs|done|done].
  - intros s' Hinv'. apply (HQ _ _ ltac:(by eexists _, _) Hinv').
Qed.

Lemma is_null_eq (p : ptr) : is_null p = match p with None => true | Some _ => false end.
Proof. by destruct p. Qed.

Lemma rwp_insert_multi_use_hint s hd t cs Bb b bv a hv A nd v Q :
  tree_at s hd t cs → mem s !! nd = None →
  (Z.of_nat (length cs) < 2 ^ size_bits - 1)%Z →
  cs = Bb ++ (b, bv) :: (a, hv) :: A →
  (∀ s' cs', hint_post v cs nd cs' → tree_inv s' hd cs' → Q (Some nd) s') →
  rwp (insert_multi_use_hint get_key key_comp size_bits (Some a) (get_key v)
         (Some nd)) (created s nd v) Q.
Proof.
  intros Hinv Hnd Hcap Hcs HQ.
  pose proof (tree_at_fresh _ _ _ _ nd
                (Node None None None rb_tree_black (Some v)) Hinv Hnd) as Hinv1.
  pose proof Hinv as (Hthis & Htr & Hcells & Hrb & Hsort & Hlen).
  assert (cs = (Bb ++ [(b, bv)]) ++ (a, hv) :: A) as Hcs'
    by (by rewrite <-(assoc (++))).
  destruct (tree_at_holes _ _ _ _ _ _ _ _ Hinv1 Hcs) as (nb & Hnb & _ & Hbr & _).
  destruct (tree_at_holes _ _ _ _ _ _ _ _ Hinv1 Hcs') as (na & Hna & Hal & _).
  destruct (tree_at_cell _ _ _ _ b bv Hinv1) as (nb' & Hnb' & Hvb).
  { rewrite Hcs. apply elem_of_app. right. by left. }
  destruct (tree_at_cell _ _ _ _ a hv Hinv1) as (na' & Hna' & Hva).
  { rewrite Hcs'. apply elem_of_app. right. by left. }
  simpl in Hnb, Hna, Hnb', Hna'.
  rewrite Hnb in Hnb'. injection Hnb' as <-.
  rewrite Hna in Hna'. injection Hna' as <-.
  assert (sorted ((Bb ++ [(b, bv)]) ++ (a, hv) :: A)) as Hsort' by (by rewrite <-Hcs').
  unfold insert_multi_use_hint. rwp_steps.
  apply (wp_dec_cell (created s nd v) hd t cs _ a hv A _ Hinv1 Hcs').
  { by destruct Bb. }
  rewrite last_pos_snoc. simpl. rwp_steps.
  eapply wp_get_value; [exact Hnb|done|]. rwp_steps.
  assert (∀ fits : bool,
    (fits = true → key_comp (get_key v) (get_key bv) = false
                   ∧ key_comp (get_key hv) (get_key v) = false) →
    rwp (let+ bnpr := lift (get_right (Some b)) in
         let+ npl := lift (get_left (Some a)) in
         if fits && is_null bnpr then
           insert_node_at size_bits (Some b) (Some nd) false
         else if fits && is_null npl then
           insert_node_at size_bits (Some a) (Some nd) true
         else
           let+ pos := lift (get_insert_multi_pos get_key key_comp
                               (this s) (get_key v)) in
           insert_node_at size_bits pos.1 (Some nd) pos.2)
      (created s nd v) Q) as Hrest.
  { intros fits Hfits. rwp_steps. eapply wp_get_right; [exact Hnb|]. rwp_steps.
    eapply wp_get_left; [exact Hna|]. simpl. rewrite !is_null_eq.
    destruct fits; simpl.
    2:{ by apply (rwp_insert_multi_created s hd t cs nd v Q Hinv Hnd Hcap);
          eauto using insert_post_hint. }
    destruct (Hfits eq_refl) as [Hf1 Hf2].
    assert (∀ ctx,
      ctx_before ctx = Bb ++ [(b, bv)] → ctx_after ctx = (a, hv) :: A →
      sorted (ctx_before ctx ++ (nd, v) :: ctx_after ctx)) as Hsorted.
    { intros ctx -> ->. apply sorted_insert_between; [done| |].
      - intros e. rewrite last_snoc. by intros [= <-].
      - intros e. simpl. by intros [= <-]. }
    destruct (right nb) as [x|] eqn:Hr.
    - destruct (left na) as [y|] eqn:Hl.
      + by apply (rwp_insert_multi_created s hd t cs nd v Q Hinv Hnd Hcap);
          eauto using insert_post_hint.
      + destruct (Hal eq_refl) as (ctx & Hplug & Hpar & Hside & Hb & Ha).
        rewrite <-Hpar.
        eapply (rwp_insert_node_inv s hd t cs ctx); try done; [by auto|].
        intros s' Hinv'. eapply HQ; [|exact Hinv'].
        exists (ctx_before ctx), (ctx_after ctx). split; [|done].
        by rewrite Hb, Ha.
    - destruct (Hbr eq_refl) as (ctx & Hplug & Hpar & Hside & Hb & Ha).
      rewrite <-Hpar.
      eapply (rwp_insert_node_inv s hd t cs ctx); try done; [by auto|].
      intros s' Hinv'. eapply HQ; [|exact Hinv'].
      exists (ctx_before ctx), (ctx_after ctx). split; [|done].
      by rewrite Hb, Ha. }
  destruct (key_comp (get_key v) (get_key bv)) eqn:Hkb; simpl.
  - apply rwp_ret. by apply Hrest.
  - apply rwp_bind, rwp_lift. eapply wp_get_value; [exact Hna|done|].
    apply rwp_ret. apply Hrest. by intros ->%negb_true_iff.
Qed.

Lemma first_pos_ne_header s hd t cs (A : list (addr * T)) B :
  tree_at s hd t cs → cs = B ++ A → A ≠ [] → first_pos hd A ≠ Some hd.
Proof.
  intros Hinv Hcs HA. destruct A as [|[a v] A]; [done|].
  rewrite first_pos_cons. intros [= ->].
  eapply (tree_at_not_header _ _ _ _ hd v); [done| |done].
  rewrite Hcs. apply elem_of_app. right. by left.
Qed.

Lemma tree_at_nodup s hd t cs : tree_at s hd t cs → NoDup cs.*1.
Proof.
  intros (_ & (_ & _ & Hnd) & <- & _). apply NoDup_cons in Hnd as [_ Hnd].
  by rewrite <-addrs_cells.
Qed.

Lemma rwpe_emplace_multi_use_hint s hd cs B A v :
  tree_inv s hd cs → cs = B ++ A →
  rwpe (emplace_multi_use_hint get_key key_comp size_bits alloc_fails ctor_throws
          (first_pos hd A) v) s
    (λ res s', ∃ nd cs', res = Some nd ∧ mem s !! nd = None
               ∧ hint_post v cs nd cs' ∧ tree_inv s' hd cs'
               ∧ insert_succeeds s v cs)
    (λ e s', s' = s ∧ insert_fails s v cs e).
Proof.
  intros [t Hinv] Hcs. destruct s as [o h].
  pose proof Hinv as (Hthis & Htr & Hcells & Hrb & Hsort & Hlen).
  simpl in Hthis. subst o.
  unfold emplace_multi_use_hint. ewp_steps.
  eapply (rwpe_check_capacity _ (Z.of_nat (length cs))); [done|lia| |done].
  intros Hcap. ewp_steps.
  apply rwpe_create_node; [done|done|].
  intros Hal Hct nd Hnd. ewp_steps.
  apply rwp_rwpe.
  match goal with |- rwp _ _ ?Q0 => set (Q := Q0) end.
  assert (∀ s' cs', hint_post v cs nd cs' → tree_inv s' hd cs' → Q (Some nd) s')
    as HQ.
  { intros s' cs' Hpost Hinv'. exists nd, cs'. by split_and!. }
  clearbody Q.
  pose proof (tree_at_fresh _ _ _ _ nd
                (Node None None None rb_tree_black (Some v)) Hinv Hnd) as Hinv1.
  pose proof Hinv1 as (_ & (Hhd1 & _) & _). simpl in Hhd1.
  pose proof (rwp_insert_multi_created _ hd t cs nd v Q Hinv Hnd Hcap) as Hfall.
  simpl in Hfall, Hnd, Hal.
  specialize (Hfall ltac:(eauto using insert_post_hint)).
  case_bool_decide as Hz.
  { assert (cs = []) as Hnil by (destruct cs; [done|simpl in Hz; lia]).
    rewrite Hnil in *. assert (t = Leaf) as -> by (by apply cells_nil).
    apply (rwp_insert_node_inv _ hd Leaf [] [] nd rb_tree_black v true Q Hinv);
      try done.
    - simpl. repeat constructor.
    - intros s' Hinv'. eapply HQ; [|exact Hinv']. by exists [], []. }
  rwp_steps. apply wp_bind. eapply wp_get_value; [apply lookup_insert_eq|done|].
  wp_steps. rwp_steps. unfold begin, leftmost, end_. simpl. wp_steps.
  destruct A as [|[a hv] A].
  - (* the hint is [end()] *)
    rewrite first_pos_nil. rewrite app_nil_r in Hcs. subst B.
    destruct (last cs) as [[r rv]|] eqn:Hlast.
    2:{ apply last_None in Hlast. rewrite Hlast in Hz. exfalso. by apply Hz. }
    rewrite ptr_eqb_ne.
    2:{ intros Heq. symmetry in Heq. revert Heq.
        eapply (first_pos_ne_header _ _ _ _ cs []); [done|done|].
        intros ->. done. }
    rewrite ptr_eqb_refl. rwp_steps. unfold rightmost. simpl. wp_steps.
    unfold last_pos. rewrite Hlast. simpl.
    apply last_Some in Hlast as [Bl Hcs].
    destruct (tree_at_holes _ _ _ _ _ _ _ _ Hinv1 Hcs)
      as (nr & Hnr & _ & Hhole & _ & Hright).
    destruct (tree_at_cell _ _ _ _ r rv Hinv1) as (nr' & Hnr' & Hvr).
    { rewrite Hcs. apply elem_of_app. right. by left. }
    rewrite Hnr in Hnr'. injection Hnr' as <-. simpl in Hnr.
    rwp_steps. eapply wp_get_value; [exact Hnr|done|].
    destruct (key_comp (get_key v) (get_key rv)) eqn:Hk; simpl; [done|].
    destruct (Hhole (Hright eq_refl)) as (ctx & Hplug & Hpar & Hside & Hb & Ha).
    rewrite <-Hpar.
    eapply (rwp_insert_node_inv _ hd t cs ctx _ _ _ _ _ Hinv);
        [done|done|done|by rewrite Hside| |].
    + rewrite Hb, Ha. apply sorted_insert_between; [by rewrite app_nil_r, <-Hcs| |done].
      intros e. rewrite last_snoc. by intros [= <-].
    + intros s' Hinv'. eapply HQ; [|exact Hinv'].
      exists (ctx_before ctx), (ctx_after ctx). split; [|done].
      by rewrite Hb, Ha, app_nil_r.
  - rewrite first_pos_cons.
    assert ((a, hv) ∈ cs) as Hin.
    { rewrite Hcs. apply elem_of_app. right. by left. }
    pose proof (tree_at_not_header _ _ _ _ _ _ Hinv Hin) as Hahd.
    destruct (tree_at_cell _ _ _ _ a hv Hinv1 Hin) as (na & Hna & Hva).
    simpl in Hna.
    destruct B as [|e0 B0] using rev_ind.
    + (* the hint is [begin()] *)
      simpl in Hcs. assert (first_pos hd cs = Some a) as -> by (by rewrite Hcs).
      rewrite ptr_eqb_refl.
      rwp_steps. eapply wp_get_value; [exact Hna|done|].
      destruct (key_comp (get_key v) (get_key hv)) eqn:Hk; simpl; [|done].
      destruct (tree_at_holes _ _ _ _ [] a hv A Hinv1 Hcs)
        as (na' & Hna' & Hhole & _ & Hleft & _).
      destruct (Hhole (Hleft eq_refl)) as (ctx & Hplug & Hpar & Hside & Hb & Ha).
      rewrite <-Hpar.
      eapply (rwp_insert_node_inv _ hd t cs ctx _ _ _ _ _ Hinv);
        [done|done|done|by rewrite Hside| |].
      * rewrite Hb, Ha. apply (sorted_insert_between []); [by rewrite <-Hcs|done|].
        intros e. simpl. intros [= <-]. by apply (swo_asym _ Hswo).
      * intros s' Hinv'. eapply HQ; [|exact Hinv'].
        exists (ctx_before ctx), (ctx_after ctx). split; [|done].
        by rewrite Hb, Ha.
    + clear IHB0. destruct e0 as [b bv]. pose proof Hcs as Hcs2.
      rewrite <-(assoc (++)) in Hcs. simpl in Hcs.
      assert (first_pos hd cs ≠ Some a) as Hne.
      { pose proof (tree_at_nodup _ _ _ _ Hinv) as Hnd'.
        destruct (first_pos_in hd (B0 ++ [(b, bv)])) as (f & Hf & Hfin);
          [by destruct B0|].
        rewrite Hcs2, first_pos_app, Hf by (by destruct B0).
        intros [= ->]. rewrite Hcs2, fmap_app in Hnd'.
        apply NoDup_app in Hnd' as (_ & Hdisj & _).
        apply (Hdisj a Hfin). simpl. by left. }
      rewrite ptr_eqb_ne by (intros ?; by apply Hne).
      rewrite (ptr_eqb_some_ne a hd) by done.
      eapply (rwp_insert_multi_use_hint _ hd t cs B0 b bv a hv A _ _ _ Hinv); done.
Qed.

(** *** The hinted insertion of a unique key *)

(** No cell is equivalent to a key that goes strictly between two
    neighbours. *)
Lemma strict_between_no_equiv B A (k : K) :
  sorted (B ++ A) →
  (∀ e, last B = Some e → key_comp (key_of e) k = true) →
  (∀ e, head A = Some e → key_comp k (key_of e) = true) →
  Forall (λ e, equiv_key (key_of e) k = false) (B ++ A).
Proof.
  intros (_ & HsB & HsA)%sorted_app HB HA. apply Forall_app. split.
  - apply Forall_forall. intros x Hx. unfold equiv_key.
    destruct (last B) as [l|] eqn:Hl.
    + rewrite (swo_le_lt _ Hswo (key_of x) (key_of l) k); [done| |by apply HB].
      exact (sorted_last_le B x l HsB Hl Hx).
    + apply last_None in Hl. subst B. by apply elem_of_nil in Hx.
  - apply Forall_forall. intros x Hx. unfold equiv_key.
    destruct A as [|e A]; [by apply elem_of_nil in Hx|].
    rewrite (swo_lt_le _ Hswo k (key_of e) (key_of x)); [by rewrite andb_false_r|by apply HA|].
    apply elem_of_cons in Hx as [->|Hx]; [apply (swo_irrefl _ Hswo)|].
    apply sorted_cons in HsA as [Hall _]. rewrite Forall_forall in Hall.
    by apply Hall.
Qed.

Lemma rwp_insert_unique_created s hd t cs nd v Q :
  tree_at s hd t cs → mem s !! nd = None →
  (Z.of_nat (length cs) < 2 ^ size_bits - 1)%Z →
  (∀ s' cs', insert_post v cs nd cs' → tree_inv s' hd cs' →
     Forall (λ e, equiv_key (key_of e) (get_key v) = false) cs → Q (Some nd) s') →
  (∀ p, Exists (λ e, equiv_key (key_of e) (get_key v) = true) cs → Q p s) →
  rwp (let+ pos := lift (get_insert_unique_pos get_key key_comp
                           (this (created s nd v)) (get_key v)) in
       if negb pos.2 then
         let+ _ := destroy_node (Some nd) in
         rret pos.1.1
       else insert_node_at size_bits pos.1.1 (Some nd) pos.1.2) (created s nd v) Q.
Proof.
  intros Hinv Hnd Hcap HQ HD.
  pose proof (tree_at_fresh _ _ _ _ nd
                (Node None None None rb_tree_black (Some v)) Hinv Hnd) as Hinv1.
  pose proof Hinv as (Hthis & Htr & Hcells & Hrb & Hsort & Hlen).
  rwp_steps.
  apply (wp_insert_unique_pos (created s nd v) hd t cs (get_key v) _ Hinv1).
  intros ctx Hctx Hplug Hb Ha. simpl.
  assert (cs = ctx_before ctx ++ ctx_after ctx) as Hcs.
  { by rewrite <-Hcells, <-Hplug, cells_plug_leaf. }
  destruct (no_equiv_before (get_key v) ctx) eqn:Hno; simpl.
  - pose proof (no_equiv_before_true _ _ ltac:(by rewrite <-Hcs) Hb Ha Hno) as Hne.
    rewrite <-Hcs in Hne.
    eapply (rwp_insert_node_inv s hd t cs ctx); try done.
    + apply sorted_insert; [done|by rewrite <-Hcs|done|done].
    + intros s' Hinv'. apply (HQ _ _ ltac:(by eexists _, _) Hinv' Hne).
  - unfold destroy_node. rwp_steps.
    eapply rwp_deallocate; [apply lookup_insert_eq|]. simpl. rwp_steps.
    rewrite delete_insert_id by done. rewrite state_eta. apply HD.
    rewrite Hcs. by apply no_equiv_before_false.
Qed.

Lemma rwp_insert_unique_use_hint s hd t cs Bb b bv a hv A nd v Q :
  tree_at s hd t cs → mem s !! nd = None →
  (Z.of_nat (length cs) < 2 ^ size_bits - 1)%Z →
  cs = Bb ++ (b, bv) :: (a, hv) :: A →
  (∀ s' cs', hint_post v cs nd cs' → tree_inv s' hd cs' →
     Forall (λ e, equiv_key (key_of e) (get_key v) = false) cs → Q (Some nd) s') →
  (∀ p, Exists (λ e, equiv_key (key_of e) (get_key v) = true) cs → Q p s) →
  rwp (insert_unique_use_hint get_key key_comp size_bits (Some a) (get_key v)
         (Some nd)) (created s nd v) Q.
Proof.
  intros Hinv Hnd Hcap Hcs HQ HD.
  pose proof (tree_at_fresh _ _ _ _ nd
                (Node None None None rb_tree_black (Some v)) Hinv Hnd) as Hinv1.
  pose proof Hinv as (Hthis & Htr & Hcells & Hrb & Hsort & Hlen).
  assert (cs = (Bb ++ [(b, bv)]) ++ (a, hv) :: A) as Hcs'
    by (by rewrite <-(assoc (++))).
  destruct (tree_at_holes _ _ _ _ _ _ _ _ Hinv1 Hcs) as (nb & Hnb & _ & Hbr & _).
  destruct (tree_at_holes _ _ _ _ _ _ _ _ Hinv1 Hcs') as (na & Hna & Hal & _).
  destruct (tree_at_cell _ _ _ _ b bv Hinv1) as (nb' & Hnb' & Hvb).
  { rewrite Hcs. apply elem_of_app. right. by left. }
  destruct (tree_at_cell _ _ _ _ a hv Hinv1) as (na' & Hna' & Hva).
  { rewrite Hcs'. apply elem_of_app. right. by left. }
  simpl in Hnb, Hna, Hnb', Hna'.
  rewrite Hnb in Hnb'. injection Hnb' as <-.
  rewrite Hna in Hna'. injection Hna' as <-.
  assert (sorted ((Bb ++ [(b, bv)]) ++ (a, hv) :: A)) as Hsort' by (by rewrite <-Hcs').
  pose proof (rwp_insert_unique_created s hd t cs nd v Q Hinv Hnd Hcap
                ltac:(eauto using insert_post_hint) HD) as Hfall.
  unfold insert_unique_use_hint. rwp_steps.
  apply (wp_dec_cell (created s nd v) hd t cs _ a hv A _ Hinv1 Hcs').
  { by destruct Bb. }
  rewrite last_pos_snoc. simpl. rwp_steps.
  eapply wp_get_value; [exact Hnb|done|]. rwp_steps.
  assert (∀ fits : bool,
    (fits = true → key_comp (get_key bv) (get_key v) = true
                   ∧ key_comp (get_key v) (get_key hv) = true) →
    rwp (let+ bnpr := lift (get_right (Some b)) in
         let+ npl := lift (get_left (Some a)) in
         if fits && is_null bnpr then
           insert_node_at size_bits (Some b) (Some nd) false
         else if fits && is_null npl then
           insert_node_at size_bits (Some a) (Some nd) true
         else
           let+ pos := lift (get_insert_unique_pos get_key key_comp
                               (this s) (get_key v)) in
           if negb pos.2 then
             let+ _ := destroy_node (Some nd) in
             rret pos.1.1
           else insert_node_at size_bits pos.1.1 (Some nd) pos.1.2)
      (created s nd v) Q) as Hrest.
  { intros fits Hfits. rwp_steps. eapply wp_get_right; [exact Hnb|]. rwp_steps.
    eapply wp_get_left; [exact Hna|]. simpl. rewrite !is_null_eq.
    destruct fits; simpl; [|done].
    destruct (Hfits eq_refl) as [Hf1 Hf2].
    assert (∀ ctx,
      ctx_before ctx = Bb ++ [(b, bv)] → ctx_after ctx = (a, hv) :: A →
      sorted (ctx_before ctx ++ (nd, v) :: ctx_after ctx)) as Hsorted.
    { intros ctx -> ->. apply sorted_insert_between; [done| |].
      - intros e. rewrite last_snoc. intros [= <-]. by apply (swo_asym _ Hswo).
      - intros e. simpl. intros [= <-]. by apply (swo_asym _ Hswo). }
    assert (Forall (λ e, equiv_key (key_of e) (get_key v) = false) cs) as Hne.
    { rewrite Hcs'. apply strict_between_no_equiv; [done| |].
      - intros e. rewrite last_snoc. by intros [= <-].
      - intros e. simpl. by intros [= <-]. }
    destruct (right nb) as [x|] eqn:Hr.
    - destruct (left na) as [y|] eqn:Hl; [done|].
      destruct (Hal eq_refl) as (ctx & Hplug & Hpar & Hside & Hb & Ha).
      rewrite <-Hpar.
      eapply (rwp_insert_node_inv s hd t cs ctx); try done; [by auto|].
      intros s' Hinv'. eapply HQ; [|exact Hinv'|done].
      exists (ctx_before ctx), (ctx_after ctx). split; [|done].
      by rewrite Hb, Ha.
    - destruct (Hbr eq_refl) as (ctx & Hplug & Hpar & Hside & Hb & Ha).
      rewrite <-Hpar.
      eapply (rwp_insert_node_inv s hd t cs ctx); try done; [by auto|].
      intros s' Hinv'. eapply HQ; [|exact Hinv'|done].
      exists (ctx_before ctx), (ctx_after ctx). split; [|done].
      by rewrite Hb, Ha. }
  destruct (key_comp (get_key bv) (get_key v)) eqn:Hkb; simpl.
  - apply rwp_bind, rwp_lift. eapply wp_get_value; [exact Hna|done|].
    apply rwp_ret. apply Hrest. by intros ->.
  - apply rwp_ret. by apply Hrest.
Qed.

Lemma rwpe_emplace_unique_use_hint s hd cs B A v :
  tree_inv s hd cs → cs = B ++ A →
  rwpe (emplace_unique_use_hint get_key key_comp size_bits alloc_fails ctor_throws
          (first_pos hd A) v) s
    (λ res s',
       insert_succeeds s v cs
       ∧ ((∃ nd cs', res = Some nd ∧ mem s !! nd = None
             ∧ hint_post v cs nd cs' ∧ tree_inv s' hd cs'
             ∧ Forall (λ e, equiv_key (key_of e) (get_key v) = false) cs)
          ∨ (s' = s ∧ Exists (λ e, equiv_key (key_of e) (get_key v) = true) cs)))
    (λ e s', s' = s ∧ insert_fails s v cs e).
Proof.
  intros [t Hinv] Hcs. destruct s as [o h].
  pose proof Hinv as (Hthis & Htr & Hcells & Hrb & Hsort & Hlen).
  simpl in Hthis. subst o.
  unfold emplace_unique_use_hint. ewp_steps.
  eapply (rwpe_check_capacity _ (Z.of_nat (length cs))); [done|lia| |done].
  intros Hcap. ewp_steps.
  apply rwpe_create_node; [done|done|].
  intros Hal Hct nd Hnd. ewp_steps.
  apply rwp_rwpe.
  match goal with |- rwp _ _ ?Q0 => set (Q := Q0) end.
  assert (∀ s' cs', hint_post v cs nd cs' → tree_inv s' hd cs' →
            Forall (λ e, equiv_key (key_of e) (get_key v) = false) cs →
            Q (Some nd) s') as HQ.
  { intros s' cs' Hpost Hinv' Hne. split; [done|]. left. exists nd, cs'.
    by split_and!. }
  assert (∀ p, Exists (λ e, equiv_key (key_of e) (get_key v) = true) cs →
            Q p (State (RbTree (Some hd) (Z.of_nat (length cs))) h)) as HD.
  { intros p Hex. split; [done|]. by right. }
  clearbody Q.
  pose proof (tree_at_fresh _ _ _ _ nd
                (Node None None None rb_tree_black (Some v)) Hinv Hnd) as Hinv1.
  pose proof Hinv1 as (_ & (Hhd1 & _) & _). simpl in Hhd1.
  pose proof (rwp_insert_unique_created _ hd t cs nd v Q Hinv Hnd Hcap) as Hfall.
  simpl in Hfall, Hnd, Hal.
  specialize (Hfall ltac:(eauto using insert_post_hint) HD).
  case_bool_decide as Hz.
  { assert (cs = []) as Hnil by (destruct cs; [done|simpl in Hz; lia]).
    rewrite Hnil in *. assert (t = Leaf) as -> by (by apply cells_nil).
    apply (rwp_insert_node_inv _ hd Leaf [] [] nd rb_tree_black v true Q Hinv);
      try done.
    - simpl. repeat constructor.
    - intros s' Hinv'. eapply HQ; [|exact Hinv'|done]. by exists [], []. }
  rwp_steps. apply wp_bind. eapply wp_get_value; [apply lookup_insert_eq|done|].
  wp_steps. rwp_steps. unfold begin, leftmost, end_. simpl. wp_steps.
  destruct A as [|[a hv] A].
  - (* the hint is [end()] *)
    rewrite first_pos_nil. rewrite app_nil_r in Hcs. subst B.
    destruct (last cs) as [[r rv]|] eqn:Hlast.
    2:{ apply last_None in Hlast. rewrite Hlast in Hz. exfalso. by apply Hz. }
    rewrite ptr_eqb_ne.
    2:{ intros Heq. symmetry in Heq. revert Heq.
        eapply (first_pos_ne_header _ _ _ _ cs []); [done|done|].
        intros ->. done. }
    rewrite ptr_eqb_refl. rwp_steps. unfold rightmost. simpl. wp_steps.
    unfold last_pos. rewrite Hlast. simpl.
    pose proof Hlast as Hlast'.
    apply last_Some in Hlast as [Bl Hcs].
    destruct (tree_at_holes _ _ _ _ _ _ _ _ Hinv1 Hcs)
      as (nr & Hnr & _ & Hhole & _ & Hright).
    destruct (tree_at_cell _ _ _ _ r rv Hinv1) as (nr' & Hnr' & Hvr).
    { rewrite Hcs. apply elem_of_app. right. by left. }
    rewrite Hnr in Hnr'. injection Hnr' as <-. simpl in Hnr.
    rwp_steps. eapply wp_get_value; [exact Hnr|done|].
    destruct (key_comp (get_key rv) (get_key v)) eqn:Hk; simpl; [|done].
    destruct (Hhole (Hright eq_refl)) as (ctx & Hplug & Hpar & Hside & Hb & Ha).
    rewrite <-Hpar.
    eapply (rwp_insert_node_inv _ hd t cs ctx _ _ _ _ _ Hinv);
        [done|done|done|by rewrite Hside| |].
    + rewrite Hb, Ha. apply sorted_insert_between; [by rewrite app_nil_r, <-Hcs| |done].
      intros e. rewrite last_snoc. intros [= <-]. by apply (swo_asym _ Hswo).
    + intros s' Hinv'. eapply HQ; [|exact Hinv'|].
      * exists (ctx_before ctx), (ctx_after ctx). split; [|done].
        by rewrite Hb, Ha, app_nil_r.
      * rewrite <-(app_nil_r cs). apply strict_between_no_equiv;
          [by rewrite app_nil_r| |done].
        intros e. rewrite Hlast'. by intros [= <-].
  - rewrite first_pos_cons.
    assert ((a, hv) ∈ cs) as Hin.
    { rewrite Hcs. apply elem_of_app. right. by left. }
    pose proof (tree_at_not_header _ _ _ _ _ _ Hinv Hin) as Hahd.
    destruct (tree_at_cell _ _ _ _ a hv Hinv1 Hin) as (na & Hna & Hva).
    simpl in Hna.
    destruct B as [|e0 B0] using rev_ind.
    + (* the hint is [begin()] *)
      simpl in Hcs. assert (first_pos hd cs = Some a) as -> by (by rewrite Hcs).
      rewrite ptr_eqb_refl.
      rwp_steps. eapply wp_get_value; [exact Hna|done|].
      destruct (key_comp (get_key v) (get_key hv)) eqn:Hk; simpl; [|done].
      destruct (tree_at_holes _ _ _ _ [] a hv A Hinv1 Hcs)
        as (na' & Hna' & Hhole & _ & Hleft & _).
      destruct (Hhole (Hleft eq_refl)) as (ctx & Hplug & Hpar & Hside & Hb & Ha).
      rewrite <-Hpar.
      eapply (rwp_insert_node_inv _ hd t cs ctx _ _ _ _ _ Hinv);
        [done|done|done|by rewrite Hside| |].
      * rewrite Hb, Ha. apply (sorted_insert_between []); [by rewrite <-Hcs|done|].
        intros e. simpl. intros [= <-]. by apply (swo_asym _ Hswo).
      * intros s' Hinv'. eapply HQ; [|exact Hinv'|].
        -- exists (ctx_before ctx), (ctx_after ctx). split; [|done].
           by rewrite Hb, Ha.
        -- rewrite Hcs. apply (strict_between_no_equiv []); [by rewrite <-Hcs|done|].
           intros e. simpl. by intros [= <-].
    + clear IHB0. destruct e0 as [b bv]. pose proof Hcs as Hcs2.
      rewrite <-(assoc (++)) in Hcs. simpl in Hcs.
      assert (first_pos hd cs ≠ Some a) as Hne.
      { pose proof (tree_at_nodup _ _ _ _ Hinv) as Hnd'.
        destruct (first_pos_in hd (B0 ++ [(b, bv)])) as (f & Hf & Hfin);
          [by destruct B0|].
        rewrite Hcs2, first_pos_app, Hf by (by destruct B0).
        intros [= ->]. rewrite Hcs2, fmap_app in Hnd'.
        apply NoDup_app in Hnd' as (_ & Hdisj & _).
        apply (Hdisj a Hfin). simpl. by left. }
      rewrite ptr_eqb_ne by (intros ?; by apply Hne).
      rewrite (ptr_eqb_some_ne a hd) by done.
      eapply (rwp_insert_unique_use_hint _ hd t cs B0 b bv a hv A _ _ _ Hinv); done.
Qed.

(** *** The emplacing insertions: the node is built before the descent *)

Lemma rwpe_emplace_multi s hd cs v :
  tree_inv s hd cs →
  rwpe (emplace_multi get_key key_comp size_bits alloc_fails ctor_throws v) s
    (λ res s', ∃ nd cs', res = Some nd ∧ mem s !! nd = None
               ∧ insert_post v cs nd cs' ∧ tree_inv s' hd cs'
               ∧ insert_succeeds s v cs)
    (λ e s', s' = s ∧ insert_fails s v cs e).
Proof.
  intros [t Hinv]. destruct s as [o h].
  pose proof Hinv as (Hthis & Htr & Hcells & Hrb & Hsort & Hlen).
  simpl in Hthis. subst o.
  unfold emplace_multi. ewp_steps.
  eapply (rwpe_check_capacity _ (Z.of_nat (length cs))); [done|lia| |done].
  intros Hcap. ewp_steps.
  apply rwpe_create_node; [done|done|].
  intros Hal Hct nd Hnd. ewp_steps.
  eapply wp_get_value; [apply lookup_insert_eq|done|].
  apply rwp_rwpe.
  apply (rwp_insert_multi_created _ hd t cs nd v _ Hinv Hnd Hcap).
  intros s' cs' Hpost Hinv'. exists nd, cs'. by split_and!.
Qed.

Lemma rwpe_emplace_unique s hd cs v :
  tree_inv s hd cs →
  rwpe (emplace_unique get_key key_comp size_bits alloc_fails ctor_throws v) s
    (λ res s',
       insert_succeeds s v cs
       ∧ ((res.2 = true
           ∧ ∃ nd cs', res.1 = Some nd ∧ mem s !! nd = None
               ∧ insert_post v cs nd cs' ∧ tree_inv s' hd cs'
               ∧ Forall (λ e, equiv_key (key_of e) (get_key v) = false) cs)
          ∨ (res.2 = false ∧ s' = s
             ∧ Exists (λ e, equiv_key (key_of e) (get_key v) = true) cs)))
    (λ e s', s' = s ∧ insert_fails s v cs e).
Proof.
  intros [t Hinv]. destruct s as [o h].
  pose proof Hinv as (Hthis & Htr & Hcells & Hrb & Hsort & Hlen).
  simpl in Hthis. subst o.
  unfold emplace_unique. ewp_steps.
  eapply (rwpe_check_capacity _ (Z.of_nat (length cs))); [done|lia| |done].
  intros Hcap. ewp_steps.
  apply rwpe_create_node; [done|done|].
  intros Hal Hct nd Hnd. ewp_steps.
  eapply wp_get_value; [apply lookup_insert_eq|done|].
  pose proof (tree_at_fresh _ _ _ _ nd
                (Node None None None rb_tree_black (Some v)) Hinv Hnd) as Hinv1.
  apply rwp_rwpe. rwp_steps.
  apply (wp_insert_unique_pos _ hd t cs (get_key v) _ Hinv1).
  intros ctx Hctx Hplug Hb Ha. simpl.
  assert (cs = ctx_before ctx ++ ctx_after ctx) as Hcs.
  { by rewrite <-Hcells, <-Hplug, cells_plug_leaf. }
  destruct (no_equiv_before (get_key v) ctx) eqn:Hno; simpl.
  - pose proof (no_equiv_before_true _ _ ltac:(by rewrite <-Hcs) Hb Ha Hno) as Hne.
    rewrite <-Hcs in Hne. rwp_steps.
    eapply (rwp_insert_node_inv _ hd t cs ctx _ _ _ _ _ Hinv); try done.
    + apply sorted_insert; [done|by rewrite <-Hcs|done|done].
    + intros s' Hinv'. rwp_steps. split; [done|]. left. split; [done|].
      exists nd, (ctx_before ctx ++ (nd, v) :: ctx_after ctx).
      split_and!; try done. by exists (ctx_before ctx), (ctx_after ctx).
  - unfold destroy_node. rwp_steps.
    eapply rwp_deallocate; [apply lookup_insert_eq|]. simpl. rwp_steps.
    rewrite delete_insert_id by done. split; [done|]. right.
    split_and!; [done|done|]. rewrite Hcs. by apply no_equiv_before_false.
Qed.

(** *** Positions by rank *)

Lemma wp_advance n s hd t cs B A Q :
  tree_at s hd t cs → cs = B ++ A →
  Q (first_pos hd (drop n A)) (mem s) →
  wp (advance n (first_pos hd A) (Some hd)) (mem s) Q.
Proof.
  intros Hinv. revert B A.
  induction n as [|n IH]; intros B A Hcs HQ; cbn [advance].
  { rewrite drop_0 in HQ. by wp_steps. }
  destruct A as [|[a v] A].
  { rewrite first_pos_nil, ptr_eqb_refl. by wp_steps. }
  rewrite first_pos_cons.
  assert ((a, v) ∈ cs) as Hin.
  { rewrite Hcs. apply elem_of_app. right. by left. }
  pose proof (tree_at_not_header _ _ _ _ _ _ Hinv Hin) as Hahd.
  rewrite (ptr_eqb_some_ne a hd) by done. apply wp_bind.
  eapply wp_inc_cell; [done|done|].
  eapply (IH (B ++ [(a, v)]) A); [by rewrite <-(assoc (++))|done].
Qed.

Lemma wp_position s hd t cs i Q :
  tree_at s hd t cs →
  Q (first_pos hd (drop i cs)) (mem s) →
  wp (position (this s) i) (mem s) Q.
Proof.
  intros Hinv HQ. pose proof Hinv as (Hthis & Htr & _).
  pose proof Htr as (Hhd & _).
  unfold position, begin, leftmost, end_. rewrite Hthis. simpl. wp_steps.
  by eapply (wp_advance _ s hd t cs []).
Qed.

(** *** Erasure by key *)

Lemma rwp_erase_unique s hd cs key Q :
  tree_inv s hd cs →
  (Forall (λ e, equiv_pred key e.2 = false) cs → Q 0%Z s) →
  (∀ B a v A s', cs = B ++ (a, v) :: A →
     Forall (λ e, equiv_pred key e.2 = false) B → equiv_pred key v = true →
     tree_inv s' hd (B ++ A) → Q 1%Z s') →
  rwp (erase_unique get_key key_comp size_bits key) s Q.
Proof.
  intros [t Hinv] H0 H1. destruct s as [o h].
  pose proof Hinv as (Hthis & _). simpl in Hthis. subst o.
  unfold erase_unique. rwp_steps.
  apply (wp_find (State _ h) hd t cs key _ Hinv). unfold end_. simpl.
  destruct (find_pos_split (equiv_pred key) cs hd)
    as [[Hall Hf]|(B & a & v & A & Hcs & HB & Hv & Hf)]; rewrite Hf.
  - rewrite ptr_eqb_refl. simpl. rwp_steps. by apply H0.
  - assert (a ≠ hd) as Hahd.
    { eapply (tree_at_not_header _ _ _ _ _ v); [done|]. rewrite Hcs.
      apply elem_of_app. right. by left. }
    rewrite (ptr_eqb_some_ne a hd) by done. simpl. rwp_steps.
    eapply (rwp_erase _ hd cs B a v A); [by exists t|done|].
    intros s' Hinv' _. rwp_steps. by eapply H1.
Qed.

(** The cells before those with the key, those with the key, and the
    cells after them. *)
Lemma equal_range_split (hd : addr) cs key :
  sorted cs →
  ∃ B M A, cs = B ++ M ++ A
    ∧ Forall (λ e, key_comp (key_of e) key = true) B
    ∧ Forall (λ e, equiv_key (key_of e) key = true) M
    ∧ Forall (λ e, key_comp key (key_of e) = true) A
    ∧ Some (find_pos (lower_pred key) cs hd) = first_pos hd (M ++ A)
    ∧ Some (find_pos (upper_pred key) cs hd) = first_pos hd A.
Proof.
  induction cs as [|[a v] cs IH]; intros Hs.
  { exists [], [], []. by split_and!. }
  apply sorted_cons in Hs as [Hle Hs].
  destruct (IH Hs) as (B & M & A & Hcs & HB & HM & HA & Hlo & Hup).
  rewrite Forall_forall in Hle. unfold le_cell, key_of in Hle. simpl in Hle.
  destruct (key_comp (get_key v) key) eqn:Hvk.
  - exists ((a, v) :: B), M, A. simpl. unfold lower_pred at 1, upper_pred at 1.
    rewrite Hvk, (swo_asym _ Hswo _ _ Hvk). simpl.
    split_and!; try done; [by rewrite Hcs|by constructor].
  - assert (B = []) as ->.
    { destruct B as [|e B]; [done|]. apply Forall_cons in HB as [He _].
      rewrite (swo_le_lt _ Hswo (get_key v) (key_of e) key) in Hvk; [done| |done].
      apply Hle. rewrite Hcs. by left. }
    simpl in Hcs.
    destruct (key_comp key (get_key v)) eqn:Hkv.
    + assert (M = []) as ->.
      { destruct M as [|e M]; [done|]. apply Forall_cons in HM as [He _].
        unfold equiv_key in He. apply andb_true_iff in He as [_ He].
        apply negb_true_iff in He.
        rewrite (swo_lt_le _ Hswo key (get_key v) (key_of e)) in He; [done|done|].
        apply Hle. rewrite Hcs. by left. }
      simpl in Hcs. exists [], [], ((a, v) :: A). simpl.
      unfold lower_pred at 1, upper_pred at 1. rewrite Hvk, Hkv. simpl.
      split_and!; try done; [by rewrite Hcs|by constructor].
    + exists [], ((a, v) :: M), A. simpl.
      unfold lower_pred at 1, upper_pred at 1. rewrite Hvk, Hkv. simpl.
      split_and!; try done;
        first [ by rewrite Hcs
              | by rewrite Hup
              | constructor; [|done]; unfold equiv_key, key_of; simpl;
                by rewrite Hvk, Hkv ].
Qed.

Lemma first_pos_ne s hd t cs B a v A :
  tree_at s hd t cs → cs = B ++ (a, v) :: A → first_pos hd A ≠ Some a.
Proof.
  intros Hinv Hcs. pose proof (tree_at_nodup _ _ _ _ Hinv) as Hnd.
  assert (a ≠ hd) as Hahd.
  { eapply (tree_at_not_header _ _ _ _ _ v); [done|]. rewrite Hcs.
    apply elem_of_app. right. by left. }
  destruct A as [|[b w] A]; [rewrite first_pos_nil; congruence|].
  rewrite first_pos_cons. intros [= ->].
  rewrite Hcs, fmap_app in Hnd. apply NoDup_app in Hnd as (_ & _ & Hnd).
  simpl in Hnd. apply NoDup_cons in Hnd as [Hn _]. apply Hn. by left.
Qed.

Lemma first_pos_ne_app s hd t cs B a v M A :
  tree_at s hd t cs → cs = B ++ (a, v) :: M ++ A → first_pos hd A ≠ Some a.
Proof.
  intros Hinv Hcs. pose proof (tree_at_nodup _ _ _ _ Hinv) as Hnd.
  assert (a ≠ hd) as Hahd.
  { eapply (tree_at_not_header _ _ _ _ _ v); [done|]. rewrite Hcs.
    apply elem_of_app. right. by left. }
  destruct A as [|[b w] A]; [rewrite first_pos_nil; congruence|].
  rewrite first_pos_cons. intros [= ->].
  rewrite Hcs, fmap_app in Hnd. apply NoDup_app in Hnd as (_ & _ & Hnd).
  simpl in Hnd. apply NoDup_cons in Hnd as [Hn _]. apply Hn.
  rewrite fmap_app. apply elem_of_app. right. by left.
Qed.

Lemma wp_distance fuel s hd t cs B M A Q :
  tree_at s hd t cs → cs = B ++ M ++ A → length M < fuel →
  Q (Z.of_nat (length M)) (mem s) →
  wp (distance fuel (first_pos hd (M ++ A)) (first_pos hd A)) (mem s) Q.
Proof.
  intros Hinv. revert B M Q.
  induction fuel as [|fuel IH]; intros B M Q Hcs Hfuel HQ; [lia|].
  cbn [distance]. destruct M as [|[m v] M].
  { simpl. rewrite ptr_eqb_refl. by wp_steps. }
  simpl. rewrite first_pos_cons.
  rewrite ptr_eqb_ne.
  2:{ intros Heq. symmetry in Heq. revert Heq.
      by eapply (first_pos_ne_app _ _ _ _ B m v M A). }
  apply wp_bind. eapply (wp_inc_cell _ _ _ _ B m v (M ++ A)); [done|done|].
  apply wp_bind.
  eapply (IH (B ++ [(m, v)]) M); [by rewrite <-(assoc (++))|simpl in Hfuel; lia|].
  wp_steps. simpl in HQ. by replace (Z.of_nat (length M) + 1)%Z
    with (Z.of_nat (S (length M))) by lia.
Qed.

Lemma rwp_erase_range_loop fuel s hd cs B M A Q :
  tree_inv s hd cs → cs = B ++ M ++ A → length M < fuel →
  (∀ s', tree_inv s' hd (B ++ A) → Q tt s') →
  rwp (erase_range_loop size_bits fuel (first_pos hd (M ++ A)) (first_pos hd A))
    s Q.
Proof.
  revert s cs M Q.
  induction fuel as [|fuel IH]; intros s cs M Q Hinv Hcs Hfuel HQ; [lia|].
  cbn [erase_range_loop]. destruct M as [|[m v] M].
  { simpl. rewrite ptr_eqb_refl. simpl. rwp_steps. apply HQ. by rewrite Hcs in Hinv. }
  simpl. rewrite first_pos_cons. destruct Hinv as [t Hinv].
  rewrite ptr_eqb_ne.
  2:{ intros Heq. symmetry in Heq. revert Heq.
      by eapply (first_pos_ne_app _ _ _ _ B m v M A). }
  simpl. rwp_steps.
  eapply (wp_inc_cell _ _ _ _ B m v (M ++ A)); [done|done|]. rewrite state_eta.
  apply rwp_bind.
  eapply (rwp_erase s hd cs B m v (M ++ A)); [by exists t|done|].
  intros s' Hinv' _.
  eapply (IH s' _ M); [done|done|simpl in Hfuel; lia|done].
Qed.

(** *** Clearing *)

Lemma lookup_free_all S h a : a ∉ S → free_all S h !! a = h !! a.
Proof.
  induction S as [|b S IH]; simpl; [done|].
  intros [? ?]%not_elem_of_cons. rewrite lookup_delete_ne by done. auto.
Qed.

Lemma rep_free_all S h par t :
  (∀ a, a ∈ addrs t → a ∉ S) → rep h par t → rep (free_all S h) par t.
Proof.
  intros Hn. apply (rep_same_outside h _ S); [|done].
  intros a Ha. by apply lookup_free_all.
Qed.

Lemma rwp_erase_since fuel t s par Q :
  rep (mem s) par t → NoDup (addrs t) → height t < fuel →
  Q tt (State (this s) (free_all (addrs t) (mem s))) →
  rwp (erase_since fuel (top t)) s Q.
Proof.
  revert t s par Q.
  induction fuel as [|fuel IH]; intros t s par Q Hrep Hnd Hf HQ; [lia|].
  destruct s as [o h]. cbn [erase_since]. destruct t as [|a c l v r]; simpl in *.
  { by rwp_steps. }
  destruct Hrep as (Ha & Hl & Hr).
  apply NoDup_app in Hnd as (Hndl & Hlr & Hndr).
  apply NoDup_cons in Hndr as [Har Hndr].
  assert (a ∉ addrs l) as Hal.
  { intros Hin. apply (Hlr a Hin). by left. }
  rwp_steps. eapply wp_get_right; [exact Ha|]. simpl.
  apply rwp_bind. eapply (IH r (State o h) (Some a)); [done|done|lia|]. simpl.
  assert (free_all (addrs r) h !! a
          = Some (Node par (top l) (top r) c (Some v))) as Ha'.
  { by rewrite lookup_free_all. }
  rwp_steps. eapply wp_get_left; [exact Ha'|]. simpl.
  unfold destroy_node. apply rwp_bind.
  eapply rwp_deallocate; [exact Ha'|]. simpl.
  eapply (IH l (State o _) (Some a)); simpl; [|done|lia|].
  - apply rep_delete; [done|]. apply rep_free_all; [|done].
    intros b Hb Hbr. apply (Hlr b Hb). by right.
  - unfold free_all in *. by rewrite foldr_app in HQ.
Qed.

Lemma rwp_clear s hd cs Q :
  tree_inv s hd cs → (∀ s', tree_inv s' hd [] → Q tt s') → rwp clear s Q.
Proof.
  intros [t Hinv] HQ. destruct s as [o h].
  pose proof Hinv as (Hthis & Htr & Hcells & Hrb & Hsort & Hlen).
  simpl in Hthis, Htr. subst o.
  pose proof Htr as (Hhd & Hrep & Hnd).
  unfold clear. rwp_steps. case_bool_decide as Hz; simpl.
  { rwp_steps. apply HQ. exists t.
    assert (cs = []) as -> by (destruct cs; [done|simpl in Hz; lia]). done. }
  unfold root, leftmost, rightmost. simpl. rwp_steps. wp_steps. rwp_steps.
  apply NoDup_cons in Hnd as [Hhdn Hnd].
  eapply (rwp_erase_since _ t (State _ h) (Some hd)); simpl;
    [done|done|by eapply tree_rep_fuel|].
  assert (free_all (addrs t) h !! hd
          = Some (Node (top t) (first_pos hd cs) (last_pos hd cs) rb_tree_red None))
    as Hhd'.
  { by rewrite lookup_free_all. }
  repeat first [rwp_step | wp_step | eapply wp_update; [lookup_tac|simpl]].
  apply HQ. exists Leaf. unfold tree_at. simpl.
  split_and!; try done.
  - unfold tree_rep. simpl. rewrite !insert_insert_eq, lookup_insert_eq.
    split_and!; [done|done|]. apply NoDup_singleton.
  - split; [done|]. by exists 0%nat.
  - constructor.
  - pose proof pow_bits. lia.
Qed.

Lemma rwp_erase_range s hd cs B M A Q :
  tree_inv s hd cs → cs = B ++ M ++ A →
  (∀ s', tree_inv s' hd (B ++ A) → Q tt s') →
  rwp (erase_range size_bits (first_pos hd (M ++ A)) (first_pos hd A)) s Q.
Proof.
  intros [t Hinv] Hcs HQ. destruct s as [o h].
  pose proof Hinv as (Hthis & Htr & Hcells & Hrb & Hsort & Hlen).
  simpl in Hthis, Htr. subst o.
  pose proof Htr as (Hhd & Hrep & Hnd).
  unfold erase_range, begin, leftmost, end_. rwp_steps. wp_steps.
  destruct (ptr_eqb (first_pos hd (M ++ A)) (first_pos hd cs)
            && ptr_eqb (first_pos hd A) (Some hd)) eqn:Hc.
  - apply andb_true_iff in Hc as [Hf Hl].
    apply bool_decide_eq_true in Hf, Hl.
    assert (A = []) as ->.
    { destruct A as [|e A]; [done|]. exfalso.
      eapply (first_pos_ne_header _ _ _ _ (e :: A) (B ++ M) Hinv);
        [by rewrite <-(assoc (++))|done|exact Hl]. }
    rewrite app_nil_r in *.
    assert (B = []) as ->.
    { destruct B as [|[b w] B]; [done|]. exfalso.
      rewrite Hcs in Hf. simpl in Hf. rewrite first_pos_cons in Hf.
      eapply (first_pos_ne_app _ hd _ _ [] b w B M Hinv); [by rewrite Hcs|exact Hf]. }
    eapply rwp_clear; [by exists t|done].
  - rwp_steps.
    eapply (rwp_erase_range_loop _ _ hd cs B M A); [by exists t|done| |done].
    pose proof (tree_at_fuel _ _ _ _ Hinv) as Hfuel. simpl in Hfuel.
    rewrite Hcs, !length_app in Hfuel. lia.
Qed.

Lemma rwp_erase_multi s hd cs key Q :
  tree_inv s hd cs →
  (∀ B M A s', cs = B ++ M ++ A →
     Forall (λ e, key_comp (key_of e) key = true) B →
     Forall (λ e, equiv_key (key_of e) key = true) M →
     Forall (λ e, key_comp key (key_of e) = true) A →
     tree_inv s' hd (B ++ A) → Q (Z.of_nat (length M)) s') →
  rwp (erase_multi get_key key_comp size_bits key) s Q.
Proof.
  intros [t Hinv] HQ. destruct s as [o h].
  pose proof Hinv as (Hthis & Htr & Hcells & Hrb & Hsort & Hlen).
  simpl in Hthis. subst o.
  destruct (equal_range_split hd cs key Hsort)
    as (B & M & A & Hcs & HB & HM & HA & Hlo & Hup).
  unfold erase_multi, equal_range_multi. rwp_steps. apply wp_bind.
  apply (wp_lower_bound (State _ h) hd t cs key _ Hinv). simpl. apply wp_bind.
  apply (wp_upper_bound (State _ h) hd t cs key _ Hinv). simpl. wp_steps.
  rewrite Hlo, Hup. rwp_steps.
  pose proof (tree_at_fuel _ _ _ _ Hinv) as Hfuel. simpl in Hfuel.
  apply (wp_distance _ (State _ h) hd t cs B M A _ Hinv Hcs).
  { rewrite Hcs, !length_app in Hfuel. lia. }
  simpl. apply rwp_bind.
  eapply (rwp_erase_range _ hd cs B M A); [by exists t|done|].
  intros s' Hinv'. rwp_steps.
  assert (Z.of_nat (length M) < 2 ^ size_bits)%Z as HlM.
  { rewrite Hcs, !length_app in Hlen. lia. }
  rewrite Z.mod_small by lia. by eapply HQ.
Qed.

(** *** The calls of a caller *)

Local Abbreviation reachable :=
  (reachable get_key key_comp size_bits alloc_fails ctor_throws).
Local Abbreviation run_op := (run_op get_key key_comp size_bits alloc_fails ctor_throws).
Local Abbreviation run_ops :=
  (run_ops get_key key_comp size_bits alloc_fails ctor_throws).

Lemma rwp_try_catch_all {A} (m : R A) s Q E (P : unit → state T → Prop) :
  rwpe m s Q E → (∀ a s', Q a s' → P tt s') → (∀ e s', E e s' → P tt s') →
  rwp (try_catch_all m) s P.
Proof.
  unfold rwpe, rwp, try_catch_all. intros Hm HQ HE.
  destruct (m s) as [a s'|e s'|]; [| |done]; eauto.
Qed.

Lemma rwp_run_op o s hd cs Q :
  tree_inv s hd cs → (∀ s' cs', tree_inv s' hd cs' → Q tt s') →
  rwp (run_op o) s Q.
Proof.
  intros Hinv HQ. pose proof Hinv as [t Ht]. destruct s as [o' h].
  pose proof Ht as (Hthis & _). simpl in Hthis. subst o'.
  destruct o as [v|v|v|v|i v|i v|i|i n|k|k|]; unfold run_op; cbv beta match.
  - eapply rwp_try_catch_all; [by apply rwpe_insert_multi| |].
    + intros a s' (nd & cs' & _ & _ & _ & Hinv' & _). eauto.
    + intros e s' [-> _]. eauto.
  - eapply rwp_try_catch_all; [by apply rwpe_insert_unique| |].
    + intros a s' [(_ & nd & cs' & _ & _ & _ & Hinv' & _)|(_ & -> & _)]; eauto.
    + intros e s' [-> _]. eauto.
  - eapply rwp_try_catch_all; [by apply rwpe_emplace_multi| |].
    + intros a s' (nd & cs' & _ & _ & _ & Hinv' & _). eauto.
    + intros e s' [-> _]. eauto.
  - eapply rwp_try_catch_all; [by apply rwpe_emplace_unique| |].
    + intros a s' [_ [(_ & nd & cs' & _ & _ & _ & Hinv' & _)|(_ & -> & _)]]; eauto.
    + intros e s' [-> _]. eauto.
  - rwp_steps. apply (wp_position (State _ h) hd t cs i _ Ht). simpl.
    unfold insert_multi_hint.
    eapply rwp_try_catch_all;
      [apply (rwpe_emplace_multi_use_hint _ hd cs (take i cs) (drop i cs) v);
         [done|by rewrite take_drop]| |].
    + intros a s' (nd & cs' & _ & _ & _ & Hinv' & _). eauto.
    + intros e s' [-> _]. eauto.
  - rwp_steps. apply (wp_position (State _ h) hd t cs i _ Ht). simpl.
    unfold insert_unique_hint.
    eapply rwp_try_catch_all;
      [apply (rwpe_emplace_unique_use_hint _ hd cs (take i cs) (drop i cs) v);
         [done|by rewrite take_drop]| |].
    + intros a s' [_ [(nd & cs' & _ & _ & _ & Hinv' & _)|(-> & _)]]; eauto.
    + intros e s' [-> _]. eauto.
  - rwp_steps. apply (wp_position (State _ h) hd t cs i _ Ht). simpl.
    unfold end_. simpl.
    destruct (drop i cs) as [|[a v] A] eqn:Hdrop.
    + rewrite first_pos_nil, ptr_eqb_refl. rwp_steps. eauto.
    + rewrite first_pos_cons.
      assert (cs = take i cs ++ (a, v) :: A) as Hcs.
      { by rewrite <-Hdrop, take_drop. }
      assert (a ≠ hd) as Hahd.
      { eapply (tree_at_not_header _ _ _ _ _ v); [done|]. rewrite Hcs.
        apply elem_of_app. right. by left. }
      rewrite (ptr_eqb_some_ne a hd) by done. rwp_steps.
      eapply (rwp_erase _ hd cs (take i cs) a v A); [done|done|].
      intros s' Hinv' _. rwp_steps. eauto.
  - rwp_steps. apply (wp_position (State _ h) hd t cs i _ Ht). simpl.
    rwp_steps. unfold end_. simpl.
    apply (wp_advance n (State _ h) hd t cs (take i cs) (drop i cs) _ Ht).
    { by rewrite take_drop. }
    simpl. rewrite <-(take_drop n (drop i cs)) at 1.
    eapply (rwp_erase_range _ hd cs (take i cs)); [done| |by eauto].
    by rewrite !take_drop.
  - rwp_steps. eapply rwp_erase_multi; [done|].
    intros B M A s' _ _ _ _ Hinv'. rwp_steps. eauto.
  - rwp_steps. eapply rwp_erase_unique; [done| |].
    + intros _. rwp_steps. eauto.
    + intros B a v A s' _ _ _ Hinv'. rwp_steps. eauto.
  - eapply rwp_clear; [done|]. eauto.
Qed.

Lemma rwp_run_ops ops s hd cs Q :
  tree_inv s hd cs → (∀ s' cs', tree_inv s' hd cs' → Q tt s') →
  rwp (run_ops ops) s Q.
Proof.
  revert s cs. induction ops as [|o ops IH]; intros s cs Hinv HQ;
    [by apply rwp_ret; eauto|].
  change (rwp (let+ _ := run_op o in run_ops ops) s Q). rwp_steps.
  eapply rwp_run_op; [done|]. intros s' cs' Hinv'. by eapply IH.
Qed.

(** A constructed container runs every sequence of calls to the end. *)
Lemma run_ops_total s0 s1 ops :
  rb_tree_init alloc_fails s0 = Ok tt s1 →
  ∃ s hd cs, run_ops ops s1 = Ok tt s ∧ tree_inv s hd cs.
Proof.
  intros Hinit.
  pose proof (rwpe_inv_ok _ _ _ _ _ _ (rwpe_rb_tree_init s0) Hinit)
    as (hd & _ & Hinv & _).
  destruct (rwp_run_ops ops s1 hd [] (λ _ s', ∃ cs', tree_inv s' hd cs') Hinv)
    as ([] & s & Hrun & cs & Hinv'); [by eauto|].
  by exists s, hd, cs.
Qed.

Lemma reachable_inv s : reachable s → ∃ hd cs, tree_inv s hd cs.
Proof.
  intros (s0 & s1 & ops & Hinit & Hrun).
  destruct (run_ops_total s0 s1 ops Hinit) as (s' & hd & cs & Hrun' & Hinv).
  rewrite Hrun in Hrun'. injection Hrun' as <-. eauto.
Qed.

(** The walk of a caller over a container. *)
Lemma walk_inv s hd cs :
  tree_inv s hd cs → walk (this s) (mem s) = Some (positions cs, mem s).
Proof.
  intros Hinv.
  destruct (wp_walk s hd cs (λ w h', w = positions cs ∧ h' = mem s) Hinv)
    as (w & h' & Hw & -> & ->); done.
Qed.

Lemma contents_inv s hd cs : tree_inv s hd cs → contents s = Some cs.*2.
Proof.
  intros Hinv. unfold contents. rewrite (walk_inv s hd cs Hinv).
  f_equal. unfold positions. rewrite <-list_fmap_compose. done.
Qed.

(** *** What holds of every container *)

Lemma tree_inv_holds s hd cs :
  tree_inv s hd cs →
  ∃ t, holds_tree s t ∧ is_rb_tree t ∧ cells t = cs
       ∧ this s = RbTree (Some hd) (Z.of_nat (length cs)).
Proof.
  intros (t & Hthis & Htr & Hcells & Hrb & _). exists t.
  split_and!; [|done|done|done]. exists hd. rewrite Hthis, Hcells. done.
Qed.

Lemma rwpe_cases {A} (m : R A) s Q E :
  rwpe m s Q E →
  (∃ a s', m s = Ok a s' ∧ Q a s') ∨ (∃ e s', m s = Throw e s' ∧ E e s').
Proof. unfold rwpe. destruct (m s) as [a s'|e s'|]; [| |done]; eauto. Qed.

Lemma sorted_lookup_lt cs i j x y :
  sorted cs → i < j → cs !! i = Some x → cs !! j = Some y →
  key_comp (key_of y) (key_of x) = false.
Proof.
  intros Hs. revert i j.
  induction Hs as [|z cs Hs IH Hall]; intros i j Hij Hi Hj; [done|].
  destruct j as [|j]; [lia|]. simpl in Hj. destruct i as [|i]; simpl in Hi.
  - injection Hi as ->. rewrite Forall_forall in Hall.
    apply Hall. by eapply list_elem_of_lookup_2.
  - apply (IH i j); [lia|done|done].
Qed.

Lemma sorted_lookup_le cs i j x y :
  sorted cs → i ≤ j → cs !! i = Some x → cs !! j = Some y →
  key_comp (key_of y) (key_of x) = false.
Proof.
  intros Hs Hij Hi Hj. destruct (decide (i = j)) as [->|Hne].
  - rewrite Hi in Hj. injection Hj as ->. apply (swo_irrefl _ Hswo).
  - eapply (sorted_lookup_lt cs i j); [done|lia|done|done].
Qed.

Lemma contents_lookup cs i (x : T) :
  cs.*2 !! i = Some x → ∃ e, cs !! i = Some e ∧ e.2 = x.
Proof.
  rewrite list_lookup_fmap. destruct (cs !! i) as [e|]; [|done].
  intros [= <-]. eauto.
Qed.

Lemma walk_in_order_inv s hd cs :
  tree_inv s hd cs →
  ∃ xs : list T, contents s = Some xs
    ∧ (∀ i j x y, i < j → xs !! i = Some x → xs !! j = Some y →
         key_comp (get_key y) (get_key x) = false)
    ∧ (∀ i j k x y z, i ≤ j → j ≤ k →
         xs !! i = Some x → xs !! j = Some y → xs !! k = Some z →
         equiv_key (get_key x) (get_key z) = true →
         equiv_key (get_key x) (get_key y) = true
         ∧ equiv_key (get_key y) (get_key z) = true).
Proof.
  intros Hinv. exists cs.*2. split; [by eapply contents_inv|].
  destruct Hinv as (t & _ & _ & _ & _ & Hsort & _). split.
  - intros i j x y Hij (ex & Hi & <-)%contents_lookup (ey & Hj & <-)%contents_lookup.
    by eapply (sorted_lookup_lt cs i j).
  - intros i j k x y z Hij Hjk (ex & Hi & <-)%contents_lookup
      (ey & Hj & <-)%contents_lookup (ez & Hk & <-)%contents_lookup Heq.
    pose proof (sorted_lookup_le cs i j _ _ Hsort Hij Hi Hj) as Hxy.
    pose proof (sorted_lookup_le cs j k _ _ Hsort Hjk Hj Hk) as Hyz.
    unfold equiv_key, key_of in *.
    apply andb_true_iff in Heq as [Hxz Hzx].
    apply negb_true_iff in Hxz, Hzx.
    rewrite Hxy, Hyz. simpl.
    destruct (key_comp (get_key ex.2) (get_key ey.2)) eqn:E1.
    { rewrite (swo_lt_le _ Hswo _ _ _ E1 Hyz) in Hxz. done. }
    destruct (key_comp (get_key ey.2) (get_key ez.2)) eqn:E2; [|done].
    rewrite (swo_le_lt _ Hswo _ _ _ Hxy E2) in Hxz. done.
Qed.

Lemma header_root_inv s hd cs :
  tree_inv s hd cs →
  header_color s rb_tree_red
  ∧ (node_count_ (this s) ≠ 0%Z → root_color s rb_tree_black).
Proof.
  intros (t & Hthis & (Hhd & Hrep & _) & Hcells & [Hroot _] & _). split.
  - exists hd, (Node (top t) (first_pos hd cs) (last_pos hd cs) rb_tree_red None).
    by rewrite Hthis.
  - rewrite Hthis. simpl. intros Hn.
    destruct t as [|a c l v r].
    { simpl in Hcells. subst cs. done. }
    simpl in Hrep. destruct Hrep as (Ha & _).
    unfold root_black in Hroot. simpl in Hroot.
    eexists hd, _, a, _. rewrite Hthis. split_and!; [done|exact Hhd|done|exact Ha|].
    simpl. by apply color_is_red_false.
Qed.

Lemma find_inv s hd cs key :
  tree_inv s hd cs →
  ∃ w p,
    walk (this s) (mem s) = Some (w, mem s)
    ∧ find get_key key_comp (this s) key (mem s) = Some (p, mem s)
    ∧ (Exists (λ e, equiv_key (get_key e.2) key = true) w →
       ∃ v, (p, v) ∈ w ∧ equiv_key (get_key v) key = true)
    ∧ (Forall (λ e, equiv_key (get_key e.2) key = false) w → p = end_ (this s)).
Proof.
  intros Hinv. pose proof (walk_inv s hd cs Hinv) as Hwalk.
  destruct Hinv as [t Hinv]. pose proof Hinv as (Hthis & _).
  destruct (wp_find s hd t cs key
              (λ p h', p = Some (find_pos (equiv_pred key) cs hd) ∧ h' = mem s)
              Hinv) as (p & h' & Hfind & -> & ->); [done|].
  exists (positions cs), (Some (find_pos (equiv_pred key) cs hd)).
  split_and!; [done|done| |].
  - intros Hex.
    destruct (find_pos_split (equiv_pred key) cs hd)
      as [[Hall Hf]|(B & a & v & A & Hcs & HB & Hv & Hf)].
    + exfalso. apply Exists_exists in Hex as (e & He & Heq).
      apply list_elem_of_fmap in He as (e' & -> & He').
      rewrite Forall_forall in Hall. specialize (Hall e' He').
      unfold equiv_pred in Hall. simpl in Heq. congruence.
    + exists v. rewrite Hf. split; [|done].
      apply list_elem_of_fmap. exists (a, v). split; [done|].
      rewrite Hcs. apply elem_of_app. right. by left.
  - intros Hall. rewrite Hthis. unfold end_. simpl. f_equal.
    apply find_pos_none. apply Forall_forall. intros e He.
    rewrite Forall_forall in Hall.
    apply (Hall (Some e.1, e.2)). apply list_elem_of_fmap. by exists e.
Qed.

Lemma Forall_positions (P : T → Prop) cs :
  Forall (λ e, P e.2) cs → Forall (λ e : ptr * T, P e.2) (positions cs).
Proof. intros H. unfold positions. rewrite Forall_fmap. done. Qed.

Lemma positions_app cs1 cs2 : positions (cs1 ++ cs2) = positions cs1 ++ positions cs2.
Proof. unfold positions. by rewrite fmap_app. Qed.

(** What holds of a function that inserts as [insert_multi] does. *)
Lemma inserted_after_equal (ins : R ptr) s hd cs v :
  tree_inv s hd cs →
  rwpe ins s
    (λ res s', ∃ nd cs', res = Some nd ∧ insert_post v cs nd cs'
                 ∧ tree_inv s' hd cs')
    (λ e s', s' = s ∧ insert_fails s v cs e) →
  ∃ w, walk (this s) (mem s) = Some (w, mem s)
    ∧ match ins s with
      | Ok p s' =>
          ∃ B A, w = B ++ A
            ∧ walk (this s') (mem s') = Some (B ++ (p, v) :: A, mem s')
            ∧ Forall (λ e, key_comp (get_key v) (get_key e.2) = false) B
            ∧ Forall (λ e, key_comp (get_key v) (get_key e.2) = true) A
            ∧ (Exists (λ e, equiv_key (get_key e.2) (get_key v) = true) w →
               ∃ B' x, B = B' ++ [x]
                       ∧ equiv_key (get_key x.2) (get_key v) = true)
            ∧ size (this s') = (size (this s) + 1)%Z
      | Throw e s' =>
          s' = s
          ∧ match e with
            | length_error => size (this s) = max_size size_bits
            | bad_alloc => alloc_fails (mem s) = true
            | ctor_exception => ctor_throws v = true
            end
      | Fault => False
      end.
Proof.
  clear val_eq.
  intros Hinv Hins. exists (positions cs). split; [by eapply walk_inv|].
  pose proof Hinv as (t0 & Hthis & _ & _ & _ & Hsort & _).
  destruct (rwpe_cases _ _ _ _ Hins)
    as [(p & s' & -> & nd & cs' & -> & (B & A & Hcs & -> & HB & HA) & Hinv')
       |(e & s' & -> & -> & Hfail)].
  - exists (positions B), (positions A). split_and!.
    + by rewrite Hcs, positions_app.
    + rewrite (walk_inv _ _ _ Hinv'). by rewrite positions_app.
    + by apply (Forall_positions (λ x, key_comp (get_key v) (get_key x) = false)).
    + by apply (Forall_positions (λ x, key_comp (get_key v) (get_key x) = true)).
    + intros Hex. apply Exists_exists in Hex as (e & He & Heq).
      apply list_elem_of_fmap in He as (e' & -> & He'). simpl in Heq.
      rewrite Hcs in He'. apply elem_of_app in He' as [He'|He'].
      2:{ rewrite Forall_forall in HA. specialize (HA e' He').
          unfold equiv_key, key_of in *. rewrite HA in Heq.
          by rewrite andb_false_r in Heq. }
      destruct (last B) as [x|] eqn:Hlast.
      2:{ apply last_None in Hlast. subst B. by apply elem_of_nil in He'. }
      pose proof Hlast as [B' HB']%last_Some.
      exists (positions B'), (Some x.1, x.2). split.
      { rewrite HB', positions_app. done. }
      simpl. rewrite Hcs in Hsort. apply sorted_app in Hsort as (_ & HsB & _).
      pose proof (sorted_last_le B e' x HsB Hlast He') as Hle.
      rewrite Forall_forall in HB.
      pose proof (HB x (last_Some_elem_of _ _ Hlast)) as Hvx.
      unfold equiv_key, key_of in *. rewrite Hvx.
      apply andb_true_iff in Heq as [He1 He2]. apply negb_true_iff in He1, He2.
      destruct (key_comp (get_key x.2) (get_key v)) eqn:Hxv; [|done].
      by rewrite (swo_lt_le _ Hswo _ _ _ Hxv He1) in Hle.
    + destruct Hinv' as (t' & Hthis' & _). rewrite Hthis, Hthis'. unfold size.
      simpl. rewrite !length_app. simpl. rewrite Hcs, length_app. lia.
  - split; [done|]. rewrite Hthis. unfold size. simpl. rewrite max_size_eq.
    destruct e; simpl in Hfail; tauto.
Qed.

Lemma find_pos_first (P : T → bool) cs (hd : addr) :
  ∃ B A, positions cs = B ++ A ∧ Forall (λ e : ptr * T, P e.2 = false) B
    ∧ Some (find_pos P cs hd) = default (Some hd) (fst <$> head A)
    ∧ ∀ e, head A = Some e → P e.2 = true.
Proof.
  destruct (find_pos_split P cs hd)
    as [[Hall Hf]|(B & a & v & A & Hcs & HB & Hv & Hf)].
  - exists (positions cs), []. rewrite app_nil_r, Hf.
    split_and!; [done| |done|done].
    by apply (Forall_positions (λ x, P x = false)).
  - exists (positions B), (positions ((a, v) :: A)). rewrite Hf.
    split_and!; [by rewrite Hcs, positions_app| |done|].
    + by apply (Forall_positions (λ x, P x = false)).
    + simpl. by intros e [= <-].
Qed.

Lemma bounds_inv s hd cs key :
  tree_inv s hd cs →
  ∃ w lo hi,
    walk (this s) (mem s) = Some (w, mem s)
    ∧ lower_bound get_key key_comp (this s) key (mem s) = Some (lo, mem s)
    ∧ upper_bound get_key key_comp (this s) key (mem s) = Some (hi, mem s)
    ∧ (∃ B A, w = B ++ A
         ∧ Forall (λ e, key_comp (get_key e.2) key = true) B
         ∧ lo = default (end_ (this s)) (fst <$> head A)
         ∧ ∀ e, head A = Some e → key_comp (get_key e.2) key = false)
    ∧ (∃ B A, w = B ++ A
         ∧ Forall (λ e, key_comp key (get_key e.2) = false) B
         ∧ hi = default (end_ (this s)) (fst <$> head A)
         ∧ ∀ e, head A = Some e → key_comp key (get_key e.2) = true).
Proof.
  intros Hinv. pose proof (walk_inv s hd cs Hinv) as Hwalk.
  destruct Hinv as [t Hinv]. pose proof Hinv as (Hthis & _).
  destruct (wp_lower_bound s hd t cs key
              (λ p h', p = Some (find_pos (lower_pred key) cs hd) ∧ h' = mem s)
              Hinv) as (lo & h' & Hlo & -> & ->); [done|].
  destruct (wp_upper_bound s hd t cs key
              (λ p h', p = Some (find_pos (upper_pred key) cs hd) ∧ h' = mem s)
              Hinv) as (hi & h' & Hhi & -> & ->); [done|].
  eexists (positions cs), _, _. split_and!; [done|exact Hlo|exact Hhi| |].
  - destruct (find_pos_first (lower_pred key) cs hd) as (B & A & Hw & HB & Hf & HA).
    exists B, A. rewrite Hthis. unfold end_. simpl. split_and!; [done| |done|].
    + eapply Forall_impl; [exact HB|]. intros e He. simpl in He.
      by apply negb_false_iff in He.
    + intros e He. apply HA in He. by apply negb_true_iff in He.
  - destruct (find_pos_first (upper_pred key) cs hd) as (B & A & Hw & HB & Hf & HA).
    exists B, A. rewrite Hthis. unfold end_. simpl. by split_and!.
Qed.

(** *** Failing insertions *)



(** *** Hinted and plain insertion *)

Lemma equiv_key_refl (a : K) : equiv_key a a = true.
Proof. unfold equiv_key. by rewrite (swo_irrefl _ Hswo). Qed.

Lemma equiv_key_sym (a b : K) : equiv_key a b = true → equiv_key b a = true.
Proof. unfold equiv_key. by rewrite andb_comm. Qed.

Lemma equiv_key_trans (a b c : K) :
  equiv_key a b = true → equiv_key b c = true → equiv_key a c = true.
Proof.
  unfold equiv_key. rewrite !andb_true_iff, !negb_true_iff.
  intros [H1 H2] [H3 H4]. by destruct (swo_incomp _ Hswo a b c).
Qed.

Lemma Forall2_all_related {A} (R : A → A → Prop) (l1 l2 : list A) :
  length l1 = length l2 → (∀ a b, a ∈ l1 → b ∈ l2 → R a b) → Forall2 R l1 l2.
Proof.
  revert l2. induction l1 as [|a l1 IH]; intros [|b l2] Hlen HR; simpl in *;
    try done; try (by constructor).
  constructor.
  - apply HR; by left.
  - apply IH; [lia|]. intros a' b' Ha Hb. apply HR; by right.
Qed.

Lemma Forall2_equiv_refl (xs : list T) :
  Forall2 (λ x y, equiv_key (get_key x) (get_key y) = true) xs xs.
Proof.
  apply Forall_Forall2_diag, Forall_forall. intros x _. apply equiv_key_refl.
Qed.

(** Two places for a new cell in a sorted sequence, the second after all
    cells that may stand before it: the sequences agree up to equivalent
    keys, and are the same when no cell has an equivalent key. *)
Lemma insert_positions_equiv (n1 n2 : addr) (v : T) B1 A1 B2 A2 :
  sorted (B1 ++ (n1, v) :: A1) → B1 ++ A1 = B2 ++ A2 →
  Forall (λ e, key_comp (get_key v) (key_of e) = false) B2 →
  Forall (λ e, key_comp (get_key v) (key_of e) = true) A2 →
  Forall2 (λ x y, equiv_key (get_key x) (get_key y) = true)
    (B1 ++ (n1, v) :: A1).*2 (B2 ++ (n2, v) :: A2).*2
  ∧ (Forall (λ e, equiv_key (key_of e) (get_key v) = false) (B1 ++ A1) →
     (B1 ++ (n1, v) :: A1).*2 = (B2 ++ (n2, v) :: A2).*2).
Proof.
  intros Hs Heq HB2 HA2.
  apply sorted_app in Hs as (H12 & _ & Hs2). apply sorted_cons in Hs2 as [Hx _].
  rewrite Forall_forall in Hx, HB2, HA2.
  destruct (app_eq_inv B1 A1 B2 A2 Heq) as [(k & -> & ->)|(k & -> & ->)].
  - assert (k = []) as ->.
    { destruct k as [|e k]; [done|]. exfalso.
      assert (key_comp (get_key v) (key_of e) = true) as H1.
      { apply HA2. by left. }
      assert (key_comp (get_key v) (key_of e) = false) as H2.
      { apply (H12 e (n1, v)); [|by left]. apply elem_of_app. right. by left. }
      congruence. }
    rewrite app_nil_r. simpl. split; [|by rewrite !fmap_app].
    rewrite !fmap_app. simpl. apply Forall2_equiv_refl.
  - assert (∀ e, e ∈ k → equiv_key (key_of e) (get_key v) = true) as Hk.
    { intros e He.
      pose proof (HB2 e ltac:(apply elem_of_app; by right)) as H1.
      pose proof (Hx e ltac:(apply elem_of_app; by left)) as H2.
      unfold equiv_key, le_cell, key_of in *. simpl in H2. by rewrite H1, H2. }
    split.
    + assert ((B1 ++ (n1, v) :: k ++ A2).*2 = B1.*2 ++ (v :: k.*2) ++ A2.*2) as ->.
      { rewrite !fmap_app. simpl. by rewrite fmap_app. }
      assert (((B1 ++ k) ++ (n2, v) :: A2).*2 = B1.*2 ++ (k.*2 ++ [v]) ++ A2.*2)
        as ->.
      { rewrite !fmap_app. simpl. by rewrite <-!(assoc (++)). }
      apply Forall2_app; [apply Forall2_equiv_refl|].
      apply Forall2_app; [|apply Forall2_equiv_refl].
      apply Forall2_all_related.
      { rewrite length_app. simpl. lia. }
      assert (∀ a, a ∈ v :: k.*2 → equiv_key (get_key a) (get_key v) = true) as Hall.
      { intros a [->|Ha]%elem_of_cons; [apply equiv_key_refl|].
        apply list_elem_of_fmap in Ha as (e & -> & He). by apply Hk. }
      intros a b Ha Hb. apply (equiv_key_trans _ (get_key v)); [by apply Hall|].
      apply equiv_key_sym, Hall.
      apply elem_of_app in Hb as [Hb|Hb%list_elem_of_singleton];
        [by right|subst; by left].
    + intros Hne. assert (k = []) as ->.
      { destruct k as [|e k]; [done|]. exfalso.
        rewrite Forall_forall in Hne.
        specialize (Hne e ltac:(apply elem_of_app; right; by left)).
        rewrite (Hk e) in Hne by (by left). done. }
      rewrite app_nil_r. simpl. by rewrite !fmap_app.
Qed.

Lemma succeeds_fails s v cs e :
  insert_succeeds s v cs → insert_fails s v cs e → False.
Proof. intros (? & ? & ?). destruct e; simpl; [lia| |]; intros; destruct_and?; congruence. Qed.

Lemma hinted_multi_inv s hd cs i v :
  tree_inv s hd cs →
  ∃ hint s1 s2 xs1 xs2,
    position (this s) i (mem s) = Some (hint, mem s)
    ∧ final_state (insert_multi_hint get_key key_comp size_bits alloc_fails
                     ctor_throws hint v s) = Some s1
    ∧ final_state (insert_multi get_key key_comp size_bits alloc_fails
                     ctor_throws v s) = Some s2
    ∧ contents s1 = Some xs1 ∧ contents s2 = Some xs2
    ∧ xs1 ≡ₚ xs2
    ∧ Forall2 (λ x y, equiv_key (get_key x) (get_key y) = true) xs1 xs2
    ∧ (∃ hd1 cs1, tree_inv s1 hd1 cs1).
Proof.
  intros Hinv. pose proof Hinv as [t Ht].
  destruct (wp_position s hd t cs i
              (λ p h', p = first_pos hd (drop i cs) ∧ h' = mem s) Ht)
    as (hint & h' & Hpos & -> & ->); [done|].
  exists (first_pos hd (drop i cs)).
  pose proof (rwpe_emplace_multi_use_hint s hd cs (take i cs) (drop i cs) v Hinv
                ltac:(by rewrite take_drop)) as Hh.
  pose proof (rwpe_insert_multi s hd cs v Hinv) as Hn.
  unfold insert_multi_hint.
  destruct (rwpe_cases _ _ _ _ Hh)
    as [(p1 & s1 & -> & n1 & cs1 & _ & _ & (B1 & A1 & Hcs1 & ->) & Hinv1 & Hsuc)
       |(e1 & s1 & -> & -> & Hf1)];
    destruct (rwpe_cases _ _ _ _ Hn)
      as [(p2 & s2 & -> & n2 & cs2 & _ & _ & (B2 & A2 & Hcs2 & -> & HB2 & HA2)
           & Hinv2 & Hsuc2 & _)
         |(e2 & s2 & -> & -> & Hf2)]; simpl.
  - exists s1, s2, (B1 ++ (n1, v) :: A1).*2, (B2 ++ (n2, v) :: A2).*2.
    pose proof Hinv1 as (t1 & _ & _ & _ & _ & Hsort1 & _).
    destruct (insert_positions_equiv n1 n2 v B1 A1 B2 A2 Hsort1) as [HF _];
      [congruence|done|done|].
    split_and!; try done; [by eapply contents_inv|by eapply contents_inv| |by eauto].
    rewrite !fmap_app. simpl. rewrite <-!Permutation_middle.
    rewrite <-!fmap_app. by rewrite <-Hcs1, <-Hcs2.
  - destruct (succeeds_fails _ _ _ _ Hsuc Hf2).
  - destruct (succeeds_fails _ _ _ _ Hsuc2 Hf1).
  - exists s, s, cs.*2, cs.*2.
    split_and!; try done; [by eapply contents_inv|by eapply contents_inv
                          |apply Forall2_equiv_refl|by eauto].
Qed.

Lemma hinted_unique_inv s hd cs i v :
  tree_inv s hd cs →
  ∃ hint s1 s2 xs1,
    position (this s) i (mem s) = Some (hint, mem s)
    ∧ final_state (insert_unique_hint get_key key_comp size_bits alloc_fails
                     ctor_throws hint v s) = Some s1
    ∧ final_state (insert_unique get_key key_comp size_bits alloc_fails
                     ctor_throws v s) = Some s2
    ∧ contents s1 = Some xs1 ∧ contents s2 = Some xs1
    ∧ (∃ hd1 cs1, tree_inv s1 hd1 cs1).
Proof.
  intros Hinv. pose proof Hinv as [t Ht].
  destruct (wp_position s hd t cs i
              (λ p h', p = first_pos hd (drop i cs) ∧ h' = mem s) Ht)
    as (hint & h' & Hpos & -> & ->); [done|].
  exists (first_pos hd (drop i cs)).
  pose proof (rwpe_emplace_unique_use_hint s hd cs (take i cs) (drop i cs) v Hinv
                ltac:(by rewrite take_drop)) as Hh.
  pose proof (rwpe_insert_unique s hd cs v Hinv) as Hn.
  unfold insert_unique_hint.
  assert (∀ P : Prop,
    Forall (λ e, equiv_key (key_of e) (get_key v) = false) cs →
    Exists (λ e, equiv_key (key_of e) (get_key v) = true) cs → P) as Hcontra.
  { intros P Hall Hex. exfalso. apply Exists_exists in Hex as (e & He & Heq).
    rewrite Forall_forall in Hall. specialize (Hall e He). congruence. }
  destruct (rwpe_cases _ _ _ _ Hh)
    as [(p1 & s1 & -> & Hsuc
         & [(n1 & cs1 & _ & _ & (B1 & A1 & Hcs1 & ->) & Hinv1 & Hne1)
           |(-> & Hex1)])
       |(e1 & s1 & -> & -> & Hf1)];
    destruct (rwpe_cases _ _ _ _ Hn)
      as [(p2 & s2 & ->
           & [(_ & n2 & cs2 & _ & _ & (B2 & A2 & Hcs2 & -> & HB2 & HA2)
               & Hinv2 & Hsuc2 & Hne2 & _)
             |(_ & -> & Hex2 & _)])
         |(e2 & s2 & -> & -> & Hf2 & _)]; simpl.
  - exists s1, s2, (B1 ++ (n1, v) :: A1).*2.
    pose proof Hinv1 as (t1 & _ & _ & _ & _ & Hsort1 & _).
    destruct (insert_positions_equiv n1 n2 v B1 A1 B2 A2 Hsort1) as [_ HE];
      [congruence|done|done|].
    split_and!; try done; [by eapply contents_inv| |by eauto].
    rewrite HE by (by rewrite <-Hcs1). by eapply contents_inv.
  - by apply (Hcontra _ Hne1 Hex2).
  - destruct (succeeds_fails _ _ _ _ Hsuc Hf2).
  - by apply (Hcontra _ Hne2 Hex1).
  - exists s, s, cs.*2.
    split_and!; try done; [by eapply contents_inv|by eapply contents_inv|by eauto].
  - exists s, s, cs.*2.
    split_and!; try done; [by eapply contents_inv|by eapply contents_inv|by eauto].
  - destruct (succeeds_fails _ _ _ _ Hsuc2 Hf1).
  - exists s, s, cs.*2.
    split_and!; try done; [by eapply contents_inv|by eapply contents_inv|by eauto].
  - exists s, s, cs.*2.
    split_and!; try done; [by eapply contents_inv|by eapply contents_inv|by eauto].
Qed.

(** *** Comparison of two containers on one store *)

Local Abbreviation well_formed := (well_formed get_key key_comp size_bits).

Lemma all2_Forall2 (xs ys : list T) :
  length xs = length ys →
  all2 xs ys = true ↔ Forall2 (λ x y, val_eq x y = true) xs ys.
Proof.
  revert ys. induction xs as [|x xs IH]; intros [|y ys] Hlen; simpl in *; try done.
  rewrite andb_true_iff, Forall2_cons, IH by lia. done.
Qed.

Lemma tree_eq_inv lhs rhs h xs ys :
  well_formed lhs h xs → well_formed rhs h ys →
  ∃ b, tree_eq val_eq lhs rhs h = Some (b, h)
    ∧ (b = true ↔ size lhs = size rhs ∧ Forall2 (λ x y, val_eq x y = true) xs ys)
    ∧ size lhs = Z.of_nat (length xs) ∧ size rhs = Z.of_nat (length ys).
Proof.
  intros (hd1 & cs1 & Hinv1 & <-) (hd2 & cs2 & Hinv2 & <-).
  destruct (wp_tree_eq lhs rhs h hd1 hd2 cs1 cs2
              (λ b h', b = bool_decide (length cs1 = length cs2)
                           && all2 cs1.*2 cs2.*2 ∧ h' = h) Hinv1 Hinv2)
    as (b & h' & Heq & -> & ->); [done|].
  eexists. split; [exact Heq|].
  destruct Hinv1 as (t1 & Hthis1 & _). destruct Hinv2 as (t2 & Hthis2 & _).
  simpl in Hthis1, Hthis2. subst lhs rhs. unfold size. simpl.
  rewrite !length_fmap. split; [|done].
  rewrite andb_true_iff, bool_decide_eq_true. split.
  - intros [Hlen Hall]. split; [by rewrite Hlen|].
    apply all2_Forall2; [by rewrite !length_fmap|done].
  - intros [Hlen HF]. apply Nat2Z.inj in Hlen. split; [done|].
    apply all2_Forall2; [by rewrite !length_fmap|done].
Qed.

Lemma rep_preserved h h' par t :
  rep h par t → (∀ a, a ∈ addrs t → h' !! a = h !! a) → rep h' par t.
Proof.
  revert par. induction t as [|b c l IHl v r IHr]; intros par; simpl; [done|].
  intros (Hb & Hl & Hr) Hsame. split_and!.
  - rewrite Hsame; [done|]. apply elem_of_app. right. by left.
  - apply IHl; [done|]. intros a Ha. apply Hsame. apply elem_of_app. by left.
  - apply IHr; [done|]. intros a Ha. apply Hsame. apply elem_of_app. right.
    by right.
Qed.

Lemma tree_inv_allocated o h hd cs a :
  tree_inv (State o h) hd cs → a ∈ hd :: cs.*1 → is_Some (h !! a).
Proof.
  intros (t & _ & (Hhd & Hrep & _) & <- & _) [->|Ha]%elem_of_cons; [by eauto|].
  simpl in *. eapply rep_dom; [done|]. by rewrite addrs_cells.
Qed.

Lemma tree_inv_preserved o h h' hd cs S :
  tree_inv (State o h) hd cs → preserves S h h' →
  (∀ a, a ∈ hd :: cs.*1 → a ∉ S) →
  tree_inv (State o h') hd cs.
Proof.
  intros Hinv Hpres Hdisj.
  assert (∀ a, a ∈ hd :: cs.*1 → h' !! a = h !! a) as Hsame.
  { intros a Ha. apply Hpres; [by apply Hdisj|]. by eapply tree_inv_allocated. }
  destruct Hinv as (t & Hthis & (Hhd & Hrep & Hnd) & Hcells & Hrest).
  exists t. split; [done|]. split; [|done]. simpl in *. split_and!; [|  |done].
  - rewrite Hsame; [done|by left].
  - eapply rep_preserved; [done|]. intros a Ha. apply Hsame. right.
    by rewrite <-Hcells, <-addrs_cells.
Qed.

(** *** Containers built by insertions *)

Local Abbreviation inserts := (inserts (K:=K)).

Lemma fmap_insert_cell {A} (f : addr * T → A) B (x : addr * T) C :
  f <$> (B ++ x :: C) ≡ₚ f x :: (f <$> (B ++ C)).
Proof. rewrite !fmap_app. simpl. by rewrite <-Permutation_middle. Qed.

Lemma inserted_preserves s s1 s' hd cs cs1 cs' nd :
  tree_inv s1 hd cs1 → mem s !! nd = None →
  cs1.*1 ≡ₚ nd :: cs.*1 →
  preserves (hd :: cs.*1) (mem s) (mem s1) →
  preserves (hd :: cs1.*1) (mem s1) (mem s') →
  (∀ a, a ∈ cs'.*1 → a ∈ cs1.*1 ∨ mem s1 !! a = None) →
  preserves (hd :: cs.*1) (mem s) (mem s')
  ∧ (∀ a, a ∈ cs'.*1 → a ∈ cs.*1 ∨ mem s !! a = None).
Proof.
  intros Hinv1 Hnd Hperm Hp1 Hp2 Hnew. split.
  - intros a Ha Hal. rewrite <-(Hp1 a Ha Hal). apply Hp2.
    + apply not_elem_of_cons in Ha as [Hahd Hacs].
      apply not_elem_of_cons. split; [done|]. rewrite Hperm.
      apply not_elem_of_cons. split; [|done]. intros ->.
      rewrite Hnd in Hal. by destruct Hal.
    + by rewrite (Hp1 a Ha Hal).
  - intros a Ha. destruct (Hnew a Ha) as [Hin|Hnone].
    + rewrite Hperm in Hin. apply elem_of_cons in Hin as [->|Hin]; auto.
    + destruct (decide (a ∈ hd :: cs.*1)) as [Hin|Hout].
      * apply elem_of_cons in Hin as [->|Hin]; [|by left].
        destruct s1 as [o1 h1].
        destruct (tree_inv_allocated o1 h1 hd cs1 hd Hinv1) as [n Hn]; [by left|].
        simpl in Hnone. congruence.
      * destruct (mem s !! a) as [n|] eqn:Hl; [|by right].
        rewrite (Hp1 a Hout) in Hnone by eauto. congruence.
Qed.

Lemma rwp_inserts multi xs s hd cs Q :
  (∀ h, alloc_fails h = false) → (∀ v, ctor_throws v = false) →
  (∀ a b, a ∈ cs.*2 ++ xs → b ∈ cs.*2 ++ xs →
          equiv_key (get_key a) (get_key b) = true → a = b) →
  tree_inv s hd cs →
  (Z.of_nat (length cs + length xs) < 2 ^ size_bits - 1)%Z →
  (∀ s' cs', tree_inv s' hd cs' →
     preserves (hd :: cs.*1) (mem s) (mem s') →
     (∀ a, a ∈ cs'.*1 → a ∈ cs.*1 ∨ mem s !! a = None) →
     holds_inserted multi xs cs cs' → Q tt s') →
  rwp (run_ops (inserts multi xs)) s Q.
Proof.
  clear val_eq.
  intros Hal Hct. revert s cs Q.
  induction xs as [|v xs IH]; intros s cs Q Htotal Hinv Hcap HQ.
  { apply rwp_ret. apply (HQ s cs); [done|by intros ? ? ?|by auto|].
    unfold holds_inserted. destruct multi; [done|]. split; [|done].
    intros x. split; [by right|]. intros [Hx|Hx]; [|done].
    by apply elem_of_nil in Hx. }
  assert (∀ cs1, cs1.*2 ≡ₚ v :: cs.*2 ∨ cs1 = cs →
            ∀ a b, a ∈ cs1.*2 ++ xs → b ∈ cs1.*2 ++ xs →
                   equiv_key (get_key a) (get_key b) = true → a = b) as Hsub.
  { intros cs1 Hc.
    assert (∀ x, x ∈ cs1.*2 ++ xs → x ∈ cs.*2 ++ v :: xs) as Hin.
    { intros x. destruct Hc as [Hp| ->]; rewrite ?Hp, !elem_of_app, !elem_of_cons;
        tauto. }
    intros a b Ha Hb. apply Htotal; by apply Hin. }
  assert (∀ e, ¬ insert_fails s v cs e) as Hnofail.
  { intros e Hf. destruct e; simpl in Hf.
    - simpl in Hcap. lia.
    - destruct Hf as [_ Hf]. by rewrite Hal in Hf.
    - destruct Hf as (_ & _ & Hf). by rewrite Hct in Hf. }
  destruct multi.
  - change (rwp (let+ _ := run_op (InsertMulti v) in run_ops (inserts true xs)) s Q).
    apply rwp_bind. unfold run_op. cbv beta match.
    eapply rwp_try_catch_all; [by apply rwpe_insert_multi| |].
    2:{ intros e s' [_ Hf]. by destruct (Hnofail e). }
    intros p s1 (nd & cs1 & _ & Hnd & (B & A & Hcs & -> & _) & Hinv1 & _ & Hp1).
    assert (length (B ++ (nd, v) :: A) = S (length cs)) as Hlen.
    { rewrite Hcs, !length_app. simpl. lia. }
    apply (IH s1 (B ++ (nd, v) :: A));
      [apply Hsub; left; rewrite Hcs; apply fmap_insert_cell|done
      |simpl in Hcap; lia|].
    intros s' cs' Hinv' Hp2 Hnew Hval.
    destruct (inserted_preserves s s1 s' hd cs (B ++ (nd, v) :: A) cs' nd)
      as [Hp Hn]; try done.
    { rewrite Hcs. apply fmap_insert_cell. }
    apply (HQ s' cs'); [done|done|done|].
    unfold holds_inserted in *. rewrite Hval, fmap_insert_cell, <-Hcs. simpl.
    by rewrite <-Permutation_middle.
  - change (rwp (let+ _ := run_op (InsertUnique v) in run_ops (inserts false xs)) s Q).
    apply rwp_bind. unfold run_op. cbv beta match.
    eapply rwp_try_catch_all; [by apply rwpe_insert_unique| |].
    2:{ intros e s' (_ & Hf & _). by destruct (Hnofail e). }
    intros p s1 [(_ & nd & cs1 & _ & Hnd & (B & A & Hcs & -> & _) & Hinv1 & _
                  & Hne & Hp1)
                |(_ & -> & Hex & _)].
    + assert (length (B ++ (nd, v) :: A) = S (length cs)) as Hlen.
      { rewrite Hcs, !length_app. simpl. lia. }
      apply (IH s1 (B ++ (nd, v) :: A));
        [apply Hsub; left; rewrite Hcs; apply fmap_insert_cell|done
        |simpl in Hcap; lia|].
      intros s' cs' Hinv' Hp2 Hnew [Hel Hnodup].
      destruct (inserted_preserves s s1 s' hd cs (B ++ (nd, v) :: A) cs' nd)
        as [Hp Hn]; try done.
      { rewrite Hcs. apply fmap_insert_cell. }
      apply (HQ s' cs'); [done|done|done|].
      assert ((B ++ (nd, v) :: A).*2 ≡ₚ v :: cs.*2) as Hperm.
      { rewrite Hcs. apply fmap_insert_cell. }
      split.
      * intros x. rewrite Hel, Hperm, !elem_of_cons. tauto.
      * intros Hnd0. apply Hnodup. rewrite Hperm. apply NoDup_cons.
        split; [|done]. intros Hin.
        apply list_elem_of_fmap in Hin as (e & -> & He).
        rewrite Forall_forall in Hne. specialize (Hne e He).
        unfold key_of in Hne. by rewrite equiv_key_refl in Hne.
    + apply (IH s cs); [apply Hsub; by right|done|simpl in Hcap; lia|].
      intros s' cs' Hinv' Hp2 Hnew [Hel Hnodup].
      apply (HQ s' cs'); [done|done|done|]. split; [|done].
      intros x. rewrite Hel, elem_of_cons.
      apply Exists_exists in Hex as (e & He & Heq).
      apply Htotal in Heq.
      2:{ apply elem_of_app. left. apply list_elem_of_fmap. by exists e. }
      2:{ apply elem_of_app. right. by left. }
      split; [tauto|].
      intros [[->|?]|?]; [|tauto|tauto]. right. rewrite <-Heq.
      apply list_elem_of_fmap. by exists e.
Qed.

Lemma sorted_values cs :
  sorted cs →
  StronglySorted (λ x y : T, key_comp (get_key y) (get_key x) = false) cs.*2.
Proof. apply StronglySorted_fmap. by intros x y. Qed.

(** Two containers built on one store by inserting the same elements in
    different orders, when equivalent elements are equal. *)
Lemma build_equal (multi : bool) xs ys s0 s1 s2 s3 s4 :
  (∀ h, alloc_fails h = false) → (∀ v, ctor_throws v = false) →
  (∀ a b, a ∈ xs → b ∈ xs →
          equiv_key (get_key a) (get_key b) = true → a = b) →
  (∀ a, val_eq a a = true) →
  (Z.of_nat (length xs) < 2 ^ size_bits - 1)%Z →
  xs ≡ₚ ys →
  rb_tree_init alloc_fails s0 = Ok tt s1 →
  run_ops (inserts multi xs) s1 = Ok tt s2 →
  rb_tree_init alloc_fails s2 = Ok tt s3 →
  run_ops (inserts multi ys) s3 = Ok tt s4 →
  tree_eq val_eq (this s2) (this s4) (mem s4) = Some (true, mem s4).
Proof.
  intros Hal Hct Htotal Hrefl Hcap Hperm Hi1 Hr1 Hi2 Hr2.
  pose proof (rwpe_inv_ok _ _ _ _ _ _ (rwpe_rb_tree_init s0) Hi1)
    as (hd1 & _ & Hinv1 & _).
  destruct (rwp_inserts multi xs s1 hd1 []
              (λ _ s', ∃ cs', tree_inv s' hd1 cs' ∧ holds_inserted multi xs [] cs')
              Hal Hct) as ([] & s2' & Hr1' & cs1 & Hinv2 & Hval1).
  { simpl. exact Htotal. }
  { done. }
  { simpl. lia. }
  { intros s' cs' ? _ _ ?. eauto. }
  rewrite Hr1 in Hr1'. injection Hr1' as <-.
  pose proof (rwpe_inv_ok _ _ _ _ _ _ (rwpe_rb_tree_init s2) Hi2)
    as (hd2 & Hfresh & Hinv3 & Hmem3).
  destruct (rwp_inserts multi ys s3 hd2 []
              (λ _ s', ∃ cs', tree_inv s' hd2 cs'
                 ∧ preserves [hd2] (mem s3) (mem s')
                 ∧ holds_inserted multi ys [] cs')
              Hal Hct) as ([] & s4' & Hr2' & cs2 & Hinv4 & Hp & Hval2).
  { simpl. intros a b Ha Hb. rewrite <-Hperm in Ha, Hb. by apply Htotal. }
  { done. }
  { simpl. rewrite <-Hperm. lia. }
  { intros s' cs' ? ? _ ?. eauto. }
  rewrite Hr2 in Hr2'. injection Hr2' as <-.
  (* the first container is still there *)
  destruct s2 as [lhs h2]. simpl in *.
  assert (hd2 ∉ hd1 :: cs1.*1) as Hout.
  { intros Hin. destruct (tree_inv_allocated _ _ _ _ _ Hinv2 Hin) as [n Hn].
    congruence. }
  assert (tree_inv (State lhs (mem s3)) hd1 cs1) as Hinv2'.
  { apply (tree_inv_preserved lhs h2 (mem s3) hd1 cs1 [hd2]); [done| |].
    - intros a Ha _. rewrite Hmem3. apply lookup_insert_ne.
      intros ->. apply Ha. by left.
    - intros a Ha [->|Hn]%elem_of_cons; [done|]. by apply elem_of_nil in Hn. }
  assert (tree_inv (State lhs (mem s4)) hd1 cs1) as Hinv2''.
  { apply (tree_inv_preserved lhs (mem s3) (mem s4) hd1 cs1 [hd2]); [done|done|].
    intros a Ha [->|Hn]%elem_of_cons; [done|]. by apply elem_of_nil in Hn. }
  (* the two sequences are the same *)
  assert (cs1.*2 ≡ₚ cs2.*2) as Hpv.
  { unfold holds_inserted in *. destruct multi.
    - simpl in *. rewrite !app_nil_r in *. by rewrite Hval1, Hval2.
    - destruct Hval1 as [He1 Hn1]. destruct Hval2 as [He2 Hn2]. simpl in *.
      apply NoDup_Permutation; [apply Hn1; constructor|apply Hn2; constructor|].
      intros x. rewrite He1, He2, Hperm. done. }
  assert (cs1.*2 = cs2.*2) as Heqv.
  { destruct Hinv2 as (t1 & _ & _ & _ & _ & Hs1 & _).
    destruct Hinv4 as (t2 & _ & _ & _ & _ & Hs2 & _).
    eapply StronglySorted_unique_strong;
      [|by apply sorted_values|by apply sorted_values|done].
    assert (∀ x, x ∈ cs1.*2 → x ∈ xs) as Hin.
    { intros x Hx. unfold holds_inserted in Hval1. destruct multi.
      - simpl in Hval1. by rewrite Hval1, app_nil_r in Hx.
      - destruct Hval1 as [He1 _]. apply He1 in Hx as [Hx|Hx]; [done|].
        simpl in Hx. by apply elem_of_nil in Hx. }
    intros x y Hx Hy Hxy Hyx.
    apply Htotal; [by apply Hin|apply Hin; by rewrite Hpv|].
    unfold equiv_key. by rewrite Hxy, Hyx. }
  destruct (tree_eq_inv lhs (this s4) (mem s4) cs1.*2 cs2.*2)
    as (b & Heq & Hb & Hsz1 & Hsz2).
  { by exists hd1, cs1. }
  { exists hd2, cs2. by rewrite state_eta. }
  rewrite Heq. f_equal. f_equal. apply Hb. split.
  - by rewrite Hsz1, Hsz2, Heqv.
  - rewrite Heqv. apply Forall_Forall2_diag, Forall_forall. by intros.
Qed.

(** * The claims of the specification *)

(** C1.  After any sequence of insertions and erasures on a constructed
    container, every call having returned, the nodes under the header form
    a tree in which no red node has a red child and in which all downward
    paths from any node to the leaf positions below it pass through the
    same number of black nodes.  The sequence always runs to its end. *)
Theorem rb_invariants_preserved s0 s1 ops :
  rb_tree_init alloc_fails s0 = Ok tt s1 →
  ∃ s t, run_ops ops s1 = Ok tt s
    ∧ holds_tree s t ∧ no_red_red t ∧ black_balanced t.
Proof.
  intros Hinit.
  destruct (run_ops_total s0 s1 ops Hinit) as (s & hd & cs & Hrun & Hinv).
  destruct (tree_inv_holds s hd cs Hinv) as (t & Hholds & [_ [n Hrb]] & _).
  exists s, t. split_and!; [done|done| |].
  - by eapply rb_no_red_red.
  - by eapply rb_black_balanced.
Qed.

(** C2.  In every reachable state the walk from [begin()] by increments
    to [end()] yields the stored keys in non-decreasing order of the
    comparator, and the elements between two elements with equivalent
    keys have a key equivalent to theirs. *)
Theorem walk_in_order s :
  reachable s →
  ∃ xs : list T, contents s = Some xs
    ∧ (∀ i j x y, i < j → xs !! i = Some x → xs !! j = Some y →
         key_comp (get_key y) (get_key x) = false)
    ∧ (∀ i j k x y z, i ≤ j → j ≤ k →
         xs !! i = Some x → xs !! j = Some y → xs !! k = Some z →
         equiv_key (get_key x) (get_key z) = true →
         equiv_key (get_key x) (get_key y) = true
         ∧ equiv_key (get_key y) (get_key z) = true).
Proof.
  intros (hd & cs & Hinv)%reachable_inv. by eapply walk_in_order_inv.
Qed.

(** C3, as amended.  In every reachable state the header, the parent of
    the root, is red, and the root of a container that is not empty is
    black. *)
Theorem header_red_root_black s :
  reachable s →
  header_color s rb_tree_red
  ∧ (size (this s) ≠ 0%Z → root_color s rb_tree_black).
Proof.
  intros (hd & cs & Hinv)%reachable_inv. by eapply header_root_inv.
Qed.

(** C4.  In every reachable state [find(key)] returns a position of the
    walk whose key is equivalent to [key] when the container holds such an
    element, and [end()] when it holds none. *)
Theorem find_correct s key :
  reachable s →
  ∃ w p,
    walk (this s) (mem s) = Some (w, mem s)
    ∧ find get_key key_comp (this s) key (mem s) = Some (p, mem s)
    ∧ (Exists (λ e, equiv_key (get_key e.2) key = true) w →
       ∃ v, (p, v) ∈ w ∧ equiv_key (get_key v) key = true)
    ∧ (Forall (λ e, equiv_key (get_key e.2) key = false) w → p = end_ (this s)).
Proof.
  intros (hd & cs & Hinv)%reachable_inv. by eapply find_inv.
Qed.

(** C6.  In every reachable state the plain [insert_multi(v)], in its
    overload for a [const] reference and in its overload for an rvalue,
    which is [emplace_multi], is never refused for its key: it throws only
    for the capacity, the allocation or the construction of the payload,
    and leaves the container as it was then.  When it returns, the new
    element stands in the walk after all elements that do not go after it
    and before the elements that go after it, so immediately after the
    last element with an equivalent key when there is one; the size grows
    by one. *)
Theorem insert_multi_after_equal s v :
  reachable s →
  ∃ w, walk (this s) (mem s) = Some (w, mem s)
    ∧ ∀ ins,
        ins = insert_multi get_key key_comp size_bits alloc_fails ctor_throws
        ∨ ins = insert_multi_move get_key key_comp size_bits alloc_fails
                  ctor_throws →
        match ins v s with
        | Ok p s' =>
            ∃ B A, w = B ++ A
              ∧ walk (this s') (mem s') = Some (B ++ (p, v) :: A, mem s')
              ∧ Forall (λ e, key_comp (get_key v) (get_key e.2) = false) B
              ∧ Forall (λ e, key_comp (get_key v) (get_key e.2) = true) A
              ∧ (Exists (λ e, equiv_key (get_key e.2) (get_key v) = true) w →
                 ∃ B' x, B = B' ++ [x]
                         ∧ equiv_key (get_key x.2) (get_key v) = true)
              ∧ size (this s') = (size (this s) + 1)%Z
        | Throw e s' =>
            s' = s
            ∧ match e with
              | length_error => size (this s) = max_size size_bits
              | bad_alloc => alloc_fails (mem s) = true
              | ctor_exception => ctor_throws v = true
              end
        | Fault => False
        end.
Proof.
  intros (hd & cs & Hinv)%reachable_inv.
  exists (positions cs). split; [by eapply walk_inv|].
  assert (∀ ins : R ptr,
            rwpe ins s
              (λ res s', ∃ nd cs', res = Some nd ∧ insert_post v cs nd cs'
                           ∧ tree_inv s' hd cs')
              (λ e s', s' = s ∧ insert_fails s v cs e) →
            match ins s with
            | Ok p s' =>
                ∃ B A, positions cs = B ++ A
                  ∧ walk (this s') (mem s') = Some (B ++ (p, v) :: A, mem s')
                  ∧ Forall (λ e, key_comp (get_key v) (get_key e.2) = false) B
                  ∧ Forall (λ e, key_comp (get_key v) (get_key e.2) = true) A
                  ∧ (Exists (λ e, equiv_key (get_key e.2) (get_key v) = true)
                       (positions cs) →
                     ∃ B' x, B = B' ++ [x]
                             ∧ equiv_key (get_key x.2) (get_key v) = true)
                  ∧ size (this s') = (size (this s) + 1)%Z
            | Throw e s' =>
                s' = s
                ∧ match e with
                  | length_error => size (this s) = max_size size_bits
                  | bad_alloc => alloc_fails (mem s) = true
                  | ctor_exception => ctor_throws v = true
                  end
            | Fault => False
            end) as Hgen.
  { intros ins Hins.
    destruct (inserted_after_equal ins s hd cs v Hinv Hins) as (w & Hw & Hm).
    rewrite (walk_inv s hd cs Hinv) in Hw. by injection Hw as <-. }
  intros ins [-> | ->]; apply Hgen.
  - eapply rwpe_mono; [by apply rwpe_insert_multi| |done].
    intros res s' (nd & cs' & -> & _ & Hpost & Hinv' & _). by exists nd, cs'.
  - unfold insert_multi_move.
    eapply rwpe_mono; [by apply rwpe_emplace_multi| |done].
    intros res s' (nd & cs' & -> & _ & Hpost & Hinv' & _). by exists nd, cs'.
Qed.

(** The general part of C7: [lower_bound(key)] is the position of the
    first element of the walk that does not go before [key],
    [upper_bound(key)] that of the first element that goes after [key],
    and either is [end()] when there is no such element. *)
Lemma bounds_reachable s key :
  reachable s → bounds_spec get_key key_comp s key.
Proof.
  intros (hd & cs & Hinv)%reachable_inv. by eapply bounds_inv.
Qed.

Lemma Forall2_equiv_keys (xs ys : list T) :
  (∀ a b : K, equiv_key a b = true → a = b) →
  Forall2 (λ x y, equiv_key (get_key x) (get_key y) = true) xs ys →
  get_key <$> xs = get_key <$> ys.
Proof.
  intros Heq. induction 1 as [|x y xs ys Hxy _ IH]; [done|].
  simpl. f_equal; [by apply Heq|done].
Qed.

(** C8, as amended.  In every reachable state, for every position [hint]
    of the walk or [end()], the hinted insertion of [v] leaves a container
    that is in order and holds the same elements as the plain insertion
    leaves; the two sequences of keys agree up to equivalence under the
    comparator, position by position, and are the same when equivalent
    keys are equal.  For the insertion of a unique key the two sequences
    of elements are the same. *)
Theorem hinted_insert_agrees s i v :
  reachable s →
  (∃ hint s1 s2 xs1 xs2,
      position (this s) i (mem s) = Some (hint, mem s)
      ∧ final_state (insert_multi_hint get_key key_comp size_bits alloc_fails
                       ctor_throws hint v s) = Some s1
      ∧ final_state (insert_multi get_key key_comp size_bits alloc_fails
                       ctor_throws v s) = Some s2
      ∧ contents s1 = Some xs1 ∧ contents s2 = Some xs2
      ∧ xs1 ≡ₚ xs2
      ∧ Forall2 (λ x y, equiv_key (get_key x) (get_key y) = true) xs1 xs2
      ∧ ((∀ a b : K, equiv_key a b = true → a = b) →
         get_key <$> xs1 = get_key <$> xs2)
      ∧ (∀ i j x y, i < j → xs1 !! i = Some x → xs1 !! j = Some y →
           key_comp (get_key y) (get_key x) = false))
  ∧ (∃ hint s1 s2 xs,
        position (this s) i (mem s) = Some (hint, mem s)
        ∧ final_state (insert_unique_hint get_key key_comp size_bits alloc_fails
                         ctor_throws hint v s) = Some s1
        ∧ final_state (insert_unique get_key key_comp size_bits alloc_fails
                         ctor_throws v s) = Some s2
        ∧ contents s1 = Some xs ∧ contents s2 = Some xs
        ∧ (∀ i j x y, i < j → xs !! i = Some x → xs !! j = Some y →
             key_comp (get_key y) (get_key x) = false)).
Proof.
  intros (hd & cs & Hinv)%reachable_inv. split.
  - destruct (hinted_multi_inv s hd cs i v Hinv)
      as (hint & s1 & s2 & xs1 & xs2 & Hpos & Hf1 & Hf2 & Hc1 & Hc2 & Hperm & HF
          & hd1 & cs1 & Hinv1).
    destruct (walk_in_order_inv s1 hd1 cs1 Hinv1) as (xs & Hc & Hord & _).
    rewrite Hc1 in Hc. injection Hc as <-.
    exists hint, s1, s2, xs1, xs2. split_and!; try done.
    intros Heq. by apply Forall2_equiv_keys.
  - destruct (hinted_unique_inv s hd cs i v Hinv)
      as (hint & s1 & s2 & xs1 & Hpos & Hf1 & Hf2 & Hc1 & Hc2 & hd1 & cs1 & Hinv1).
    destruct (walk_in_order_inv s1 hd1 cs1 Hinv1) as (xs & Hc & Hord & _).
    rewrite Hc1 in Hc. injection Hc as <-.
    exists hint, s1, s2, xs1. by split_and!.
Qed.


(** C10, as amended.  Two well-formed containers on one store compare
    equal under [operator==] exactly when they have the same size and
    their in-order sequences of elements are equal element by element;
    every reachable container is well formed with the sequence of its
    walk; and two containers built by inserting the same elements in
    different orders compare equal when any two of the inserted elements
    with equivalent keys are equal, as the elements of a map with
    distinct keys are. *)
Theorem tree_eq_correct :
  (∀ lhs rhs h xs ys,
      well_formed lhs h xs → well_formed rhs h ys →
      ∃ b, tree_eq val_eq lhs rhs h = Some (b, h)
        ∧ (b = true ↔
           size lhs = size rhs ∧ Forall2 (λ x y, val_eq x y = true) xs ys))
  ∧ (∀ s, reachable s →
       ∃ xs, well_formed (this s) (mem s) xs ∧ contents s = Some xs)
  ∧ (∀ (multi : bool) xs ys s0 s1 s2 s3 s4,
       (∀ h, alloc_fails h = false) → (∀ v, ctor_throws v = false) →
       (∀ a b, a ∈ xs → b ∈ xs →
               equiv_key (get_key a) (get_key b) = true → a = b) →
       (∀ a, val_eq a a = true) →
       (Z.of_nat (length xs) < 2 ^ size_bits - 1)%Z →
       xs ≡ₚ ys →
       rb_tree_init alloc_fails s0 = Ok tt s1 →
       run_ops (inserts multi xs) s1 = Ok tt s2 →
       rb_tree_init alloc_fails s2 = Ok tt s3 →
       run_ops (inserts multi ys) s3 = Ok tt s4 →
       tree_eq val_eq (this s2) (this s4) (mem s4) = Some (true, mem s4)).
Proof.
  split_and!.
  - intros lhs rhs h xs ys H1 H2.
    destruct (tree_eq_inv lhs rhs h xs ys H1 H2) as (b & Heq & Hb & _).
    by exists b.
  - intros s (hd & cs & Hinv)%reachable_inv. exists cs.*2. split.
    + exists hd, cs. by rewrite state_eta.
    + by eapply contents_inv.
  - intros multi xs ys s0 s1 s2 s3 s4 Hal Hct Htot Hrefl Hcap Hperm Hi1 Hr1 Hi2 Hr2.
    exact (build_equal multi xs ys s0 s1 s2 s3 s4 Hal Hct Htot Hrefl Hcap Hperm
             Hi1 Hr1 Hi2 Hr2).
Qed.

(** ** Further properties of the member functions *)

Lemma run_ops_snoc ops o s s1 s2 :
  run_ops ops s = Ok tt s1 → run_op o s1 = Ok tt s2 →
  run_ops (ops ++ [o]) s = Ok tt s2.
Proof.
  clear val_eq Hswo Hbits.
  revert s. induction ops as [|o' ops IH]; intros s.
  - intros [= ->] Ho. simpl. unfold rbind. by rewrite Ho.
  - change (run_ops (o' :: ops) s)
      with ((let+ _ := run_op o' in run_ops ops) s).
    change (run_ops ((o' :: ops) ++ [o]) s)
      with ((let+ _ := run_op o' in run_ops (ops ++ [o])) s).
    unfold rbind. destruct (run_op o' s) as [[] s'| |]; [|done|done].
    intros Hr Ho. by apply IH.
Qed.

(** One more call on a reachable container. *)
Lemma reachable_step s o s' : reachable s → run_op o s = Ok tt s' → reachable s'.
Proof.
  clear val_eq Hswo Hbits.
  intros (s0 & s1 & ops & Hinit & Hrun) Ho.
  exists s0, s1, (ops ++ [o]). split; [done|]. by eapply run_ops_snoc.
Qed.

Lemma positions_app_inv cs (B A : list (ptr * T)) :
  positions cs = B ++ A →
  ∃ B' A', cs = B' ++ A' ∧ B = positions B' ∧ A = positions A'.
Proof.
  unfold positions. intros (B' & A' & -> & HB & HA)%fmap_app_inv.
  by exists B', A'.
Qed.

Lemma positions_cons_inv cs (B : list (ptr * T)) p v A :
  positions cs = B ++ (p, v) :: A →
  ∃ B' a A', cs = B' ++ (a, v) :: A' ∧ B = positions B' ∧ p = Some a
    ∧ A = positions A'.
Proof.
  intros (B' & X & -> & HB & HX)%positions_app_inv.
  destruct X as [|[a v'] A']; [done|]. injection HX as -> -> ->.
  by exists B', a, A'.
Qed.

Lemma head_positions (hd : addr) (A : list (addr * T)) :
  default (Some hd) (fst <$> head (positions A)) = first_pos hd A.
Proof. by destruct A as [|[a v] A]. Qed.

Lemma tree_inv_this s hd cs :
  tree_inv s hd cs → this s = RbTree (Some hd) (Z.of_nat (length cs)).
Proof. by intros (t & Hthis & _). Qed.

Lemma position_inv s hd cs i :
  tree_inv s hd cs →
  position (this s) i (mem s) = Some (first_pos hd (drop i cs), mem s).
Proof.
  intros [t Ht].
  destruct (wp_position s hd t cs i
              (λ p h', p = first_pos hd (drop i cs) ∧ h' = mem s) Ht)
    as (p & h' & Hp & -> & ->); done.
Qed.

Lemma run_op_erase s hd cs B a v A (q : ptr) s' :
  tree_inv s hd cs → cs = B ++ (a, v) :: A →
  erase size_bits (Some a) s = Ok q s' →
  run_op (Erase (length B)) s = Ok tt s'.
Proof.
  intros Hinv Hcs Herase. pose proof Hinv as [t Ht].
  unfold run_op, rbind, get_this, lift.
  rewrite (position_inv s hd cs _ Hinv), Hcs, drop_app_length, first_pos_cons.
  rewrite state_eta, (tree_inv_this s hd cs Hinv). unfold end_. simpl.
  rewrite ptr_eqb_some_ne, Herase; [done|].
  eapply (tree_at_not_header _ _ _ _ _ v); [done|]. rewrite Hcs.
  apply elem_of_app. right. by left.
Qed.

(** X1. [erase(position)] takes the element at the position out of the walk
    and leaves the other elements where they are; it returns the position
    after the erased one, the size goes down by one and the node is given
    back. *)
Theorem erase_position s B p v A :
  reachable s →
  walk (this s) (mem s) = Some (B ++ (p, v) :: A, mem s) →
  ∃ s', erase size_bits p s = Ok (default (end_ (this s)) (fst <$> head A)) s'
    ∧ walk (this s') (mem s') = Some (B ++ A, mem s')
    ∧ size (this s') = (size (this s) - 1)%Z
    ∧ end_ (this s') = end_ (this s)
    ∧ (∃ a, p = Some a ∧ mem s' !! a = None)
    ∧ reachable s'.
Proof.
  intros Hreach Hwalk. pose proof Hreach as (hd & cs & Hinv)%reachable_inv.
  rewrite (walk_inv s hd cs Hinv) in Hwalk. injection Hwalk as Hw.
  apply positions_cons_inv in Hw as (B' & a & A' & Hcs & -> & -> & ->).
  destruct (rwp_erase s hd cs B' a v A'
              (λ q s', q = first_pos hd A' ∧ tree_inv s' hd (B' ++ A')
                       ∧ mem s' !! a = None) Hinv Hcs)
    as (q & s' & Herase & -> & Hinv' & Hfree).
  { intros s' Hinv' Hdel. split_and!; [done|done|].
    rewrite Hdel. apply lookup_delete_eq. }
  exists s'. rewrite (walk_inv s' hd _ Hinv'), positions_app.
  rewrite (tree_inv_this s hd cs Hinv). unfold end_, size. simpl.
  rewrite head_positions, (tree_inv_this s' hd _ Hinv'). simpl.
  split_and!; [done|done| |done|by eauto|].
  - rewrite Hcs, !length_app. simpl. lia.
  - eapply reachable_step; [done|]. by eapply run_op_erase.
Qed.

Lemma Forall_Exists_false {X} (P : X → bool) (xs : list X) :
  Forall (λ x, P x = false) xs → Exists (λ x, P x = true) xs → False.
Proof.
  clear. intros Hall Hex. apply Exists_exists in Hex as (x & Hin & Hx).
  rewrite Forall_forall in Hall. specialize (Hall x Hin). congruence.
Qed.

Lemma before_not_equiv key (xs : list (ptr * T)) :
  Forall (λ e, key_comp (get_key e.2) key = true) xs →
  Forall (λ e, equiv_key (get_key e.2) key = false) xs.
Proof.
  clear. intros H. eapply Forall_impl; [exact H|]. simpl.
  intros e He. unfold equiv_key. by rewrite He.
Qed.

Lemma after_not_equiv key (xs : list (ptr * T)) :
  Forall (λ e, key_comp key (get_key e.2) = true) xs →
  Forall (λ e, equiv_key (get_key e.2) key = false) xs.
Proof.
  clear. intros H. eapply Forall_impl; [exact H|]. simpl.
  intros e He. unfold equiv_key. rewrite He. apply andb_false_r.
Qed.

(** X2. [erase_unique(key)] takes out the first element of the walk whose key
    is equivalent to [key] and returns 1; when there is no such element
    it returns 0 and leaves the container as it is. *)
Theorem erase_unique_key s key :
  reachable s →
  ∃ w n s',
    walk (this s) (mem s) = Some (w, mem s)
    ∧ erase_unique get_key key_comp size_bits key s = Ok n s'
    ∧ reachable s'
    ∧ (Forall (λ e, equiv_key (get_key e.2) key = false) w → n = 0%Z ∧ s' = s)
    ∧ (Exists (λ e, equiv_key (get_key e.2) key = true) w →
       n = 1%Z
       ∧ ∃ B e A, w = B ++ e :: A
           ∧ Forall (λ e, equiv_key (get_key e.2) key = false) B
           ∧ equiv_key (get_key e.2) key = true
           ∧ walk (this s') (mem s') = Some (B ++ A, mem s')).
Proof.
  intros Hreach. pose proof Hreach as (hd & cs & Hinv)%reachable_inv.
  destruct (rwp_erase_unique s hd cs key
              (λ n s', (n = 0%Z ∧ s' = s
                        ∧ Forall (λ e, equiv_pred key e.2 = false) cs)
                       ∨ (n = 1%Z ∧ ∃ B a v A, cs = B ++ (a, v) :: A
                            ∧ Forall (λ e, equiv_pred key e.2 = false) B
                            ∧ equiv_pred key v = true
                            ∧ tree_inv s' hd (B ++ A))) Hinv)
    as (n & s' & Hrun & Hcase).
  { intros Hall. by left. }
  { intros B a v A s' Hcs HB Hv Hinv'. right. split; [done|].
    by exists B, a, v, A. }
  exists (positions cs), n, s'. split_and!.
  - by eapply walk_inv.
  - done.
  - eapply (reachable_step s (EraseUnique key)); [done|].
    unfold run_op, rbind. by rewrite Hrun.
  - intros Hall. destruct Hcase as [(-> & -> & _)|(_ & B & a & v & A & -> & _ & Hv & _)];
      [done|]. exfalso.
    rewrite positions_app in Hall. apply Forall_app in Hall as [_ Hall].
    apply Forall_cons in Hall as [Ha _]. simpl in Ha.
    unfold equiv_pred in Hv. congruence.
  - intros Hex.
    destruct Hcase as [(_ & _ & Hall)|(-> & B & a & v & A & -> & HB & Hv & Hinv')].
    { exfalso. eapply (Forall_Exists_false _ _ _ Hex). Unshelve.
      by apply (Forall_positions (λ x, equiv_pred key x = false)). }
    split; [done|].
    exists (positions B), (Some a, v), (positions A). split_and!.
    + by rewrite positions_app.
    + by apply (Forall_positions (λ x, equiv_pred key x = false)).
    + done.
    + by rewrite (walk_inv s' hd _ Hinv'), positions_app.
Qed.

(** X3. [erase_multi(key)] takes out all the elements whose key is equivalent
    to [key], which stand together in the walk, and returns how many they
    were; [find(key)] then returns [end()]. *)
Theorem erase_multi_key s key :
  reachable s →
  ∃ B M A s',
    walk (this s) (mem s) = Some (B ++ M ++ A, mem s)
    ∧ Forall (λ e, key_comp (get_key e.2) key = true) B
    ∧ Forall (λ e, equiv_key (get_key e.2) key = true) M
    ∧ Forall (λ e, key_comp key (get_key e.2) = true) A
    ∧ erase_multi get_key key_comp size_bits key s = Ok (Z.of_nat (length M)) s'
    ∧ walk (this s') (mem s') = Some (B ++ A, mem s')
    ∧ find get_key key_comp (this s') key (mem s') = Some (end_ (this s'), mem s')
    ∧ reachable s'.
Proof.
  intros Hreach. pose proof Hreach as (hd & cs & Hinv)%reachable_inv.
  destruct (rwp_erase_multi s hd cs key
              (λ n s', ∃ B M A, cs = B ++ M ++ A
                 ∧ Forall (λ e, key_comp (key_of e) key = true) B
                 ∧ Forall (λ e, equiv_key (key_of e) key = true) M
                 ∧ Forall (λ e, key_comp key (key_of e) = true) A
                 ∧ tree_inv s' hd (B ++ A) ∧ n = Z.of_nat (length M)) Hinv)
    as (n & s' & Hrun & B & M & A & -> & HB & HM & HA & Hinv' & ->).
  { intros B M A s' Hcs HB HM HA Hinv'. by exists B, M, A. }
  pose proof (walk_inv s' hd _ Hinv') as Hwalk'.
  rewrite positions_app in Hwalk'.
  assert (Forall (λ e : ptr * T, key_comp (get_key e.2) key = true) (positions B))
    as HB' by (by apply (Forall_positions (λ x, key_comp (get_key x) key = true))).
  assert (Forall (λ e : ptr * T, key_comp key (get_key e.2) = true) (positions A))
    as HA' by (by apply (Forall_positions (λ x, key_comp key (get_key x) = true))).
  exists (positions B), (positions M), (positions A), s'. split_and!.
  - by rewrite (walk_inv s hd _ Hinv), !positions_app.
  - done.
  - by apply (Forall_positions (λ x, equiv_key (get_key x) key = true)).
  - done.
  - unfold positions. by rewrite length_fmap.
  - done.
  - destruct (find_inv s' hd _ key Hinv') as (w & p & Hw & Hfind & _ & Hend).
    rewrite Hwalk' in Hw. injection Hw as <-. rewrite Hfind, Hend; [done|].
    apply Forall_app. split; [by apply before_not_equiv|by apply after_not_equiv].
  - eapply (reachable_step s (EraseMulti key)); [done|].
    unfold run_op, rbind. by rewrite Hrun.
Qed.

Lemma advance_inv n s hd cs B A :
  tree_inv s hd cs → cs = B ++ A →
  advance n (first_pos hd A) (Some hd) (mem s)
  = Some (first_pos hd (drop n A), mem s).
Proof.
  intros [t Ht] Hcs.
  destruct (wp_advance n s hd t cs B A
              (λ p h', p = first_pos hd (drop n A) ∧ h' = mem s) Ht Hcs)
    as (p & h' & Hp & -> & ->); done.
Qed.

(** X4. [erase(first, last)] takes the elements from [first] up to [last] out
    of the walk and leaves the others where they are. *)
Theorem erase_range_removes s B M A :
  reachable s →
  walk (this s) (mem s) = Some (B ++ M ++ A, mem s) →
  ∃ s', erase_range size_bits
          (default (end_ (this s)) (fst <$> head (M ++ A)))
          (default (end_ (this s)) (fst <$> head A)) s = Ok tt s'
    ∧ walk (this s') (mem s') = Some (B ++ A, mem s')
    ∧ size (this s') = (size (this s) - Z.of_nat (length M))%Z
    ∧ end_ (this s') = end_ (this s)
    ∧ reachable s'.
Proof.
  intros Hreach Hwalk. pose proof Hreach as (hd & cs & Hinv)%reachable_inv.
  rewrite (walk_inv s hd cs Hinv) in Hwalk. injection Hwalk as Hw.
  apply positions_app_inv in Hw as (B' & X & Hcs & -> & HX).
  symmetry in HX. apply positions_app_inv in HX as (M' & A' & -> & -> & ->).
  destruct (rwp_erase_range s hd cs B' M' A'
              (λ _ s', tree_inv s' hd (B' ++ A')) Hinv Hcs)
    as ([] & s' & Hrun & Hinv'); [done|].
  exists s'. rewrite (walk_inv s' hd _ Hinv'), positions_app.
  rewrite <-positions_app.
  rewrite (tree_inv_this s hd cs Hinv). unfold end_, size. simpl.
  rewrite !head_positions, (tree_inv_this s' hd _ Hinv'). simpl.
  split_and!; [done|done| |done|].
  - unfold positions. rewrite Hcs, !length_app, length_fmap. lia.
  - eapply (reachable_step s (EraseRange (length B') (length M'))); [done|].
    unfold run_op, rbind, get_this, lift.
    rewrite (position_inv s hd cs _ Hinv), Hcs, drop_app_length.
    rewrite (tree_inv_this s hd _ Hinv). unfold end_. simpl.
    rewrite (advance_inv _ s hd cs B' (M' ++ A') Hinv Hcs), drop_app_length.
    simpl. by rewrite <-(tree_inv_this s hd cs Hinv), state_eta.
Qed.

Lemma lookup_free_all_in S h a : a ∈ S → free_all S h !! a = None.
Proof.
  clear. induction S as [|b S IH]; simpl; [by intros ?%elem_of_nil|].
  intros Hin. destruct (decide (a = b)) as [->|Hne].
  - apply lookup_delete_eq.
  - rewrite lookup_delete_ne by done. apply IH.
    apply elem_of_cons in Hin as [?|?]; done.
Qed.

Lemma rwp_clear_frees s hd cs Q :
  tree_inv s hd cs →
  (∀ s', tree_inv s' hd [] → (∀ a, a ∈ cs.*1 → mem s' !! a = None) →
         same_outside (hd :: cs.*1) (mem s) (mem s') → Q tt s') →
  rwp clear s Q.
Proof.
  intros [t Hinv] HQ. destruct s as [o h].
  pose proof Hinv as (Hthis & Htr & Hcells & Hrb & Hsort & Hlen).
  simpl in Hthis, Htr. subst o.
  pose proof Htr as (Hhd & Hrep & Hnd).
  unfold clear. rwp_steps. case_bool_decide as Hz; simpl.
  { rwp_steps.
    assert (cs = []) as -> by (destruct cs; [done|simpl in Hz; lia]).
    apply HQ; [by exists t|by intros a ?%elem_of_nil|by intros a _]. }
  unfold root, leftmost, rightmost. simpl. rwp_steps. wp_steps. rwp_steps.
  pose proof Hnd as Hnd0.
  apply NoDup_cons in Hnd as [Hhdn Hnd].
  eapply (rwp_erase_since _ t (State _ h) (Some hd)); simpl;
    [done|done|by eapply tree_rep_fuel|].
  assert (free_all (addrs t) h !! hd
          = Some (Node (top t) (first_pos hd cs) (last_pos hd cs) rb_tree_red None))
    as Hhd'.
  { by rewrite lookup_free_all. }
  repeat first [rwp_step | wp_step | eapply wp_update; [lookup_tac|simpl]].
  apply HQ.
  - exists Leaf. unfold tree_at. simpl.
    split_and!; try done.
    + unfold tree_rep. simpl. rewrite !insert_insert_eq, lookup_insert_eq.
      split_and!; [done|done|]. apply NoDup_singleton.
    + split; [done|]. by exists 0%nat.
    + constructor.
    + pose proof pow_bits. lia.
  - simpl. intros a Ha. rewrite <-Hcells, <-addrs_cells in Ha.
    rewrite !lookup_insert_ne by (intros <-; done).
    by apply lookup_free_all_in.
  - simpl. intros a Ha. apply not_elem_of_cons in Ha as [Hne Ha].
    rewrite <-Hcells, <-addrs_cells in Ha.
    rewrite !lookup_insert_ne by done. by apply lookup_free_all.
Qed.

(** X5. [clear()] leaves an empty container on the same header: the walk
    visits nothing, the size is 0, [begin()] is [end()], every node of
    an element is given back and the rest of the store is untouched. *)
Theorem clear_empties s :
  reachable s →
  ∃ w s',
    walk (this s) (mem s) = Some (w, mem s)
    ∧ clear s = Ok tt s'
    ∧ walk (this s') (mem s') = Some ([], mem s')
    ∧ size (this s') = 0%Z
    ∧ end_ (this s') = end_ (this s)
    ∧ begin (this s') (mem s') = Some (end_ (this s'), mem s')
    ∧ (∀ a v, (Some a, v) ∈ w → mem s' !! a = None)
    ∧ (∀ a, Some a ≠ end_ (this s) → (∀ v, (Some a, v) ∉ w) →
            mem s' !! a = mem s !! a)
    ∧ reachable s'.
Proof.
  intros Hreach. pose proof Hreach as (hd & cs & Hinv)%reachable_inv.
  destruct (rwp_clear_frees s hd cs
              (λ _ s', tree_inv s' hd []
                       ∧ (∀ a, a ∈ cs.*1 → mem s' !! a = None)
                       ∧ same_outside (hd :: cs.*1) (mem s) (mem s')) Hinv)
    as ([] & s' & Hrun & Hinv' & Hfree & Hpres); [done|].
  exists (positions cs), s'.
  rewrite (walk_inv s hd cs Hinv), (walk_inv s' hd [] Hinv').
  pose proof Hinv' as [t' Ht'].
  pose proof Ht' as (_ & (Hhd' & _) & _).
  rewrite (tree_inv_this s hd cs Hinv), (tree_inv_this s' hd [] Hinv').
  unfold end_, size, begin, leftmost, read. simpl.
  split_and!; try done.
  - unfold get_left, bind, deref. by rewrite Hhd'.
  - intros a v Hin. apply Hfree.
    apply list_elem_of_fmap in Hin as ([a' v'] & [= <- <-] & Hin).
    apply list_elem_of_fmap. by exists (a, v).
  - intros a Hne Hnot. apply Hpres.
    apply not_elem_of_cons. split; [congruence|].
    intros ([a' v] & -> & Hin)%list_elem_of_fmap. apply (Hnot v).
    apply list_elem_of_fmap. by exists (a', v).
  - eapply (reachable_step s Clear); done.
Qed.

(** *** Queries *)

Lemma wp_inv_eq {A} (m : M A) h (x : A) h0 :
  wp m h (λ a h', a = x ∧ h' = h0) → m h = Some (x, h0).
Proof. clear. by intros (a & h' & -> & -> & ->). Qed.

Lemma find_eq s hd cs key :
  tree_inv s hd cs →
  find get_key key_comp (this s) key (mem s)
  = Some (Some (find_pos (equiv_pred key) cs hd), mem s).
Proof. intros [t Ht]. apply wp_inv_eq. by eapply wp_find. Qed.

Lemma lower_bound_eq s hd cs key :
  tree_inv s hd cs →
  lower_bound get_key key_comp (this s) key (mem s)
  = Some (Some (find_pos (lower_pred key) cs hd), mem s).
Proof. intros [t Ht]. apply wp_inv_eq. by eapply wp_lower_bound. Qed.

Lemma upper_bound_eq s hd cs key :
  tree_inv s hd cs →
  upper_bound get_key key_comp (this s) key (mem s)
  = Some (Some (find_pos (upper_pred key) cs hd), mem s).
Proof. intros [t Ht]. apply wp_inv_eq. by eapply wp_upper_bound. Qed.

Lemma inc_eq s hd cs B a v A :
  tree_inv s hd cs → cs = B ++ (a, v) :: A →
  inc (Some a) (mem s) = Some (first_pos hd A, mem s).
Proof. intros [t Ht] Hcs. apply wp_inv_eq. by eapply wp_inc_cell. Qed.

Lemma equal_range_multi_inv s hd cs key :
  tree_inv s hd cs →
  ∃ B M A, cs = B ++ M ++ A
    ∧ Forall (λ e, key_comp (key_of e) key = true) B
    ∧ Forall (λ e, equiv_key (key_of e) key = true) M
    ∧ Forall (λ e, key_comp key (key_of e) = true) A
    ∧ equal_range_multi get_key key_comp (this s) key (mem s)
      = Some ((first_pos hd (M ++ A), first_pos hd A), mem s)
    ∧ count_multi get_key key_comp size_bits (this s) key (mem s)
      = Some (Z.of_nat (length M), mem s).
Proof.
  intros Hinv. pose proof Hinv as [t Ht].
  pose proof Ht as (Hthis & Htr & Hcells & Hrb & Hsort & Hlen).
  destruct (equal_range_split hd cs key Hsort)
    as (B & M & A & Hcs & HB & HM & HA & Hlo & Hup).
  exists B, M, A.
  assert (equal_range_multi get_key key_comp (this s) key (mem s)
          = Some ((first_pos hd (M ++ A), first_pos hd A), mem s)) as Heq.
  { unfold equal_range_multi, bind.
    rewrite (lower_bound_eq s hd cs key Hinv), (upper_bound_eq s hd cs key Hinv).
    by rewrite Hlo, Hup. }
  split_and!; try done.
  unfold count_multi, bind. rewrite Heq. simpl.
  pose proof (tree_at_fuel _ _ _ _ Ht) as Hfuel.
  rewrite (wp_inv_eq _ _ (Z.of_nat (length M)) (mem s)).
  - unfold ret. rewrite Z.mod_small; [done|].
    rewrite Hcs, !length_app in Hlen. lia.
  - apply wp_with_fuel.
    apply (wp_distance _ s hd t cs B M A _ Ht Hcs); [|done].
    rewrite Hcs, !length_app in Hfuel. lia.
Qed.

(** X6. [equal_range_multi(key)] returns the two ends of the part of the walk
    that holds exactly the elements whose key is equivalent to [key]: the
    elements before it go before [key], those after it go after [key]. *)
Theorem equal_range_multi_correct s key :
  reachable s →
  ∃ B M A,
    walk (this s) (mem s) = Some (B ++ M ++ A, mem s)
    ∧ Forall (λ e, key_comp (get_key e.2) key = true) B
    ∧ Forall (λ e, equiv_key (get_key e.2) key = true) M
    ∧ Forall (λ e, key_comp key (get_key e.2) = true) A
    ∧ equal_range_multi get_key key_comp (this s) key (mem s)
      = Some ((default (end_ (this s)) (fst <$> head (M ++ A)),
               default (end_ (this s)) (fst <$> head A)), mem s).
Proof.
  intros (hd & cs & Hinv)%reachable_inv.
  destruct (equal_range_multi_inv s hd cs key Hinv)
    as (B & M & A & Hcs & HB & HM & HA & Heq & _).
  exists (positions B), (positions M), (positions A).
  rewrite (walk_inv s hd cs Hinv), Hcs, !positions_app.
  rewrite <-positions_app, (tree_inv_this s hd cs Hinv). unfold end_. simpl.
  rewrite !head_positions. rewrite (tree_inv_this s hd cs Hinv) in Heq.
  split_and!; [done| | | |done].
  - by apply (Forall_positions (λ x, key_comp (get_key x) key = true)).
  - by apply (Forall_positions (λ x, equiv_key (get_key x) key = true)).
  - by apply (Forall_positions (λ x, key_comp key (get_key x) = true)).
Qed.

Lemma filter_equiv_split key (B M A : list T) :
  Forall (λ x, key_comp (get_key x) key = true) B →
  Forall (λ x, equiv_key (get_key x) key = true) M →
  Forall (λ x, key_comp key (get_key x) = true) A →
  filter (λ x, equiv_key (get_key x) key = true) (B ++ M ++ A) = M.
Proof.
  clear. intros HB HM HA. rewrite !filter_app.
  assert (filter (λ x, equiv_key (get_key x) key = true) B = []) as ->.
  { induction HB as [|x B Hx _ IH]; [done|].
    rewrite filter_cons_False; [done|]. unfold equiv_key. by rewrite Hx. }
  assert (filter (λ x, equiv_key (get_key x) key = true) A = []) as ->.
  { induction HA as [|x A Hx _ IH]; [done|].
    rewrite filter_cons_False; [done|]. unfold equiv_key. rewrite Hx.
    by rewrite andb_false_r. }
  rewrite app_nil_r. simpl.
  induction HM as [|x M Hx _ IH]; [done|].
  rewrite filter_cons_True by done. by rewrite IH.
Qed.

Lemma count_multi_eq s hd cs key :
  tree_inv s hd cs →
  count_multi get_key key_comp size_bits (this s) key (mem s)
  = Some (Z.of_nat
            (length (filter (λ x, equiv_key (get_key x) key = true) cs.*2)),
          mem s).
Proof.
  intros Hinv.
  destruct (equal_range_multi_inv s hd cs key Hinv)
    as (B & M & A & Hcs & HB & HM & HA & _ & Hcount).
  rewrite Hcount, Hcs, !fmap_app, filter_equiv_split, length_fmap; [done|..].
  - by rewrite Forall_fmap.
  - by rewrite Forall_fmap.
  - by rewrite Forall_fmap.
Qed.

(** X7. [count_multi(key)] returns the number of elements of the container
    whose key is equivalent to [key], and leaves the store as it is. *)
Theorem count_multi_counts s key :
  reachable s →
  ∃ xs, contents s = Some xs
    ∧ count_multi get_key key_comp size_bits (this s) key (mem s)
      = Some (Z.of_nat
                (length (filter (λ x, equiv_key (get_key x) key = true) xs)),
              mem s).
Proof.
  intros (hd & cs & Hinv)%reachable_inv.
  exists cs.*2. split; [by eapply contents_inv|by eapply count_multi_eq].
Qed.

Lemma find_cases s hd cs key :
  tree_inv s hd cs →
  (Forall (λ e, equiv_pred key e.2 = false) cs
   ∧ find get_key key_comp (this s) key (mem s) = Some (Some hd, mem s))
  ∨ (∃ B a v A, cs = B ++ (a, v) :: A
       ∧ Forall (λ e, equiv_pred key e.2 = false) B
       ∧ equiv_pred key v = true ∧ a ≠ hd
       ∧ find get_key key_comp (this s) key (mem s) = Some (Some a, mem s)).
Proof.
  intros Hinv. rewrite (find_eq s hd cs key Hinv).
  destruct (find_pos_split (equiv_pred key) cs hd)
    as [[Hall Hf]|(B & a & v & A & Hcs & HB & Hv & Hf)]; rewrite Hf.
  - by left.
  - right. exists B, a, v, A. split_and!; try done.
    destruct Hinv as [t Ht].
    eapply (tree_at_not_header _ _ _ _ _ v); [done|]. rewrite Hcs.
    apply elem_of_app. right. by left.
Qed.

(** X8. [equal_range_unique(key)] returns the position of the first element
    whose key is equivalent to [key] and the position after it, and
    [end()] twice when there is no such element. *)
Theorem equal_range_unique_correct s key :
  reachable s →
  ∃ w lo hi,
    walk (this s) (mem s) = Some (w, mem s)
    ∧ equal_range_unique get_key key_comp (this s) key (mem s)
      = Some ((lo, hi), mem s)
    ∧ (Forall (λ e, equiv_key (get_key e.2) key = false) w →
       lo = end_ (this s) ∧ hi = end_ (this s))
    ∧ (Exists (λ e, equiv_key (get_key e.2) key = true) w →
       ∃ B e A, w = B ++ e :: A
         ∧ Forall (λ e, equiv_key (get_key e.2) key = false) B
         ∧ equiv_key (get_key e.2) key = true
         ∧ lo = e.1 ∧ hi = default (end_ (this s)) (fst <$> head A)).
Proof.
  intros (hd & cs & Hinv)%reachable_inv.
  exists (positions cs). rewrite (walk_inv s hd cs Hinv).
  unfold equal_range_unique, bind.
  rewrite (tree_inv_this s hd cs Hinv). unfold end_. simpl.
  rewrite <-(tree_inv_this s hd cs Hinv).
  destruct (find_cases s hd cs key Hinv)
    as [[Hall ->]|(B & a & v & A & Hcs & HB & Hv & Hne & ->)].
  - rewrite ptr_eqb_refl. exists (Some hd), (Some hd).
    split_and!; [done|done|done|]. intros Hex. exfalso.
    eapply Forall_Exists_false; [|exact Hex].
    by apply (Forall_positions (λ x, equiv_pred key x = false)).
  - rewrite (ptr_eqb_some_ne a hd) by done.
    rewrite (inc_eq s hd cs B a v A Hinv Hcs).
    exists (Some a), (first_pos hd A). split_and!; [done|done| |].
    + intros Hall. exfalso. rewrite Hcs, positions_app in Hall.
      apply Forall_app in Hall as [_ Hall].
      apply Forall_cons in Hall as [Ha _]. simpl in Ha.
      unfold equiv_pred in Hv. congruence.
    + intros _. exists (positions B), (Some a, v), (positions A).
      rewrite head_positions. split_and!; try done.
      * by rewrite Hcs, positions_app.
      * by apply (Forall_positions (λ x, equiv_pred key x = false)).
Qed.

(** X9. [count_unique(key)] returns 1 when the container holds an element
    whose key is equivalent to [key], however many there are, and 0 when
    it holds none. *)
Theorem count_unique_correct s key :
  reachable s →
  ∃ xs n,
    contents s = Some xs
    ∧ count_unique get_key key_comp (this s) key (mem s) = Some (n, mem s)
    ∧ (Exists (λ x, equiv_key (get_key x) key = true) xs → n = 1%Z)
    ∧ (Forall (λ x, equiv_key (get_key x) key = false) xs → n = 0%Z).
Proof.
  intros (hd & cs & Hinv)%reachable_inv.
  exists cs.*2. rewrite (contents_inv s hd cs Hinv).
  unfold count_unique, bind.
  rewrite (tree_inv_this s hd cs Hinv). unfold end_. simpl.
  rewrite <-(tree_inv_this s hd cs Hinv).
  destruct (find_cases s hd cs key Hinv)
    as [[Hall ->]|(B & a & v & A & Hcs & HB & Hv & Hne & ->)].
  - rewrite ptr_eqb_refl. exists 0%Z. split_and!; [done|done| |done].
    intros Hex. exfalso. eapply Forall_Exists_false; [|exact Hex].
    by rewrite Forall_fmap.
  - rewrite (ptr_eqb_some_ne a hd) by done. exists 1%Z.
    split_and!; [done|done|done|].
    intros Hall. exfalso. rewrite Hcs, fmap_app in Hall.
    apply Forall_app in Hall as [_ Hall].
    apply Forall_cons in Hall as [Ha _]. simpl in Ha.
    unfold equiv_pred in Hv. congruence.
Qed.

(** X10. [size()] is the number of elements that the walk visits and never
    exceeds [max_size()]; [empty()] says whether the walk visits nothing;
    [begin()] is the first position of the walk, [end()] in an empty
    container. *)
Theorem size_empty_begin s :
  reachable s →
  ∃ w,
    walk (this s) (mem s) = Some (w, mem s)
    ∧ size (this s) = Z.of_nat (length w)
    ∧ (size (this s) ≤ max_size size_bits)%Z
    ∧ (empty (this s) = true ↔ w = [])
    ∧ begin (this s) (mem s)
      = Some (default (end_ (this s)) (fst <$> head w), mem s).
Proof.
  intros (hd & cs & Hinv)%reachable_inv.
  exists (positions cs). rewrite (walk_inv s hd cs Hinv).
  pose proof Hinv as (t & Hthis & (Hhd & _) & _ & _ & _ & Hlen).
  rewrite Hthis. unfold size, empty, end_, begin, leftmost, read. simpl.
  rewrite head_positions, max_size_eq. unfold positions.
  rewrite length_fmap. split_and!; [done|done|lia| |].
  - rewrite bool_decide_eq_true. destruct cs; simpl; [done|].
    split; [lia|done].
  - unfold get_left, bind, deref. by rewrite Hhd.
Qed.

Lemma dec_end s hd cs :
  tree_inv s hd cs → cs ≠ [] →
  dec (Some hd) (mem s) = Some (last_pos hd cs, mem s).
Proof.
  intros (t & Hthis & (Hhd & Hrep & Hnd) & Hcells & _) Hne.
  destruct t as [|a c l v r]; [by rewrite <-Hcells in Hne|].
  simpl in Hrep, Hhd. destruct Hrep as (Ha & _).
  unfold dec, get_grandparent, get_parent, get_color, get_right, bind, deref.
  rewrite Hhd. simpl. rewrite Ha. simpl. rewrite Hhd. simpl.
  rewrite ptr_eqb_refl, color_is_refl. simpl. rewrite Hhd. simpl.
  by rewrite <-Hcells.
Qed.

Lemma dec_eq s hd cs B a v A :
  tree_inv s hd cs → cs = B ++ (a, v) :: A → B ≠ [] →
  dec (Some a) (mem s) = Some (last_pos hd B, mem s).
Proof. intros [t Ht] Hcs HB. apply wp_inv_eq. by eapply wp_dec_cell. Qed.

(** X11. The increment of the position of an element gives the next position
    of the walk, [end()] after the last element, and the decrement of
    that position gives the position of the element back. *)
Theorem inc_dec_round_trip s B p v A :
  reachable s →
  walk (this s) (mem s) = Some (B ++ (p, v) :: A, mem s) →
  inc p (mem s) = Some (default (end_ (this s)) (fst <$> head A), mem s)
  ∧ dec (default (end_ (this s)) (fst <$> head A)) (mem s) = Some (p, mem s).
Proof.
  intros (hd & cs & Hinv)%reachable_inv Hwalk.
  rewrite (walk_inv s hd cs Hinv) in Hwalk. injection Hwalk as Hw.
  apply positions_cons_inv in Hw as (B' & a & A' & Hcs & -> & -> & ->).
  rewrite (tree_inv_this s hd cs Hinv). unfold end_. simpl.
  rewrite head_positions. split; [by eapply inc_eq|].
  destruct A' as [|[a' v'] A'].
  - rewrite first_pos_nil, (dec_end s hd cs Hinv), Hcs, last_pos_snoc; [done|].
    rewrite Hcs. by destruct B'.
  - rewrite first_pos_cons.
    rewrite (dec_eq s hd cs (B' ++ [(a, v)]) a' v' A' Hinv), last_pos_snoc;
      [done| |by destruct B'].
    by rewrite <-app_assoc.
Qed.

(** X12. In a container that is not empty the leftmost node of the tree under
    the root is the first position of the walk and the rightmost node is
    the last one; these are the nodes the header keeps as [leftmost()]
    and [rightmost()]. *)
Theorem min_max_of_root s e w :
  reachable s →
  walk (this s) (mem s) = Some (e :: w, mem s) →
  ∃ rt,
    read (root (this s)) (mem s) = Some (rt, mem s)
    ∧ rb_tree_min rt (mem s) = Some (e.1, mem s)
    ∧ read (leftmost (this s)) (mem s) = Some (e.1, mem s)
    ∧ rb_tree_max rt (mem s) = Some ((default e (last w)).1, mem s)
    ∧ read (rightmost (this s)) (mem s) = Some ((default e (last w)).1, mem s).
Proof.
  intros (hd & cs & Hinv)%reachable_inv Hwalk.
  rewrite (walk_inv s hd cs Hinv) in Hwalk. injection Hwalk as Hw.
  pose proof Hinv as (t & Hthis & Htr & Hcells & _).
  pose proof Htr as (Hhd & Hrep & Hnd).
  pose proof (tree_rep_fuel _ _ _ _ _ Htr) as Hfuel.
  destruct t as [|a c l v r]; [by rewrite <-Hcells in Hw|].
  rewrite Hthis. unfold root, leftmost, rightmost, read. simpl.
  exists (Some a).
  assert (first_pos hd cs = e.1) as Hfirst.
  { destruct cs as [|[a' v'] cs']; [done|]. by injection Hw as <- _. }
  assert (last_pos hd cs = (default e (last w)).1) as Hlast.
  { destruct cs as [|[a' v'] cs']; [done|]. injection Hw as <- <-.
    unfold last_pos, positions. rewrite last_cons, fmap_last.
    by destruct (last cs') as [[a'' v'']|]. }
  split_and!.
  - unfold get_parent, bind, deref. by rewrite Hhd.
  - apply wp_inv_eq. apply wp_with_fuel.
    eapply wp_min_loop; [exact Hrep|done|by apply Nat.lt_le_incl|].
    intros b cs0 Hc Hb. split; [|done]. rewrite <-Hfirst, <-Hcells, Hc.
    unfold first_pos. destruct cs0 as [|[a' v'] cs']; [done|].
    simpl in Hb. by injection Hb as ->.
  - unfold get_left, bind, deref. by rewrite Hhd, Hfirst.
  - apply wp_inv_eq. apply wp_with_fuel.
    eapply wp_max_loop; [exact Hrep|done|by apply Nat.lt_le_incl|].
    intros b cs0 Hc Hb. split; [|done]. rewrite <-Hlast, <-Hcells, Hc.
    unfold last_pos. rewrite fmap_last in Hb.
    destruct (last cs0) as [[a' v']|]; [|done].
    simpl in Hb. by injection Hb as ->.
  - unfold get_right, bind, deref. by rewrite Hhd, Hlast.
Qed.

(** *** Insertion and the queries *)

Lemma insert_post_elem v cs nd cs' :
  insert_post v cs nd cs' →
  ∃ B A, cs = B ++ A ∧ cs' = B ++ (nd, v) :: A.
Proof. clear. intros (B & A & ? & ? & _). by exists B, A. Qed.

Lemma count_after_insert key v (B A : list T) :
  length (filter (λ x, equiv_key (get_key x) key = true) (B ++ v :: A))
  = (length (filter (λ x, equiv_key (get_key x) key = true) (B ++ A))
     + if equiv_key (get_key v) key then 1 else 0)%nat.
Proof.
  clear. rewrite !filter_app, !length_app.
  destruct (equiv_key (get_key v) key) eqn:Hv.
  - rewrite filter_cons_True by done. simpl. lia.
  - rewrite filter_cons_False by (by rewrite Hv). lia.
Qed.

Lemma inserted_queries s' hd B nd v A :
  tree_inv s' hd (B ++ (nd, v) :: A) →
  walk (this s') (mem s') = Some (positions B ++ (Some nd, v) :: positions A, mem s')
  ∧ (∃ q x, find get_key key_comp (this s') (get_key v) (mem s') = Some (q, mem s')
       ∧ (q, x) ∈ positions B ++ (Some nd, v) :: positions A
       ∧ equiv_key (get_key x) (get_key v) = true).
Proof.
  intros Hinv'. pose proof (walk_inv s' hd _ Hinv') as Hwalk.
  rewrite positions_app in Hwalk. split; [done|].
  destruct (find_inv s' hd _ (get_key v) Hinv') as (w & q & Hw & Hfind & Hex & _).
  rewrite Hwalk in Hw. injection Hw as <-.
  destruct Hex as (x & Hin & Hx).
  { apply Exists_app. right. left. simpl. apply equiv_key_refl. }
  by exists q, x.
Qed.

(** X13. After [insert_multi(v)] has returned, the position it returned holds
    [v] in the walk, the size is one more, [find] of the key of [v]
    returns the position of an element with an equivalent key, and
    [count_multi(k)] is one more than before for a key [k] equivalent to
    that of [v] and what it was for every other key. *)
Theorem insert_multi_round_trip s v p s' :
  reachable s →
  insert_multi get_key key_comp size_bits alloc_fails ctor_throws v s = Ok p s' →
  reachable s'
  ∧ size (this s') = (size (this s) + 1)%Z
  ∧ (∃ w', walk (this s') (mem s') = Some (w', mem s') ∧ (p, v) ∈ w'
       ∧ ∃ q x, find get_key key_comp (this s') (get_key v) (mem s')
                = Some (q, mem s')
           ∧ (q, x) ∈ w' ∧ equiv_key (get_key x) (get_key v) = true)
  ∧ (∀ k, ∃ n,
       count_multi get_key key_comp size_bits (this s) k (mem s) = Some (n, mem s)
       ∧ count_multi get_key key_comp size_bits (this s') k (mem s')
         = Some ((n + if equiv_key (get_key v) k then 1 else 0)%Z, mem s')).
Proof.
  intros Hreach Hrun. pose proof Hreach as (hd & cs & Hinv)%reachable_inv.
  pose proof (rwpe_inv_ok _ _ _ _ _ _ (rwpe_insert_multi s hd cs v Hinv) Hrun)
    as (nd & cs' & -> & Hfresh & Hpost & Hinv' & _).
  apply insert_post_elem in Hpost as (B & A & Hcs & Hcs').
  rewrite Hcs' in Hinv'.
  destruct (inserted_queries s' hd B nd v A Hinv') as (Hwalk & Hfind).
  split_and!.
  - eapply (reachable_step s (InsertMulti v)); [done|].
    unfold run_op, try_catch_all. by rewrite Hrun.
  - rewrite (tree_inv_this s hd cs Hinv), (tree_inv_this s' hd _ Hinv').
    unfold size. simpl. rewrite Hcs, !length_app. simpl. lia.
  - eexists. split; [exact Hwalk|]. split; [|done].
    apply elem_of_app. right. by left.
  - intros k. eexists. split; [by eapply count_multi_eq|].
    rewrite (count_multi_eq s' hd _ k Hinv'), Hcs.
    rewrite !fmap_app, fmap_cons, count_after_insert. simpl.
    rewrite <-fmap_app. f_equal. f_equal. destruct (equiv_key (get_key v) k); lia.
Qed.

(** X14. [insert_unique(v)] that returns has inserted [v] exactly when the
    container held no element with a key equivalent to that of [v]: then
    the flag is [true], the position holds [v] in the walk and the other
    elements keep their places; otherwise the flag is [false] and the
    container is as it was.  In both cases the container then holds an
    element with that key. *)
Theorem insert_unique_iff_absent s v p b s' :
  reachable s →
  insert_unique get_key key_comp size_bits alloc_fails ctor_throws v s
  = Ok (p, b) s' →
  reachable s'
  ∧ ∃ w, walk (this s) (mem s) = Some (w, mem s)
    ∧ (b = true ↔ Forall (λ e, equiv_key (get_key e.2) (get_key v) = false) w)
    ∧ (b = false → s' = s)
    ∧ (b = true →
       ∃ B A, w = B ++ A
         ∧ walk (this s') (mem s') = Some (B ++ (p, v) :: A, mem s')
         ∧ size (this s') = (size (this s) + 1)%Z)
    ∧ count_unique get_key key_comp (this s') (get_key v) (mem s')
      = Some (1%Z, mem s').
Proof.
  intros Hreach Hrun. pose proof Hreach as (hd & cs & Hinv)%reachable_inv.
  assert (reachable s') as Hreach'.
  { eapply (reachable_step s (InsertUnique v)); [done|].
    unfold run_op, try_catch_all. by rewrite Hrun. }
  split; [done|]. exists (positions cs).
  split; [by eapply walk_inv|].
  assert (∀ s1 hd1 cs1, tree_inv s1 hd1 cs1 →
            Exists (λ e, equiv_key (key_of e) (get_key v) = true) cs1 →
            count_unique get_key key_comp (this s1) (get_key v) (mem s1)
            = Some (1%Z, mem s1)) as Hcount.
  { intros s1 hd1 cs1 Hinv1 Hex. unfold count_unique, bind.
    rewrite (tree_inv_this s1 hd1 cs1 Hinv1). unfold end_. simpl.
    rewrite <-(tree_inv_this s1 hd1 cs1 Hinv1).
    destruct (find_cases s1 hd1 cs1 (get_key v) Hinv1)
      as [[Hall ->]|(B & a & x & A & Hcs & HB & Hv & Hne & ->)].
    - exfalso. eapply Forall_Exists_false; [|exact Hex]. exact Hall.
    - by rewrite (ptr_eqb_some_ne a hd1). }
  pose proof (rwpe_inv_ok _ _ _ _ _ _ (rwpe_insert_unique s hd cs v Hinv) Hrun)
    as [(Hb & nd & cs' & Hp & Hfresh & Hpost & Hinv' & _ & Hall & _)
       |(Hb & -> & Hex & _)]; simpl in *; subst b.
  - subst p. apply insert_post_elem in Hpost as (B & A & Hcs & Hcs').
    rewrite Hcs' in Hinv'.
    split_and!.
    + split; [|done]. intros _.
      by apply (Forall_positions (λ x, equiv_key (get_key x) (get_key v) = false)).
    + done.
    + intros _. exists (positions B), (positions A).
      rewrite Hcs, positions_app. split; [done|].
      destruct (inserted_queries s' hd B nd v A Hinv') as (Hwalk & _).
      split; [done|].
      rewrite (tree_inv_this s hd cs Hinv), (tree_inv_this s' hd _ Hinv').
      unfold size. simpl. rewrite Hcs, !length_app. simpl. lia.
    + eapply Hcount; [exact Hinv'|].
      apply Exists_app. right. left. apply equiv_key_refl.
  - split_and!.
    + split; [done|]. intros Hall. exfalso.
      eapply Forall_Exists_false; [|exact Hex].
      unfold positions in Hall. by rewrite Forall_fmap in Hall.
    + done.
    + done.
    + by eapply Hcount.
Qed.

(** *** Containers with unique keys *)

Local Abbreviation strict :=
  (StronglySorted (λ x y : addr * T, key_comp (key_of x) (key_of y) = true)).

(** What one call does to the sequence of cells: nothing, or it takes a
    part out, or it puts one cell in. *)
Lemma rwp_run_op_step o s hd cs Q :
  tree_inv s hd cs →
  (∀ s' cs', tree_inv s' hd cs' →
     (cs' = cs
      ∨ (∃ B M A, cs = B ++ M ++ A ∧ cs' = B ++ A)
      ∨ (∃ B A nd v, cs = B ++ A ∧ cs' = B ++ (nd, v) :: A
           ∧ (unique_op o = true →
              Forall (λ e, equiv_key (key_of e) (get_key v) = false) cs))) →
     Q tt s') →
  rwp (run_op o) s Q.
Proof.
  intros Hinv HQ. pose proof Hinv as [t Ht]. destruct s as [o' h].
  pose proof Ht as (Hthis & _). simpl in Hthis. subst o'.
  destruct o as [v|v|v|v|i v|i v|i|i n|k|k|]; unfold run_op; cbv beta match.
  - eapply rwp_try_catch_all; [by apply rwpe_insert_multi| |].
    + intros a s' (nd & cs' & _ & _ & (B & A & -> & -> & _) & Hinv' & _).
      apply (HQ _ _ Hinv'). right. right. by exists B, A, nd, v.
    + intros e s' [-> _]. apply (HQ _ _ Hinv). by left.
  - eapply rwp_try_catch_all; [by apply rwpe_insert_unique| |].
    + intros a s' [(_ & nd & cs' & _ & _ & (B & A & -> & -> & _) & Hinv' & _ & Hall & _)
                  |(_ & -> & _)].
      * apply (HQ _ _ Hinv'). right. right. by exists B, A, nd, v.
      * apply (HQ _ _ Hinv). by left.
    + intros e s' [-> _]. apply (HQ _ _ Hinv). by left.
  - eapply rwp_try_catch_all; [by apply rwpe_emplace_multi| |].
    + intros a s' (nd & cs' & _ & _ & (B & A & -> & -> & _) & Hinv' & _).
      apply (HQ _ _ Hinv'). right. right. by exists B, A, nd, v.
    + intros e s' [-> _]. apply (HQ _ _ Hinv). by left.
  - eapply rwp_try_catch_all; [by apply rwpe_emplace_unique| |].
    + intros a s' [_ [(_ & nd & cs' & _ & _ & (B & A & -> & -> & _) & Hinv' & Hall)
                     |(_ & -> & _)]].
      * apply (HQ _ _ Hinv'). right. right. by exists B, A, nd, v.
      * apply (HQ _ _ Hinv). by left.
    + intros e s' [-> _]. apply (HQ _ _ Hinv). by left.
  - rwp_steps. apply (wp_position (State _ h) hd t cs i _ Ht). simpl.
    unfold insert_multi_hint.
    eapply rwp_try_catch_all;
      [apply (rwpe_emplace_multi_use_hint _ hd cs (take i cs) (drop i cs) v);
         [done|by rewrite take_drop]| |].
    + intros a s' (nd & cs' & _ & _ & (B & A & HB & ->) & Hinv' & _).
      apply (HQ _ _ Hinv'). right. right. by exists B, A, nd, v.
    + intros e s' [-> _]. apply (HQ _ _ Hinv). by left.
  - rwp_steps. apply (wp_position (State _ h) hd t cs i _ Ht). simpl.
    unfold insert_unique_hint.
    eapply rwp_try_catch_all;
      [apply (rwpe_emplace_unique_use_hint _ hd cs (take i cs) (drop i cs) v);
         [done|by rewrite take_drop]| |].
    + intros a s' [_ [(nd & cs' & _ & _ & (B & A & HB & ->) & Hinv' & Hall)|(-> & _)]].
      * apply (HQ _ _ Hinv'). right. right. by exists B, A, nd, v.
      * apply (HQ _ _ Hinv). by left.
    + intros e s' [-> _]. apply (HQ _ _ Hinv). by left.
  - rwp_steps. apply (wp_position (State _ h) hd t cs i _ Ht). simpl.
    unfold end_. simpl.
    destruct (drop i cs) as [|[a v] A] eqn:Hdrop.
    + rewrite first_pos_nil, ptr_eqb_refl. rwp_steps.
      apply (HQ _ _ Hinv). by left.
    + rewrite first_pos_cons.
      assert (cs = take i cs ++ (a, v) :: A) as Hcs.
      { by rewrite <-Hdrop, take_drop. }
      assert (a ≠ hd) as Hahd.
      { eapply (tree_at_not_header _ _ _ _ _ v); [done|]. rewrite Hcs.
        apply elem_of_app. right. by left. }
      rewrite (ptr_eqb_some_ne a hd) by done. rwp_steps.
      eapply (rwp_erase _ hd cs (take i cs) a v A); [done|done|].
      intros s' Hinv' _. rwp_steps. apply (HQ _ _ Hinv'). right. left.
      by exists (take i cs), [(a, v)], A.
  - rwp_steps. apply (wp_position (State _ h) hd t cs i _ Ht). simpl.
    rwp_steps. unfold end_. simpl.
    apply (wp_advance n (State _ h) hd t cs (take i cs) (drop i cs) _ Ht).
    { by rewrite take_drop. }
    simpl. rewrite <-(take_drop n (drop i cs)) at 1.
    eapply (rwp_erase_range _ hd cs (take i cs)); [done|by rewrite !take_drop|].
    intros s' Hinv'. apply (HQ _ _ Hinv'). right. left.
    exists (take i cs), (take n (drop i cs)), (drop n (drop i cs)).
    by rewrite !take_drop.
  - rwp_steps. eapply rwp_erase_multi; [done|].
    intros B M A s' -> _ _ _ Hinv'. rwp_steps. apply (HQ _ _ Hinv').
    right. left. by exists B, M, A.
  - rwp_steps. eapply rwp_erase_unique; [done| |].
    + intros _. rwp_steps. apply (HQ _ _ Hinv). by left.
    + intros B a v A s' -> _ _ Hinv'. rwp_steps. apply (HQ _ _ Hinv').
      right. left. by exists B, [(a, v)], A.
  - eapply rwp_clear; [done|]. intros s' Hinv'. apply (HQ _ _ Hinv').
    right. left. exists [], cs, []. by rewrite app_nil_r.
Qed.

Lemma strict_remove (B M A : list (addr * T)) :
  strict (B ++ M ++ A) → strict (B ++ A).
Proof.
  clear. rewrite !StronglySorted_app. intros (H1 & HB & H2 & HM & HA).
  split_and!; [|done|done]. intros x y Hx Hy. apply H1; [done|].
  apply elem_of_app. by right.
Qed.

Lemma strict_insert (B A : list (addr * T)) x :
  sorted (B ++ x :: A) → strict (B ++ A) →
  Forall (λ e, equiv_key (key_of e) (key_of x) = false) (B ++ A) →
  strict (B ++ x :: A).
Proof.
  clear. rewrite sorted_app, sorted_cons.
  rewrite !StronglySorted_app, !StronglySorted_cons, Forall_app.
  intros (H1 & HsB & Hx & HsA) (H2 & HB & HA) [HnB HnA].
  rewrite Forall_forall in HnB, HnA, Hx.
  assert (∀ y, y ∈ B → key_comp (key_of y) (key_of x) = true) as HBx.
  { intros y Hy. specialize (HnB y Hy).
    assert (le_cell get_key key_comp y x) as Hle by (apply H1; [done|by left]).
    unfold le_cell in Hle. unfold equiv_key in HnB. rewrite Hle in HnB.
    simpl in HnB. rewrite andb_true_r in HnB. by apply negb_false_iff. }
  assert (∀ y, y ∈ A → key_comp (key_of x) (key_of y) = true) as HxA.
  { intros y Hy. specialize (HnA y Hy). specialize (Hx y Hy).
    unfold le_cell in Hx. unfold equiv_key in HnA. rewrite Hx in HnA.
    simpl in HnA. by apply negb_false_iff. }
  split_and!; [|done| |done].
  - intros y z Hy [->|Hz]%elem_of_cons; [by apply HBx|by apply H2].
  - by rewrite Forall_forall.
Qed.

Lemma rwp_unique_ops ops s hd cs Q :
  forallb unique_op ops = true →
  tree_inv s hd cs → strict cs →
  (∀ s' cs', tree_inv s' hd cs' → strict cs' → Q tt s') →
  rwp (run_ops ops) s Q.
Proof.
  revert s cs. induction ops as [|o ops IH]; intros s cs Hu Hinv Hs HQ.
  { apply rwp_ret. by eapply HQ. }
  simpl in Hu. apply andb_true_iff in Hu as [Ho Hu].
  change (rwp (let+ _ := run_op o in run_ops ops) s Q). rwp_steps.
  eapply rwp_run_op_step; [done|].
  intros s' cs' Hinv' Hstep. eapply (IH s' cs'); [done|done| |done].
  destruct Hstep as [->|[(B & M & A & -> & ->)|(B & A & nd & v & -> & -> & Hall)]].
  - done.
  - by eapply strict_remove.
  - apply strict_insert; [|done|by apply Hall].
    by destruct Hinv' as (t' & _ & _ & _ & _ & Hsort & _).
Qed.

Lemma strict_lookup cs i j x y :
  strict cs → i < j → cs !! i = Some x → cs !! j = Some y →
  key_comp (key_of x) (key_of y) = true.
Proof.
  clear. intros Hs. revert i j.
  induction Hs as [|z cs Hs IH Hall]; intros i j Hij Hi Hj; [done|].
  destruct j as [|j]; [lia|]. simpl in Hj. destruct i as [|i]; simpl in Hi.
  - injection Hi as ->. rewrite Forall_forall in Hall.
    apply Hall. by eapply list_elem_of_lookup_2.
  - apply (IH i j); [lia|done|done].
Qed.

(** X15. A container that is used as [set] and [map] use it, with insertions
    of the unique kind only, never holds two elements with equivalent
    keys: the keys of its walk go strictly up. *)
Theorem unique_keys_strictly_increasing s0 s1 ops s :
  rb_tree_init alloc_fails s0 = Ok tt s1 →
  forallb unique_op ops = true →
  run_ops ops s1 = Ok tt s →
  ∃ xs, contents s = Some xs
    ∧ ∀ i j x y, i < j → xs !! i = Some x → xs !! j = Some y →
        key_comp (get_key x) (get_key y) = true
        ∧ equiv_key (get_key x) (get_key y) = false.
Proof.
  intros Hinit Hu Hrun.
  pose proof (rwpe_inv_ok _ _ _ _ _ _ (rwpe_rb_tree_init s0) Hinit)
    as (hd & _ & Hinv & _).
  destruct (rwp_unique_ops ops s1 hd []
              (λ _ s', ∃ cs', tree_inv s' hd cs' ∧ strict cs') Hu Hinv)
    as ([] & s' & Hrun' & cs & Hinv' & Hs); [constructor|by eauto|].
  rewrite Hrun in Hrun'. injection Hrun' as <-.
  exists cs.*2. split; [by eapply contents_inv|].
  intros i j x y Hij Hi Hj.
  apply list_lookup_fmap_Some in Hi as (ex & -> & Hi).
  apply list_lookup_fmap_Some in Hj as (ey & -> & Hj).
  pose proof (strict_lookup cs i j ex ey Hs Hij Hi Hj) as Hlt.
  unfold key_of in Hlt. split; [done|]. unfold equiv_key. by rewrite Hlt.
Qed.

(** *** The lower bound as [map] uses it *)

Lemma get_value_cell s hd cs a v :
  tree_inv s hd cs → (a, v) ∈ cs → get_value (Some a) (mem s) = Some (v, mem s).
Proof.
  intros [t Ht] Hin. destruct (tree_at_cell s hd t cs a v Ht Hin) as (n & Hn & Hv).
  apply wp_inv_eq. by eapply wp_get_value.
Qed.

Lemma lower_bound_cases s hd cs key :
  tree_inv s hd cs →
  (Forall (λ e, key_comp (key_of e) key = true) cs
   ∧ lower_bound get_key key_comp (this s) key (mem s) = Some (Some hd, mem s))
  ∨ (∃ B a v A, cs = B ++ (a, v) :: A
       ∧ Forall (λ e, key_comp (key_of e) key = true) B
       ∧ key_comp (get_key v) key = false ∧ a ≠ hd
       ∧ get_value (Some a) (mem s) = Some (v, mem s)
       ∧ lower_bound get_key key_comp (this s) key (mem s) = Some (Some a, mem s)).
Proof.
  intros Hinv. rewrite (lower_bound_eq s hd cs key Hinv).
  assert (∀ xs : list (addr * T),
            Forall (λ e, lower_pred key e.2 = false) xs →
            Forall (λ e, key_comp (key_of e) key = true) xs) as Hless.
  { intros xs H. eapply Forall_impl; [exact H|]. simpl. intros e He.
    unfold lower_pred in He. by apply negb_false_iff in He. }
  destruct (find_pos_split (lower_pred key) cs hd)
    as [[Hall Hf]|(B & a & v & A & Hcs & HB & Hv & Hf)]; rewrite Hf.
  - left. split; [by apply Hless|done].
  - right. exists B, a, v, A.
    assert ((a, v) ∈ cs) as Hin.
    { rewrite Hcs. apply elem_of_app. right. by left. }
    split_and!; [done|by apply Hless| | | |done].
    + unfold lower_pred in Hv. by apply negb_true_iff in Hv.
    + destruct Hinv as [t Ht]. by eapply (tree_at_not_header _ _ _ _ _ v).
    + by eapply get_value_cell.
Qed.

Lemma after_lower_bound_not_equiv key (B A : list (addr * T)) a v :
  sorted (B ++ (a, v) :: A) →
  Forall (λ e, key_comp (key_of e) key = true) B →
  key_comp key (get_key v) = true →
  Forall (λ e, equiv_key (key_of e) key = false) (B ++ (a, v) :: A).
Proof.
  intros Hs HB Hv. apply sorted_app in Hs as (_ & _ & Hs).
  apply sorted_cons in Hs as [Hle _].
  apply Forall_app. split; [|apply Forall_cons; split].
  - eapply Forall_impl; [exact HB|]. simpl. intros e He.
    unfold equiv_key. by rewrite He.
  - unfold equiv_key, key_of. simpl. rewrite Hv. apply andb_false_r.
  - eapply Forall_impl; [exact Hle|]. simpl. intros e He.
    unfold le_cell, key_of in He. simpl in He. unfold equiv_key.
    rewrite (swo_lt_le _ Hswo key (get_key v) (key_of e)) by done.
    apply andb_false_r.
Qed.

(** The insertion of a value with a new key by [emplace_unique_use_hint]
    at a position of the container. *)
Lemma emplace_hint_absent s hd cs B A v :
  reachable s → tree_inv s hd cs → cs = B ++ A →
  Forall (λ e, equiv_key (key_of e) (get_key v) = false) cs →
  match emplace_unique_use_hint get_key key_comp size_bits alloc_fails
          ctor_throws (first_pos hd A) v s with
  | Ok it s' =>
      ∃ nd B' A', it = Some nd ∧ cs = B' ++ A'
        ∧ tree_inv s' hd (B' ++ (nd, v) :: A')
        ∧ get_value (Some nd) (mem s') = Some (v, mem s')
        ∧ reachable s'
  | Throw e s' => s' = s
  | Fault => False
  end.
Proof.
  intros Hreach Hinv Hcs Hall.
  pose proof (rwpe_emplace_unique_use_hint s hd cs B A v Hinv Hcs) as Hw.
  assert (run_op (InsertUniqueHint (length B) v) s
          = try_catch_all
              (emplace_unique_use_hint get_key key_comp size_bits alloc_fails
                 ctor_throws (first_pos hd A) v) s) as Hop.
  { unfold run_op, rbind, get_this, lift.
    rewrite (position_inv s hd cs _ Hinv), Hcs, drop_app_length.
    by rewrite state_eta. }
  unfold rwpe in Hw. unfold try_catch_all in Hop.
  destruct (emplace_unique_use_hint get_key key_comp size_bits alloc_fails
              ctor_throws (first_pos hd A) v s) as [it s'|e s'|]; [|by destruct Hw|done].
  destruct Hw as [_ [(nd & cs' & -> & _ & (B' & A' & HB' & ->) & Hinv' & _)|[_ Hex]]].
  - exists nd, B', A'. split_and!; [done|done|done| |].
    + eapply get_value_cell; [exact Hinv'|]. apply elem_of_app. right. by left.
    + by eapply reachable_step.
  - exfalso. eapply Forall_Exists_false; [exact Hall|exact Hex].
Qed.

(** *** The order of two containers *)

Variable val_lt : T → T → bool.

Lemma wp_lexicographical_compare fuel o1 o2 h hd1 hd2 t1 t2 cs1 cs2 B1 A1 B2 A2 Q :
  tree_at (State o1 h) hd1 t1 cs1 → tree_at (State o2 h) hd2 t2 cs2 →
  cs1 = B1 ++ A1 → cs2 = B2 ++ A2 →
  length A1 < fuel →
  Q (lex_lt val_lt A1.*2 A2.*2) h →
  wp (lexicographical_compare val_lt fuel (first_pos hd1 A1) (Some hd1)
        (first_pos hd2 A2) (Some hd2)) h Q.
Proof.
  clear val_eq.
  intros Hinv1 Hinv2. revert B1 A1 B2 A2 Q.
  induction fuel as [|fuel IH]; intros B1 A1 B2 A2 Q Hcs1 Hcs2 Hfuel HQ; [lia|].
  cbn [lexicographical_compare].
  assert (∀ a2 v2 A2', A2 = (a2, v2) :: A2' → a2 ≠ hd2) as Hne2.
  { intros a2 v2 A2' ->. eapply (tree_at_not_header _ _ _ _ _ v2); [exact Hinv2|].
    rewrite Hcs2. apply elem_of_app. right. by left. }
  destruct A1 as [|[a1 v1] A1].
  { rewrite first_pos_nil, ptr_eqb_refl. simpl. apply wp_ret.
    destruct A2 as [|[a2 v2] A2]; simpl in *.
    - by rewrite first_pos_nil, ptr_eqb_refl.
    - rewrite first_pos_cons, (ptr_eqb_some_ne a2 hd2); [done|by eapply Hne2]. }
  rewrite first_pos_cons.
  assert ((a1, v1) ∈ cs1) as Hin1.
  { rewrite Hcs1. apply elem_of_app. right. by left. }
  pose proof (tree_at_not_header _ _ _ _ _ _ Hinv1 Hin1) as Hahd.
  rewrite (ptr_eqb_some_ne a1 hd1) by done.
  destruct A2 as [|[a2 v2] A2].
  { rewrite first_pos_nil, ptr_eqb_refl. simpl. by apply wp_ret. }
  rewrite first_pos_cons, (ptr_eqb_some_ne a2 hd2) by (by eapply Hne2). simpl.
  assert ((a2, v2) ∈ cs2) as Hin2.
  { rewrite Hcs2. apply elem_of_app. right. by left. }
  destruct (tree_at_cell _ _ _ _ _ _ Hinv1 Hin1) as (n1 & Hn1 & Hv1).
  destruct (tree_at_cell _ _ _ _ _ _ Hinv2 Hin2) as (n2 & Hn2 & Hv2).
  simpl in Hn1, Hn2, HQ.
  apply wp_bind. eapply wp_get_value; [done|done|].
  apply wp_bind. eapply wp_get_value; [done|done|].
  destruct (val_lt v1 v2); [by apply wp_ret|].
  destruct (val_lt v2 v1); [by apply wp_ret|].
  apply wp_bind. eapply (wp_inc_cell _ _ _ _ _ _ _ _ _ Hinv1 Hcs1).
  apply wp_bind. eapply (wp_inc_cell _ _ _ _ _ _ _ _ _ Hinv2 Hcs2). simpl.
  eapply (IH (B1 ++ [(a1, v1)]) A1 (B2 ++ [(a2, v2)]) A2);
    [by rewrite <-(assoc (++))|by rewrite <-(assoc (++))|simpl in Hfuel; lia|done].
Qed.

Lemma tree_lt_eq lhs rhs h hd1 hd2 cs1 cs2 :
  tree_inv (State lhs h) hd1 cs1 → tree_inv (State rhs h) hd2 cs2 →
  tree_lt val_lt lhs rhs h = Some (lex_lt val_lt cs1.*2 cs2.*2, h).
Proof.
  clear val_eq.
  intros [t1 Hinv1] [t2 Hinv2]. apply wp_inv_eq.
  pose proof Hinv1 as (Hthis1 & Htr1 & _). pose proof Hinv2 as (Hthis2 & Htr2 & _).
  pose proof Htr1 as (Hhd1 & _). pose proof Htr2 as (Hhd2 & _).
  pose proof (tree_at_fuel _ _ _ _ Hinv1) as Hfuel.
  simpl in *. subst lhs rhs. unfold tree_lt, begin, leftmost, end_. simpl.
  wp_steps.
  by eapply (wp_lexicographical_compare _ _ _ _ hd1 hd2 t1 t2 cs1 cs2 [] cs1 [] cs2).
Qed.

(** X18. [operator<] on two well-formed containers in one store returns the
    lexicographic order of their sequences of elements under the [<] of
    the elements; [operator>], [operator<=] and [operator>=] return that
    order with the sides swapped, its negation with the sides swapped and
    its negation, and [operator!=] the negation of [operator==]. *)
Theorem compare_lexicographic lhs rhs h xs ys :
  well_formed lhs h xs → well_formed rhs h ys →
  tree_lt val_lt lhs rhs h = Some (lex_lt val_lt xs ys, h)
  ∧ tree_gt val_lt lhs rhs h = Some (lex_lt val_lt ys xs, h)
  ∧ tree_le val_lt lhs rhs h = Some (negb (lex_lt val_lt ys xs), h)
  ∧ tree_ge val_lt lhs rhs h = Some (negb (lex_lt val_lt xs ys), h)
  ∧ ∃ b, tree_eq val_eq lhs rhs h = Some (b, h)
      ∧ tree_ne val_eq lhs rhs h = Some (negb b, h).
Proof.
  intros H1 H2.
  destruct (tree_eq_inv lhs rhs h xs ys H1 H2) as (b & Heq & _).
  destruct H1 as (hd1 & cs1 & Hinv1 & <-). destruct H2 as (hd2 & cs2 & Hinv2 & <-).
  pose proof (tree_lt_eq lhs rhs h hd1 hd2 cs1 cs2 Hinv1 Hinv2) as Hlt.
  pose proof (tree_lt_eq rhs lhs h hd2 hd1 cs2 cs1 Hinv2 Hinv1) as Hgt.
  unfold tree_gt, tree_le, tree_ge, tree_ne, bind. rewrite Hlt, Hgt, Heq.
  split_and!; try done. by exists b.
Qed.

(** Two containers that were built one after the other on one store by
    insertions that do not fail are both well formed on the final
    store. *)
Lemma built_pair_well_formed (multi : bool) xs ys s0 s1 s2 s3 s4 :
  (∀ h, alloc_fails h = false) → (∀ v, ctor_throws v = false) →
  (∀ a b, equiv_key (get_key a) (get_key b) = true → a = b) →
  (Z.of_nat (length xs) < 2 ^ size_bits - 1)%Z →
  (Z.of_nat (length ys) < 2 ^ size_bits - 1)%Z →
  rb_tree_init alloc_fails s0 = Ok tt s1 →
  run_ops (inserts multi xs) s1 = Ok tt s2 →
  rb_tree_init alloc_fails s2 = Ok tt s3 →
  run_ops (inserts multi ys) s3 = Ok tt s4 →
  ∃ xs' ys', contents s2 = Some xs' ∧ contents s4 = Some ys'
    ∧ well_formed (this s2) (mem s4) xs' ∧ well_formed (this s4) (mem s4) ys'.
Proof.
  clear val_eq val_lt.
  intros Hal Hct Htotal Hcap1 Hcap2 Hi1 Hr1 Hi2 Hr2.
  pose proof (rwpe_inv_ok _ _ _ _ _ _ (rwpe_rb_tree_init s0) Hi1)
    as (hd1 & _ & Hinv1 & _).
  destruct (rwp_inserts multi xs s1 hd1 []
              (λ _ s', ∃ cs', tree_inv s' hd1 cs')
              Hal Hct (λ a b _ _, Htotal a b) Hinv1) as ([] & s2' & Hr1' & cs1 & Hinv2).
  { simpl. lia. }
  { intros s' cs' ? _ _ ?. eauto. }
  rewrite Hr1 in Hr1'. injection Hr1' as <-.
  pose proof (rwpe_inv_ok _ _ _ _ _ _ (rwpe_rb_tree_init s2) Hi2)
    as (hd2 & Hfresh & Hinv3 & Hmem3).
  destruct (rwp_inserts multi ys s3 hd2 []
              (λ _ s', ∃ cs', tree_inv s' hd2 cs'
                 ∧ preserves [hd2] (mem s3) (mem s'))
              Hal Hct (λ a b _ _, Htotal a b) Hinv3) as ([] & s4' & Hr2' & cs2 & Hinv4 & Hp).
  { simpl. lia. }
  { intros s' cs' ? ? _ ?. eauto. }
  rewrite Hr2 in Hr2'. injection Hr2' as <-.
  exists cs1.*2, cs2.*2.
  rewrite (contents_inv s2 hd1 cs1 Hinv2), (contents_inv s4 hd2 cs2 Hinv4).
  split_and!; [done|done| |].
  - destruct s2 as [lhs h2]. simpl in *.
    assert (hd2 ∉ hd1 :: cs1.*1) as Hout.
    { intros Hin. destruct (tree_inv_allocated _ _ _ _ _ Hinv2 Hin) as [n Hn].
      congruence. }
    exists hd1, cs1. split; [|done].
    apply (tree_inv_preserved lhs (mem s3) (mem s4) hd1 cs1 [hd2]); [|done|].
    + apply (tree_inv_preserved lhs h2 (mem s3) hd1 cs1 [hd2]); [done| |].
      * intros a Ha _. rewrite Hmem3. apply lookup_insert_ne.
        intros ->. apply Ha. by left.
      * intros a Ha [->|Hn]%elem_of_cons; [done|]. by apply elem_of_nil in Hn.
    + intros a Ha [->|Hn]%elem_of_cons; [done|]. by apply elem_of_nil in Hn.
  - exists hd2, cs2. by rewrite state_eta.
Qed.

(** *** Insertion of a range *)

Lemma run_op_multi_hint_end s hd cs x :
  tree_inv s hd cs →
  run_op (InsertMultiHint (length cs) x) s
  = try_catch_all (insert_multi_hint get_key key_comp size_bits alloc_fails
                     ctor_throws (Some hd) x) s.
Proof.
  intros Hinv. unfold run_op, rbind, get_this, lift.
  rewrite (position_inv s hd cs _ Hinv), drop_all, first_pos_nil.
  by rewrite state_eta.
Qed.

Lemma run_op_unique_hint_end s hd cs x :
  tree_inv s hd cs →
  run_op (InsertUniqueHint (length cs) x) s
  = try_catch_all (insert_unique_hint get_key key_comp size_bits alloc_fails
                     ctor_throws (Some hd) x) s.
Proof.
  intros Hinv. unfold run_op, rbind, get_this, lift.
  rewrite (position_inv s hd cs _ Hinv), drop_all, first_pos_nil.
  by rewrite state_eta.
Qed.

Lemma insert_multi_loop_inv xs s hd cs :
  reachable s → tree_inv s hd cs →
  (Z.of_nat (length cs + length xs) ≤ 2 ^ size_bits - 1)%Z →
  match insert_multi_loop get_key key_comp size_bits alloc_fails ctor_throws
          xs s with
  | Ok _ s' =>
      reachable s' ∧ ∃ cs', tree_inv s' hd cs' ∧ cs'.*2 ≡ₚ xs ++ cs.*2
  | Throw e s' =>
      e ≠ length_error ∧ reachable s'
      ∧ ∃ k cs', k < length xs ∧ tree_inv s' hd cs' ∧ cs'.*2 ≡ₚ take k xs ++ cs.*2
  | Fault => False
  end.
Proof.
  clear val_eq val_lt.
  revert s cs. induction xs as [|x xs IH]; intros s cs Hreach Hinv Hcap.
  { simpl. split; [done|]. by exists cs. }
  assert (end_ (this s) = Some hd) as Hend
    by (by rewrite (tree_inv_this s hd cs Hinv)).
  cbn [insert_multi_loop]. unfold rbind at 1 2. unfold get_this. rewrite Hend.
  pose proof (rwpe_emplace_multi_use_hint s hd cs cs [] x Hinv
                (eq_sym (app_nil_r cs))) as Hw.
  pose proof (run_op_multi_hint_end s hd cs x Hinv) as Hop.
  rewrite first_pos_nil in Hw. unfold rwpe in Hw.
  unfold try_catch_all, insert_multi_hint in Hop. unfold insert_multi_hint.
  destruct (emplace_multi_use_hint get_key key_comp size_bits alloc_fails
              ctor_throws (Some hd) x s) as [res s1|e s1|]; [| |done].
  - destruct Hw as (nd & cs1 & _ & _ & (B & A & HBA & ->) & Hinv1 & _).
    assert (reachable s1) as Hreach1 by (by eapply reachable_step).
    specialize (IH s1 _ Hreach1 Hinv1).
    assert ((B ++ (nd, x) :: A).*2 ≡ₚ x :: cs.*2) as Hperm.
    { rewrite HBA, !fmap_app, fmap_cons. simpl. by rewrite Permutation_middle. }
    destruct (insert_multi_loop _ _ _ _ _ xs s1) as [[] s'|e s'|].
    + destruct IH as (Hreach' & cs' & Hinv' & Hp).
      { rewrite HBA, !length_app in Hcap. rewrite length_app. simpl in *. lia. }
      split; [done|]. exists cs'. split; [done|].
      rewrite Hp, Hperm. simpl. by rewrite Permutation_middle.
    + destruct IH as (He & Hreach' & k & cs' & Hk & Hinv' & Hp).
      { rewrite HBA, !length_app in Hcap. rewrite length_app. simpl in *. lia. }
      split_and!; [done|done|]. exists (S k), cs'. simpl.
      split_and!; [lia|done|]. rewrite Hp, Hperm. by rewrite Permutation_middle.
    + apply IH. rewrite HBA, !length_app in Hcap. rewrite length_app.
      simpl in *. lia.
  - destruct Hw as [-> Hf]. split_and!.
    + intros ->. simpl in Hf. simpl in Hcap. lia.
    + done.
    + exists 0, cs. simpl. split_and!; [lia|done|done].
Qed.

Lemma range_check s hd cs (xs : list T) :
  tree_inv s hd cs → (Z.of_nat (length xs) < 2 ^ size_bits)%Z →
  bool_decide
    (node_count_ (this s)
     > (max_size size_bits - Z.of_nat (length xs) `mod` 2 ^ size_bits)
       `mod` 2 ^ size_bits)%Z
  = bool_decide (2 ^ size_bits - 1 < Z.of_nat (length cs + length xs))%Z
  ∧ take (Z.to_nat (Z.of_nat (length xs) `mod` 2 ^ size_bits)) xs = xs.
Proof.
  clear val_eq val_lt.
  intros Hinv Hlen. rewrite (tree_inv_this s hd cs Hinv). cbn [node_count_].
  rewrite max_size_eq, (Z.mod_small (Z.of_nat (length xs))) by lia.
  rewrite Z.mod_small by lia. split.
  - apply bool_decide_ext. lia.
  - apply take_ge. lia.
Qed.

(** X19. [insert_multi(first, last)] throws [length_error] and leaves the
    container as it is when the elements of the range do not fit below
    [max_size()]; otherwise it inserts the elements of the range one
    after the other, and the container then holds them together with
    the elements it held.  When an insertion throws, the elements of the
    range before it stay in the container. *)
Theorem insert_multi_range_inserts s xs :
  reachable s → (Z.of_nat (length xs) < 2 ^ size_bits)%Z →
  ∃ ys, contents s = Some ys
    ∧ match insert_multi_range get_key key_comp size_bits alloc_fails
              ctor_throws xs s with
      | Ok _ s' =>
          reachable s' ∧ ∃ ys', contents s' = Some ys' ∧ ys' ≡ₚ xs ++ ys
      | Throw length_error s' =>
          s' = s ∧ (max_size size_bits < size (this s) + Z.of_nat (length xs))%Z
      | Throw _ s' =>
          reachable s'
          ∧ ∃ k ys', k < length xs ∧ contents s' = Some ys'
              ∧ ys' ≡ₚ take k xs ++ ys
      | Fault => False
      end.
Proof.
  clear val_eq val_lt.
  intros Hreach Hlen. pose proof Hreach as (hd & cs & Hinv)%reachable_inv.
  exists cs.*2. split; [by eapply contents_inv|].
  unfold insert_multi_range. unfold rbind at 1. unfold get_this.
  destruct (range_check s hd cs xs Hinv Hlen) as [-> ->].
  case_bool_decide as Hc.
  - unfold throw. split; [done|]. rewrite max_size_eq.
    rewrite (tree_inv_this s hd cs Hinv). unfold size. simpl. lia.
  - pose proof (insert_multi_loop_inv xs s hd cs Hreach Hinv) as Hloop.
    destruct (insert_multi_loop _ _ _ _ _ xs s) as [[] s'|e s'|].
    + destruct Hloop as (Hreach' & cs' & Hinv' & Hp); [lia|].
      split; [done|]. exists cs'.*2. split; [by eapply contents_inv|done].
    + destruct Hloop as (He & Hreach' & k & cs' & Hk & Hinv' & Hp); [lia|].
      destruct e; [done| |];
        (split; [done|]; exists k, cs'.*2;
         split_and!; [done|by eapply contents_inv|done]).
    + apply Hloop. lia.
Qed.

Lemma insert_unique_loop_inv xs s hd cs :
  reachable s → tree_inv s hd cs →
  (Z.of_nat (length cs + length xs) ≤ 2 ^ size_bits - 1)%Z →
  match insert_unique_loop get_key key_comp size_bits alloc_fails ctor_throws
          xs s with
  | Ok _ s' =>
      reachable s'
      ∧ ∃ cs', tree_inv s' hd cs' ∧ cs.*2 `sublist_of` cs'.*2
          ∧ (∀ y, y ∈ cs'.*2 → y ∈ cs.*2 ∨ y ∈ xs)
          ∧ Forall (λ x, Exists (λ y, equiv_key (get_key y) (get_key x) = true)
                           cs'.*2) xs
  | Throw e s' =>
      e ≠ length_error ∧ reachable s'
      ∧ ∃ k cs', k < length xs ∧ tree_inv s' hd cs' ∧ cs.*2 `sublist_of` cs'.*2
          ∧ (∀ y, y ∈ cs'.*2 → y ∈ cs.*2 ∨ y ∈ take k xs)
          ∧ Forall (λ x, Exists (λ y, equiv_key (get_key y) (get_key x) = true)
                           cs'.*2) (take k xs)
  | Fault => False
  end.
Proof.
  clear val_eq val_lt.
  revert s cs. induction xs as [|x xs IH]; intros s cs Hreach Hinv Hcap.
  { simpl. split; [done|]. exists cs. split_and!; [done|done|by left|done]. }
  assert (end_ (this s) = Some hd) as Hend
    by (by rewrite (tree_inv_this s hd cs Hinv)).
  cbn [insert_unique_loop]. unfold rbind at 1 2. unfold get_this. rewrite Hend.
  pose proof (rwpe_emplace_unique_use_hint s hd cs cs [] x Hinv
                (eq_sym (app_nil_r cs))) as Hw.
  pose proof (run_op_unique_hint_end s hd cs x Hinv) as Hop.
  rewrite first_pos_nil in Hw. unfold rwpe in Hw.
  unfold try_catch_all, insert_unique_hint in Hop. unfold insert_unique_hint.
  destruct (emplace_unique_use_hint get_key key_comp size_bits alloc_fails
              ctor_throws (Some hd) x s) as [res s1|e s1|]; [| |done].
  - assert (reachable s1) as Hreach1 by (by eapply reachable_step).
    assert (∃ cs1, tree_inv s1 hd cs1 ∧ length cs1 ≤ S (length cs)
              ∧ cs.*2 `sublist_of` cs1.*2
              ∧ (∀ y, y ∈ cs1.*2 → y ∈ cs.*2 ∨ y = x)
              ∧ Exists (λ y, equiv_key (get_key y) (get_key x) = true) cs1.*2)
      as (cs1 & Hinv1 & Hlen1 & Hsub1 & Hin1 & Hex1).
    { destruct Hw as [_ [(nd & cs1 & _ & _ & (B & A & HBA & ->) & Hinv1 & _)
                        |[-> Hex]]].
      - exists (B ++ (nd, x) :: A). rewrite HBA, !fmap_app, fmap_cons, !length_app.
        simpl. split_and!; [done|lia| | |].
        + apply sublist_app; [done|]. by apply sublist_cons.
        + intros y [Hy|[->|Hy]%elem_of_cons]%elem_of_app;
            [left|by right|left]; apply elem_of_app; auto.
        + apply Exists_app. right. left. apply equiv_key_refl.
      - exists cs. split_and!; [done|lia|done|by left|].
        by rewrite Exists_fmap. }
    specialize (IH s1 cs1 Hreach1 Hinv1).
    destruct (insert_unique_loop _ _ _ _ _ xs s1) as [[] s'|e s'|].
    + destruct IH as (Hreach' & cs' & Hinv' & Hsub & Hin & Hall); [simpl in Hcap; lia|].
      split; [done|]. exists cs'. split_and!; [done|by etrans| |].
      * intros y Hy. destruct (Hin y Hy) as [Hy1|Hy1]; [|right; by right].
        destruct (Hin1 y Hy1) as [?| ->]; [by left|right; by left].
      * constructor; [|done]. apply Exists_exists in Hex1 as (y & Hy & Hyx).
        apply Exists_exists. exists y. split; [|done].
        by eapply elem_of_sublist.
    + destruct IH as (He & Hreach' & k & cs' & Hk & Hinv' & Hsub & Hin & Hall);
        [simpl in Hcap; lia|].
      split_and!; [done|done|]. exists (S k), cs'. simpl.
      split_and!; [lia|done|by etrans| |].
      * intros y Hy. destruct (Hin y Hy) as [Hy1|Hy1]; [|right; by right].
        destruct (Hin1 y Hy1) as [?| ->]; [by left|right; by left].
      * constructor; [|done]. apply Exists_exists in Hex1 as (y & Hy & Hyx).
        apply Exists_exists. exists y. split; [|done].
        by eapply elem_of_sublist.
    + apply IH. simpl in Hcap. lia.
  - destruct Hw as [-> Hf]. split_and!.
    + intros ->. simpl in Hf. simpl in Hcap. lia.
    + done.
    + exists 0, cs. simpl. split_and!; [lia|done|done|by left|done].
Qed.

(** X20. [insert_unique(first, last)] throws [length_error] and leaves the
    container as it is when the elements of the range do not fit below
    [max_size()]; otherwise it goes through the range, and the container
    then holds the elements it held, in their order, and besides them
    only elements of the range, with an element of an equivalent key for
    every element of the range. *)
Theorem insert_unique_range_inserts s xs :
  reachable s → (Z.of_nat (length xs) < 2 ^ size_bits)%Z →
  ∃ ys, contents s = Some ys
    ∧ match insert_unique_range get_key key_comp size_bits alloc_fails
              ctor_throws xs s with
      | Ok _ s' =>
          reachable s'
          ∧ ∃ ys', contents s' = Some ys' ∧ ys `sublist_of` ys'
              ∧ (∀ y, y ∈ ys' → y ∈ ys ∨ y ∈ xs)
              ∧ Forall (λ x, Exists (λ y, equiv_key (get_key y) (get_key x) = true)
                               ys') xs
      | Throw length_error s' =>
          s' = s ∧ (max_size size_bits < size (this s) + Z.of_nat (length xs))%Z
      | Throw _ s' =>
          reachable s'
          ∧ ∃ k ys', k < length xs ∧ contents s' = Some ys' ∧ ys `sublist_of` ys'
              ∧ (∀ y, y ∈ ys' → y ∈ ys ∨ y ∈ take k xs)
      | Fault => False
      end.
Proof.
  clear val_eq val_lt.
  intros Hreach Hlen. pose proof Hreach as (hd & cs & Hinv)%reachable_inv.
  exists cs.*2. split; [by eapply contents_inv|].
  unfold insert_unique_range. unfold rbind at 1. unfold get_this.
  destruct (range_check s hd cs xs Hinv Hlen) as [-> ->].
  case_bool_decide as Hc.
  - unfold throw. split; [done|]. rewrite max_size_eq.
    rewrite (tree_inv_this s hd cs Hinv). unfold size. simpl. lia.
  - pose proof (insert_unique_loop_inv xs s hd cs Hreach Hinv) as Hloop.
    destruct (insert_unique_loop _ _ _ _ _ xs s) as [[] s'|e s'|].
    + destruct Hloop as (Hreach' & cs' & Hinv' & Hsub & Hin & Hall); [lia|].
      split; [done|]. exists cs'.*2.
      split_and!; [by eapply contents_inv|done|done|done].
    + destruct Hloop as (He & Hreach' & k & cs' & Hk & Hinv' & Hsub & Hin & _);
        [lia|].
      destruct e; [done| |];
        (split; [done|]; exists k, cs'.*2;
         split_and!; [done|by eapply contents_inv|done|done]).
    + apply Hloop. lia.
Qed.

(** *** The end of a container and the move out of it *)

(** X21. The destructor gives back the nodes of the elements and nothing
    else: the header node of the container stays allocated, and no call
    of the container gives it back. *)
Theorem dtor_keeps_header s :
  reachable s →
  ∃ w hd s',
    walk (this s) (mem s) = Some (w, mem s)
    ∧ end_ (this s) = Some hd
    ∧ rb_tree_dtor s = Ok tt s'
    ∧ (∀ a v, (Some a, v) ∈ w → mem s' !! a = None)
    ∧ is_Some (mem s' !! hd)
    ∧ (∀ a, a ≠ hd → (∀ v, (Some a, v) ∉ w) → mem s' !! a = mem s !! a).
Proof.
  clear val_eq val_lt.
  intros Hreach. pose proof Hreach as (hd & cs & Hinv)%reachable_inv.
  destruct (rwp_clear_frees s hd cs
              (λ _ s', tree_inv s' hd []
                       ∧ (∀ a, a ∈ cs.*1 → mem s' !! a = None)
                       ∧ same_outside (hd :: cs.*1) (mem s) (mem s')) Hinv)
    as ([] & s' & Hrun & Hinv' & Hfree & Hsame); [done|].
  exists (positions cs), hd, s'.
  rewrite (walk_inv s hd cs Hinv), (tree_inv_this s hd cs Hinv).
  split_and!; [done|done|done| | |].
  - intros a v Hin. apply Hfree.
    apply list_elem_of_fmap in Hin as ([a' v'] & [= <- <-] & Hin).
    apply list_elem_of_fmap. by exists (a, v).
  - destruct s' as [o' h']. eapply tree_inv_allocated; [exact Hinv'|by left].
  - intros a Hne Hnot. apply Hsame.
    apply not_elem_of_cons. split; [done|].
    intros ([a' v] & -> & Hin)%list_elem_of_fmap. apply (Hnot v).
    apply list_elem_of_fmap. by exists (a', v).
Qed.

(** *** The successor in the tree *)

Lemma wp_next_climb fuel h hd L R ctx n cn ln vn rn Q :
  focus_rep h hd L R ctx (Br n cn ln vn rn) →
  ctx_after ctx ≠ [] →
  length ctx < fuel →
  Q (first_pos hd (ctx_after ctx)) h →
  wp (rb_tree_next_climb fuel (Some n)) h (λ x h', wp (get_parent x) h' Q).
Proof.
  clear.
  revert ctx n cn ln vn rn.
  induction fuel as [|fuel IH]; intros ctx n cn ln vn rn Hfoc Hne Hf HQ; [lia|].
  pose proof Hfoc as (Hctx & Hrep & Hnd). simpl in Hrep.
  destruct Hrep as (Hn & Hln & Hrn).
  cbn [rb_tree_next_climb]. unfold rb_tree_is_lchild.
  destruct ctx as [|[p cp vp pr|p cp pl vp] ctx']; simpl in *;
    destruct_and?; sep_split; [done| |].
  - wp_steps. exact HQ.
  - wp_steps.
    eapply (IH ctx' p cp pl vp (Br n cn ln vn rn)); [|done|lia|done].
    focus_tac.
Qed.

Lemma rb_tree_next_eq s hd cs B a v e A :
  tree_inv s hd cs → cs = B ++ (a, v) :: e :: A →
  rb_tree_next (Some a) (mem s) = Some (Some e.1, mem s).
Proof.
  clear val_eq val_lt.
  intros [t Hinv] Hcs. apply wp_inv_eq.
  destruct (tree_at_focus _ _ _ _ _ _ _ _ Hinv Hcs) as (ctx & c & l & r & Ht & HB & HA).
  destruct Hinv as (Hthis & Htr & Hcells & Hrb & Hsort & Hlen).
  rewrite <-Hcells in Htr. rewrite Ht in Htr. apply focus_tree_rep in Htr.
  pose proof (focus_rep_fuel _ _ _ _ _ _ Htr) as Hfuel.
  pose proof Htr as (Hctx & Hrep & Hnd). simpl in Hrep.
  destruct Hrep as (Ha & Hl & Hr).
  unfold rb_tree_next. wp_steps.
  destruct r as [|r0 cr rl vr rr]; simpl in *; wp_steps.
  - eapply wp_next_climb; [exact Htr|by rewrite <-HA|lia|].
    rewrite <-HA. by destruct e.
  - unfold rb_tree_min. wp_steps.
    eapply (wp_min_loop _ _ _ (Br r0 cr rl vr rr)); [done|done|simpl in *; lia|].
    intros b cs0 <- Hb. simpl in Hb. split; [|done].
    destruct (cells rl ++ (r0, vr) :: cells rr) as [|x X] eqn:E;
      [by destruct (cells rl)|].
    simpl in HA, Hb. injection HA as -> _. by injection Hb as ->.
Qed.

(** X23. [rb_tree_next] of the node of an element that is not the last of the
    walk is the position of the next element, the one that the increment
    of an iterator gives. *)
Theorem rb_tree_next_is_inc s B p v e A :
  reachable s →
  walk (this s) (mem s) = Some (B ++ (p, v) :: e :: A, mem s) →
  rb_tree_next p (mem s) = Some (e.1, mem s)
  ∧ inc p (mem s) = Some (e.1, mem s).
Proof.
  clear val_eq val_lt.
  intros (hd & cs & Hinv)%reachable_inv Hwalk.
  rewrite (walk_inv s hd cs Hinv) in Hwalk. injection Hwalk as Hw.
  apply positions_cons_inv in Hw as (B' & a & A' & Hcs & -> & -> & HA).
  destruct A' as [|[a' v'] A']; [done|]. injection HA as -> ->.
  split.
  - by eapply (rb_tree_next_eq s hd cs B' a v (a', v')).
  - by rewrite (inc_eq s hd cs B' a v _ Hinv Hcs), first_pos_cons.
Qed.

(** *** Rotations *)

Lemma rep_agree h h' par t a :
  rep h par t → rep h' par t → a ∈ addrs t → h !! a = h' !! a.
Proof.
  clear. revert par. induction t as [|b c l IHl v r IHr]; intros par; simpl.
  { by intros _ _ ?%elem_of_nil. }
  intros (Hb & Hl & Hr) (Hb' & Hl' & Hr') [Hin|[->|Hin]%elem_of_cons]%elem_of_app.
  - by eapply IHl.
  - by rewrite Hb, Hb'.
  - by eapply IHr.
Qed.

Lemma tree_rep_agree h h' hd L R t a :
  tree_rep h hd L R t → tree_rep h' hd L R t → a ∈ hd :: addrs t →
  h !! a = h' !! a.
Proof.
  clear. intros (Hhd & Hrep & _) (Hhd' & Hrep' & _) [->|Hin]%elem_of_cons.
  - by rewrite Hhd, Hhd'.
  - by eapply rep_agree.
Qed.

(** X24. [rb_tree_rotate_left] about a node [x] with the right child [y], in a
    tree under a header, makes [y] the parent of [x] and hands the left
    subtree of [y] over to [x]; the tree stays a tree under the same
    header with the same in-order sequence of nodes and elements, and
    [rb_tree_rotate_right] about [y] then gives the store back as it
    was. *)
Theorem rotate_left_right_inverse h hd L R ctx x cx a vx y cy b vy c :
  tree_rep h hd L R (plug ctx (Br x cx a vx (Br y cy b vy c))) →
  ∃ h',
    rb_tree_rotate_left (Some x) (RParent (Some hd)) h = Some (tt, h')
    ∧ tree_rep h' hd L R (plug ctx (Br y cy (Br x cx a vx b) vy c))
    ∧ cells (plug ctx (Br y cy (Br x cx a vx b) vy c))
      = cells (plug ctx (Br x cx a vx (Br y cy b vy c)))
    ∧ rb_tree_rotate_right (Some y) (RParent (Some hd)) h' = Some (tt, h).
Proof.
  clear. intros Htr. pose proof Htr as Hfoc%focus_tree_rep.
  destruct (wp_rotate_left h hd L R ctx x cx a vx y cy b vy c
              (λ _ h', focus_rep h' hd L R ctx (Br y cy (Br x cx a vx b) vy c)
                 ∧ same_outside
                     (hd :: ctx_addrs ctx ++ addrs (Br x cx a vx (Br y cy b vy c)))
                     h h') Hfoc) as ([] & h' & Hrot & Hfoc' & Hsame); [done|].
  destruct (wp_rotate_right h' hd L R ctx y cy a vy x cx b vx c
              (λ _ h'', focus_rep h'' hd L R ctx (Br x cx a vx (Br y cy b vy c))
                 ∧ same_outside
                     (hd :: ctx_addrs ctx ++ addrs (Br y cy (Br x cx a vx b) vy c))
                     h' h'') Hfoc') as ([] & h'' & Hrot' & Hfoc'' & Hsame'); [done|].
  exists h'. split; [done|].
  split; [exact (proj1 (focus_tree_rep _ _ _ _ _ _) Hfoc')|]. split.
  - rewrite !cells_plug. simpl. by simplify_list_eq.
  - rewrite Hrot'. f_equal. f_equal. apply map_eq. intros k.
    destruct (decide (k ∈ hd :: addrs (plug ctx (Br x cx a vx (Br y cy b vy c)))))
      as [Hin|Hout].
    + eapply tree_rep_agree;
        [exact (proj1 (focus_tree_rep _ _ _ _ _ _) Hfoc'')|exact Htr|done].
    + rewrite Hsame', Hsame; [done| |].
      * intros Hk. apply Hout. rewrite addrs_plug_perm. exact Hk.
      * intros Hk. apply Hout. rewrite addrs_plug_perm.
        revert Hk. simpl. rewrite !elem_of_cons, !elem_of_app. simpl.
        rewrite !elem_of_cons, !elem_of_app, !elem_of_cons. tauto.
Qed.

(** *** The copy of a tree *)

Lemma rwpe_clone_node s x nx v Q E :
  mem s !! x = Some nx → value nx = Some v →
  (∀ e, copy_fails alloc_fails ctor_throws e → E e s) →
  (∀ a, mem s !! a = None →
     Q (Some a)
       (State (this s)
          (<[a := Node None None None (color nx) (Some v)]> (mem s)))) →
  rwpe (clone_node alloc_fails ctor_throws (Some x)) s Q E.
Proof.
  clear. intros Hx Hv HE HQ. unfold clone_node. ewp_steps.
  eapply wp_get_value; [done|done|]. rewrite state_eta. apply rwpe_bind.
  apply rwpe_create_node;
    [intros; apply HE; simpl; by eauto|intros; apply HE; simpl; by eauto|].
  intros _ _ a Ha.
  assert (a ≠ x) as Hne by (intros ->; congruence).
  apply rwpe_bind, rwpe_lift.
  eapply wp_get_color; [simpl; by rewrite lookup_insert_ne|]. simpl.
  repeat first [ewp_step | wp_step | eapply wp_update; [lookup_tac|simpl]].
  rewrite !insert_insert_eq. by apply HQ.
Qed.

Lemma with_left_id (n : node T) : left n = None → with_left None n = n.
Proof. clear. destruct n. simpl. by intros ->. Qed.

Lemma with_right_id (n : node T) : right n = None → with_right None n = n.
Proof. clear. destruct n. simpl. by intros ->. Qed.

(** A node [a] with its two subtrees, built one after the other. *)
Lemma node_built_in h0 h5 h6 (X : list addr) a q c v l' r' :
  h0 !! a = None → is_Some (h5 !! a) →
  (∀ b, b ∈ X → is_Some (h5 !! b)) →
  rep h5 (Some a) r' → NoDup (addrs r') →
  (∀ b, b ∈ addrs r' → h0 !! b = None) → a ∉ addrs r' →
  same_outside (X ++ a :: addrs r') h0 h5 →
  h6 !! a = Some (Node q (top l') (top r') c (Some v)) →
  rep h6 (Some a) l' → NoDup (addrs l') →
  (∀ b, b ∈ addrs l' → h5 !! b = None) →
  same_outside (a :: addrs l') h5 h6 →
  rep h6 q (Br a c l' v r') ∧ NoDup (addrs (Br a c l' v r'))
  ∧ (∀ b, b ∈ addrs (Br a c l' v r') → h0 !! b = None)
  ∧ same_outside (X ++ addrs (Br a c l' v r')) h0 h6.
Proof.
  clear. intros Ha0 Ha5 HX Hr Hndr Hfr Har Hs5 Ha6 Hl Hndl Hfl Hs6.
  assert (a ∉ addrs l') as Hal.
  { intros Hin. destruct Ha5 as [n Hn]. rewrite (Hfl a Hin) in Hn. done. }
  assert (∀ b, b ∈ addrs l' → b ∉ addrs r') as Hlr.
  { intros b Hb Hbr. destruct (rep_dom _ _ _ _ Hr Hbr) as [n Hn].
    rewrite (Hfl b Hb) in Hn. done. }
  assert (∀ b, b ∈ addrs l' → b ∉ X) as HlX.
  { intros b Hb HbX. destruct (HX b HbX) as [n Hn].
    rewrite (Hfl b Hb) in Hn. done. }
  split_and!.
  - simpl. split_and!; [done|done|].
    eapply (rep_same_outside h5 h6 (a :: addrs l')); [done| |done].
    intros b Hb [->|Hbl]%elem_of_cons; [done|]. by eapply Hlr.
  - simpl. apply NoDup_app. split_and!; [done| |].
    + intros b Hb [->|Hbr]%elem_of_cons; [done|]. by eapply Hlr.
    + apply NoDup_cons. done.
  - simpl. intros b [Hb|[->|Hb]%elem_of_cons]%elem_of_app; [|done|by apply Hfr].
    rewrite <-(Hs5 b); [by apply Hfl|].
    intros [HbX|[->|Hbr]%elem_of_cons]%elem_of_app;
      [by eapply HlX|done|by eapply Hlr].
  - simpl. intros b Hb.
    rewrite !not_elem_of_app, not_elem_of_cons in Hb.
    destruct Hb as (HbX & Hbl & Hba & Hbr).
    rewrite Hs6, Hs5; [done| |].
    + rewrite not_elem_of_app, not_elem_of_cons. done.
    + rewrite not_elem_of_cons. done.
Qed.

(** The copy of a right subtree by [copy], and its link. *)
Lemma rwpe_copy_right (copy : ptr → ptr → R ptr) f s a na par r :
  (∀ t par' p s0, t ≠ Leaf → height t < f → rep (mem s0) par' t →
     rwpe (copy (top t) p) s0 (copy_post s0 p t)
       (λ e s', copy_fails alloc_fails ctor_throws e ∧ s' = s0)) →
  mem s !! a = Some na → right na = None →
  rep (mem s) par r → height r < f →
  rwpe (if negb (is_null (top r)) then
          let+ r' := copy (top r) (Some a) in lift (set_right (Some a) r')
        else rret tt) s
    (λ _ s', this s' = this s
       ∧ ∃ r', same_shape r r'
           ∧ mem s' !! a = Some (with_right (top r') na)
           ∧ rep (mem s') (Some a) r' ∧ NoDup (addrs r')
           ∧ (∀ b, b ∈ addrs r' → mem s !! b = None)
           ∧ same_outside (a :: addrs r') (mem s) (mem s'))
    (λ e s', copy_fails alloc_fails ctor_throws e ∧ s' = s).
Proof.
  clear. intros Hcopy Ha Hna Hrep Hh.
  destruct r as [|x c l v r]; simpl.
  { apply rwpe_ret. split; [done|]. exists Leaf. simpl.
    rewrite with_right_id by done. split_and!; try done.
    - constructor.
    - by intros b ?%elem_of_nil. }
  apply rwpe_bind.
  eapply rwpe_mono; [apply (Hcopy (Br x c l v r) par (Some a) s); done| |done].
  intros res s' (Hthis & r' & Hsh & Htop & Hrep' & Hnd & Hfresh & Hsame).
  assert (a ∉ addrs r') as Har.
  { intros Hin. rewrite (Hfresh a Hin) in Ha. done. }
  apply rwpe_lift. eapply wp_set_right; [by rewrite Hsame|]. simpl.
  split; [done|]. exists r'. rewrite lookup_insert_eq, Htop.
  split_and!; [done|done| |done|done|].
  - by apply rep_frame.
  - intros b [Hba Hb]%not_elem_of_cons.
    rewrite lookup_insert_ne by done. by apply Hsame.
Qed.

(** The rest of the copy of the node [x] into its clone [a]: the right
    subtree by [copy], then the left spine by the loop. *)
Lemma rwpe_copy_rest (copy : ptr → ptr → R ptr) f n s h0 (X : list addr)
    x parx c l v r a q :
  (∀ t par' p s0, t ≠ Leaf → height t < f → rep (mem s0) par' t →
     rwpe (copy (top t) p) s0 (copy_post s0 p t)
       (λ e s', copy_fails alloc_fails ctor_throws e ∧ s' = s0)) →
  (∀ s1 pa npa, rep (mem s1) (Some x) l → mem s1 !! pa = Some npa →
     left npa = None → pa ∉ addrs l →
     rwpe (copy_left_loop alloc_fails ctor_throws copy n (top l) (Some pa)) s1
       (λ _ s', attach_post true s1 pa npa l s')
       (λ e s', copy_fails alloc_fails ctor_throws e ∧ attach_post false s1 pa npa l s')) →
  mem s !! x = Some (Node parx (top l) (top r) c (Some v)) →
  rep (mem s) (Some x) l → rep (mem s) (Some x) r → height r < f →
  mem s !! a = Some (Node q None None c (Some v)) →
  h0 !! a = None → a ∉ X → (∀ b, b ∈ X → is_Some (mem s !! b)) →
  same_outside (X ++ [a]) h0 (mem s) →
  a ≠ x → a ∉ addrs l →
  let post (whole : bool) s' :=
    this s' = this s
    ∧ ∃ l' r', (if whole then same_shape l l' ∧ same_shape r r' else True)
        ∧ rep (mem s') q (Br a c l' v r')
        ∧ NoDup (addrs (Br a c l' v r'))
        ∧ (∀ b, b ∈ addrs (Br a c l' v r') → h0 !! b = None)
        ∧ same_outside (X ++ addrs (Br a c l' v r')) h0 (mem s')
        ∧ (∀ b, b ∈ X → mem s' !! b = mem s !! b) in
  rwpe (let+ xr := lift (get_right (Some x)) in
        let+ _ := (if negb (is_null xr) then
                     let+ r' := copy xr (Some a) in lift (set_right (Some a) r')
                   else rret tt) in
        let+ xl := lift (get_left (Some x)) in
        copy_left_loop alloc_fails ctor_throws copy n xl (Some a)) s
    (λ _ s', post true s')
    (λ e s', copy_fails alloc_fails ctor_throws e ∧ post false s').
Proof.
  clear. intros Hcopy Hloop Hx Hl Hr Hhr Ha Ha0 HaX HX Hsame Hax Hal post.
  apply rwpe_bind, rwpe_lift. eapply wp_get_right; [exact Hx|]. simpl.
  rewrite state_eta. apply rwpe_bind.
  eapply rwpe_mono;
    [eapply (rwpe_copy_right copy f s a _ (Some x) r); [exact Hcopy|exact Ha|done|exact Hr|exact Hhr]| |].
  2:{ intros e s' [Hfail ->]. split; [done|]. split; [done|].
      exists Leaf, Leaf.
      split; [done|]. split; [by simpl|]. split; [apply NoDup_singleton|].
      split; [by intros b ->%list_elem_of_singleton|]. by split. }
  intros [] s1 (Hthis1 & r' & Hshr & Ha1 & Hr1 & Hndr & Hfr & Hs1). simpl in Ha1.
  assert (∀ b, b ∈ addrs r' → b ≠ x ∧ (b ∉ addrs l) ∧ (b ∉ X) ∧ b ≠ a) as Hfr'.
  { intros b Hb. pose proof (Hfr b Hb) as Hnone. split_and!.
    - intros ->. congruence.
    - intros Hin. destruct (rep_dom _ _ _ _ Hl Hin) as [m Hm]. congruence.
    - intros Hin. destruct (HX b Hin) as [m Hm]. congruence.
    - intros ->. congruence. }
  assert (mem s1 !! x = Some (Node parx (top l) (top r) c (Some v))) as Hx1.
  { rewrite Hs1; [done|]. apply not_elem_of_cons. split; [done|].
    intros Hin. by destruct (Hfr' x Hin). }
  apply rwpe_bind, rwpe_lift. eapply wp_get_left; [exact Hx1|]. simpl.
  rewrite state_eta.
  assert (rep (mem s1) (Some x) l) as Hl1.
  { eapply (rep_same_outside (mem s) (mem s1) (a :: addrs r')); [done| |done].
    intros b Hb [->|Hbr]%elem_of_cons; [done|]. by destruct (Hfr' b Hbr) as (_ & ? & _). }
  assert (∀ b, b ∈ X → mem s1 !! b = mem s !! b) as HX1.
  { intros b Hb. apply Hs1. apply not_elem_of_cons.
    split; [intros Heq; by rewrite Heq in Hb|].
    intros Hin. by destruct (Hfr' b Hin) as (_ & _ & ? & _). }
  assert (∀ whole s',
            attach_post whole s1 a (Node q None (top r') c (Some v)) l s' →
            post whole s') as Hpost.
  { intros whole s' (Hthis' & l' & Hshl & Ha' & Hl' & Hndl & Hfl & Hs').
    simpl in Ha'.
    destruct (node_built_in h0 (mem s1) (mem s') X a q c v l' r')
      as (Hrep & Hnd & Hfresh & Hout); try done.
    - intros b Hb. rewrite HX1 by done. by apply HX.
    - intros b Hb. destruct (Hfr' b Hb) as (_ & _ & HbX & Hba).
      rewrite <-(Hsame b); [by apply Hfr|].
      rewrite not_elem_of_app, list_elem_of_singleton. done.
    - intros Hin. by destruct (Hfr' a Hin) as (_ & _ & _ & ?).
    - intros b Hb. rewrite not_elem_of_app, not_elem_of_cons in Hb.
      destruct Hb as (HbX & Hba & Hbr).
      rewrite Hs1, Hsame; [done| |].
      + rewrite not_elem_of_app, list_elem_of_singleton. done.
      + rewrite not_elem_of_cons. done.
    - split; [congruence|]. exists l', r'. split_and!; try done.
      + destruct whole; done.
      + intros b Hb. rewrite <-HX1 by done. apply Hs'.
        apply not_elem_of_cons. split; [intros Heq; by rewrite Heq in Hb|].
        intros Hin. destruct (HX b Hb) as [m Hm].
        rewrite <-HX1, (Hfl b Hin) in Hm by done. done. }
  eapply rwpe_mono; [eapply (Hloop s1 a _ Hl1 Ha1); [done|done]| |].
  - intros ? s'. apply Hpost.
  - intros ? s' [Hfail Hatt]. split; [done|]. by apply Hpost.
Qed.

(** The loop of [copy_from] down a left spine hangs the copy of [l]
    under [pa]; when it throws, what it has built so far hangs there. *)
Lemma rwpe_copy_left_loop (copy : ptr → ptr → R ptr) f n s l parl pa npa :
  (∀ t par' p s0, t ≠ Leaf → height t < f → rep (mem s0) par' t →
     rwpe (copy (top t) p) s0 (copy_post s0 p t)
       (λ e s', copy_fails alloc_fails ctor_throws e ∧ s' = s0)) →
  rep (mem s) parl l → height l < n → height l ≤ f →
  mem s !! pa = Some npa → left npa = None → pa ∉ addrs l →
  rwpe (copy_left_loop alloc_fails ctor_throws copy n (top l) (Some pa)) s
    (λ _ s', attach_post true s pa npa l s')
    (λ e s', copy_fails alloc_fails ctor_throws e ∧ attach_post false s pa npa l s').
Proof.
  clear. intros Hcopy. revert s l parl pa npa.
  induction n as [|n IH]; intros s l parl pa npa Hl Hn Hf Hpa Hnpa Hpal; [lia|].
  assert (attach_post false s pa npa l s) as Hnone.
  { split; [done|]. exists Leaf. simpl. rewrite with_left_id by done.
    split_and!; [done|done|done|apply NoDup_nil_2| |done].
    by intros b ?%elem_of_nil. }
  destruct l as [|x c ll v r]; simpl.
  { apply rwpe_ret. split; [done|]. exists Leaf. simpl.
    rewrite with_left_id by done.
    split_and!; [done|done|done|apply NoDup_nil_2| |done].
    by intros b ?%elem_of_nil. }
  destruct Hl as (Hx & Hll & Hr). simpl in Hn, Hf, Hpal.
  rewrite not_elem_of_app, not_elem_of_cons in Hpal.
  destruct Hpal as (Hpall & Hpax & Hpar).
  apply rwpe_bind. eapply rwpe_clone_node; [exact Hx|done|by intros e|].
  intros a Ha. simpl.
  assert (a ≠ pa) as Hapa by (intros ->; congruence).
  assert (a ≠ x) as Hax by (intros ->; congruence).
  apply rwpe_bind, rwpe_lift. eapply wp_set_left; [simpl; lookup_tac|]. simpl.
  apply rwpe_bind, rwpe_lift. eapply wp_set_parent; [simpl; lookup_tac|]. simpl.
  set (h3 := <[a := _]> (<[pa := _]> (<[a := _]> (mem s)))).
  assert (∀ b, b ≠ a → b ≠ pa → h3 !! b = mem s !! b) as Hh3.
  { intros b ? ?. unfold h3. by rewrite !lookup_insert_ne by congruence. }
  assert (h3 !! pa = Some (with_left (Some a) npa)) as Hpa3.
  { unfold h3. rewrite lookup_insert_ne by done. by rewrite lookup_insert_eq. }
  assert (∀ t par, rep (mem s) par t → pa ∉ addrs t → rep h3 par t) as Hrep3.
  { intros t par Ht Hpat.
    assert (a ∉ addrs t) as Hat.
    { intros Hin. destruct (rep_dom _ _ _ _ Ht Hin) as [m Hm]. congruence. }
    unfold h3. by repeat apply rep_frame. }
  assert (∀ (whole : bool) s',
            (this s' = this s
             ∧ ∃ l' r', (if whole then same_shape ll l' ∧ same_shape r r' else True)
                 ∧ rep (mem s') (Some pa) (Br a c l' v r')
                 ∧ NoDup (addrs (Br a c l' v r'))
                 ∧ (∀ b, b ∈ addrs (Br a c l' v r') → mem s !! b = None)
                 ∧ same_outside ([pa] ++ addrs (Br a c l' v r')) (mem s) (mem s')
                 ∧ (∀ b, b ∈ [pa] → mem s' !! b = h3 !! b)) →
            attach_post whole s pa npa (Br x c ll v r) s') as Hpost.
  { intros whole s' (Hthis' & l' & r' & Hsh & Hrep & Hnd & Hfresh & Hout & HX).
    split; [done|]. exists (Br a c l' v r'). split_and!; try done.
    - destruct whole; [|done]. simpl. by destruct Hsh.
    - rewrite HX by (by left). done. }
  eapply rwpe_mono;
    [eapply (rwpe_copy_rest copy f n (State (this s) h3) (mem s) [pa]
               x parl c ll v r a (Some pa))| |].
  - exact Hcopy.
  - intros s1 pa' npa' Hl1 Hpa1 Hn1 Hpal1.
    eapply (IH s1 ll (Some x) pa' npa'); [done|lia|lia|done|done|done].
  - simpl. by rewrite Hh3.
  - by apply Hrep3.
  - by apply Hrep3.
  - lia.
  - unfold h3. simpl. by rewrite lookup_insert_eq.
  - done.
  - by intros ->%list_elem_of_singleton.
  - intros b ->%list_elem_of_singleton. simpl. by rewrite Hpa3.
  - intros b Hb. simpl. apply Hh3.
    + intros ->. apply Hb. set_solver.
    + intros ->. apply Hb. set_solver.
  - done.
  - intros Hin. destruct (rep_dom _ _ _ _ Hll Hin) as [m Hm]. congruence.
  - intros ? s'. apply Hpost.
  - intros ? s' [Hfail Hatt]. split; [done|]. by apply Hpost.
Qed.

(** The handler of [copy_from] gives back what has been built. *)
Lemma rwpe_copy_undo s s' p t' (E : exn → state T → Prop) :
  this s' = this s → built_in (mem s) (mem s') p t' →
  rwpe (let+ h := get_mem in erase_since (fuel_of h) (top t')) s'
    (λ _ s'', s'' = s) E.
Proof.
  clear. intros Hthis (Hrep & Hnd & Hfresh & Hout).
  apply rwpe_bind, rwpe_get_mem. apply rwp_rwpe.
  eapply rwp_erase_since; [exact Hrep|exact Hnd| |].
  - rewrite fuel_of_eq. pose proof (height_le_length t').
    pose proof (NoDup_length_size (mem s') (addrs t') Hnd) as Hsize.
    assert (length (addrs t') ≤ base.size (mem s')); [|lia].
    apply Hsize. intros a Ha. by eapply rep_dom.
  - destruct s as [o h], s' as [o' h']. simpl in *. subst o'. f_equal.
    apply map_eq. intros b. destruct (decide (b ∈ addrs t')) as [Hin|Hnin].
    + by rewrite lookup_free_all_in, Hfresh.
    + rewrite lookup_free_all by done. by apply Hout.
Qed.

(** [copy_from] builds a copy of the tree at [x] in new nodes, under a
    link owned by [p]; when a node cannot be made it gives back the nodes
    it has made and throws. *)
Lemma rwpe_copy_from f t par p s :
  t ≠ Leaf → height t < f → rep (mem s) par t →
  rwpe (copy_from alloc_fails ctor_throws f (top t) p) s
    (copy_post s p t)
    (λ e s', copy_fails alloc_fails ctor_throws e ∧ s' = s).
Proof.
  clear. revert t par p s.
  induction f as [|f IH]; intros t par p s Ht Hf Hrep; [lia|].
  destruct t as [|x c l v r]; [done|]. simpl in Hf.
  destruct Hrep as (Hx & Hl & Hr). simpl.
  apply rwpe_bind. eapply rwpe_clone_node; [exact Hx|done|by intros e|].
  intros a Ha. simpl.
  assert (a ≠ x) as Hax by (intros ->; congruence).
  apply rwpe_bind, rwpe_lift. eapply wp_set_parent; [simpl; lookup_tac|]. simpl.
  rewrite insert_insert_eq.
  set (h3 := <[a := _]> (mem s)).
  assert (∀ t0 par0, rep (mem s) par0 t0 → rep h3 par0 t0) as Hrep3.
  { intros t0 par0 Ht0. apply rep_frame; [|done].
    intros Hin. destruct (rep_dom _ _ _ _ Ht0 Hin) as [m Hm]. congruence. }
  apply rwpe_bind, rwpe_try_catch_rethrow.
  eapply rwpe_mono;
    [eapply (rwpe_copy_rest (copy_from alloc_fails ctor_throws f) f f
               (State (this s) h3) (mem s) [] x par c l v r a p)| |].
  - exact IH.
  - intros s1 pa npa Hl1 Hpa1 Hn1 Hpal1.
    eapply (rwpe_copy_left_loop _ f f s1 l (Some x) pa npa);
      [exact IH|done|lia|lia|done|done|done].
  - simpl. unfold h3. by rewrite lookup_insert_ne.
  - by apply Hrep3.
  - by apply Hrep3.
  - lia.
  - unfold h3. simpl. by rewrite lookup_insert_eq.
  - done.
  - by intros ?%elem_of_nil.
  - by intros b ?%elem_of_nil.
  - intros b Hb. simpl. unfold h3. apply lookup_insert_ne.
    intros ->. apply Hb. set_solver.
  - done.
  - intros Hin. destruct (rep_dom _ _ _ _ Hl Hin) as [m Hm]. congruence.
  - intros ? s' (Hthis & l' & r' & [Hsl Hsr] & Hrep' & Hnd & Hfresh & Hout & _).
    apply rwpe_ret. split; [done|]. exists (Br a c l' v r').
    split; [done|]. split; [done|]. by split_and!.
  - intros e s' (Hfail & Hthis & l' & r' & _ & Hrep' & Hnd & Hfresh & Hout & _).
    eapply rwpe_mono;
      [apply (rwpe_copy_undo s s' p (Br a c l' v r') (λ _ _, False));
         [done|by split_and!]| |done].
    by intros ? s'' ->.
Qed.

Lemma same_shape_values t t' : same_shape t t' → (cells t').*2 = (cells t).*2.
Proof.
  clear. revert t'. induction t as [|a c l IHl v r IHr]; intros [|a' c' l' v' r'];
    simpl; try done.
  intros (_ & -> & Hl & Hr). rewrite !fmap_app, !fmap_cons. simpl.
  by rewrite (IHl l' Hl), (IHr r' Hr).
Qed.

Lemma same_shape_red t t' : same_shape t t' → is_red_t t' = is_red_t t.
Proof. clear. destruct t, t'; simpl; try done. by intros (-> & _). Qed.

Lemma same_shape_rb n t t' : same_shape t t' → rb n t → rb n t'.
Proof.
  clear. revert n t'.
  induction t as [|a c l IHl v r IHr]; intros n [|a' c' l' v' r']; simpl; try done.
  intros (<- & _ & Hl & Hr). destruct (color_is c rb_tree_red).
  - intros (Hrl & Hrr & Hbl & Hbr).
    rewrite (same_shape_red l l' Hl), (same_shape_red r r' Hr).
    split_and!; [done|done|by apply IHl|by apply IHr].
  - destruct n as [|m]; [done|]. intros [Hbl Hbr].
    split; [by apply IHl|by apply IHr].
Qed.

Lemma sorted_same_values cs cs' : cs'.*2 = cs.*2 → sorted cs → sorted cs'.
Proof.
  clear. revert cs'. induction cs as [|[a v] cs IH]; intros [|[a' v'] cs'] Heq;
    try done.
  simpl in Heq. injection Heq as -> Heq. change (cs'.*2 = cs.*2) in Heq.
  intros Hs.
  apply sorted_cons in Hs as [Hall Hs]. apply sorted_cons. split; [|by apply IH].
  apply Forall_forall. intros [b w] Hin.
  assert (w ∈ cs.*2) as ([b' w'] & -> & Hin')%list_elem_of_fmap.
  { rewrite <-Heq. apply list_elem_of_fmap. by exists (b, w). }
  rewrite Forall_forall in Hall. exact (Hall _ Hin').
Qed.

Lemma rb_tree_init_throws s e s' :
  rb_tree_init alloc_fails s = Throw e s' → alloc_fails (mem s) = true.
Proof.
  clear. destruct (alloc_fails (mem s)) eqn:Hal; [done|].
  unfold rb_tree_init, allocate, rbind, get_mem, set_mem, rret, get_this,
    set_this, lift, set_color, write, set_parent, set_left, set_right, update.
  simpl. rewrite Hal. simpl.
  repeat (rewrite !lookup_insert_eq; simpl). done.
Qed.

Lemma rwpe_rb_tree_init_cause s :
  rwpe (rb_tree_init alloc_fails) s
    (λ _ s', ∃ hd, mem s !! hd = None ∧ tree_inv s' hd []
               ∧ mem s' = <[hd := Node None (Some hd) (Some hd) rb_tree_red None]>
                             (mem s))
    (λ e s', e = bad_alloc ∧ s' = s ∧ alloc_fails (mem s) = true).
Proof.
  clear val_eq val_lt.
  pose proof (rwpe_rb_tree_init s) as Hinit.
  pose proof (rb_tree_init_throws s) as Hcause. unfold rwpe in *.
  destruct (rb_tree_init alloc_fails s) as [|e s'|]; [done| |done].
  destruct Hinit as [-> ->]. split_and!; [done|done|by eapply Hcause].
Qed.

Lemma rb_tree_init_returns s a s' :
  rb_tree_init alloc_fails s = Ok a s' → alloc_fails (mem s) = false.
Proof.
  clear. unfold rb_tree_init, allocate, rbind, get_mem, throw.
  by destruct (alloc_fails (mem s)).
Qed.

(** *** The move constructor *)

(** X22. The move constructor hands the elements over as they are: the walk
    of the new object visits the same positions with the same elements,
    and the object moved from is an empty container on a header of its
    own.  It returns exactly when that header can be allocated: the
    constructor is declared [noexcept], so when the allocation fails the
    program is ended, and no exception reaches the caller. *)
Theorem move_construct_takes_over s :
  reachable s →
  ∃ w, walk (this s) (mem s) = Some (w, mem s)
    ∧ match move_construct alloc_fails s with
      | Returns new s' =>
          alloc_fails (mem s) = false
          ∧ walk new (mem s') = Some (w, mem s')
          ∧ size new = size (this s)
          ∧ end_ new = end_ (this s)
          ∧ reachable s'
          ∧ walk (this s') (mem s') = Some ([], mem s')
          ∧ end_ (this s') ≠ end_ new
      | Terminates => alloc_fails (mem s) = true
      | Undefined => False
      end.
Proof.
  clear val_eq val_lt.
  intros Hreach. pose proof Hreach as (hd & cs & Hinv)%reachable_inv.
  exists (positions cs). split; [by eapply walk_inv|].
  unfold move_construct, noexcept, reset. unfold rbind at 1. unfold get_this.
  pose proof (rwpe_rb_tree_init_cause s) as Hinit. unfold rwpe in Hinit.
  pose proof (rb_tree_init_returns s) as Hret.
  unfold rbind.
  destruct (rb_tree_init alloc_fails s) as [[] s'|e s'|] eqn:Hrun;
    [|by destruct Hinit as (_ & _ & ?)|done].
  destruct Hinit as (hd' & Hfresh & Hinv' & Hmem). unfold rret.
  assert (tree_inv (State (this s) (mem s')) hd cs) as Hnew.
  { destruct s as [o h]. simpl in *.
    apply (tree_inv_preserved o h (mem s') hd cs [hd']); [done| |].
    - intros a Ha _. rewrite Hmem. apply lookup_insert_ne.
      intros ->. apply Ha. by left.
    - intros a Ha [->|Hn]%elem_of_cons; [|by apply elem_of_nil in Hn].
      destruct (tree_inv_allocated _ _ _ _ _ Hinv Ha) as [n Hn]. congruence. }
  pose proof (walk_inv _ hd cs Hnew) as Hwalk. simpl in Hwalk.
  assert (RbTree (header_ (this s)) (node_count_ (this s)) = this s) as ->
    by (by destruct (this s)).
  split_and!; [by eapply Hret|done|done|done| | |].
  - exists s, s', []. done.
  - exact (walk_inv s' hd' [] Hinv').
  - rewrite (tree_inv_this s' hd' [] Hinv'), (tree_inv_this s hd cs Hinv).
    unfold end_. simpl. intros [= ->].
    destruct s as [o h]. simpl in *.
    destruct (tree_inv_allocated _ _ _ _ hd Hinv) as [n Hn]; [by left|].
    congruence.
Qed.

(** The copy of the tree of [rhs] under the header of an empty
    container, as the copy constructor and the copy assignment do it. *)
Lemma rwpe_copy_into rhs hd cs hd' h1 :
  tree_inv (State rhs h1) hd cs →
  tree_inv (State (RbTree (Some hd') 0) h1) hd' [] →
  hd' ∉ hd :: cs.*1 →
  rwpe (let+ t := get_this in
        let+ _ := (if negb (bool_decide (node_count_ rhs = 0%Z)) then
                     let+ x := lift (read (root rhs)) in
                     let+ h := get_mem in
                     let+ r := copy_from alloc_fails ctor_throws (fuel_of h) x
                                 (header_ t) in
                     let+ _ := lift (write (root t) r) in
                     let+ r1 := lift (read (root t)) in
                     let+ mn := lift (rb_tree_min r1) in
                     let+ _ := lift (write (leftmost t) mn) in
                     let+ r2 := lift (read (root t)) in
                     let+ mx := lift (rb_tree_max r2) in
                     lift (write (rightmost t) mx)
                   else rret tt) in
        let+ t := get_this in
        set_this (RbTree (header_ t) (node_count_ rhs)))
    (State (RbTree (Some hd') 0) h1)
    (λ _ s', ∃ cs',
       tree_inv s' hd' cs' ∧ cs'.*2 = cs.*2
       ∧ (∀ a, a ∈ cs'.*1 → h1 !! a = None)
       ∧ same_outside (hd' :: cs'.*1) h1 (mem s'))
    (λ e s',
       copy_fails alloc_fails ctor_throws e ∧ s' = State (RbTree (Some hd') 0) h1).
Proof.
  clear val_eq val_lt.
  intros (t & Hthis & (Hhd & Hrep1 & Hnd) & Hcells & Hrb & Hsort & Hlen) Hinv1 Hapart.
  simpl in Hthis, Hhd, Hrep1. subst rhs.
  assert (h1 !! hd' = Some (Node None (Some hd') (Some hd') rb_tree_red None))
    as Hhd1.
  { destruct Hinv1 as (t1 & _ & (Hh & _) & Hc1 & _).
    apply cells_nil in Hc1 as ->. exact Hh. }
  ewp_steps. case_bool_decide as Hz; simpl.
  { ewp_steps. assert (cs = []) as -> by (destruct cs; [done|simpl in Hz; lia]).
    exists []. split_and!; [done|done|by intros a ?%elem_of_nil|done]. }
  assert (hd ≠ hd') as Hne.
  { intros ->. apply Hapart. by left. }
  assert (t ≠ Leaf) as Ht.
  { intros ->. simpl in Hcells. subst cs. done. }
  apply rwpe_bind, rwpe_lift. unfold root, read. simpl.
  eapply wp_get_parent; [exact Hhd|].
  simpl. ewp_steps.
  eapply rwpe_mono;
    [eapply (rwpe_copy_from (fuel_of h1) t (Some hd) (Some hd')
               (State (RbTree (Some hd') 0) h1)); [done| |done]| |].
  { rewrite fuel_of_eq. pose proof (height_le_length t).
    apply NoDup_cons in Hnd as [_ Hnd].
    pose proof (NoDup_length_size h1 (addrs t) Hnd) as Hsize.
    assert (length (addrs t) ≤ base.size h1); [|lia].
    apply Hsize. intros a Ha. by eapply rep_dom. }
  2:{ intros e s' [Hfail ->]. by split. }
  intros res [o2 h2] (Hthis2 & t' & Hsh & Htop & Hrep2 & Hnd2 & Hfr2 & Hout2).
  simpl in Hthis2, Hrep2, Hfr2, Hout2. subst o2 res.
  assert (hd' ∉ addrs t') as Hhdt'.
  { intros Hin. rewrite (Hfr2 hd' Hin) in Hhd1. done. }
  assert (h2 !! hd' = Some (Node None (Some hd') (Some hd') rb_tree_red None))
    as Hhd2 by (by rewrite Hout2).
  assert (∃ a', top t' = Some a') as [a' Htop'].
  { destruct t as [|? ? ? ? ?]; [done|]. destruct t'; [done|]. simpl. by eauto. }
  assert (∀ n, height t' ≤ fuel_of (<[hd' := n]> h2)) as Hfuel.
  { intros n. rewrite fuel_of_eq. pose proof (height_le_length t').
    pose proof (NoDup_length_size (<[hd' := n]> h2) (addrs t') Hnd2) as Hsize.
    assert (length (addrs t') ≤ base.size (<[hd' := n]> h2)); [|lia].
    apply Hsize. intros a Ha. destruct (rep_dom _ _ _ _ Hrep2 Ha) as [m Hm].
    rewrite lookup_insert_ne by (intros ->; done). by eauto. }
  apply rwpe_bind, rwpe_lift. unfold write.
  eapply wp_set_parent; [exact Hhd2|]. simpl.
  apply rwpe_bind, rwpe_lift. eapply wp_get_parent; [apply lookup_insert_eq|].
  simpl. apply rwpe_bind, rwpe_lift. unfold rb_tree_min. apply wp_with_fuel.
  rewrite Htop'.
  eapply (wp_min_loop _ _ (Some hd') t' a');
    [by apply rep_frame|done|by apply Hfuel|].
  intros b cs' Hcs' Hb. unfold leftmost, write. simpl.
  apply rwpe_bind, rwpe_lift. eapply wp_set_left; [apply lookup_insert_eq|].
  simpl. rewrite insert_insert_eq.
  apply rwpe_bind, rwpe_lift. eapply wp_get_parent; [apply lookup_insert_eq|].
  simpl. apply rwpe_bind, rwpe_lift. unfold rb_tree_max. apply wp_with_fuel.
  eapply (wp_max_loop _ _ (Some hd') t' a');
    [by apply rep_frame|done|by apply Hfuel|].
  intros b2 cs2 Hcs2 Hb2. unfold rightmost, write. simpl.
  apply rwpe_lift. eapply wp_set_right; [apply lookup_insert_eq|].
  simpl. rewrite insert_insert_eq. ewp_steps.
  subst cs' cs2.
  pose proof (same_shape_values t t' Hsh) as Hvals. rewrite Hcells in Hvals.
  exists (cells t'). split_and!.
  - exists t'. split_and!; simpl.
    + f_equal. f_equal. apply (f_equal length) in Hvals.
      by rewrite !length_fmap in Hvals.
    + split_and!.
      * rewrite lookup_insert_eq, <-Htop'. unfold first_pos, last_pos.
        rewrite <-fmap_last, Hb2. simpl.
        destruct (cells t') as [|e ?]; [done|]. simpl in Hb.
        injection Hb as <-. done.
      * by apply rep_frame.
      * apply NoDup_cons. done.
    + done.
    + destruct Hrb as [Hroot [n Hn]]. split.
      * unfold root_black. by rewrite (same_shape_red t t' Hsh).
      * exists n. by eapply same_shape_rb.
    + apply (sorted_same_values cs); done.
    + apply (f_equal length) in Hvals. rewrite !length_fmap in Hvals.
      by rewrite Hvals.
  - done.
  - intros a Ha. apply Hfr2. by rewrite addrs_cells.
  - intros a [Hahd Ha]%not_elem_of_cons. rewrite <-addrs_cells in Ha.
    rewrite lookup_insert_ne by done. by rewrite Hout2.
Qed.

(** The copy constructor builds the copy on a header and nodes of its
    own; when it throws after the header has been made, the header is
    all that it leaves behind. *)
Lemma rwpe_copy_construct s rhs hd cs :
  tree_inv (State rhs (mem s)) hd cs →
  rwpe (copy_construct alloc_fails ctor_throws rhs) s
    (λ _ s', ∃ hd' cs',
       tree_inv s' hd' cs' ∧ cs'.*2 = cs.*2 ∧ mem s !! hd' = None
       ∧ (∀ a, a ∈ cs'.*1 → mem s !! a = None)
       ∧ same_outside (hd' :: cs'.*1) (mem s) (mem s'))
    (λ e s',
       copy_fails alloc_fails ctor_throws e
       ∧ (s' = s
          ∨ ∃ hd', mem s !! hd' = None
              ∧ s' = State (RbTree (Some hd') 0)
                       (<[hd' := Node None (Some hd') (Some hd') rb_tree_red None]>
                          (mem s)))).
Proof.
  clear val_eq val_lt.
  intros Hinv. unfold copy_construct. apply rwpe_bind.
  eapply rwpe_mono; [apply rwpe_rb_tree_init_cause| |].
  2:{ intros e s' (-> & -> & Hal). split; [simpl; by eauto|by left]. }
  intros [] s1 (hd' & Hfresh & Hinv1 & Hmem1).
  pose proof (tree_inv_this s1 hd' [] Hinv1) as Hthis1. simpl in Hthis1.
  destruct s1 as [o1 h1]. simpl in Hthis1, Hmem1. subst o1.
  assert (hd' ∉ hd :: cs.*1) as Hapart.
  { intros Hin. destruct (tree_inv_allocated _ _ _ _ _ Hinv Hin) as [m Hm].
    congruence. }
  assert (tree_inv (State rhs h1) hd cs) as Hrhs1.
  { apply (tree_inv_preserved rhs (mem s) h1 hd cs [hd']); [done| |].
    - intros a Ha _. rewrite Hmem1. apply lookup_insert_ne.
      intros ->. apply Ha. by left.
    - intros a Ha ->%list_elem_of_singleton. done. }
  eapply rwpe_mono; [exact (rwpe_copy_into rhs hd cs hd' h1 Hrhs1 Hinv1 Hapart)| |].
  - intros [] s' (cs' & Hinv' & Hvals & Hfr & Hout).
    assert (∀ a, a ∈ cs'.*1 → a ≠ hd') as Hcs'.
    { intros a Ha ->. pose proof (Hfr hd' Ha) as Hnone.
      rewrite Hmem1, lookup_insert_eq in Hnone. done. }
    exists hd', cs'. split_and!; [done|done|done| |].
    + intros a Ha. pose proof (Hfr a Ha) as Hnone.
      rewrite Hmem1, lookup_insert_ne in Hnone; [done|].
      intros ->. by apply (Hcs' a).
    + intros a Ha. rewrite Hout by done. rewrite Hmem1.
      apply lookup_insert_ne. intros ->. apply Ha. by left.
  - intros e s' [Hfail ->]. split; [done|]. right. exists hd'.
    by rewrite Hmem1.
Qed.

(** *** Two containers on one store *)

Lemma rep_has_value h par t a :
  rep h par t → a ∈ addrs t → ∃ n v, h !! a = Some n ∧ value n = Some v.
Proof.
  clear. intros Hrep Ha. rewrite addrs_cells in Ha.
  apply list_elem_of_fmap in Ha as ([a' v] & -> & Hin).
  destruct (rep_cell h par t a' v Hrep Hin) as (n & Hn & Hv). by eauto.
Qed.

(** A node under two headers: the headers are one. *)
Lemma node_one_header h hd1 L1 R1 hd2 L2 R2 ctx1 :
  ∀ ctx2 a u1 u2,
    top u1 = Some a → top u2 = Some a →
    ctx_rep h hd1 L1 R1 ctx1 (Some a) → rep h (ctx_par hd1 ctx1) u1 →
    ctx_rep h hd2 L2 R2 ctx2 (Some a) → rep h (ctx_par hd2 ctx2) u2 →
    hd1 = hd2.
Proof.
  clear. induction ctx1 as [|f1 ctx1 IH]; intros ctx2 a u1 u2 Ht1 Ht2 Hc1 Hr1 Hc2 Hr2.
  all: destruct u1 as [|a1 c1 l1 v1 r1]; [done|]; injection Ht1 as ->.
  all: destruct u2 as [|a2 c2 l2 v2 r2]; [done|]; injection Ht2 as ->.
  all: destruct Hr1 as (Ha1 & Hl1 & Hrr1); destruct Hr2 as (Ha2 & Hl2 & Hrr2).
  all: pose proof Ha2 as Ha2'; rewrite Ha1 in Ha2; injection Ha2 as Hpar _ _ _ _.
  - destruct ctx2 as [|f2 ctx2]; simpl in Hpar; [congruence|].
    injection Hpar as ->. destruct f2; simpl in Hc1, Hc2;
      destruct Hc2 as (Hf & _); rewrite Hc1 in Hf; done.
  - destruct ctx2 as [|f2 ctx2]; simpl in Hpar.
    { injection Hpar as Hp. destruct f1; simpl in Hc1, Hc2, Hp;
        destruct Hc1 as (Hf & _); subst; rewrite Hc2 in Hf; done. }
    injection Hpar as Hp.
    apply (IH ctx2 (frame_addr f1) (fill f1 (Br a c1 l1 v1 r1))
              (fill f2 (Br a c2 l2 v2 r2))).
    + by destruct f1.
    + rewrite Hp. by destruct f2.
    + destruct f1; simpl in *; by destruct Hc1 as (_ & _ & ?).
    + destruct f1; simpl in *; destruct Hc1 as (Hf & Hs & _);
        split_and!; try done.
    + rewrite Hp. destruct f2; simpl in *; by destruct Hc2 as (_ & _ & ?).
    + destruct f2; simpl in *; destruct Hc2 as (Hf & Hs & _);
        split_and!; try done.
Qed.

(** Two trees on one store under different headers share no node. *)
Lemma trees_apart h hd1 L1 R1 t1 hd2 L2 R2 t2 a :
  tree_rep h hd1 L1 R1 t1 → tree_rep h hd2 L2 R2 t2 → hd1 ≠ hd2 →
  a ∈ hd1 :: addrs t1 → a ∉ hd2 :: addrs t2.
Proof.
  clear. intros Ht1 Ht2 Hne Ha1 Ha2.
  pose proof Ht1 as (Hh1 & Hr1 & _). pose proof Ht2 as (Hh2 & Hr2 & _).
  apply elem_of_cons in Ha1 as [->|Ha1]; apply elem_of_cons in Ha2 as [Heq|Ha2].
  - done.
  - destruct (rep_has_value _ _ _ _ Hr2 Ha2) as (n & v & Hn & Hv).
    rewrite Hh1 in Hn. injection Hn as <-. done.
  - subst a. destruct (rep_has_value _ _ _ _ Hr1 Ha1) as (n & v & Hn & Hv).
    rewrite Hh2 in Hn. injection Hn as <-. done.
  - destruct (focus_exists t1 a Ha1) as (ctx1 & c1 & l1 & v1 & r1 & ->).
    destruct (focus_exists t2 a Ha2) as (ctx2 & c2 & l2 & v2 & r2 & ->).
    apply focus_tree_rep in Ht1 as (Hc1 & Hs1 & _).
    apply focus_tree_rep in Ht2 as (Hc2 & Hs2 & _).
    apply Hne.
    by apply (node_one_header h hd1 L1 R1 hd2 L2 R2 ctx1 ctx2 a
                (Br a c1 l1 v1 r1) (Br a c2 l2 v2 r2)).
Qed.

(** X25. The copy constructor makes a deep copy: the new container is well
    formed with the elements of [rhs] in the same order, on a header and
    on nodes that are all new, and [rhs] and every node that was
    allocated stay as they are.  It throws only when a node cannot be
    allocated or the copy of an element throws: the nodes made so far are
    given back, and the store is as before, except for the header of the
    new container when it had been made already. *)
Theorem copy_construct_copies s rhs xs :
  well_formed rhs (mem s) xs →
  match copy_construct alloc_fails ctor_throws rhs s with
  | Ok _ s' =>
      well_formed (this s') (mem s') xs
      ∧ well_formed rhs (mem s') xs
      ∧ size (this s') = size rhs
      ∧ (∀ a, is_Some (mem s !! a) → mem s' !! a = mem s !! a)
      ∧ ∃ hd' w,
          end_ (this s') = Some hd' ∧ mem s !! hd' = None
          ∧ walk (this s') (mem s') = Some (w, mem s')
          ∧ w.*2 = xs
          ∧ ∀ a v, (Some a, v) ∈ w → mem s !! a = None
  | Throw e s' =>
      copy_fails alloc_fails ctor_throws e
      ∧ (s' = s
         ∨ ∃ hd', mem s !! hd' = None
             ∧ s' = State (RbTree (Some hd') 0)
                      (<[hd' := Node None (Some hd') (Some hd') rb_tree_red None]>
                         (mem s)))
  | Fault => False
  end.
Proof.
  clear val_eq val_lt.
  intros (hd & cs & Hinv & <-).
  pose proof (rwpe_copy_construct s rhs hd cs Hinv) as Hrun. unfold rwpe in Hrun.
  destruct (copy_construct alloc_fails ctor_throws rhs s) as [[] s'|e s'|];
    [|exact Hrun|done].
  destruct Hrun as (hd' & cs' & Hinv' & Hvals & Hfresh & Hfr & Hout).
  assert (∀ a, is_Some (mem s !! a) → a ∉ hd' :: cs'.*1) as Hold.
  { intros a [n Hn] [->|Hin]%elem_of_cons; [congruence|].
    rewrite (Hfr a Hin) in Hn. done. }
  assert (length cs' = length cs) as Hlen.
  { apply (f_equal length) in Hvals. by rewrite !length_fmap in Hvals. }
  split_and!.
  - exists hd', cs'. by rewrite state_eta.
  - exists hd, cs. split; [|done].
    apply (tree_inv_preserved rhs (mem s) (mem s') hd cs (hd' :: cs'.*1)).
    + done.
    + intros a Ha _. by apply Hout.
    + intros a Ha. apply Hold. by eapply tree_inv_allocated.
  - rewrite (tree_inv_this s' hd' cs' Hinv').
    pose proof (tree_inv_this _ hd cs Hinv) as Hrhs. simpl in Hrhs.
    rewrite Hrhs. unfold size. simpl. by rewrite Hlen.
  - intros a Ha. apply Hout. by apply Hold.
  - exists hd', (positions cs').
    rewrite (walk_inv s' hd' cs' Hinv'), (tree_inv_this s' hd' cs' Hinv').
    split_and!; [done|done|done| |].
    + unfold positions. by rewrite <-list_fmap_compose.
    + intros a v Hin. apply Hfr.
      apply list_elem_of_fmap in Hin as ([a' v'] & [= <- <-] & Hin).
      apply list_elem_of_fmap. by exists (a, v).
Qed.

Lemma tree_inv_apart rhs h hd1 cs1 o hd2 cs2 a :
  tree_inv (State o h) hd1 cs1 → tree_inv (State rhs h) hd2 cs2 → hd1 ≠ hd2 →
  a ∈ hd1 :: cs1.*1 → a ∉ hd2 :: cs2.*1.
Proof.
  clear. intros (t1 & _ & Ht1 & <- & _) (t2 & _ & Ht2 & <- & _) Hne.
  rewrite <-!addrs_cells. simpl in Ht1, Ht2. by eapply trees_apart.
Qed.

(** The copy assignment from another container empties the container,
    then copies into it; when the copy throws the container stays
    empty. *)
Lemma rwpe_copy_assign s rhs hd1 cs1 hd2 cs2 :
  tree_inv s hd1 cs1 → tree_inv (State rhs (mem s)) hd2 cs2 → hd1 ≠ hd2 →
  rwpe (copy_assign alloc_fails ctor_throws false rhs) s
    (λ _ s', ∃ cs', tree_inv s' hd1 cs' ∧ cs'.*2 = cs2.*2
               ∧ tree_inv (State rhs (mem s')) hd2 cs2)
    (λ e s', copy_fails alloc_fails ctor_throws e
               ∧ tree_inv s' hd1 [] ∧ tree_inv (State rhs (mem s')) hd2 cs2).
Proof.
  clear val_eq val_lt.
  intros Hinv1 Hinv2 Hne. unfold copy_assign. simpl. apply rwpe_bind.
  apply rwp_rwpe. eapply rwp_clear_frees; [exact Hinv1|].
  intros s1 Hinv1' Hfreed Hout.
  assert (∀ a, a ∈ hd2 :: cs2.*1 → a ∉ hd1 :: cs1.*1) as Hapart.
  { intros a Ha2 Ha1. destruct s as [o h].
    by apply (tree_inv_apart rhs h hd1 cs1 o hd2 cs2 a). }
  assert (tree_inv (State rhs (mem s1)) hd2 cs2) as Hrhs1.
  { apply (tree_inv_preserved rhs (mem s) (mem s1) hd2 cs2 (hd1 :: cs1.*1));
      [done| |done].
    intros a Ha _. by apply Hout. }
  pose proof (tree_inv_this s1 hd1 [] Hinv1') as Hthis1. simpl in Hthis1.
  destruct s1 as [o1 h1]. simpl in *. subst o1.
  assert (hd1 ∉ hd2 :: cs2.*1) as Hhd1.
  { intros Hin. apply (Hapart hd1 Hin). by left. }
  eapply rwpe_mono;
    [exact (rwpe_copy_into rhs hd2 cs2 hd1 h1 Hrhs1 Hinv1' Hhd1)| |].
  - intros [] s' (cs' & Hinv' & Hvals & Hfr & Hout').
    exists cs'. split_and!; [done|done|].
    apply (tree_inv_preserved rhs h1 (mem s') hd2 cs2 (hd1 :: cs'.*1)); [done| |].
    + intros a Ha _. by apply Hout'.
    + intros a Ha [->|Hin]%elem_of_cons; [done|].
      destruct (tree_inv_allocated _ _ _ _ _ Hrhs1 Ha) as [m Hm].
      rewrite (Hfr a Hin) in Hm. done.
  - intros e s' [Hfail ->]. done.
Qed.

(** X26. The copy assignment from another well-formed container of the store
    keeps the header of the container and replaces its elements by
    copies of those of [rhs], which stays as it is.  When a node cannot
    be made, the container is left empty: its former elements are gone,
    and the nodes of the copy have been given back.  The assignment of a
    container to itself does nothing. *)
Theorem copy_assign_replaces s rhs xs ys :
  well_formed (this s) (mem s) ys → well_formed rhs (mem s) xs →
  header_ rhs ≠ header_ (this s) →
  match copy_assign alloc_fails ctor_throws false rhs s with
  | Ok _ s' =>
      well_formed (this s') (mem s') xs ∧ well_formed rhs (mem s') xs
      ∧ end_ (this s') = end_ (this s) ∧ size (this s') = size rhs
  | Throw e s' =>
      copy_fails alloc_fails ctor_throws e
      ∧ well_formed (this s') (mem s') [] ∧ well_formed rhs (mem s') xs
      ∧ end_ (this s') = end_ (this s) ∧ size (this s') = 0%Z
  | Fault => False
  end
  ∧ copy_assign alloc_fails ctor_throws true (this s) s = Ok tt s.
Proof.
  clear val_eq val_lt.
  intros (hd1 & cs1 & Hinv1 & <-) (hd2 & cs2 & Hinv2 & <-) Hne.
  rewrite state_eta in Hinv1.
  pose proof (tree_inv_this s hd1 cs1 Hinv1) as Hthis.
  pose proof (tree_inv_this _ hd2 cs2 Hinv2) as Hrhs. simpl in Hrhs.
  assert (hd1 ≠ hd2) as Hne'.
  { intros ->. apply Hne. by rewrite Hthis, Hrhs. }
  split; [|done].
  pose proof (rwpe_copy_assign s rhs hd1 cs1 hd2 cs2 Hinv1 Hinv2 Hne') as Hrun.
  unfold rwpe in Hrun.
  destruct (copy_assign alloc_fails ctor_throws false rhs s) as [[] s'|e s'|];
    [| |done].
  - destruct Hrun as (cs' & Hinv' & Hvals & Hrhs').
    pose proof (tree_inv_this s' hd1 cs' Hinv') as Hthis'.
    split_and!.
    + exists hd1, cs'. by rewrite state_eta.
    + by exists hd2, cs2.
    + by rewrite Hthis', Hthis.
    + rewrite Hthis', Hrhs. unfold size. simpl.
      apply (f_equal length) in Hvals. rewrite !length_fmap in Hvals.
      by rewrite Hvals.
  - destruct Hrun as (Hfail & Hinv' & Hrhs').
    pose proof (tree_inv_this s' hd1 [] Hinv') as Hthis'.
    split_and!; [done| |by exists hd2, cs2|by rewrite Hthis', Hthis|by rewrite Hthis'].
    exists hd1, []. by rewrite state_eta.
Qed.

(** X29. The move assignment takes over the header and the nodes of [rhs],
    which gets a new header; the header that the container had stays
    allocated, and neither container holds it any more.  When the new
    header cannot be allocated, the container holds the header of [rhs],
    whose members have not been touched. *)
Theorem move_assign_takes_over s rhs xs ys :
  well_formed (this s) (mem s) ys → well_formed rhs (mem s) xs →
  header_ rhs ≠ header_ (this s) →
  ∃ hd w,
    end_ (this s) = Some hd
    ∧ walk rhs (mem s) = Some (w, mem s) ∧ w.*2 = xs
    ∧ match move_assign alloc_fails rhs s with
      | Ok rhs' s' =>
          this s' = rhs
          ∧ walk (this s') (mem s') = Some (w, mem s')
          ∧ well_formed (this s') (mem s') xs
          ∧ well_formed rhs' (mem s') []
          ∧ end_ rhs' ≠ end_ (this s')
          ∧ is_Some (mem s' !! hd)
          ∧ end_ (this s') ≠ Some hd ∧ end_ rhs' ≠ Some hd
      | Throw e s' =>
          e = bad_alloc ∧ this s' = rhs
          ∧ well_formed (this s') (mem s') xs
          ∧ is_Some (mem s' !! hd)
      | Fault => False
      end.
Proof.
  clear val_eq val_lt.
  intros (hd1 & cs1 & Hinv1 & <-) (hd2 & cs2 & Hinv2 & <-) Hne.
  rewrite state_eta in Hinv1.
  pose proof (tree_inv_this s hd1 cs1 Hinv1) as Hthis.
  pose proof (tree_inv_this _ hd2 cs2 Hinv2) as Hrhs. simpl in Hrhs.
  assert (hd1 ≠ hd2) as Hne'.
  { intros ->. apply Hne. by rewrite Hthis, Hrhs. }
  exists hd1, (positions cs2).
  split; [by rewrite Hthis|].
  split; [exact (walk_inv _ hd2 cs2 Hinv2)|].
  split; [unfold positions; by rewrite <-list_fmap_compose|].
  destruct (rwp_clear_frees s hd1 cs1
              (λ _ s', tree_inv s' hd1 []
                       ∧ same_outside (hd1 :: cs1.*1) (mem s) (mem s')) Hinv1)
    as ([] & s1 & Hclear & Hinv1' & Hout); [done|].
  assert (∀ a, a ∈ hd2 :: cs2.*1 → a ∉ hd1 :: cs1.*1) as Hapart.
  { intros a Ha2 Ha1. destruct s as [o h].
    by apply (tree_inv_apart rhs h hd1 cs1 o hd2 cs2 a). }
  assert (tree_inv (State rhs (mem s1)) hd2 cs2) as Hrhs1.
  { apply (tree_inv_preserved rhs (mem s) (mem s1) hd2 cs2 (hd1 :: cs1.*1));
      [done| |done].
    intros a Ha _. by apply Hout. }
  assert (is_Some (mem s1 !! hd1)) as Hhd1.
  { destruct s1 as [o1 h1]. eapply tree_inv_allocated; [exact Hinv1'|by left]. }
  unfold move_assign, rbind. rewrite Hclear. unfold set_this, call_on, reset.
  cbn [this mem].
  assert (RbTree (header_ rhs) (node_count_ rhs) = rhs) as -> by (by destruct rhs).
  pose proof (rwpe_rb_tree_init (State rhs (mem s1))) as Hinit.
  unfold rwpe in Hinit.
  destruct (rb_tree_init alloc_fails (State rhs (mem s1))) as [[] s2|e s2|];
    [| |done].
  - destruct Hinit as (hd' & Hfresh & Hinv' & Hmem). unfold rret.
    cbn [this mem snd] in *.
    assert (tree_inv (State rhs (mem s2)) hd2 cs2) as Hrhs2.
    { apply (tree_inv_preserved rhs (mem s1) (mem s2) hd2 cs2 [hd']); [done| |].
      - intros a Ha _. rewrite Hmem. apply lookup_insert_ne.
        intros ->. apply Ha. by left.
      - intros a Ha ->%list_elem_of_singleton.
        destruct (tree_inv_allocated _ _ _ _ _ Hrhs1 Ha) as [m Hm]. congruence. }
    pose proof (tree_inv_this s2 hd' [] Hinv') as Hthis2.
    assert (hd' ≠ hd1) as Hhd'1.
    { intros ->. destruct Hhd1 as [m Hm]. congruence. }
    assert (hd' ≠ hd2) as Hhd'2.
    { intros ->. destruct (tree_inv_allocated _ _ _ _ hd2 Hrhs1) as [m Hm];
        [by left|congruence]. }
    split_and!.
    + done.
    + exact (walk_inv _ hd2 cs2 Hrhs2).
    + by exists hd2, cs2.
    + exists hd', []. split; [|done]. by rewrite state_eta.
    + rewrite Hthis2, Hrhs. unfold end_. simpl. congruence.
    + rewrite Hmem, lookup_insert_ne by done. done.
    + rewrite Hrhs. unfold end_. simpl. congruence.
    + rewrite Hthis2. unfold end_. simpl. congruence.
  - destruct Hinit as [-> ->]. cbn [this mem].
    split_and!; [done|done|by exists hd2, cs2|done].
Qed.

(** X30. A copy compares equal to its source: when no allocation fails and
    no copy of an element throws, the copy constructor returns, and
    [operator==] on the copy and the source returns [true], whichever
    side each stands on, provided an element is equal to itself. *)
Theorem copy_compares_equal s rhs xs :
  (∀ h, alloc_fails h = false) → (∀ v, ctor_throws v = false) →
  (∀ a, val_eq a a = true) →
  well_formed rhs (mem s) xs →
  ∃ s', copy_construct alloc_fails ctor_throws rhs s = Ok tt s'
    ∧ tree_eq val_eq (this s') rhs (mem s') = Some (true, mem s')
    ∧ tree_eq val_eq rhs (this s') (mem s') = Some (true, mem s')
    ∧ tree_ne val_eq (this s') rhs (mem s') = Some (false, mem s').
Proof.
  clear val_lt.
  intros Halloc Hctor Hrefl (hd & cs & Hinv & <-).
  pose proof (rwpe_copy_construct s rhs hd cs Hinv) as Hrun. unfold rwpe in Hrun.
  destruct (copy_construct alloc_fails ctor_throws rhs s) as [[] s'|e s'|];
    [| |done].
  2:{ destruct Hrun as [Hfail _]. destruct e; simpl in Hfail; [done| |].
      - destruct Hfail as [h Hh]. rewrite Halloc in Hh. done.
      - destruct Hfail as [v Hv]. rewrite Hctor in Hv. done. }
  destruct Hrun as (hd' & cs' & Hinv' & Hvals & Hfresh & Hfr & Hout).
  assert (well_formed (this s') (mem s') cs.*2) as Hnew.
  { exists hd', cs'. by rewrite state_eta. }
  assert (well_formed rhs (mem s') cs.*2) as Hold.
  { exists hd, cs. split; [|done].
    apply (tree_inv_preserved rhs (mem s) (mem s') hd cs (hd' :: cs'.*1)).
    - done.
    - intros a Ha _. by apply Hout.
    - intros a Ha [->|Hin]%elem_of_cons;
        destruct (tree_inv_allocated _ _ _ _ _ Hinv Ha) as [m Hm];
        [congruence|]. rewrite (Hfr a Hin) in Hm. done. }
  assert (Forall2 (λ x y, val_eq x y = true) cs.*2 cs.*2) as Hall.
  { apply Forall2_same_length_lookup. split; [done|].
    intros i x y Hx Hy. rewrite Hx in Hy. injection Hy as <-. apply Hrefl. }
  exists s'. split; [done|].
  destruct (tree_eq_inv (this s') rhs (mem s') _ _ Hnew Hold)
    as (b1 & Heq1 & Hb1 & Hs1 & Hs2).
  destruct (tree_eq_inv rhs (this s') (mem s') _ _ Hold Hnew)
    as (b2 & Heq2 & Hb2 & _).
  assert (b1 = true) as -> by (apply Hb1; split; [congruence|done]).
  assert (b2 = true) as -> by (apply Hb2; split; [congruence|done]).
  split_and!; [done|done|]. unfold tree_ne, bind. by rewrite Heq1.
Qed.

(** *** An insertion undone *)

(** X27. An element that [insert_multi] or [insert_unique] has inserted and
    that [erase] then takes out at the position the insertion returned:
    the walk visits again the positions and the elements it visited
    before the insertion, the size is what it was, and the node of the
    element, which was new, has been given back. *)
Theorem insert_erase_round_trip s v p s1 :
  reachable s →
  insert_multi get_key key_comp size_bits alloc_fails ctor_throws v s = Ok p s1
  ∨ insert_unique get_key key_comp size_bits alloc_fails ctor_throws v s
    = Ok (p, true) s1 →
  ∃ w q s2,
    walk (this s) (mem s) = Some (w, mem s)
    ∧ erase size_bits p s1 = Ok q s2
    ∧ walk (this s2) (mem s2) = Some (w, mem s2)
    ∧ size (this s2) = size (this s)
    ∧ end_ (this s2) = end_ (this s)
    ∧ (∃ a, p = Some a ∧ mem s !! a = None ∧ mem s2 !! a = None)
    ∧ reachable s2.
Proof.
  clear val_eq val_lt.
  intros Hreach Hins. pose proof Hreach as (hd & cs & Hinv)%reachable_inv.
  assert (∃ nd cs', p = Some nd ∧ mem s !! nd = None ∧ insert_post v cs nd cs'
                    ∧ tree_inv s1 hd cs' ∧ reachable s1)
    as (nd & cs' & -> & Hfresh & Hpost & Hinv1 & Hreach1).
  { destruct Hins as [Hrun|Hrun].
    - pose proof (rwpe_inv_ok _ _ _ _ _ _ (rwpe_insert_multi s hd cs v Hinv) Hrun)
        as (nd & cs' & -> & Hfresh & Hpost & Hinv' & _).
      exists nd, cs'. split_and!; try done.
      eapply (reachable_step s (InsertMulti v)); [done|].
      unfold run_op, try_catch_all. by rewrite Hrun.
    - pose proof (rwpe_inv_ok _ _ _ _ _ _ (rwpe_insert_unique s hd cs v Hinv) Hrun)
        as [(_ & nd & cs' & Hp & Hfresh & Hpost & Hinv' & _)|(Hb & _)];
        [|done].
      simpl in Hp. subst p. exists nd, cs'. split_and!; try done.
      eapply (reachable_step s (InsertUnique v)); [done|].
      unfold run_op, try_catch_all. by rewrite Hrun. }
  apply insert_post_elem in Hpost as (B & A & Hcs & Hcs').
  destruct (rwp_erase s1 hd cs' B nd v A
              (λ q s', tree_inv s' hd (B ++ A) ∧ mem s' !! nd = None) Hinv1 Hcs')
    as (q & s2 & Herase & Hinv2 & Hfree).
  { intros s' Hinv' Hdel. split; [done|].
    rewrite Hdel. apply lookup_delete_eq. }
  rewrite <-Hcs in Hinv2.
  exists (positions cs), q, s2.
  rewrite (walk_inv s hd cs Hinv), (walk_inv s2 hd cs Hinv2).
  rewrite (tree_inv_this s hd cs Hinv), (tree_inv_this s2 hd cs Hinv2).
  split_and!; [done|done|done|done|done|by eauto|].
  eapply (reachable_step s1); [done|]. by eapply run_op_erase.
Qed.

(** *** The erasure of a key from a set *)

(** X28. In a container that is used as [set] and [map] use it, with
    insertions of the unique kind only, [erase_unique(key)] leaves no
    element whose key is equivalent to [key]: afterwards [find(key)]
    returns [end()] and [count_unique(key)] returns 0. *)
Theorem set_erase_then_absent s0 s1 ops s key :
  rb_tree_init alloc_fails s0 = Ok tt s1 →
  forallb unique_op ops = true →
  run_ops ops s1 = Ok tt s →
  ∃ n s' xs',
    erase_unique get_key key_comp size_bits key s = Ok n s'
    ∧ contents s' = Some xs'
    ∧ Forall (λ x, equiv_key (get_key x) key = false) xs'
    ∧ find get_key key_comp (this s') key (mem s') = Some (end_ (this s'), mem s')
    ∧ count_unique get_key key_comp (this s') key (mem s') = Some (0%Z, mem s').
Proof.
  clear val_eq val_lt.
  intros Hinit Hu Hrun.
  pose proof (rwpe_inv_ok _ _ _ _ _ _ (rwpe_rb_tree_init s0) Hinit)
    as (hd & _ & Hinv0 & _).
  destruct (rwp_unique_ops ops s1 hd []
              (λ _ s', ∃ cs', tree_inv s' hd cs' ∧ strict cs') Hu Hinv0)
    as ([] & s2 & Hrun' & cs & Hinv & Hs); [constructor|by eauto|].
  rewrite Hrun in Hrun'. injection Hrun' as <-.
  destruct (rwp_erase_unique s hd cs key
              (λ n s', ∃ cs', tree_inv s' hd cs'
                         ∧ Forall (λ e, equiv_pred key e.2 = false) cs') Hinv)
    as (n & s' & Herase & cs' & Hinv' & Hall).
  { intros Hall. by exists cs. }
  { intros B a v A s' Hcs HB Hv Hinv'. exists (B ++ A). split; [done|].
    apply Forall_app. split; [done|].
    rewrite Hcs in Hs. apply StronglySorted_app in Hs as (_ & _ & Hs).
    apply StronglySorted_cons in Hs as [HA _].
    eapply Forall_impl; [exact HA|]. intros e He. simpl in He.
    unfold equiv_pred, equiv_key in *. unfold key_of in He. simpl in He.
    apply andb_true_iff in Hv as [Hv1 Hv2]. apply negb_true_iff in Hv1.
    destruct (swo_cotrans _ Hswo _ _ key He) as [Hlt|Hlt]; [congruence|].
    rewrite Hlt. apply andb_false_r. }
  exists n, s', cs'.*2.
  assert (find get_key key_comp (this s') key (mem s')
          = Some (end_ (this s'), mem s')) as Hfind.
  { destruct (find_cases s' hd cs' key Hinv')
      as [[_ ->]|(B & a & v & A & Hcs & _ & Hv & _)].
    - by rewrite (tree_inv_this s' hd cs' Hinv').
    - exfalso. rewrite Hcs in Hall. apply Forall_app in Hall as [_ Hall].
      apply Forall_cons in Hall as [Ha _]. simpl in Ha. congruence. }
  split_and!; [done|by eapply contents_inv|by rewrite Forall_fmap|done|].
  unfold count_unique, bind. rewrite Hfind. by rewrite ptr_eqb_refl.
Qed.
End container.

(** ** [map] on its tree *)

Section map_access.
Context {K V : Type}.
Variable key_comp : K → K → bool.
Variable size_bits : Z.
Variable alloc_fails : heap (K * V) → bool.
Variable ctor_throws : K * V → bool.
Variable default_value : V.
Hypothesis Hswo : strict_weak_order key_comp.
Hypothesis Hbits : (0 < size_bits)%Z.

Local Abbreviation reachable :=
  (reachable (@fst K V) key_comp size_bits alloc_fails ctor_throws).
Local Abbreviation tree_inv := (tree_inv (@fst K V) key_comp size_bits).

(** X16. [at(key)] returns the mapped value of the first element of the map
    whose key does not go before [key], which is the element with the
    key [key] when the map has one, and throws [out_of_range] exactly
    when every key of the map goes before [key]; the store stays as it
    is. *)
Theorem map_at_lower_bound (s : state (K * V)) (key : K) :
  reachable s →
  ∃ B A,
    contents s = Some (B ++ A)
    ∧ Forall (λ e, key_comp e.1 key = true) B
    ∧ (∀ e, head A = Some e → key_comp e.1 key = false)
    ∧ map_at key_comp (this s) key (mem s)
      = Some (match head A with
              | Some e => AtValue e.2
              | None => OutOfRange
              end, mem s)
    ∧ (∀ e, head A = Some e →
         Exists (λ x, equiv_key key_comp x.1 key = true) (B ++ A) →
         equiv_key key_comp e.1 key = true).
Proof.
  intros Hreach.
  destruct (reachable_inv _ _ _ _ _ Hswo Hbits s Hreach) as (hd & cs & Hinv).
  pose proof (tree_inv_this _ _ _ s hd cs Hinv) as Hthis.
  rewrite (contents_inv _ _ _ s hd cs Hinv). unfold map_at, bind.
  destruct (lower_bound_cases _ _ _ Hswo s hd cs key Hinv)
    as [[Hall ->]|(B & a & v & A & Hcs & HB & Hv & Hne & Hval & ->)].
  - exists cs.*2, []. rewrite app_nil_r, Hthis. unfold end_. simpl.
    rewrite ptr_eqb_refl.
    split_and!; [done|by rewrite Forall_fmap|done|done|done].
  - exists B.*2, (v :: A.*2). rewrite Hthis. unfold end_. simpl.
    rewrite (ptr_eqb_some_ne a hd) by done. rewrite Hval, Hv.
    split_and!.
    + by rewrite Hcs, fmap_app.
    + by rewrite Forall_fmap.
    + by intros e [= <-].
    + done.
    + intros e [= <-] Hex. unfold equiv_key. rewrite Hv. simpl.
      destruct (key_comp key v.1) eqn:Hkv; [|done]. exfalso.
      eapply Forall_Exists_false; [|exact Hex].
      destruct Hinv as (t & _ & _ & _ & _ & Hsort & _). rewrite Hcs in Hsort.
      pose proof (after_lower_bound_not_equiv _ _ Hswo key B A a v Hsort HB Hkv)
        as Hn.
      change (v :: A.*2) with (((a, v) :: A).*2). rewrite <-fmap_app.
      by rewrite Forall_fmap.
Qed.

(** X17. [operator[](key)] returns the mapped value of the element with the
    key [key] and leaves the map as it is when the map has one;
    otherwise it puts [(key, T{})] in, at its place in the walk, and
    returns [T{}].  It throws only when the key is not in the map, and
    then the map is as it was. *)
Theorem map_index_access (s : state (K * V)) (key : K) :
  reachable s →
  ∃ xs, contents s = Some xs
    ∧ match map_index key_comp size_bits alloc_fails ctor_throws
              default_value key s with
      | Ok v s' =>
          reachable s'
          ∧ ((s' = s
              ∧ ∃ B e A, xs = B ++ e :: A
                  ∧ Forall (λ x, key_comp x.1 key = true) B
                  ∧ equiv_key key_comp e.1 key = true ∧ v = e.2)
             ∨ (v = default_value
                ∧ Forall (λ x, equiv_key key_comp x.1 key = false) xs
                ∧ ∃ B A, xs = B ++ A
                    ∧ contents s' = Some (B ++ (key, default_value) :: A)))
      | Throw e s' =>
          s' = s ∧ Forall (λ x, equiv_key key_comp x.1 key = false) xs
      | Fault => False
      end.
Proof.
  intros Hreach.
  destruct (reachable_inv _ _ _ _ _ Hswo Hbits s Hreach) as (hd & cs & Hinv).
  pose proof (tree_inv_this _ _ _ s hd cs Hinv) as Hthis.
  exists cs.*2. split; [by eapply contents_inv|].
  assert (∀ B A, cs = B ++ A →
            Forall (λ e, equiv_key key_comp (key_of fst e) key = false) cs →
            match (let+ it := map_emplace_hint key_comp size_bits alloc_fails
                                ctor_throws (first_pos hd A) key default_value in
                   let+ e := lift (get_value it) in
                   rret e.2) s with
            | Ok v s' =>
                reachable s'
                ∧ v = default_value
                ∧ ∃ B A, cs.*2 = B ++ A
                    ∧ contents s' = Some (B ++ (key, default_value) :: A)
            | Throw e s' => s' = s
            | Fault => False
            end) as Hins.
  { intros B A Hcs Hall.
    pose proof (emplace_hint_absent _ _ _ _ _ Hswo Hbits s hd cs B A
                  (key, default_value) Hreach Hinv Hcs Hall) as Hem.
    unfold map_emplace_hint, rbind.
    destruct (emplace_unique_use_hint fst key_comp size_bits alloc_fails
                ctor_throws (first_pos hd A) (key, default_value) s)
      as [it s'|e s'|]; [|done|done].
    destruct Hem as (nd & B' & A' & -> & Hcs' & Hinv' & Hval & Hreach').
    unfold lift. rewrite Hval. simpl. rewrite state_eta.
    split_and!; [done|done|]. exists B'.*2, A'.*2.
    rewrite (contents_inv _ _ _ s' hd _ Hinv'), Hcs', !fmap_app. done. }
  assert (∀ xs : list (addr * (K * V)),
            Forall (λ e, equiv_key key_comp (key_of fst e) key = false) xs →
            Forall (λ x : K * V, equiv_key key_comp x.1 key = false) xs.*2) as Hfmap.
  { intros xs H. by rewrite Forall_fmap. }
  destruct s as [t0 h]. simpl in Hthis. subst t0.
  unfold map_index. unfold rbind at 1 2. unfold get_this, lift.
  cbn [this mem].
  destruct (lower_bound_cases _ _ _ Hswo _ hd cs key Hinv)
    as [[Hall Hlb]|(B & a & v & A & Hcs & HB & Hv & Hne & Hval & Hlb)];
    cbn [this mem] in Hlb; rewrite Hlb.
  - unfold end_. cbn [header_]. rewrite ptr_eqb_refl.
    unfold rbind at 1. unfold rret at 1.
    assert (Forall (λ e, equiv_key key_comp (key_of fst e) key = false) cs) as Hn.
    { eapply Forall_impl; [exact Hall|]. simpl. intros e He.
      unfold equiv_key. by rewrite He. }
    specialize (Hins cs [] (eq_sym (app_nil_r cs)) Hn).
    rewrite first_pos_nil in Hins.
    destruct (rbind _ _ _) as [v s'|e s'|]; [|by auto|done].
    destruct Hins as (Hreach' & -> & HBA). split; [done|]. right. auto.
  - unfold end_. cbn [header_]. rewrite (ptr_eqb_some_ne a hd) by done.
    unfold rbind at 1 2. unfold lift. cbn [this mem] in *. rewrite Hval.
    unfold rret at 1.
    destruct (key_comp key v.1) eqn:Hkv.
    + assert (Forall (λ e, equiv_key key_comp (key_of fst e) key = false) cs) as Hn.
      { destruct Hinv as (t & _ & _ & _ & _ & Hsort & _). rewrite Hcs in Hsort.
        rewrite Hcs.
        by apply (after_lower_bound_not_equiv _ _ Hswo key B A a v Hsort HB Hkv). }
      specialize (Hins B ((a, v) :: A) Hcs Hn). rewrite first_pos_cons in Hins.
      destruct (rbind _ _ _) as [v' s'|e s'|]; [|by auto|done].
      destruct Hins as (Hreach' & -> & HBA). split; [done|]. right. auto.
    + unfold rbind, rret, lift. cbn [this mem]. rewrite Hval.
      split; [done|]. left. split; [done|].
      exists B.*2, v, A.*2. split_and!; [|by rewrite Forall_fmap| |done].
      * by rewrite Hcs, fmap_app.
      * unfold equiv_key. by rewrite Hv, Hkv.
Qed.
End map_access.

(** * The claims on instances *)

Local Open Scope Z_scope.

Lemma Z_ltb_swo : strict_weak_order Z.ltb.
Proof.
  split.
  - intros a. apply Z.ltb_irrefl.
  - intros a b c. rewrite !Z.ltb_lt. lia.
  - intros a b c. rewrite !Z.ltb_ge. intros. split; lia.
Qed.

Lemma fst_lt_swo : strict_weak_order fst_lt.
Proof.
  unfold fst_lt. split.
  - intros a. apply Z.ltb_irrefl.
  - intros a b c. rewrite !Z.ltb_lt. lia.
  - intros a b c. rewrite !Z.ltb_ge. intros. split; lia.
Qed.

Lemma Z_equiv_eq (a b : Z) : equiv_key Z.ltb a b = true → a = b.
Proof.
  unfold equiv_key. rewrite andb_true_iff, !negb_true_iff, !Z.ltb_ge. lia.
Qed.

(** The state [built id Z.ltb ops] is reachable: by evaluation. *)
Ltac reach_tac ops :=
  exists empty_state, (built id Z.ltb []), ops; split; vm_compute; reflexivity.

Lemma rb_invariants_preserved_witness :
  rb_tree_init never empty_state = Ok tt (built id Z.ltb [])
  ∧ ∃ s t, run_ops id Z.ltb 64 never never sample_ops (built id Z.ltb []) = Ok tt s
      ∧ holds_tree s t ∧ no_red_red t ∧ black_balanced t.
Proof.
  assert (rb_tree_init never empty_state = Ok tt (built id Z.ltb [])) as H
    by (vm_compute; reflexivity).
  split; [exact H|].
  exact (rb_invariants_preserved id Z.ltb 64 never never Z_ltb_swo eq_refl
           empty_state (built id Z.ltb []) sample_ops H).
Defined.

Lemma walk_in_order_witness :
  reachable id Z.ltb 64 never never (built id Z.ltb sample_ops)
  ∧ ∃ xs : list Z, contents (built id Z.ltb sample_ops) = Some xs
      ∧ (∀ i j x y, (i < j)%nat → xs !! i = Some x → xs !! j = Some y →
           (y <? x) = false)
      ∧ (∀ i j k x y z, (i ≤ j)%nat → (j ≤ k)%nat →
           xs !! i = Some x → xs !! j = Some y → xs !! k = Some z →
           equiv_key Z.ltb x z = true →
           equiv_key Z.ltb x y = true ∧ equiv_key Z.ltb y z = true).
Proof.
  assert (reachable id Z.ltb 64 never never (built id Z.ltb sample_ops)) as H
    by reach_tac sample_ops.
  split; [exact H|].
  exact (walk_in_order id Z.ltb 64 never never Z_ltb_swo eq_refl _ H).
Defined.

(** C3 as stated fails: the header of a container that was just
    constructed is red, not black. *)
Lemma header_not_black_after_init :
  reachable id Z.ltb 64 never never (built id Z.ltb [])
  ∧ ¬ header_color (built id Z.ltb []) rb_tree_black.
Proof.
  split; [reach_tac (@nil (op Z Z))|].
  intros (hd & n & Hh & Hl & Hc).
  vm_compute in Hh. injection Hh as <-.
  vm_compute in Hl. injection Hl as <-. done.
Qed.

Lemma header_red_root_black_witness :
  reachable id Z.ltb 64 never never (built id Z.ltb sample_ops)
  ∧ header_color (built id Z.ltb sample_ops) rb_tree_red
  ∧ (size (this (built id Z.ltb sample_ops)) ≠ 0 →
     root_color (built id Z.ltb sample_ops) rb_tree_black).
Proof.
  assert (reachable id Z.ltb 64 never never (built id Z.ltb sample_ops)) as H
    by reach_tac sample_ops.
  split; [exact H|].
  exact (header_red_root_black id Z.ltb 64 never never Z_ltb_swo eq_refl _ H).
Defined.

Lemma find_correct_witness :
  reachable id Z.ltb 64 never never (zset [1; 3; 5; 7; 9])
  ∧ ∃ w p,
      walk (this (zset [1; 3; 5; 7; 9])) (mem (zset [1; 3; 5; 7; 9]))
      = Some (w, mem (zset [1; 3; 5; 7; 9]))
      ∧ find id Z.ltb (this (zset [1; 3; 5; 7; 9])) 7 (mem (zset [1; 3; 5; 7; 9]))
        = Some (p, mem (zset [1; 3; 5; 7; 9]))
      ∧ (Exists (λ e, equiv_key Z.ltb (id e.2) 7 = true) w →
         ∃ v, (p, v) ∈ w ∧ equiv_key Z.ltb (id v) 7 = true)
      ∧ (Forall (λ e, equiv_key Z.ltb (id e.2) 7 = false) w →
         p = end_ (this (zset [1; 3; 5; 7; 9]))).
Proof.
  assert (reachable id Z.ltb 64 never never (zset [1; 3; 5; 7; 9])) as H
    by reach_tac (inserts (K:=Z) false [1; 3; 5; 7; 9]).
  split; [exact H|].
  exact (find_correct id Z.ltb 64 never never Z_ltb_swo eq_refl _ 7 H).
Defined.

(** C5: [insert_unique(2)] on the set built by inserting 2, 1 and 3 finds
    the key present and returns [false], but the position it returns is
    that of 3, the parent of the place where the descent ended, and not that
    of the element 2, which [find(2)] returns. *)
Theorem insert_unique_duplicate_position :
  reachable id Z.ltb 64 never never (zset [2; 1; 3])
  ∧ contents (zset [2; 1; 3]) = Some [1; 2; 3]
  ∧ ∃ p q,
      insert_unique id Z.ltb 64 never never 2 (zset [2; 1; 3])
      = Ok (p, false) (zset [2; 1; 3])
      ∧ get_value p (mem (zset [2; 1; 3])) = Some (3, mem (zset [2; 1; 3]))
      ∧ find id Z.ltb (this (zset [2; 1; 3])) 2 (mem (zset [2; 1; 3]))
        = Some (q, mem (zset [2; 1; 3]))
      ∧ get_value q (mem (zset [2; 1; 3])) = Some (2, mem (zset [2; 1; 3]))
      ∧ p ≠ q.
Proof.
  split; [reach_tac (inserts (K:=Z) false [2; 1; 3])|].
  split; [vm_compute; reflexivity|].
  exists (Some 4%positive), (Some 2%positive).
  split_and!; [vm_compute; reflexivity..|done].
Qed.

Lemma insert_multi_after_equal_witness :
  reachable id Z.ltb 64 never never (built id Z.ltb sample_ops)
  ∧ ∃ w, walk (this (built id Z.ltb sample_ops)) (mem (built id Z.ltb sample_ops))
         = Some (w, mem (built id Z.ltb sample_ops))
      ∧ ∀ ins,
          ins = insert_multi id Z.ltb 64 never never
          ∨ ins = insert_multi_move id Z.ltb 64 never never →
          match ins 7 (built id Z.ltb sample_ops) with
          | Ok p s' =>
              ∃ B A, w = B ++ A
                ∧ walk (this s') (mem s') = Some (B ++ (p, 7) :: A, mem s')
                ∧ Forall (λ e, (id 7 <? id e.2) = false) B
                ∧ Forall (λ e, (id 7 <? id e.2) = true) A
                ∧ (Exists (λ e, equiv_key Z.ltb (id e.2) (id 7) = true) w →
                   ∃ B' x, B = B' ++ [x] ∧ equiv_key Z.ltb (id x.2) (id 7) = true)
                ∧ size (this s') = size (this (built id Z.ltb sample_ops)) + 1
          | Throw e s' =>
              s' = built id Z.ltb sample_ops
              ∧ match e with
                | length_error =>
                    size (this (built id Z.ltb sample_ops)) = max_size 64
                | bad_alloc => never (mem (built id Z.ltb sample_ops)) = true
                | ctor_exception => never 7 = true
                end
          | Fault => False
          end.
Proof.
  assert (reachable id Z.ltb 64 never never (built id Z.ltb sample_ops)) as H
    by reach_tac sample_ops.
  split; [exact H|].
  exact (insert_multi_after_equal id Z.ltb 64 never never Z_ltb_swo eq_refl _ 7 H).
Defined.

(** C7.  [lower_bound(key)] is the position of the first element of the walk
    that does not go before [key], [upper_bound(key)] that of the first
    element that goes after [key], and either is [end()] when there is no
    such element.  On the set 1, 3, 5, 7, 9 they give the positions of 7 and
    9 for the key 7; on the set 1, 3, 5, 9 both give the position of 9. *)
Theorem lower_upper_bound_correct :
  (∀ (T K : Type) (get_key : T → K) (key_comp : K → K → bool) (size_bits : Z)
     (alloc_fails : heap T → bool) (ctor_throws : T → bool) (s : state T)
     (key : K),
     strict_weak_order key_comp → 0 < size_bits →
     reachable get_key key_comp size_bits alloc_fails ctor_throws s →
     bounds_spec get_key key_comp s key)
  ∧ (∃ lo hi,
       lower_bound id Z.ltb (this (zset [1; 3; 5; 7; 9])) 7
         (mem (zset [1; 3; 5; 7; 9])) = Some (lo, mem (zset [1; 3; 5; 7; 9]))
       ∧ get_value lo (mem (zset [1; 3; 5; 7; 9]))
         = Some (7, mem (zset [1; 3; 5; 7; 9]))
       ∧ upper_bound id Z.ltb (this (zset [1; 3; 5; 7; 9])) 7
           (mem (zset [1; 3; 5; 7; 9])) = Some (hi, mem (zset [1; 3; 5; 7; 9]))
       ∧ get_value hi (mem (zset [1; 3; 5; 7; 9]))
         = Some (9, mem (zset [1; 3; 5; 7; 9])))
  ∧ (∃ p,
       lower_bound id Z.ltb (this (zset [1; 3; 5; 9])) 7 (mem (zset [1; 3; 5; 9]))
       = Some (p, mem (zset [1; 3; 5; 9]))
       ∧ upper_bound id Z.ltb (this (zset [1; 3; 5; 9])) 7 (mem (zset [1; 3; 5; 9]))
         = Some (p, mem (zset [1; 3; 5; 9]))
       ∧ get_value p (mem (zset [1; 3; 5; 9])) = Some (9, mem (zset [1; 3; 5; 9]))).
Proof.
  split_and!.
  - intros T K get_key key_comp size_bits alloc_fails ctor_throws s key Hswo Hbits Hr.
    by eapply bounds_reachable.
  - exists (Some 5%positive), (Some 6%positive).
    split_and!; vm_compute; reflexivity.
  - exists (Some 5%positive). split_and!; vm_compute; reflexivity.
Qed.

Lemma lower_upper_bound_correct_witness :
  reachable id Z.ltb 64 never never (zset [1; 3; 5; 7; 9])
  ∧ bounds_spec id Z.ltb (zset [1; 3; 5; 7; 9]) 7.
Proof.
  assert (reachable id Z.ltb 64 never never (zset [1; 3; 5; 7; 9])) as H
    by reach_tac (inserts (K:=Z) false [1; 3; 5; 7; 9]).
  split; [exact H|].
  exact (proj1 lower_upper_bound_correct Z Z id Z.ltb 64 never never _ 7
           Z_ltb_swo eq_refl H).
Defined.

(** C8 as stated fails: under a comparator that is a strict weak ordering
    with equivalent keys that differ, the hinted insertion of [(1, 1)] at
    the position of [(1, 0)] puts the new key before [(1, 0)], the plain
    insertion after it. *)
Lemma hinted_insert_key_order :
  strict_weak_order fst_lt
  ∧ reachable id fst_lt 64 never never pair_tree
  ∧ ∃ s1 s2 xs1 xs2,
      position (this pair_tree) 1 (mem pair_tree)
      = Some (Some 3%positive, mem pair_tree)
      ∧ insert_multi_hint id fst_lt 64 never never (Some 3%positive) (1, 1)
          pair_tree = Ok (Some 4%positive) s1
      ∧ insert_multi id fst_lt 64 never never (1, 1) pair_tree
        = Ok (Some 4%positive) s2
      ∧ contents s1 = Some xs1 ∧ contents s2 = Some xs2
      ∧ id <$> xs1 = [(0, 0); (1, 1); (1, 0)]
      ∧ id <$> xs2 = [(0, 0); (1, 0); (1, 1)]
      ∧ id <$> xs1 ≠ id <$> xs2.
Proof.
  split; [exact fst_lt_swo|]. split.
  { exists empty_state, (built id fst_lt []),
      [InsertMulti (0, 0); InsertMulti (1, 0)].
    split; vm_compute; reflexivity. }
  exists (built id fst_lt
            [InsertMulti (0, 0); InsertMulti (1, 0); InsertMultiHint 1 (1, 1)]),
    (built id fst_lt [InsertMulti (0, 0); InsertMulti (1, 0); InsertMulti (1, 1)]),
    [(0, 0); (1, 1); (1, 0)], [(0, 0); (1, 0); (1, 1)].
  split_and!; [vm_compute; reflexivity..|done].
Qed.

Lemma hinted_insert_agrees_witness :
  reachable id Z.ltb 64 never never (zset [1; 3; 5; 7; 9])
  ∧ ∃ hint s1 s2 xs1 xs2,
      position (this (zset [1; 3; 5; 7; 9])) 2 (mem (zset [1; 3; 5; 7; 9]))
      = Some (hint, mem (zset [1; 3; 5; 7; 9]))
      ∧ final_state (insert_multi_hint id Z.ltb 64 never never hint 5
                       (zset [1; 3; 5; 7; 9])) = Some s1
      ∧ final_state (insert_multi id Z.ltb 64 never never 5
                       (zset [1; 3; 5; 7; 9])) = Some s2
      ∧ contents s1 = Some xs1 ∧ contents s2 = Some xs2
      ∧ xs1 ≡ₚ xs2
      ∧ Forall2 (λ x y, equiv_key Z.ltb (id x) (id y) = true) xs1 xs2
      ∧ ((∀ a b : Z, equiv_key Z.ltb a b = true → a = b) →
         id <$> xs1 = id <$> xs2)
      ∧ (∀ i j x y, (i < j)%nat → xs1 !! i = Some x → xs1 !! j = Some y →
           (id y <? id x) = false).
Proof.
  assert (reachable id Z.ltb 64 never never (zset [1; 3; 5; 7; 9])) as H
    by reach_tac (inserts (K:=Z) false [1; 3; 5; 7; 9]).
  split; [exact H|].
  exact (proj1 (hinted_insert_agrees id Z.ltb 64 never never Z_ltb_swo eq_refl
                  _ 2%nat 5 H)).
Defined.


(** C10 as stated fails: two containers built by [insert_multi] from the
    elements [(1, 0)] and [(1, 1)], whose keys are both 1, in the two orders
    hold them in the order of their insertion and compare unequal. *)
Lemma tree_eq_insertion_order :
  [(1, 0); (1, 1)] ≡ₚ [(1, 1); (1, 0)]
  ∧ strict_weak_order Z.ltb
  ∧ ∃ s1 s2 s3 s4,
      rb_tree_init never empty_state = Ok tt s1
      ∧ run_ops fst Z.ltb 64 never never (inserts true [(1, 0); (1, 1)]) s1
        = Ok tt s2
      ∧ rb_tree_init never s2 = Ok tt s3
      ∧ run_ops fst Z.ltb 64 never never (inserts true [(1, 1); (1, 0)]) s3
        = Ok tt s4
      ∧ contents s2 = Some [(1, 0); (1, 1)]
      ∧ contents s4 = Some [(1, 1); (1, 0)]
      ∧ tree_eq pair_eqb (this s2) (this s4) (mem s4) = Some (false, mem s4).
Proof.
  split; [apply perm_swap|]. split; [exact Z_ltb_swo|].
  exists (built fst Z.ltb []),
    (built fst Z.ltb (inserts true [(1, 0); (1, 1)])),
    (built_on fst Z.ltb (built fst Z.ltb (inserts true [(1, 0); (1, 1)])) []),
    (built_on fst Z.ltb (built fst Z.ltb (inserts true [(1, 0); (1, 1)]))
       (inserts true [(1, 1); (1, 0)])).
  split_and!; vm_compute; reflexivity.
Qed.

(** Two maps from the keys 1, 2, 3 and 4, which are distinct, built by
    the insertion of the same pairs in opposite orders. *)
Lemma tree_eq_correct_witness :
  (∀ a b : Z * Z, a ∈ [(1, 10); (2, 20); (3, 30); (4, 40)] → b ∈ [(1, 10); (2, 20); (3, 30); (4, 40)] → equiv_key Z.ltb a.1 b.1 = true → a = b)
  ∧ [(1, 10); (2, 20); (3, 30); (4, 40)] ≡ₚ [(4, 40); (3, 30); (2, 20); (1, 10)]
  ∧ rb_tree_init never empty_state = Ok tt (built (T:=Z * Z) fst Z.ltb [])
  ∧ run_ops fst Z.ltb 64 never never (inserts false [(1, 10); (2, 20); (3, 30); (4, 40)]) (built (T:=Z * Z) fst Z.ltb [])
    = Ok tt (built fst Z.ltb (inserts false [(1, 10); (2, 20); (3, 30); (4, 40)]))
  ∧ rb_tree_init never (built fst Z.ltb (inserts false [(1, 10); (2, 20); (3, 30); (4, 40)])) = Ok tt (built_on fst Z.ltb (built fst Z.ltb (inserts false [(1, 10); (2, 20); (3, 30); (4, 40)])) [])
  ∧ run_ops fst Z.ltb 64 never never (inserts false [(4, 40); (3, 30); (2, 20); (1, 10)]) (built_on fst Z.ltb (built fst Z.ltb (inserts false [(1, 10); (2, 20); (3, 30); (4, 40)])) []) = Ok tt (built_on fst Z.ltb (built fst Z.ltb (inserts false [(1, 10); (2, 20); (3, 30); (4, 40)])) (inserts false [(4, 40); (3, 30); (2, 20); (1, 10)]))
  ∧ tree_eq pair_eqb (this (built fst Z.ltb (inserts false [(1, 10); (2, 20); (3, 30); (4, 40)]))) (this (built_on fst Z.ltb (built fst Z.ltb (inserts false [(1, 10); (2, 20); (3, 30); (4, 40)])) (inserts false [(4, 40); (3, 30); (2, 20); (1, 10)]))) (mem (built_on fst Z.ltb (built fst Z.ltb (inserts false [(1, 10); (2, 20); (3, 30); (4, 40)])) (inserts false [(4, 40); (3, 30); (2, 20); (1, 10)]))) = Some (true, mem (built_on fst Z.ltb (built fst Z.ltb (inserts false [(1, 10); (2, 20); (3, 30); (4, 40)])) (inserts false [(4, 40); (3, 30); (2, 20); (1, 10)]))).
Proof.
  assert (∀ a b : Z * Z, a ∈ [(1, 10); (2, 20); (3, 30); (4, 40)] → b ∈ [(1, 10); (2, 20); (3, 30); (4, 40)] → equiv_key Z.ltb a.1 b.1 = true → a = b)
    as Hkeys.
  { intros a b Ha Hb Heq. rewrite !elem_of_cons, elem_of_nil in Ha, Hb.
    destruct Ha as [->|[->|[->|[->|[]]]]], Hb as [->|[->|[->|[->|[]]]]];
      first [reflexivity | vm_compute in Heq; discriminate]. }
  assert ([(1, 10); (2, 20); (3, 30); (4, 40)] ≡ₚ [(4, 40); (3, 30); (2, 20); (1, 10)]) as Hperm
    by (symmetry; apply (reverse_Permutation [(1, 10); (2, 20); (3, 30); (4, 40)])).
  assert (∀ a : Z * Z, pair_eqb a a = true) as Hrefl.
  { intros a. unfold pair_eqb. by rewrite !Z.eqb_refl. }
  assert (rb_tree_init never empty_state = Ok tt (built (T:=Z * Z) fst Z.ltb [])) as H1
    by (vm_compute; reflexivity).
  assert (run_ops fst Z.ltb 64 never never (inserts false [(1, 10); (2, 20); (3, 30); (4, 40)]) (built (T:=Z * Z) fst Z.ltb [])
          = Ok tt (built fst Z.ltb (inserts false [(1, 10); (2, 20); (3, 30); (4, 40)]))) as H2
    by (vm_compute; reflexivity).
  assert (rb_tree_init never (built fst Z.ltb (inserts false [(1, 10); (2, 20); (3, 30); (4, 40)])) = Ok tt (built_on fst Z.ltb (built fst Z.ltb (inserts false [(1, 10); (2, 20); (3, 30); (4, 40)])) [])) as H3 by (vm_compute; reflexivity).
  assert (run_ops fst Z.ltb 64 never never (inserts false [(4, 40); (3, 30); (2, 20); (1, 10)]) (built_on fst Z.ltb (built fst Z.ltb (inserts false [(1, 10); (2, 20); (3, 30); (4, 40)])) []) = Ok tt (built_on fst Z.ltb (built fst Z.ltb (inserts false [(1, 10); (2, 20); (3, 30); (4, 40)])) (inserts false [(4, 40); (3, 30); (2, 20); (1, 10)]))) as H4
    by (vm_compute; reflexivity).
  split_and!; [exact Hkeys|exact Hperm|exact H1|exact H2|exact H3|exact H4|].
  exact (proj2 (proj2 (tree_eq_correct fst Z.ltb 64 never never Z_ltb_swo eq_refl
                         pair_eqb))
           false [(1, 10); (2, 20); (3, 30); (4, 40)] [(4, 40); (3, 30); (2, 20); (1, 10)] _ _ _ _ _
           (λ _, eq_refl) (λ _, eq_refl) Hkeys Hrefl eq_refl Hperm H1 H2 H3 H4).
Defined.

(** * The further properties on instances *)

(** The state [built fst Z.ltb ops] of a map is reachable: by evaluation. *)
Ltac map_reach_tac ops :=
  exists empty_state, (built fst Z.ltb []), ops; split; vm_compute; reflexivity.

(** A concrete store holds a concrete tree: by evaluation of the lookups. *)
Ltac tree_rep_tac :=
  split; [vm_compute; reflexivity|];
  split; [simpl; repeat split; vm_compute; reflexivity|];
  simpl; repeat (apply NoDup_cons_2; [set_solver|]); apply NoDup_nil_2.

(** The multisets that were built by the insertion of 1 and 2 and then, on
    the same store, of 1 and 3, are both well formed on the final store. *)
Lemma sample_pair_well_formed :
  well_formed id Z.ltb 64 (this (zmulti [1; 2]))
    (mem (built_on id Z.ltb (zmulti [1; 2]) (inserts true [1; 3]))) [1; 2]
  ∧ well_formed id Z.ltb 64
      (this (built_on id Z.ltb (zmulti [1; 2]) (inserts true [1; 3])))
      (mem (built_on id Z.ltb (zmulti [1; 2]) (inserts true [1; 3]))) [1; 3].
Proof.
  assert (rb_tree_init never empty_state = Ok tt (built id Z.ltb [])) as H1
    by (vm_compute; reflexivity).
  assert (run_ops id Z.ltb 64 never never (inserts true [1; 2]) (built id Z.ltb [])
          = Ok tt (zmulti [1; 2])) as H2
    by (vm_compute; reflexivity).
  assert (rb_tree_init never (zmulti [1; 2])
          = Ok tt (built_on id Z.ltb (zmulti [1; 2]) []))
    as H3 by (vm_compute; reflexivity).
  assert (run_ops id Z.ltb 64 never never (inserts true [1; 3])
            (built_on id Z.ltb (zmulti [1; 2]) [])
          = Ok tt (built_on id Z.ltb (zmulti [1; 2]) (inserts true [1; 3]))) as H4
    by (vm_compute; reflexivity).
  destruct (built_pair_well_formed id Z.ltb 64 never never Z_ltb_swo eq_refl
              true [1; 2] [1; 3] _ _ _ _ _
              (λ _, eq_refl) (λ _, eq_refl) Z_equiv_eq eq_refl eq_refl H1 H2 H3 H4)
    as (xs & ys & Hx & Hy & Hwx & Hwy).
  vm_compute in Hx. injection Hx as <-.
  vm_compute in Hy. injection Hy as <-. split; assumption.
Qed.

(** The set that was built by the insertion of 1, 3 and 5 is well formed
    on its store. *)
Lemma sample_set_well_formed :
  well_formed id Z.ltb 64 (this (zset [1; 3; 5])) (mem (zset [1; 3; 5])) [1; 3; 5].
Proof.
  assert (reachable id Z.ltb 64 never never (zset [1; 3; 5])) as Hreach
    by (reach_tac (inserts (K:=Z) false [1; 3; 5])).
  destruct (reachable_inv id Z.ltb 64 never never Z_ltb_swo eq_refl _ Hreach)
    as (hd & cs & Hinv).
  pose proof (contents_inv id Z.ltb 64 _ hd cs Hinv) as Hc.
  vm_compute in Hc. injection Hc as Hc.
  exists hd, cs. split; [|done]. by destruct (zset [1; 3; 5]).
Qed.

Lemma erase_position_witness :
  (reachable id Z.ltb 64 never never (zset [1; 3; 5; 7; 9]))
  ∧
  (walk (this (zset [1; 3; 5; 7; 9])) (mem (zset [1; 3; 5; 7; 9])) =
    Some
      ([(Some 2%positive, 1); (Some 3%positive, 3)] ++
       [(Some 4%positive, 5); (Some 5%positive, 7); (Some 6%positive, 9)],
       mem (zset [1; 3; 5; 7; 9])))
  ∧
  (∃ s' : state Z,
    erase 64 (Some 4%positive) (zset [1; 3; 5; 7; 9]) =
    Ok
      (default (end_ (this (zset [1; 3; 5; 7; 9])))
         (fst <$> head [(Some 5%positive, 7); (Some 6%positive, 9)]))
      s'
    ∧ walk (this s') (mem s') =
      Some
        ([(Some 2%positive, 1); (Some 3%positive, 3)] ++
         [(Some 5%positive, 7); (Some 6%positive, 9)],
         mem s')
      ∧ size (this s') = size (this (zset [1; 3; 5; 7; 9])) - 1
        ∧ end_ (this s') = end_ (this (zset [1; 3; 5; 7; 9]))
          ∧ (∃ a : addr, Some 4%positive = Some a ∧ mem s' !! a = None)
            ∧ reachable id Z.ltb 64 never never s').
Proof.
  assert (reachable id Z.ltb 64 never never (zset [1; 3; 5; 7; 9])) as H1
    by (reach_tac (inserts (K:=Z) false [1; 3; 5; 7; 9])).
  assert (walk (this (zset [1; 3; 5; 7; 9])) (mem (zset [1; 3; 5; 7; 9])) =
    Some
      ([(Some 2%positive, 1); (Some 3%positive, 3)] ++
       [(Some 4%positive, 5); (Some 5%positive, 7); (Some 6%positive, 9)],
       mem (zset [1; 3; 5; 7; 9]))) as H2
    by (vm_compute; reflexivity).
  split; [exact H1|].
  split; [exact H2|].
  exact (erase_position id Z.ltb 64 never never Z_ltb_swo eq_refl (zset [1; 3; 5; 7; 9]) [(Some 2%positive, 1); (Some 3%positive, 3)] (Some 4%positive) 5 [(Some 5%positive, 7); (Some 6%positive, 9)] H1 H2).
Defined.

Lemma erase_unique_key_witness :
  (reachable id Z.ltb 64 never never (zmulti [2; 1; 2; 3; 2]))
  ∧
  (∃ (w : list (ptr * Z)) (n : Z) (s' : state Z),
    walk (this (zmulti [2; 1; 2; 3; 2])) (mem (zmulti [2; 1; 2; 3; 2])) =
    Some (w, mem (zmulti [2; 1; 2; 3; 2]))
    ∧ erase_unique id Z.ltb 64 2 (zmulti [2; 1; 2; 3; 2]) = Ok n s'
      ∧ reachable id Z.ltb 64 never never s'
        ∧ (Forall (λ e : ptr * Z, equiv_key Z.ltb (id e.2) 2 = false) w
           → n = 0 ∧ s' = zmulti [2; 1; 2; 3; 2])
          ∧ (Exists (λ e : ptr * Z, equiv_key Z.ltb (id e.2) 2 = true) w
             → n = 1
               ∧ ∃ (B : list (ptr * Z)) (e : ptr * Z) (A : list (ptr * Z)),
                   w = B ++ e :: A
                   ∧ Forall
                       (λ e0 : ptr * Z, equiv_key Z.ltb (id e0.2) 2 = false) B
                     ∧ equiv_key Z.ltb (id e.2) 2 = true
                       ∧ walk (this s') (mem s') = Some (B ++ A, mem s'))).
Proof.
  assert (reachable id Z.ltb 64 never never (zmulti [2; 1; 2; 3; 2])) as H1
    by (reach_tac (inserts (K:=Z) true [2; 1; 2; 3; 2])).
  split; [exact H1|].
  exact (erase_unique_key id Z.ltb 64 never never Z_ltb_swo eq_refl (zmulti [2; 1; 2; 3; 2]) 2 H1).
Defined.

Lemma erase_multi_key_witness :
  (reachable id Z.ltb 64 never never (zmulti [2; 1; 2; 3; 2]))
  ∧
  (∃ (B M A : list (ptr * Z)) (s' : state Z),
    walk (this (zmulti [2; 1; 2; 3; 2])) (mem (zmulti [2; 1; 2; 3; 2])) =
    Some (B ++ M ++ A, mem (zmulti [2; 1; 2; 3; 2]))
    ∧ Forall (λ e : ptr * Z, (id e.2 <? 2) = true) B
      ∧ Forall (λ e : ptr * Z, equiv_key Z.ltb (id e.2) 2 = true) M
        ∧ Forall (λ e : ptr * Z, (2 <? id e.2) = true) A
          ∧ erase_multi id Z.ltb 64 2 (zmulti [2; 1; 2; 3; 2]) =
            Ok (Z.of_nat (length M)) s'
            ∧ walk (this s') (mem s') = Some (B ++ A, mem s')
              ∧ find id Z.ltb (this s') 2 (mem s') =
                Some (end_ (this s'), mem s')
                ∧ reachable id Z.ltb 64 never never s').
Proof.
  assert (reachable id Z.ltb 64 never never (zmulti [2; 1; 2; 3; 2])) as H1
    by (reach_tac (inserts (K:=Z) true [2; 1; 2; 3; 2])).
  split; [exact H1|].
  exact (erase_multi_key id Z.ltb 64 never never Z_ltb_swo eq_refl (zmulti [2; 1; 2; 3; 2]) 2 H1).
Defined.

Lemma erase_range_removes_witness :
  (reachable id Z.ltb 64 never never (zset [1; 3; 5; 7; 9]))
  ∧
  (walk (this (zset [1; 3; 5; 7; 9])) (mem (zset [1; 3; 5; 7; 9])) =
    Some
      ([(Some 2%positive, 1)] ++
       [(Some 3%positive, 3); (Some 4%positive, 5)] ++
       [(Some 5%positive, 7); (Some 6%positive, 9)], mem (zset [1; 3; 5; 7; 9])))
  ∧
  (∃ s' : state Z,
    erase_range 64
      (default (end_ (this (zset [1; 3; 5; 7; 9])))
         (fst <$>
          head
            ([(Some 3%positive, 3); (Some 4%positive, 5)] ++
             [(Some 5%positive, 7); (Some 6%positive, 9)])))
      (default (end_ (this (zset [1; 3; 5; 7; 9])))
         (fst <$> head [(Some 5%positive, 7); (Some 6%positive, 9)]))
      (zset [1; 3; 5; 7; 9]) =
    Ok () s'
    ∧ walk (this s') (mem s') =
      Some
        ([(Some 2%positive, 1)] ++
         [(Some 5%positive, 7); (Some 6%positive, 9)],
         mem s')
      ∧ size (this s') =
        size (this (zset [1; 3; 5; 7; 9])) -
        Z.of_nat (length [(Some 3%positive, 3); (Some 4%positive, 5)])
        ∧ end_ (this s') = end_ (this (zset [1; 3; 5; 7; 9]))
          ∧ reachable id Z.ltb 64 never never s').
Proof.
  assert (reachable id Z.ltb 64 never never (zset [1; 3; 5; 7; 9])) as H1
    by (reach_tac (inserts (K:=Z) false [1; 3; 5; 7; 9])).
  assert (walk (this (zset [1; 3; 5; 7; 9])) (mem (zset [1; 3; 5; 7; 9])) =
    Some
      ([(Some 2%positive, 1)] ++
       [(Some 3%positive, 3); (Some 4%positive, 5)] ++
       [(Some 5%positive, 7); (Some 6%positive, 9)], mem (zset [1; 3; 5; 7; 9]))) as H2
    by (vm_compute; reflexivity).
  split; [exact H1|].
  split; [exact H2|].
  exact (erase_range_removes id Z.ltb 64 never never Z_ltb_swo eq_refl (zset [1; 3; 5; 7; 9]) [(Some 2%positive, 1)] [(Some 3%positive, 3); (Some 4%positive, 5)] [(Some 5%positive, 7); (Some 6%positive, 9)] H1 H2).
Defined.

Lemma clear_empties_witness :
  (reachable id Z.ltb 64 never never (zset [1; 3; 5; 7; 9]))
  ∧
  (∃ (w : list (ptr * Z)) (s' : state Z),
    walk (this (zset [1; 3; 5; 7; 9])) (mem (zset [1; 3; 5; 7; 9])) =
    Some (w, mem (zset [1; 3; 5; 7; 9]))
    ∧ clear (zset [1; 3; 5; 7; 9]) = Ok () s'
      ∧ walk (this s') (mem s') = Some ([], mem s')
        ∧ size (this s') = 0
          ∧ end_ (this s') = end_ (this (zset [1; 3; 5; 7; 9]))
            ∧ begin (this s') (mem s') = Some (end_ (this s'), mem s')
              ∧ (∀ (a : addr) (v : Z), (Some a, v) ∈ w → mem s' !! a = None)
                ∧ (∀ a : addr,
                     Some a ≠ end_ (this (zset [1; 3; 5; 7; 9]))
                     → (∀ v : Z, (Some a, v) ∉ w)
                       → mem s' !! a = mem (zset [1; 3; 5; 7; 9]) !! a)
                  ∧ reachable id Z.ltb 64 never never s').
Proof.
  assert (reachable id Z.ltb 64 never never (zset [1; 3; 5; 7; 9])) as H1
    by (reach_tac (inserts (K:=Z) false [1; 3; 5; 7; 9])).
  split; [exact H1|].
  exact (clear_empties id Z.ltb 64 never never Z_ltb_swo eq_refl (zset [1; 3; 5; 7; 9]) H1).
Defined.

Lemma equal_range_multi_correct_witness :
  (reachable id Z.ltb 64 never never (zmulti [2; 1; 2; 3; 2]))
  ∧
  (∃ B M A : list (ptr * Z),
    walk (this (zmulti [2; 1; 2; 3; 2])) (mem (zmulti [2; 1; 2; 3; 2])) =
    Some (B ++ M ++ A, mem (zmulti [2; 1; 2; 3; 2]))
    ∧ Forall (λ e : ptr * Z, (id e.2 <? 2) = true) B
      ∧ Forall (λ e : ptr * Z, equiv_key Z.ltb (id e.2) 2 = true) M
        ∧ Forall (λ e : ptr * Z, (2 <? id e.2) = true) A
          ∧ equal_range_multi id Z.ltb (this (zmulti [2; 1; 2; 3; 2])) 2
              (mem (zmulti [2; 1; 2; 3; 2])) =
            Some
              (default (end_ (this (zmulti [2; 1; 2; 3; 2])))
                 (fst <$> head (M ++ A)),
               default (end_ (this (zmulti [2; 1; 2; 3; 2]))) (fst <$> head A),
               mem (zmulti [2; 1; 2; 3; 2]))).
Proof.
  assert (reachable id Z.ltb 64 never never (zmulti [2; 1; 2; 3; 2])) as H1
    by (reach_tac (inserts (K:=Z) true [2; 1; 2; 3; 2])).
  split; [exact H1|].
  exact (equal_range_multi_correct id Z.ltb 64 never never Z_ltb_swo eq_refl (zmulti [2; 1; 2; 3; 2]) 2 H1).
Defined.

Lemma count_multi_counts_witness :
  (reachable id Z.ltb 64 never never (zmulti [2; 1; 2; 3; 2]))
  ∧
  (∃ xs : list Z,
    contents (zmulti [2; 1; 2; 3; 2]) = Some xs
    ∧ count_multi id Z.ltb 64 (this (zmulti [2; 1; 2; 3; 2])) 2
        (mem (zmulti [2; 1; 2; 3; 2])) =
      Some
        (Z.of_nat
           (length (filter (λ x : Z, equiv_key Z.ltb (id x) 2 = true) xs)),
         mem (zmulti [2; 1; 2; 3; 2]))).
Proof.
  assert (reachable id Z.ltb 64 never never (zmulti [2; 1; 2; 3; 2])) as H1
    by (reach_tac (inserts (K:=Z) true [2; 1; 2; 3; 2])).
  split; [exact H1|].
  exact (count_multi_counts id Z.ltb 64 never never Z_ltb_swo eq_refl (zmulti [2; 1; 2; 3; 2]) 2 H1).
Defined.

Lemma equal_range_unique_correct_witness :
  (reachable id Z.ltb 64 never never (zmulti [2; 1; 2; 3; 2]))
  ∧
  (∃ (w : list (ptr * Z)) (lo hi : ptr),
    walk (this (zmulti [2; 1; 2; 3; 2])) (mem (zmulti [2; 1; 2; 3; 2])) =
    Some (w, mem (zmulti [2; 1; 2; 3; 2]))
    ∧ equal_range_unique id Z.ltb (this (zmulti [2; 1; 2; 3; 2])) 2
        (mem (zmulti [2; 1; 2; 3; 2])) =
      Some (lo, hi, mem (zmulti [2; 1; 2; 3; 2]))
      ∧ (Forall (λ e : ptr * Z, equiv_key Z.ltb (id e.2) 2 = false) w
         → lo = end_ (this (zmulti [2; 1; 2; 3; 2]))
           ∧ hi = end_ (this (zmulti [2; 1; 2; 3; 2])))
        ∧ (Exists (λ e : ptr * Z, equiv_key Z.ltb (id e.2) 2 = true) w
           → ∃ (B : list (ptr * Z)) (e : ptr * Z) (A : list (ptr * Z)),
               w = B ++ e :: A
               ∧ Forall (λ e0 : ptr * Z, equiv_key Z.ltb (id e0.2) 2 = false) B
                 ∧ equiv_key Z.ltb (id e.2) 2 = true
                   ∧ lo = e.1
                     ∧ hi =
                       default (end_ (this (zmulti [2; 1; 2; 3; 2])))
                         (fst <$> head A))).
Proof.
  assert (reachable id Z.ltb 64 never never (zmulti [2; 1; 2; 3; 2])) as H1
    by (reach_tac (inserts (K:=Z) true [2; 1; 2; 3; 2])).
  split; [exact H1|].
  exact (equal_range_unique_correct id Z.ltb 64 never never Z_ltb_swo eq_refl (zmulti [2; 1; 2; 3; 2]) 2 H1).
Defined.

Lemma count_unique_correct_witness :
  (reachable id Z.ltb 64 never never (zmulti [2; 1; 2; 3; 2]))
  ∧
  (∃ (xs : list Z) (n : Z),
    contents (zmulti [2; 1; 2; 3; 2]) = Some xs
    ∧ count_unique id Z.ltb (this (zmulti [2; 1; 2; 3; 2])) 2
        (mem (zmulti [2; 1; 2; 3; 2])) =
      Some (n, mem (zmulti [2; 1; 2; 3; 2]))
      ∧ (Exists (λ x : Z, equiv_key Z.ltb (id x) 2 = true) xs → n = 1)
        ∧ (Forall (λ x : Z, equiv_key Z.ltb (id x) 2 = false) xs → n = 0)).
Proof.
  assert (reachable id Z.ltb 64 never never (zmulti [2; 1; 2; 3; 2])) as H1
    by (reach_tac (inserts (K:=Z) true [2; 1; 2; 3; 2])).
  split; [exact H1|].
  exact (count_unique_correct id Z.ltb 64 never never Z_ltb_swo eq_refl (zmulti [2; 1; 2; 3; 2]) 2 H1).
Defined.

Lemma size_empty_begin_witness :
  (reachable id Z.ltb 64 never never (zset [1; 3; 5; 7; 9]))
  ∧
  (∃ w : list (ptr * Z),
    walk (this (zset [1; 3; 5; 7; 9])) (mem (zset [1; 3; 5; 7; 9])) =
    Some (w, mem (zset [1; 3; 5; 7; 9]))
    ∧ size (this (zset [1; 3; 5; 7; 9])) = Z.of_nat (length w)
      ∧ size (this (zset [1; 3; 5; 7; 9])) ≤ max_size 64
        ∧ (empty (this (zset [1; 3; 5; 7; 9])) = true ↔ w = [])
          ∧ begin (this (zset [1; 3; 5; 7; 9])) (mem (zset [1; 3; 5; 7; 9])) =
            Some
              (default (end_ (this (zset [1; 3; 5; 7; 9]))) (fst <$> head w),
               mem (zset [1; 3; 5; 7; 9]))).
Proof.
  assert (reachable id Z.ltb 64 never never (zset [1; 3; 5; 7; 9])) as H1
    by (reach_tac (inserts (K:=Z) false [1; 3; 5; 7; 9])).
  split; [exact H1|].
  exact (size_empty_begin id Z.ltb 64 never never Z_ltb_swo eq_refl (zset [1; 3; 5; 7; 9]) H1).
Defined.

Lemma inc_dec_round_trip_witness :
  (reachable id Z.ltb 64 never never (zset [1; 3; 5; 7; 9]))
  ∧
  (walk (this (zset [1; 3; 5; 7; 9])) (mem (zset [1; 3; 5; 7; 9])) =
    Some
      ([(Some 2%positive, 1); (Some 3%positive, 3); (Some 4%positive, 5)] ++
       [(Some 5%positive, 7); (Some 6%positive, 9)], mem (zset [1; 3; 5; 7; 9])))
  ∧
  (inc (Some 5%positive) (mem (zset [1; 3; 5; 7; 9])) =
    Some
      (default (end_ (this (zset [1; 3; 5; 7; 9])))
         (fst <$> head [(Some 6%positive, 9)]),
       mem (zset [1; 3; 5; 7; 9]))
    ∧ dec
        (default (end_ (this (zset [1; 3; 5; 7; 9])))
           (fst <$> head [(Some 6%positive, 9)]))
        (mem (zset [1; 3; 5; 7; 9])) =
      Some (Some 5%positive, mem (zset [1; 3; 5; 7; 9]))).
Proof.
  assert (reachable id Z.ltb 64 never never (zset [1; 3; 5; 7; 9])) as H1
    by (reach_tac (inserts (K:=Z) false [1; 3; 5; 7; 9])).
  assert (walk (this (zset [1; 3; 5; 7; 9])) (mem (zset [1; 3; 5; 7; 9])) =
    Some
      ([(Some 2%positive, 1); (Some 3%positive, 3); (Some 4%positive, 5)] ++
       [(Some 5%positive, 7); (Some 6%positive, 9)], mem (zset [1; 3; 5; 7; 9]))) as H2
    by (vm_compute; reflexivity).
  split; [exact H1|].
  split; [exact H2|].
  exact (inc_dec_round_trip id Z.ltb 64 never never Z_ltb_swo eq_refl (zset [1; 3; 5; 7; 9]) [(Some 2%positive, 1); (Some 3%positive, 3); (Some 4%positive, 5)] (Some 5%positive) 7 [(Some 6%positive, 9)] H1 H2).
Defined.

Lemma min_max_of_root_witness :
  (reachable id Z.ltb 64 never never (zset [1; 3; 5; 7; 9]))
  ∧
  (walk (this (zset [1; 3; 5; 7; 9])) (mem (zset [1; 3; 5; 7; 9])) =
    Some
      ([(Some 2%positive, 1); (Some 3%positive, 3); (Some 4%positive, 5);
        (Some 5%positive, 7); (Some 6%positive, 9)],
       mem (zset [1; 3; 5; 7; 9])))
  ∧
  (∃ rt : ptr,
    read (root (this (zset [1; 3; 5; 7; 9]))) (mem (zset [1; 3; 5; 7; 9])) =
    Some (rt, mem (zset [1; 3; 5; 7; 9]))
    ∧ rb_tree_min rt (mem (zset [1; 3; 5; 7; 9])) =
      Some ((Some 2%positive, 1).1, mem (zset [1; 3; 5; 7; 9]))
      ∧ read (leftmost (this (zset [1; 3; 5; 7; 9])))
          (mem (zset [1; 3; 5; 7; 9])) =
        Some ((Some 2%positive, 1).1, mem (zset [1; 3; 5; 7; 9]))
        ∧ rb_tree_max rt (mem (zset [1; 3; 5; 7; 9])) =
          Some
            ((default (Some 2%positive, 1)
                (last
                   [(Some 3%positive, 3); (Some 4%positive, 5);
                    (Some 5%positive, 7); (Some 6%positive, 9)])).1,
             mem (zset [1; 3; 5; 7; 9]))
          ∧ read (rightmost (this (zset [1; 3; 5; 7; 9])))
              (mem (zset [1; 3; 5; 7; 9])) =
            Some
              ((default (Some 2%positive, 1)
                  (last
                     [(Some 3%positive, 3); (Some 4%positive, 5);
                      (Some 5%positive, 7); (Some 6%positive, 9)])).1,
               mem (zset [1; 3; 5; 7; 9]))).
Proof.
  assert (reachable id Z.ltb 64 never never (zset [1; 3; 5; 7; 9])) as H1
    by (reach_tac (inserts (K:=Z) false [1; 3; 5; 7; 9])).
  assert (walk (this (zset [1; 3; 5; 7; 9])) (mem (zset [1; 3; 5; 7; 9])) =
    Some
      ([(Some 2%positive, 1); (Some 3%positive, 3); (Some 4%positive, 5);
        (Some 5%positive, 7); (Some 6%positive, 9)],
       mem (zset [1; 3; 5; 7; 9]))) as H2
    by (vm_compute; reflexivity).
  split; [exact H1|].
  split; [exact H2|].
  exact (min_max_of_root id Z.ltb 64 never never Z_ltb_swo eq_refl (zset [1; 3; 5; 7; 9]) (Some 2%positive, 1) [(Some 3%positive, 3); (Some 4%positive, 5); (Some 5%positive, 7); (Some 6%positive, 9)] H1 H2).
Defined.

Lemma insert_multi_round_trip_witness :
  (reachable id Z.ltb 64 never never (zmulti [2; 1; 2; 3; 2]))
  ∧
  (insert_multi id Z.ltb 64 never never 2 (zmulti [2; 1; 2; 3; 2]) =
    Ok (Some 7%positive) (zmulti [2; 1; 2; 3; 2; 2]))
  ∧
  (reachable id Z.ltb 64 never never (zmulti [2; 1; 2; 3; 2; 2])
    ∧ size (this (zmulti [2; 1; 2; 3; 2; 2])) =
      size (this (zmulti [2; 1; 2; 3; 2])) + 1
      ∧ (∃ w' : list (ptr * Z),
           walk (this (zmulti [2; 1; 2; 3; 2; 2]))
             (mem (zmulti [2; 1; 2; 3; 2; 2])) =
           Some (w', mem (zmulti [2; 1; 2; 3; 2; 2]))
           ∧ (Some 7%positive, 2) ∈ w'
             ∧ ∃ (q : ptr) (x : Z),
                 find id Z.ltb (this (zmulti [2; 1; 2; 3; 2; 2]))
                   (id 2) (mem (zmulti [2; 1; 2; 3; 2; 2])) =
                 Some (q, mem (zmulti [2; 1; 2; 3; 2; 2]))
                 ∧ (q, x) ∈ w' ∧ equiv_key Z.ltb (id x) (id 2) = true)
        ∧ ∀ k : Z,
            ∃ n : Z,
              count_multi id Z.ltb 64 (this (zmulti [2; 1; 2; 3; 2])) k
                (mem (zmulti [2; 1; 2; 3; 2])) =
              Some (n, mem (zmulti [2; 1; 2; 3; 2]))
              ∧ count_multi id Z.ltb 64 (this (zmulti [2; 1; 2; 3; 2; 2])) k
                  (mem (zmulti [2; 1; 2; 3; 2; 2])) =
                Some
                  (n + (if equiv_key Z.ltb (id 2) k then 1 else 0),
                   mem (zmulti [2; 1; 2; 3; 2; 2]))).
Proof.
  assert (reachable id Z.ltb 64 never never (zmulti [2; 1; 2; 3; 2])) as H1
    by (reach_tac (inserts (K:=Z) true [2; 1; 2; 3; 2])).
  assert (insert_multi id Z.ltb 64 never never 2 (zmulti [2; 1; 2; 3; 2]) =
    Ok (Some 7%positive) (zmulti [2; 1; 2; 3; 2; 2])) as H2
    by (vm_compute; reflexivity).
  split; [exact H1|].
  split; [exact H2|].
  exact (insert_multi_round_trip id Z.ltb 64 never never Z_ltb_swo eq_refl (zmulti [2; 1; 2; 3; 2]) 2 (Some 7%positive) (zmulti [2; 1; 2; 3; 2; 2]) H1 H2).
Defined.

Lemma insert_unique_iff_absent_witness :
  (reachable id Z.ltb 64 never never (zset [1; 3; 5; 7; 9]))
  ∧
  (insert_unique id Z.ltb 64 never never 4 (zset [1; 3; 5; 7; 9]) =
    Ok (Some 7%positive, true) (zset [1; 3; 5; 7; 9; 4]))
  ∧
  (reachable id Z.ltb 64 never never (zset [1; 3; 5; 7; 9; 4])
    ∧ ∃ w : list (ptr * Z),
        walk (this (zset [1; 3; 5; 7; 9])) (mem (zset [1; 3; 5; 7; 9])) =
        Some (w, mem (zset [1; 3; 5; 7; 9]))
        ∧ (true = true
           ↔ Forall (λ e : ptr * Z, equiv_key Z.ltb (id e.2) (id 4) = false) w)
          ∧ (true = false → zset [1; 3; 5; 7; 9; 4] = zset [1; 3; 5; 7; 9])
            ∧ (true = true
               → ∃ B A : list (ptr * Z),
                   w = B ++ A
                   ∧ walk (this (zset [1; 3; 5; 7; 9; 4]))
                       (mem (zset [1; 3; 5; 7; 9; 4])) =
                     Some
                       (B ++ (Some 7%positive, 4) :: A,
                        mem (zset [1; 3; 5; 7; 9; 4]))
                     ∧ size (this (zset [1; 3; 5; 7; 9; 4])) =
                       size (this (zset [1; 3; 5; 7; 9])) + 1)
              ∧ count_unique id Z.ltb (this (zset [1; 3; 5; 7; 9; 4]))
                  (id 4) (mem (zset [1; 3; 5; 7; 9; 4])) =
                Some (1, mem (zset [1; 3; 5; 7; 9; 4]))).
Proof.
  assert (reachable id Z.ltb 64 never never (zset [1; 3; 5; 7; 9])) as H1
    by (reach_tac (inserts (K:=Z) false [1; 3; 5; 7; 9])).
  assert (insert_unique id Z.ltb 64 never never 4 (zset [1; 3; 5; 7; 9]) =
    Ok (Some 7%positive, true) (zset [1; 3; 5; 7; 9; 4])) as H2
    by (vm_compute; reflexivity).
  split; [exact H1|].
  split; [exact H2|].
  exact (insert_unique_iff_absent id Z.ltb 64 never never Z_ltb_swo eq_refl (zset [1; 3; 5; 7; 9]) 4 (Some 7%positive) true (zset [1; 3; 5; 7; 9; 4]) H1 H2).
Defined.

Lemma unique_keys_strictly_increasing_witness :
  (rb_tree_init never empty_state = Ok () (built id Z.ltb []))
  ∧
  (forallb unique_op
      [InsertUnique 2; InsertUnique 1; InsertUnique 2;
       EmplaceUnique 3; InsertUniqueHint 0 1; EraseUnique 2;
       InsertUniqueHint 1 5] =
    true)
  ∧
  (run_ops id Z.ltb 64 never never
      [InsertUnique 2; InsertUnique 1; InsertUnique 2;
       EmplaceUnique 3; InsertUniqueHint 0 1; EraseUnique 2;
       InsertUniqueHint 1 5]
      (built id Z.ltb []) =
    Ok ()
      (built id Z.ltb
         [InsertUnique 2; InsertUnique 1; InsertUnique 2;
          EmplaceUnique 3; InsertUniqueHint 0 1; EraseUnique 2;
          InsertUniqueHint 1 5]))
  ∧
  (∃ xs : list Z,
    contents
      (built id Z.ltb
         [InsertUnique 2; InsertUnique 1; InsertUnique 2;
          EmplaceUnique 3; InsertUniqueHint 0 1;
          EraseUnique 2; InsertUniqueHint 1 5]) =
    Some xs
    ∧ ∀ (i j : nat) (x y : Z),
        (i < j)%nat
        → xs !! i = Some x
          → xs !! j = Some y
            → (id x <? id y) = true ∧ equiv_key Z.ltb (id x) (id y) = false).
Proof.
  assert (rb_tree_init never empty_state = Ok () (built id Z.ltb [])) as H1
    by (vm_compute; reflexivity).
  assert (forallb unique_op
      [InsertUnique 2; InsertUnique 1; InsertUnique 2;
       EmplaceUnique 3; InsertUniqueHint 0 1; EraseUnique 2;
       InsertUniqueHint 1 5] =
    true) as H2
    by (vm_compute; reflexivity).
  assert (run_ops id Z.ltb 64 never never
      [InsertUnique 2; InsertUnique 1; InsertUnique 2;
       EmplaceUnique 3; InsertUniqueHint 0 1; EraseUnique 2;
       InsertUniqueHint 1 5]
      (built id Z.ltb []) =
    Ok ()
      (built id Z.ltb
         [InsertUnique 2; InsertUnique 1; InsertUnique 2;
          EmplaceUnique 3; InsertUniqueHint 0 1; EraseUnique 2;
          InsertUniqueHint 1 5])) as H3
    by (vm_compute; reflexivity).
  split; [exact H1|].
  split; [exact H2|].
  split; [exact H3|].
  exact (unique_keys_strictly_increasing id Z.ltb 64 never never Z_ltb_swo eq_refl empty_state (built id Z.ltb []) [InsertUnique 2; InsertUnique 1; InsertUnique 2; EmplaceUnique 3; InsertUniqueHint 0 1; EraseUnique 2; InsertUniqueHint 1 5] (built id Z.ltb [InsertUnique 2; InsertUnique 1; InsertUnique 2; EmplaceUnique 3; InsertUniqueHint 0 1; EraseUnique 2; InsertUniqueHint 1 5]) H1 H2 H3).
Defined.

Lemma map_at_lower_bound_witness :
  (reachable fst Z.ltb 64 never never (zmap [(1, 10); (3, 30); (5, 50)]))
  ∧
  (∃ B A : list (Z * Z),
    contents (zmap [(1, 10); (3, 30); (5, 50)]) = Some (B ++ A)
    ∧ Forall (λ e : Z * Z, (e.1 <? 4) = true) B
      ∧ (∀ e : Z * Z, head A = Some e → (e.1 <? 4) = false)
        ∧ map_at Z.ltb (this (zmap [(1, 10); (3, 30); (5, 50)])) 4
            (mem (zmap [(1, 10); (3, 30); (5, 50)])) =
          Some
            (match head A with
             | Some e => AtValue e.2
             | None => OutOfRange
             end, mem (zmap [(1, 10); (3, 30); (5, 50)]))
          ∧ ∀ e : Z * Z,
              head A = Some e
              → Exists (λ x : Z * Z, equiv_key Z.ltb x.1 4 = true) (B ++ A)
                → equiv_key Z.ltb e.1 4 = true).
Proof.
  assert (reachable fst Z.ltb 64 never never (zmap [(1, 10); (3, 30); (5, 50)])) as H1
    by (map_reach_tac (inserts (K:=Z) false [(1, 10); (3, 30); (5, 50)])).
  split; [exact H1|].
  exact (map_at_lower_bound Z.ltb 64 never never Z_ltb_swo eq_refl (zmap [(1, 10); (3, 30); (5, 50)]) 4 H1).
Defined.

Lemma map_index_access_witness :
  (reachable fst Z.ltb 64 never never (zmap [(1, 10); (3, 30); (5, 50)]))
  ∧
  (∃ xs : list (Z * Z),
    contents (zmap [(1, 10); (3, 30); (5, 50)]) = Some xs
    ∧ match
        map_index Z.ltb 64 never never 0 4 (zmap [(1, 10); (3, 30); (5, 50)])
      with
      | Ok v s' =>
          reachable fst Z.ltb 64 never never s'
          ∧ (s' = zmap [(1, 10); (3, 30); (5, 50)]
             ∧ (∃ (B : list (Z * Z)) (e : Z * Z) (A : list (Z * Z)),
                  xs = B ++ e :: A
                  ∧ Forall (λ x : Z * Z, (x.1 <? 4) = true) B
                    ∧ equiv_key Z.ltb e.1 4 = true ∧ v = e.2)
             ∨ v = 0
               ∧ Forall (λ x : Z * Z, equiv_key Z.ltb x.1 4 = false) xs
                 ∧ ∃ B A : list (Z * Z),
                     xs = B ++ A ∧ contents s' = Some (B ++ (4, 0) :: A))
      | Throw _ s' =>
          s' = zmap [(1, 10); (3, 30); (5, 50)]
          ∧ Forall (λ x : Z * Z, equiv_key Z.ltb x.1 4 = false) xs
      | Fault => False
      end).
Proof.
  assert (reachable fst Z.ltb 64 never never (zmap [(1, 10); (3, 30); (5, 50)])) as H1
    by (map_reach_tac (inserts (K:=Z) false [(1, 10); (3, 30); (5, 50)])).
  split; [exact H1|].
  exact (map_index_access Z.ltb 64 never never 0 Z_ltb_swo eq_refl (zmap [(1, 10); (3, 30); (5, 50)]) 4 H1).
Defined.

Lemma compare_lexicographic_witness :
  (well_formed id Z.ltb 64 (this (zmulti [1; 2]))
    (mem (built_on id Z.ltb (zmulti [1; 2]) (inserts true [1; 3]))) [
    1; 2])
  ∧
  (well_formed id Z.ltb 64
    (this (built_on id Z.ltb (zmulti [1; 2]) (inserts true [1; 3])))
    (mem (built_on id Z.ltb (zmulti [1; 2]) (inserts true [1; 3]))) [
    1; 3])
  ∧
  (tree_lt Z.ltb (this (zmulti [1; 2]))
      (this (built_on id Z.ltb (zmulti [1; 2]) (inserts true [1; 3])))
      (mem (built_on id Z.ltb (zmulti [1; 2]) (inserts true [1; 3]))) =
    Some
      (lex_lt Z.ltb [1; 2] [1; 3],
       mem (built_on id Z.ltb (zmulti [1; 2]) (inserts true [1; 3])))
    ∧ tree_gt Z.ltb (this (zmulti [1; 2]))
        (this (built_on id Z.ltb (zmulti [1; 2]) (inserts true [1; 3])))
        (mem (built_on id Z.ltb (zmulti [1; 2]) (inserts true [1; 3]))) =
      Some
        (lex_lt Z.ltb [1; 3] [1; 2],
         mem (built_on id Z.ltb (zmulti [1; 2]) (inserts true [1; 3])))
      ∧ tree_le Z.ltb (this (zmulti [1; 2]))
          (this (built_on id Z.ltb (zmulti [1; 2]) (inserts true [1; 3])))
          (mem (built_on id Z.ltb (zmulti [1; 2]) (inserts true [1; 3]))) =
        Some
          (negb (lex_lt Z.ltb [1; 3] [1; 2]),
           mem (built_on id Z.ltb (zmulti [1; 2]) (inserts true [1; 3])))
        ∧ tree_ge Z.ltb (this (zmulti [1; 2]))
            (this (built_on id Z.ltb (zmulti [1; 2]) (inserts true [1; 3])))
            (mem (built_on id Z.ltb (zmulti [1; 2]) (inserts true [1; 3]))) =
          Some
            (negb (lex_lt Z.ltb [1; 2] [1; 3]),
             mem (built_on id Z.ltb (zmulti [1; 2]) (inserts true [1; 3])))
          ∧ ∃ b : bool,
              tree_eq Z.eqb (this (zmulti [1; 2]))
                (this (built_on id Z.ltb (zmulti [1; 2]) (inserts true [1; 3])))
                (mem (built_on id Z.ltb (zmulti [1; 2]) (inserts true [1; 3]))) =
              Some
                (b,
                 mem (built_on id Z.ltb (zmulti [1; 2]) (inserts true [1; 3])))
              ∧ tree_ne Z.eqb (this (zmulti [1; 2]))
                  (this
                     (built_on id Z.ltb (zmulti [1; 2]) (inserts true [1; 3])))
                  (mem (built_on id Z.ltb (zmulti [1; 2]) (inserts true [1; 3]))) =
                Some
                  (negb b,
                   mem (built_on id Z.ltb (zmulti [1; 2]) (inserts true [1; 3])))).
Proof.
  assert (well_formed id Z.ltb 64 (this (zmulti [1; 2]))
    (mem (built_on id Z.ltb (zmulti [1; 2]) (inserts true [1; 3]))) [
    1; 2]) as H1
    by (exact (proj1 sample_pair_well_formed)).
  assert (well_formed id Z.ltb 64
    (this (built_on id Z.ltb (zmulti [1; 2]) (inserts true [1; 3])))
    (mem (built_on id Z.ltb (zmulti [1; 2]) (inserts true [1; 3]))) [
    1; 3]) as H2
    by (exact (proj2 sample_pair_well_formed)).
  split; [exact H1|].
  split; [exact H2|].
  exact (compare_lexicographic id Z.ltb 64 Z.eqb Z.ltb (this (zmulti [1; 2])) (this (built_on id Z.ltb (zmulti [1; 2]) (inserts true [1; 3]))) (mem (built_on id Z.ltb (zmulti [1; 2]) (inserts true [1; 3]))) [1; 2] [1; 3] H1 H2).
Defined.

Lemma insert_multi_range_inserts_witness :
  (reachable id Z.ltb 64 never never (zmulti [2; 1; 2; 3; 2]))
  ∧
  (Z.of_nat (length [4; 2; 0]) < 2 ^ 64)
  ∧
  (∃ ys : list Z,
    contents (zmulti [2; 1; 2; 3; 2]) = Some ys
    ∧ match
        insert_multi_range id Z.ltb 64 never never [
          4; 2; 0] (zmulti [2; 1; 2; 3; 2])
      with
      | Ok _ s' =>
          reachable id Z.ltb 64 never never s'
          ∧ ∃ ys' : list Z, contents s' = Some ys' ∧ ys' ≡ₚ [4; 2; 0] ++ ys
      | Throw length_error s' =>
          s' = zmulti [2; 1; 2; 3; 2]
          ∧ max_size 64 <
            size (this (zmulti [2; 1; 2; 3; 2])) + Z.of_nat (length [4; 2; 0])
      | Throw bad_alloc s' | Throw ctor_exception s' =>
          reachable id Z.ltb 64 never never s'
          ∧ ∃ (k : nat) (ys' : list Z),
              (k < length [4%Z; 2%Z; 0%Z])%nat
              ∧ contents s' = Some ys' ∧ ys' ≡ₚ take k [4; 2; 0] ++ ys
      | Fault => False
      end).
Proof.
  assert (reachable id Z.ltb 64 never never (zmulti [2; 1; 2; 3; 2])) as H1
    by (reach_tac (inserts (K:=Z) true [2; 1; 2; 3; 2])).
  assert (Z.of_nat (length [4; 2; 0]) < 2 ^ 64) as H2
    by (vm_compute; reflexivity).
  split; [exact H1|].
  split; [exact H2|].
  exact (insert_multi_range_inserts id Z.ltb 64 never never Z_ltb_swo eq_refl (zmulti [2; 1; 2; 3; 2]) [4; 2; 0] H1 H2).
Defined.

Lemma insert_unique_range_inserts_witness :
  (reachable id Z.ltb 64 never never (zset [1; 3; 5; 7; 9]))
  ∧
  (Z.of_nat (length [4; 3; 0]) < 2 ^ 64)
  ∧
  (∃ ys : list Z,
    contents (zset [1; 3; 5; 7; 9]) = Some ys
    ∧ match
        insert_unique_range id Z.ltb 64 never never [
          4; 3; 0] (zset [1; 3; 5; 7; 9])
      with
      | Ok _ s' =>
          reachable id Z.ltb 64 never never s'
          ∧ ∃ ys' : list Z,
              contents s' = Some ys'
              ∧ ys `sublist_of` ys'
                ∧ (∀ y : Z, y ∈ ys' → y ∈ ys ∨ y ∈ [4; 3; 0])
                  ∧ Forall
                      (λ x : Z,
                         Exists
                           (λ y : Z, equiv_key Z.ltb (id y) (id x) = true) ys')
                      [4; 3; 0]
      | Throw length_error s' =>
          s' = zset [1; 3; 5; 7; 9]
          ∧ max_size 64 <
            size (this (zset [1; 3; 5; 7; 9])) + Z.of_nat (length [4; 3; 0])
      | Throw bad_alloc s' | Throw ctor_exception s' =>
          reachable id Z.ltb 64 never never s'
          ∧ ∃ (k : nat) (ys' : list Z),
              (k < length [4%Z; 3%Z; 0%Z])%nat
              ∧ contents s' = Some ys'
                ∧ ys `sublist_of` ys'
                  ∧ ∀ y : Z, y ∈ ys' → y ∈ ys ∨ y ∈ take k [4; 3; 0]
      | Fault => False
      end).
Proof.
  assert (reachable id Z.ltb 64 never never (zset [1; 3; 5; 7; 9])) as H1
    by (reach_tac (inserts (K:=Z) false [1; 3; 5; 7; 9])).
  assert (Z.of_nat (length [4; 3; 0]) < 2 ^ 64) as H2
    by (vm_compute; reflexivity).
  split; [exact H1|].
  split; [exact H2|].
  exact (insert_unique_range_inserts id Z.ltb 64 never never Z_ltb_swo eq_refl (zset [1; 3; 5; 7; 9]) [4; 3; 0] H1 H2).
Defined.

Lemma dtor_keeps_header_witness :
  (reachable id Z.ltb 64 never never (zset [1; 3; 5; 7; 9]))
  ∧
  (∃ (w : list (ptr * Z)) (hd : addr) (s' : state Z),
    walk (this (zset [1; 3; 5; 7; 9])) (mem (zset [1; 3; 5; 7; 9])) =
    Some (w, mem (zset [1; 3; 5; 7; 9]))
    ∧ end_ (this (zset [1; 3; 5; 7; 9])) = Some hd
      ∧ rb_tree_dtor (zset [1; 3; 5; 7; 9]) = Ok () s'
        ∧ (∀ (a : addr) (v : Z), (Some a, v) ∈ w → mem s' !! a = None)
          ∧ is_Some (mem s' !! hd)
            ∧ ∀ a : addr,
                a ≠ hd
                → (∀ v : Z, (Some a, v) ∉ w)
                  → mem s' !! a = mem (zset [1; 3; 5; 7; 9]) !! a).
Proof.
  assert (reachable id Z.ltb 64 never never (zset [1; 3; 5; 7; 9])) as H1
    by (reach_tac (inserts (K:=Z) false [1; 3; 5; 7; 9])).
  split; [exact H1|].
  exact (dtor_keeps_header id Z.ltb 64 never never Z_ltb_swo eq_refl (zset [1; 3; 5; 7; 9]) H1).
Defined.

Lemma move_construct_takes_over_witness :
  (reachable id Z.ltb 64 never never (zset [1; 3; 5; 7; 9]))
  ∧
  (∃ w : list (ptr * Z),
    walk (this (zset [1; 3; 5; 7; 9])) (mem (zset [1; 3; 5; 7; 9])) =
    Some (w, mem (zset [1; 3; 5; 7; 9]))
    ∧ match move_construct never (zset [1; 3; 5; 7; 9]) with
      | Returns new s' =>
          never (mem (zset [1; 3; 5; 7; 9])) = false
          ∧ walk new (mem s') = Some (w, mem s')
            ∧ size new = size (this (zset [1; 3; 5; 7; 9]))
              ∧ end_ new = end_ (this (zset [1; 3; 5; 7; 9]))
                ∧ reachable id Z.ltb 64 never never s'
                  ∧ walk (this s') (mem s') = Some ([], mem s')
                    ∧ end_ (this s') ≠ end_ new
      | Terminates => never (mem (zset [1; 3; 5; 7; 9])) = true
      | Undefined => False
      end).
Proof.
  assert (reachable id Z.ltb 64 never never (zset [1; 3; 5; 7; 9])) as H1
    by (reach_tac (inserts (K:=Z) false [1; 3; 5; 7; 9])).
  split; [exact H1|].
  exact (move_construct_takes_over id Z.ltb 64 never never Z_ltb_swo eq_refl (zset [1; 3; 5; 7; 9]) H1).
Defined.

Lemma rb_tree_next_is_inc_witness :
  (reachable id Z.ltb 64 never never (zset [1; 3; 5; 7; 9]))
  ∧
  (walk (this (zset [1; 3; 5; 7; 9])) (mem (zset [1; 3; 5; 7; 9])) =
    Some
      ([(Some 2%positive, 1)] ++
       [(Some 3%positive, 3); (Some 4%positive, 5); (Some 5%positive, 7);
        (Some 6%positive, 9)],
       mem (zset [1; 3; 5; 7; 9])))
  ∧
  (rb_tree_next (Some 3%positive) (mem (zset [1; 3; 5; 7; 9])) =
    Some ((Some 4%positive, 5).1, mem (zset [1; 3; 5; 7; 9]))
    ∧ inc (Some 3%positive) (mem (zset [1; 3; 5; 7; 9])) =
      Some ((Some 4%positive, 5).1, mem (zset [1; 3; 5; 7; 9]))).
Proof.
  assert (reachable id Z.ltb 64 never never (zset [1; 3; 5; 7; 9])) as H1
    by (reach_tac (inserts (K:=Z) false [1; 3; 5; 7; 9])).
  assert (walk (this (zset [1; 3; 5; 7; 9])) (mem (zset [1; 3; 5; 7; 9])) =
    Some
      ([(Some 2%positive, 1)] ++
       [(Some 3%positive, 3); (Some 4%positive, 5); (Some 5%positive, 7);
        (Some 6%positive, 9)],
       mem (zset [1; 3; 5; 7; 9]))) as H2
    by (vm_compute; reflexivity).
  split; [exact H1|].
  split; [exact H2|].
  exact (rb_tree_next_is_inc id Z.ltb 64 never never Z_ltb_swo eq_refl (zset [1; 3; 5; 7; 9]) [(Some 2%positive, 1)] (Some 3%positive) 3 (Some 4%positive, 5) [(Some 5%positive, 7); (Some 6%positive, 9)] H1 H2).
Defined.

Lemma rotate_left_right_inverse_witness :
  (tree_rep (mem (zset [2; 1; 3])) 1%positive (Some 3%positive)
    (Some 4%positive)
    (plug []
       (Br 2%positive rb_tree_black (Br 3%positive rb_tree_red Leaf 1 Leaf) 2
          (Br 4%positive rb_tree_red Leaf 3 Leaf))))
  ∧
  (∃ h' : heap Z,
    rb_tree_rotate_left (Some 2%positive) (RParent (Some 1%positive))
      (mem (zset [2; 1; 3])) =
    Some ((), h')
    ∧ tree_rep h' 1%positive (Some 3%positive) (Some 4%positive)
        (plug []
           (Br 4%positive rb_tree_red
              (Br 2%positive rb_tree_black
                 (Br 3%positive rb_tree_red Leaf 1 Leaf) 2 Leaf)
              3 Leaf))
      ∧ cells
          (plug []
             (Br 4%positive rb_tree_red
                (Br 2%positive rb_tree_black
                   (Br 3%positive rb_tree_red Leaf 1 Leaf) 2 Leaf)
                3 Leaf)) =
        cells
          (plug []
             (Br 2%positive rb_tree_black
                (Br 3%positive rb_tree_red Leaf 1 Leaf) 2
                (Br 4%positive rb_tree_red Leaf 3 Leaf)))
        ∧ rb_tree_rotate_right (Some 4%positive) (RParent (Some 1%positive)) h' =
          Some ((), mem (zset [2; 1; 3]))).
Proof.
  assert (tree_rep (mem (zset [2; 1; 3])) 1%positive (Some 3%positive)
    (Some 4%positive)
    (plug []
       (Br 2%positive rb_tree_black (Br 3%positive rb_tree_red Leaf 1 Leaf) 2
          (Br 4%positive rb_tree_red Leaf 3 Leaf)))) as H1
    by (tree_rep_tac).
  split; [exact H1|].
  exact (rotate_left_right_inverse (mem (zset [2; 1; 3])) 1%positive (Some 3%positive) (Some 4%positive) [] 2%positive rb_tree_black (Br 3%positive rb_tree_red Leaf 1 Leaf) 2 4%positive rb_tree_red Leaf 3 Leaf H1).
Defined.

Lemma copy_construct_copies_witness :
  (well_formed id Z.ltb 64 (this (zset [1; 3; 5]))
    (mem
       {|
         this := {| header_ := None; node_count_ := 0 |};
         mem := mem (zset [1; 3; 5])
       |})
    [1; 3; 5])
  ∧
  (match
      copy_construct never never (this (zset [1; 3; 5]))
        {|
          this := {| header_ := None; node_count_ := 0 |};
          mem := mem (zset [1; 3; 5])
        |}
    with
    | Ok _ s' =>
        well_formed id Z.ltb 64 (this s') (mem s') [1; 3; 5]
        ∧ well_formed id Z.ltb 64 (this (zset [1; 3; 5])) (mem s') [1; 3; 5]
          ∧ size (this s') = size (this (zset [1; 3; 5]))
            ∧ (∀ a0 : addr,
                 is_Some
                   (mem
                      {|
                        this := {| header_ := None; node_count_ := 0 |};
                        mem := mem (zset [1; 3; 5])
                      |}
                    !! a0)
                 → mem s' !! a0 =
                   mem
                     {|
                       this := {| header_ := None; node_count_ := 0 |};
                       mem := mem (zset [1; 3; 5])
                     |}
                   !! a0)
              ∧ ∃ (hd' : addr) (w : list (ptr * Z)),
                  end_ (this s') = Some hd'
                  ∧ mem
                      {|
                        this := {| header_ := None; node_count_ := 0 |};
                        mem := mem (zset [1; 3; 5])
                      |}
                    !! hd' = None
                    ∧ walk (this s') (mem s') = Some (w, mem s')
                      ∧ w.*2 = [1; 3; 5]
                        ∧ ∀ (a0 : addr) (v : Z),
                            (Some a0, v) ∈ w
                            → mem
                                {|
                                  this := {| header_ := None; node_count_ := 0 |};
                                  mem := mem (zset [1; 3; 5])
                                |}
                              !! a0 = None
    | Throw e s' =>
        copy_fails (T:=Z) never never e
        ∧ (s' =
           {|
             this := {| header_ := None; node_count_ := 0 |};
             mem := mem (zset [1; 3; 5])
           |}
           ∨ ∃ hd' : addr,
               mem
                 {|
                   this := {| header_ := None; node_count_ := 0 |};
                   mem := mem (zset [1; 3; 5])
                 |}
               !! hd' = None
               ∧ s' =
                 {|
                   this := {| header_ := Some hd'; node_count_ := 0 |};
                   mem :=
                     <[hd':={|
                              parent := None;
                              left := Some hd';
                              right := Some hd';
                              color := rb_tree_red;
                              value := None
                            |}]>
                       (mem
                          {|
                            this := {| header_ := None; node_count_ := 0 |};
                            mem := mem (zset [1; 3; 5])
                          |})
                 |})
    | Fault => False
    end).
Proof.
  assert (well_formed id Z.ltb 64 (this (zset [1; 3; 5]))
    (mem
       {|
         this := {| header_ := None; node_count_ := 0 |};
         mem := mem (zset [1; 3; 5])
       |})
    [1; 3; 5]) as H1
    by (exact sample_set_well_formed).
  split; [exact H1|].
  exact (copy_construct_copies id Z.ltb 64 never never eq_refl (State (RbTree None 0) (mem (zset [1; 3; 5]))) (this (zset [1; 3; 5])) [1; 3; 5] H1).
Defined.

Lemma copy_assign_replaces_witness :
  (well_formed id Z.ltb 64
    (this (built_on id Z.ltb (zmulti [1; 2]) (inserts true [1; 3])))
    (mem (built_on id Z.ltb (zmulti [1; 2]) (inserts true [1; 3]))) [
    1; 3])
  ∧
  (well_formed id Z.ltb 64 (this (zmulti [1; 2]))
    (mem (built_on id Z.ltb (zmulti [1; 2]) (inserts true [1; 3]))) [
    1; 2])
  ∧
  (header_ (this (zmulti [1; 2]))
    ≠ header_ (this (built_on id Z.ltb (zmulti [1; 2]) (inserts true [1; 3]))))
  ∧
  (match
      copy_assign never never false (this (zmulti [1; 2]))
        (built_on id Z.ltb (zmulti [1; 2]) (inserts true [1; 3]))
    with
    | Ok _ s' =>
        well_formed id Z.ltb 64 (this s') (mem s') [1; 2]
        ∧ well_formed id Z.ltb 64 (this (zmulti [1; 2])) (mem s') [1; 2]
          ∧ end_ (this s') =
            end_
              (this (built_on id Z.ltb (zmulti [1; 2]) (inserts true [1; 3])))
            ∧ size (this s') = size (this (zmulti [1; 2]))
    | Throw e s' =>
        copy_fails (T:=Z) never never e
        ∧ well_formed id Z.ltb 64 (this s') (mem s') []
          ∧ well_formed id Z.ltb 64 (this (zmulti [1; 2])) (mem s') [1; 2]
            ∧ end_ (this s') =
              end_
                (this
                   (built_on id Z.ltb (zmulti [1; 2]) (inserts true [1; 3])))
              ∧ size (this s') = 0
    | Fault => False
    end
    ∧ copy_assign never never true
        (this (built_on id Z.ltb (zmulti [1; 2]) (inserts true [1; 3])))
        (built_on id Z.ltb (zmulti [1; 2]) (inserts true [1; 3])) =
      Ok () (built_on id Z.ltb (zmulti [1; 2]) (inserts true [1; 3]))).
Proof.
  assert (well_formed id Z.ltb 64
    (this (built_on id Z.ltb (zmulti [1; 2]) (inserts true [1; 3])))
    (mem (built_on id Z.ltb (zmulti [1; 2]) (inserts true [1; 3]))) [
    1; 3]) as H1
    by (exact (proj2 sample_pair_well_formed)).
  assert (well_formed id Z.ltb 64 (this (zmulti [1; 2]))
    (mem (built_on id Z.ltb (zmulti [1; 2]) (inserts true [1; 3]))) [
    1; 2]) as H2
    by (exact (proj1 sample_pair_well_formed)).
  assert (header_ (this (zmulti [1; 2]))
    ≠ header_ (this (built_on id Z.ltb (zmulti [1; 2]) (inserts true [1; 3])))) as H3
    by (vm_compute; congruence).
  split; [exact H1|].
  split; [exact H2|].
  split; [exact H3|].
  exact (copy_assign_replaces id Z.ltb 64 never never eq_refl (built_on id Z.ltb (zmulti [1; 2]) (inserts true [1; 3])) (this (zmulti [1; 2])) [1; 2] [1; 3] H1 H2 H3).
Defined.

Lemma insert_erase_round_trip_witness :
  (reachable id Z.ltb 64 never never (zset [1; 3; 5]))
  ∧
  (insert_multi id Z.ltb 64 never never 4 (zset [1; 3; 5]) =
    Ok (Some 5%positive) (zset [1; 3; 5; 4])
    ∨ insert_unique id Z.ltb 64 never never 4 (zset [1; 3; 5]) =
      Ok (Some 5%positive, true) (zset [1; 3; 5; 4]))
  ∧
  (∃ (w : list (ptr * Z)) (q : ptr) (s2 : state Z),
    walk (this (zset [1; 3; 5])) (mem (zset [1; 3; 5])) =
    Some (w, mem (zset [1; 3; 5]))
    ∧ erase 64 (Some 5%positive) (zset [1; 3; 5; 4]) = Ok q s2
      ∧ walk (this s2) (mem s2) = Some (w, mem s2)
        ∧ size (this s2) = size (this (zset [1; 3; 5]))
          ∧ end_ (this s2) = end_ (this (zset [1; 3; 5]))
            ∧ (∃ a : addr,
                 Some 5%positive = Some a
                 ∧ mem (zset [1; 3; 5]) !! a = None ∧ mem s2 !! a = None)
              ∧ reachable id Z.ltb 64 never never s2).
Proof.
  assert (reachable id Z.ltb 64 never never (zset [1; 3; 5])) as H1
    by (reach_tac (inserts (K:=Z) false [1; 3; 5])).
  assert (insert_multi id Z.ltb 64 never never 4 (zset [1; 3; 5]) =
    Ok (Some 5%positive) (zset [1; 3; 5; 4])
    ∨ insert_unique id Z.ltb 64 never never 4 (zset [1; 3; 5]) =
      Ok (Some 5%positive, true) (zset [1; 3; 5; 4])) as H2
    by (right; vm_compute; reflexivity).
  split; [exact H1|].
  split; [exact H2|].
  exact (insert_erase_round_trip id Z.ltb 64 never never Z_ltb_swo eq_refl (zset [1; 3; 5]) 4 (Some 5%positive) (zset [1; 3; 5; 4]) H1 H2).
Defined.

Lemma set_erase_then_absent_witness :
  (rb_tree_init never empty_state = Ok () (built id Z.ltb []))
  ∧
  (forallb unique_op
      [InsertUnique 2; InsertUnique 1; EmplaceUnique 3;
       EraseUnique 1; InsertUniqueHint 0 5] =
    true)
  ∧
  (run_ops id Z.ltb 64 never never
      [InsertUnique 2; InsertUnique 1; EmplaceUnique 3;
       EraseUnique 1; InsertUniqueHint 0 5]
      (built id Z.ltb []) =
    Ok ()
      (built id Z.ltb
         [InsertUnique 2; InsertUnique 1; EmplaceUnique 3;
          EraseUnique 1; InsertUniqueHint 0 5]))
  ∧
  (∃ (n : Z) (s' : state Z) (xs' : list Z),
    erase_unique id Z.ltb 64 3
      (built id Z.ltb
         [InsertUnique 2; InsertUnique 1; EmplaceUnique 3;
          EraseUnique 1; InsertUniqueHint 0 5]) =
    Ok n s'
    ∧ contents s' = Some xs'
      ∧ Forall (λ x : Z, equiv_key Z.ltb (id x) 3 = false) xs'
        ∧ find id Z.ltb (this s') 3 (mem s') = Some (end_ (this s'), mem s')
          ∧ count_unique id Z.ltb (this s') 3 (mem s') = Some (0, mem s')).
Proof.
  assert (rb_tree_init never empty_state = Ok () (built id Z.ltb [])) as H1
    by (vm_compute; reflexivity).
  assert (forallb unique_op
      [InsertUnique 2; InsertUnique 1; EmplaceUnique 3;
       EraseUnique 1; InsertUniqueHint 0 5] =
    true) as H2
    by (vm_compute; reflexivity).
  assert (run_ops id Z.ltb 64 never never
      [InsertUnique 2; InsertUnique 1; EmplaceUnique 3;
       EraseUnique 1; InsertUniqueHint 0 5]
      (built id Z.ltb []) =
    Ok ()
      (built id Z.ltb
         [InsertUnique 2; InsertUnique 1; EmplaceUnique 3;
          EraseUnique 1; InsertUniqueHint 0 5])) as H3
    by (vm_compute; reflexivity).
  split; [exact H1|].
  split; [exact H2|].
  split; [exact H3|].
  exact (set_erase_then_absent id Z.ltb 64 never never Z_ltb_swo eq_refl empty_state (built id Z.ltb []) [InsertUnique 2; InsertUnique 1; EmplaceUnique 3; EraseUnique 1; InsertUniqueHint 0 5] (built id Z.ltb [InsertUnique 2; InsertUnique 1; EmplaceUnique 3; EraseUnique 1; InsertUniqueHint 0 5]) 3 H1 H2 H3).
Defined.

Lemma move_assign_takes_over_witness :
  (well_formed id Z.ltb 64
    (this (built_on id Z.ltb (zmulti [1; 2]) (inserts true [1; 3])))
    (mem (built_on id Z.ltb (zmulti [1; 2]) (inserts true [1; 3]))) [
    1; 3])
  ∧
  (well_formed id Z.ltb 64 (this (zmulti [1; 2]))
    (mem (built_on id Z.ltb (zmulti [1; 2]) (inserts true [1; 3]))) [
    1; 2])
  ∧
  (header_ (this (zmulti [1; 2]))
    ≠ header_ (this (built_on id Z.ltb (zmulti [1; 2]) (inserts true [1; 3]))))
  ∧
  (∃ (hd : addr) (w : list (ptr * Z)),
    end_ (this (built_on id Z.ltb (zmulti [1; 2]) (inserts true [1; 3]))) =
    Some hd
    ∧ walk (this (zmulti [1; 2]))
        (mem (built_on id Z.ltb (zmulti [1; 2]) (inserts true [1; 3]))) =
      Some
        (w, mem (built_on id Z.ltb (zmulti [1; 2]) (inserts true [1; 3])))
      ∧ w.*2 = [1; 2]
        ∧ match
            move_assign never (this (zmulti [1; 2]))
              (built_on id Z.ltb (zmulti [1; 2]) (inserts true [1; 3]))
          with
          | Ok rhs' s' =>
              this s' = this (zmulti [1; 2])
              ∧ walk (this s') (mem s') = Some (w, mem s')
                ∧ well_formed id Z.ltb 64 (this s') (mem s') [1; 2]
                  ∧ well_formed id Z.ltb 64 rhs' (mem s') []
                    ∧ end_ rhs' ≠ end_ (this s')
                      ∧ is_Some (mem s' !! hd)
                        ∧ end_ (this s') ≠ Some hd ∧ end_ rhs' ≠ Some hd
          | Throw e s' =>
              e = bad_alloc
              ∧ this s' = this (zmulti [1; 2])
                ∧ well_formed id Z.ltb 64 (this s') (mem s') [1; 2]
                  ∧ is_Some (mem s' !! hd)
          | Fault => False
          end).
Proof.
  assert (well_formed id Z.ltb 64
    (this (built_on id Z.ltb (zmulti [1; 2]) (inserts true [1; 3])))
    (mem (built_on id Z.ltb (zmulti [1; 2]) (inserts true [1; 3]))) [
    1; 3]) as H1
    by (exact (proj2 sample_pair_well_formed)).
  assert (well_formed id Z.ltb 64 (this (zmulti [1; 2]))
    (mem (built_on id Z.ltb (zmulti [1; 2]) (inserts true [1; 3]))) [
    1; 2]) as H2
    by (exact (proj1 sample_pair_well_formed)).
  assert (header_ (this (zmulti [1; 2]))
    ≠ header_ (this (built_on id Z.ltb (zmulti [1; 2]) (inserts true [1; 3])))) as H3
    by (vm_compute; congruence).
  split; [exact H1|].
  split; [exact H2|].
  split; [exact H3|].
  exact (move_assign_takes_over id Z.ltb 64 never eq_refl (built_on id Z.ltb (zmulti [1; 2]) (inserts true [1; 3])) (this (zmulti [1; 2])) [1; 2] [1; 3] H1 H2 H3).
Defined.

Lemma copy_compares_equal_witness :
  ((∀ h : heap Z, never h = false))
  ∧
  ((∀ v : Z, never v = false))
  ∧
  ((∀ a : Z, (a =? a) = true))
  ∧
  (well_formed id Z.ltb 64 (this (zset [1; 3; 5]))
    (mem
       {|
         this := {| header_ := None; node_count_ := 0 |};
         mem := mem (zset [1; 3; 5])
       |})
    [1; 3; 5])
  ∧
  (∃ s' : state Z,
    copy_construct never never (this (zset [1; 3; 5]))
      {|
        this := {| header_ := None; node_count_ := 0 |};
        mem := mem (zset [1; 3; 5])
      |} =
    Ok () s'
    ∧ tree_eq Z.eqb (this s') (this (zset [1; 3; 5])) (mem s') =
      Some (true, mem s')
      ∧ tree_eq Z.eqb (this (zset [1; 3; 5])) (this s') (mem s') =
        Some (true, mem s')
        ∧ tree_ne Z.eqb (this s') (this (zset [1; 3; 5])) (mem s') =
          Some (false, mem s')).
Proof.
  assert ((∀ h : heap Z, never h = false)) as H1
    by (intros; reflexivity).
  assert ((∀ v : Z, never v = false)) as H2
    by (intros; reflexivity).
  assert ((∀ a : Z, (a =? a) = true)) as H3
    by (exact Z.eqb_refl).
  assert (well_formed id Z.ltb 64 (this (zset [1; 3; 5]))
    (mem
       {|
         this := {| header_ := None; node_count_ := 0 |};
         mem := mem (zset [1; 3; 5])
       |})
    [1; 3; 5]) as H4
    by (exact sample_set_well_formed).
  split; [exact H1|].
  split; [exact H2|].
  split; [exact H3|].
  split; [exact H4|].
  exact (copy_compares_equal id Z.ltb 64 never never eq_refl Z.eqb (State (RbTree None 0) (mem (zset [1; 3; 5]))) (this (zset [1; 3; 5])) [1; 3; 5] H1 H2 H3 H4).
Defined.
